(** * Knight's tour solvers of Knight.py: Warnsdorff attempts, the
    multi-attempt driver and the iterative backtracking search.

    The development follows the class [KnightsTour]: the object is a record
    of its attributes, every method is a function on that record, and the
    module-level random generator of Python is passed explicitly.

    Conventions of the model:
    - integers are [Z]; coordinates may be negative before the range test;
    - a write [board[x][y] = v] follows Python's indexing (negative indices
      wrap, others raise IndexError); a read of the board happens only
      after the range test of [is_valid_move];
    - floats (the tie-break) are exact rationals;
    - [print] and the writing of the two log files change nothing in the
      object and are left out of the solvers; a [print] can raise
      UnicodeEncodeError, and for the program of the [__main__] block the
      solvers are modelled once more with their prints and the output
      stream; of the methods that only print, [print_solution],
      [print_path] and [analyze_variation_performance], the model keeps
      what is printed;
    - of the pygame visualizer the model keeps the state of the view (cell
      size, offsets, zoom level, mouse flags, the side of the scaled
      image) and the sequence of pictures of [run]; the drawing itself is
      left out;
    - [while] loops take fuel; [for] loops recurse on their range. *)

From Stdlib Require Import ZArith QArith Lia Lqa Qround Qminmax Ascii.
From stdpp Require Import base option list strings pretty gmap.

Local Open Scope Z_scope.

(** ** Python lists used as arrays *)

(** Index normalisation of [l[i]]: a negative index counts from the end, an
    index outside [-len, len) raises IndexError ([None]). *)
Definition py_index (len : nat) (i : Z) : option nat :=
  let n := Z.of_nat len in
  if (0 <=? i) && (i <? n) then Some (Z.to_nat i)
  else if (- n <=? i) && (i <? 0) then Some (Z.to_nat (i + n))
  else None.

(** [l.pop()]: the list without its last element, and that element. *)
Definition list_pop {A : Type} (l : list A) : option (list A * A) :=
  match reverse l with
  | [] => None
  | x :: r => Some (reverse r, x)
  end.

Abbreviation board_t := (list (list Z)).
Abbreviation cell := (Z * Z)%type.

(** [board[x][y]] *)
Definition board_get (b : board_t) (x y : Z) : option Z :=
  i ← py_index (length b) x;
  row ← b !! i;
  j ← py_index (length row) y;
  row !! j.

(** [board[x][y] = v] *)
Definition board_set (b : board_t) (x y v : Z) : option board_t :=
  i ← py_index (length b) x;
  row ← b !! i;
  j ← py_index (length row) y;
  Some (<[i := <[j := v]> row]> b).

(** [[[-1 for _ in range(size)] for _ in range(size)]] *)
Definition fresh_board (size : Z) : board_t :=
  replicate (Z.to_nat size) (replicate (Z.to_nat size) (-1)).

(** ** Diagnostic records

    The dictionaries and formatted strings the solver produces for its
    statistics and its debug log.  A formatted message is represented by its
    tag and the values interpolated into it. *)

Inductive move_status := Valido | YaVisitado | FueraDelTablero.

(** One entry of [considered_moves]. *)
Record considered_move := {
  direccion : cell;
  destino : cell;
  estado : move_status
}.

(** A score is a Python tuple of numbers, compared lexicographically.
    Floats are idealised as exact rationals. *)
Abbreviation score_t := (list Q).

(** The [details] dictionary built for a legal candidate. *)
Record move_details := {
  grado : Z;
  random_factor : Q;
  preferencia : nat;
  score : score_t
}.

(** [best_details] after the two extra keys have been added. *)
Record best_details := {
  chosen : move_details;
  movimientos_considerados : list considered_move;
  total_opciones : nat
}.

(** One entry of [move_tracking]. *)
Record tracked_move := {
  move_number : Z;
  from_cell : cell;
  to_cell : cell;
  details : best_details
}.

(** The [variation_info] dictionary of one attempt; [timestamp] is the
    string read from the wall clock. *)
Record variation_info := {
  attempt_no : Z;
  variation_type : Z;
  random_seed : Z;
  move_preferences : list nat;
  start_position : cell;
  timestamp : string;
  successful : bool;
  path_length : nat;
  move_tracking : list tracked_move
}.

Inductive log_msg :=
  | AttemptHeader (attempt variation seed : Z) (prefs : list nat) (start : cell)
  | StartMsg (start : cell)
  | NoMovesMsg (step : Z) (pos : cell)
  | StepMsg (step : Z) (src dst : cell) (info : best_details)
  | ProgressMsg (step total : Z)
  | CompleteMsg (steps : nat)
  | SuccessMsg (attempt variation : Z)
  | DuplicateMsg (attempt : Z)
  | FailedMsg (attempt variation : Z)
  | AllFailedMsg (max_attempts : Z).

(** ** The [KnightsTour] object *)

Record tour := {
  size : Z;
  board : board_t;
  path : list cell;
  variation_stats : list variation_info;
  debug_log : list log_msg
}.

Definition moves_x : list Z := [2; 1; -1; -2; -2; -1; 1; 2].
Definition moves_y : list Z := [1; 2; 2; 1; -1; -2; -2; -1].

(** [moves_x[i]], [moves_y[i]] for an index produced by [range(8)] (the
    cursor of [solve], a preference order shuffled from [range(8)]); any
    other index, an IndexError in Python, reads as offset 0. *)
Definition move_dx (i : nat) : Z := nth i moves_x 0.
Definition move_dy (i : nat) : Z := nth i moves_y 0.

(** [KnightsTour(size)] *)
Definition init (n : Z) : tour :=
  {| size := n; board := fresh_board n; path := [];
     variation_stats := []; debug_log := [] |}.

Definition with_board (t : tour) (b : board_t) : tour :=
  {| size := size t; board := b; path := path t;
     variation_stats := variation_stats t; debug_log := debug_log t |}.

Definition with_path (t : tour) (p : list cell) : tour :=
  {| size := size t; board := board t; path := p;
     variation_stats := variation_stats t; debug_log := debug_log t |}.

Definition with_stats (t : tour) (s : list variation_info) : tour :=
  {| size := size t; board := board t; path := path t;
     variation_stats := s; debug_log := debug_log t |}.

Definition with_log (t : tour) (l : list log_msg) : tour :=
  {| size := size t; board := board t; path := path t;
     variation_stats := variation_stats t; debug_log := l |}.

(** [log_move] *)
Definition log_move (t : tour) (m : log_msg) : tour :=
  with_log t (debug_log t ++ [m]).

Definition in_bounds (n x y : Z) : bool :=
  (0 <=? x) && (x <? n) && (0 <=? y) && (y <? n).

(** [is_valid_move].  The cell is read only after the range test; on a
    board of [size] rows of [size] cells that read cannot raise. *)
Definition is_valid_move (t : tour) (x y : Z) : bool :=
  in_bounds (size t) x y &&
  match board_get (board t) x y with
  | Some v => v =? -1
  | None => false
  end.

(** [_count_valid_moves] *)
Definition _count_valid_moves (t : tour) (x y : Z) : Z :=
  fold_left
    (fun count i =>
       if is_valid_move t (x + move_dx i) (y + move_dy i)
       then count + 1 else count)
    (seq 0 8) 0.

(** ** Iterative backtracking: [solve] *)

(** A stack entry [(move_count, curr_x, curr_y, i)].  The stack is kept
    with its top first. *)
Record frame := {
  f_count : Z;
  f_x : Z;
  f_y : Z;
  f_i : nat
}.

(** How a call ends: it returns, it raises IndexError, or (for [solve]
    only) the fuel given to its [while] loop runs out. *)
Inductive result (A : Type) :=
  | Returned (a : A)
  | IndexError
  | OutOfFuel.
Arguments Returned {A} a.
Arguments IndexError {A}.
Arguments OutOfFuel {A}.

(** The inner [while i < 8 and not found_valid_move]: the first index from
    [i] on whose move is legal; [k] bounds the iterations left, [8 - i]. *)
Fixpoint scan_moves (t : tour) (cx cy : Z) (k i : nat) : option nat :=
  match k with
  | O => None
  | S k' =>
      if is_valid_move t (cx + move_dx i) (cy + move_dy i) then Some i
      else scan_moves t cx cy k' (S i)
  end.

Inductive iteration :=
  | Return_ (b : bool) (t : tour)
  | Raise_
  | Continue_ (t : tour) (stack : list frame).

(** The statements after the loop: both attributes are replaced. *)
Definition solve_reset (t : tour) : tour :=
  with_path (with_board t (fresh_board (size t))) [].

(** One pass through [while stack:], the exit of the loop included. *)
Definition solve_body (t : tour) (stack : list frame) : iteration :=
  match stack with
  | [] => Return_ false (solve_reset t)
  | top :: rest =>
      if f_count top =? size t * size t then Return_ true t
      else
        match scan_moves t (f_x top) (f_y top) (8 - f_i top) (f_i top) with
        | Some i =>
            let next_x := f_x top + move_dx i in
            let next_y := f_y top + move_dy i in
            match board_set (board t) next_x next_y (f_count top) with
            | Some b =>
                Continue_
                  (with_path (with_board t b) (path t ++ [(next_x, next_y)]))
                  ({| f_count := f_count top + 1; f_x := next_x;
                      f_y := next_y; f_i := 0 |}
                   :: {| f_count := f_count top; f_x := f_x top;
                         f_y := f_y top; f_i := S i |}
                   :: rest)
            | None => Raise_
            end
        | None =>
            match rest with
            | [] => Continue_ t []
            | _ :: _ =>
                match list_pop (path t) with
                | Some (p, (x, y)) =>
                    match board_set (board t) x y (-1) with
                    | Some b => Continue_ (with_path (with_board t b) p) rest
                    | None => Raise_
                    end
                | None => Raise_
                end
            end
        end
  end.

Fixpoint solve_loop (fuel : nat) (t : tour) (stack : list frame)
  : result (bool * tour) :=
  match fuel with
  | O => OutOfFuel
  | S fuel' =>
      match solve_body t stack with
      | Return_ b t' => Returned (b, t')
      | Raise_ => IndexError
      | Continue_ t' stack' => solve_loop fuel' t' stack'
      end
  end.

(** [solve(start_x, start_y)] *)
Definition solve (fuel : nat) (t : tour) (start_x start_y : Z)
  : result (bool * tour) :=
  match board_set (board t) start_x start_y 0 with
  | None => IndexError
  | Some b =>
      solve_loop fuel
        (with_path (with_board t b) [(start_x, start_y)])
        [{| f_count := 1; f_x := start_x; f_y := start_y; f_i := 0 |}]
  end.

(** ** The random generator

    [random.seed], [random.random] and [random.shuffle] belong to the
    Python runtime.  The generator state is passed explicitly; seeding
    replaces it.  The built-in [hash] of strings, which the interpreter
    salts per process, and the wall clock are arguments of a run. *)
Class Env := {
  rng : Type;
  seed : Z → rng;
  random : rng → Q * rng;
  shuffle : rng → list nat → list nat * rng
}.

(** [a < b] on tuples. *)
Fixpoint tuple_lt (a b : score_t) : bool :=
  match a, b with
  | _, [] => false
  | [], _ :: _ => true
  | x :: a', y :: b' =>
      match (x ?= y)%Q with
      | Lt => true
      | Eq => tuple_lt a' b'
      | Gt => false
      end
  end.

(** An element of [moves]: [(score, next_x, next_y, details)]. *)
Record candidate := {
  c_score : score_t;
  c_x : Z;
  c_y : Z;
  c_details : move_details
}.

(** [moves.sort(key=lambda m: m[0])]: a stable sort that compares keys
    with [<] only.  An element is put in front of the later elements that
    are not smaller than it. *)
Fixpoint insert_by_score (m : candidate) (l : list candidate) : list candidate :=
  match l with
  | [] => [m]
  | m' :: l' =>
      if tuple_lt (c_score m') (c_score m) then m' :: insert_by_score m l'
      else m :: l
  end.

Definition sort_moves (l : list candidate) : list candidate :=
  fold_right insert_by_score [] l.

(** *** Scoring functions *)

Definition scoring_func : Type := tour → Z → Z → Z → Q → nat → score_t.

Definition _score_random : scoring_func :=
  fun t next_x next_y degree random_factor pref_idx =>
    [(inject_Z degree + random_factor)%Q].

Definition _score_center : scoring_func :=
  fun t next_x next_y degree random_factor pref_idx =>
    let center_x := size t / 2 in
    let center_y := size t / 2 in
    let dist_to_center := Z.abs (next_x - center_x) + Z.abs (next_y - center_y) in
    [inject_Z degree; (inject_Z dist_to_center + random_factor)%Q].

Definition corners (t : tour) : list cell :=
  [(0, 0); (0, size t - 1); (size t - 1, 0); (size t - 1, size t - 1)].

(** [min(...)] over a generator that is never empty here. *)
Definition list_min (l : list Z) : Z :=
  match l with
  | [] => 0
  | x :: l' => fold_left Z.min l' x
  end.

Definition _score_corners : scoring_func :=
  fun t next_x next_y degree random_factor pref_idx =>
    let min_corner_dist :=
      list_min (map (fun c => Z.abs (next_x - c.1) + Z.abs (next_y - c.2))
                    (corners t)) in
    [inject_Z degree; (inject_Z (- min_corner_dist) + random_factor)%Q].

(** The dispatch on [variation] at the head of
    [_solve_with_warnsdorff_variation]. *)
Definition select_scoring (variation : Z) : scoring_func :=
  if variation =? 1 then _score_center
  else if variation =? 2 then _score_corners
  else _score_random.

(** The status string recorded for a considered move. *)
Definition status_of (t : tour) (next_x next_y : Z) : move_status :=
  if in_bounds (size t) next_x next_y then
    match board_get (board t) next_x next_y with
    | Some v => if v =? -1 then Valido else YaVisitado
    | None => YaVisitado
    end
  else FueraDelTablero.

Section Warnsdorff.
Context {E : Env}.

(** *** [_get_next_move_warnsdorff_generic_detailed] *)

(** The [for pref_idx in move_preferences] loop, threading [moves],
    [considered_moves] and the generator. *)
Fixpoint evaluate_moves (t : tour) (x y : Z) (scoring : scoring_func)
    (prefs : list nat) (g : rng)
    (moves : list candidate) (considered : list considered_move)
  : list candidate * list considered_move * rng :=
  match prefs with
  | [] => (moves, considered, g)
  | pref_idx :: prefs' =>
      let next_x := x + move_dx pref_idx in
      let next_y := y + move_dy pref_idx in
      let considered' :=
        considered ++ [{| direccion := (move_dx pref_idx, move_dy pref_idx);
                          destino := (next_x, next_y);
                          estado := status_of t next_x next_y |}] in
      if is_valid_move t next_x next_y then
        let degree := _count_valid_moves t next_x next_y in
        let '(r, g') := random g in
        let random_factor := (r * (1 # 10))%Q in
        let sc := scoring t next_x next_y degree random_factor pref_idx in
        let details := {| grado := degree; random_factor := random_factor;
                          preferencia := pref_idx; score := sc |} in
        evaluate_moves t x y scoring prefs' g'
          (moves ++ [{| c_score := sc; c_x := next_x; c_y := next_y;
                        c_details := details |}])
          considered'
      else evaluate_moves t x y scoring prefs' g moves considered'
  end.

Definition _get_next_move_warnsdorff_generic_detailed
    (t : tour) (g : rng) (x y : Z) (prefs : list nat) (scoring : scoring_func)
  : option (Z * Z * best_details) * rng :=
  let '(moves, considered, g') := evaluate_moves t x y scoring prefs g [] [] in
  match sort_moves moves with
  | [] => (None, g')
  | best_move :: _ =>
      (Some (c_x best_move, c_y best_move,
             {| chosen := c_details best_move;
                movimientos_considerados := considered;
                total_opciones := length moves |}),
       g')
  end.

(** *** [_solve_with_warnsdorff_variation] *)

(** What a call leaves behind: the returned flag, the object, the
    generator and the caller's [move_tracking] list ([None] for the
    default argument). *)
Record attempt_state := {
  a_tour : tour;
  a_rng : rng;
  a_tracking : option (list tracked_move)
}.

(** One pass through the body of [for move_count in range(1, size * size)]:
    the early [return False], or the state in which the next pass starts
    from [(next_x, next_y)]. *)
Inductive pass :=
  | Dead_end (s : attempt_state)
  | Raised
  | Moved (next_x next_y : Z) (s : attempt_state).

Definition warnsdorff_body (move_count : Z) (curr_x curr_y : Z)
    (prefs : list nat) (scoring : scoring_func) (verbose : bool)
    (s : attempt_state) : pass :=
  let t := a_tour s in
  match _get_next_move_warnsdorff_generic_detailed
          t (a_rng s) curr_x curr_y prefs scoring with
  | (None, g) =>
      Dead_end
        {| a_tour := log_move t (NoMovesMsg move_count (curr_x, curr_y));
           a_rng := g; a_tracking := a_tracking s |}
  | (Some (next_x, next_y, move_info), g) =>
      let tracking :=
        (fun l => l ++ [{| move_number := move_count;
                           from_cell := (curr_x, curr_y);
                           to_cell := (next_x, next_y);
                           details := move_info |}]) <$> a_tracking s in
      let t1 :=
        if verbose
        then log_move t (StepMsg move_count (curr_x, curr_y)
                                 (next_x, next_y) move_info)
        else t in
      match board_set (board t1) next_x next_y move_count with
      | None => Raised
      | Some b =>
          let t2 := with_path (with_board t1 b)
                              (path t1 ++ [(next_x, next_y)]) in
          let t3 :=
            if move_count mod 500 =? 0
            then log_move t2 (ProgressMsg move_count (size t2 * size t2))
            else t2 in
          Moved next_x next_y
            {| a_tour := t3; a_rng := g; a_tracking := tracking |}
      end
  end.

(** The loop; [n] counts the passes left.  Running out of passes is the
    normal exit, followed by the statements after the loop. *)
Fixpoint warnsdorff_loop (n : nat) (move_count : Z) (curr_x curr_y : Z)
    (prefs : list nat) (scoring : scoring_func) (verbose : bool)
    (s : attempt_state) : result (bool * attempt_state) :=
  match n with
  | O =>
      Returned (true,
        {| a_tour := log_move (a_tour s) (CompleteMsg (length (path (a_tour s))));
           a_rng := a_rng s; a_tracking := a_tracking s |})
  | S n' =>
      match warnsdorff_body move_count curr_x curr_y prefs scoring verbose s with
      | Dead_end s' => Returned (false, s')
      | Raised => IndexError
      | Moved next_x next_y s' =>
          warnsdorff_loop n' (move_count + 1) next_x next_y prefs scoring
            verbose s'
      end
  end.

Definition _solve_with_warnsdorff_variation
    (s : attempt_state) (start_x start_y : Z) (variation : Z)
    (prefs : list nat) (verbose : bool) : result (bool * attempt_state) :=
  let t := a_tour s in
  let scoring := select_scoring variation in
  match board_set (board t) start_x start_y 0 with
  | None => IndexError
  | Some b =>
      let t1 := with_path (with_board t b) [(start_x, start_y)] in
      let t2 := log_move t1 (StartMsg (start_x, start_y)) in
      warnsdorff_loop (Z.to_nat (size t * size t - 1)) 1 start_x start_y
        prefs scoring verbose
        {| a_tour := t2; a_rng := a_rng s; a_tracking := a_tracking s |}
  end.

(** *** [_get_path_hash] *)

(** [str] of a pair of integers and of a list of pairs. *)
Definition str_cell (c : cell) : string :=
  "(" +:+ pretty c.1 +:+ ", " +:+ pretty c.2 +:+ ")".

Fixpoint str_cells (l : list cell) : string :=
  match l with
  | [] => EmptyString
  | [c] => str_cell c
  | c :: l' => str_cell c +:+ ", " +:+ str_cells l'
  end.

Definition str_path (l : list cell) : string := "[" +:+ str_cells l +:+ "]".

(** [l[-n:]] for [0 <= n <= len(l)]; [l[-0:]] is the whole list. *)
Definition py_suffix {A : Type} (n : nat) (l : list A) : list A :=
  match n with
  | O => l
  | S _ => drop (length l - n) l
  end.

Definition path_sample (p : list cell) : string :=
  let sample_size := Nat.min 100 (length p / 2) in
  str_path (take sample_size p) +:+ str_path (py_suffix sample_size p).

Definition _get_path_hash (hash : string → Z) (t : tour) : Z :=
  hash (path_sample (path t)).

(** *** [solve_with_multiple_warnsdorff_attempts] *)

(** The state carried round the [for attempt in range(max_attempts)]
    loop; [attempted_paths] is the local set of hashes. *)
Record run_state := {
  r_tour : tour;
  r_rng : rng;
  attempted_paths : gset Z
}.

(** One pass of the loop body for index [attempt]: either the method
    returns [True] from inside the loop, or the loop goes on.  [clock]
    gives the wall-clock string read during that pass.  Writing the two log
    files ([save_logs]) changes nothing in the object and is left out. *)
Definition attempt_body (hash : string → Z) (clock : Z → string)
    (start_x start_y : Z)
    (verbose : bool) (attempt : Z) (r : run_state)
  : result (bool * run_state) :=
  let t := r_tour r in
  let variation := attempt mod 3 in
  let random_seed := attempt + size t * 1000 in
  let g0 := seed random_seed in
  let t1 := with_path (with_board t (fresh_board (size t))) [] in
  let '(prefs, g1) := shuffle g0 (seq 0 8) in
  let t2 := log_move t1 (AttemptHeader (attempt + 1) variation random_seed
                                       prefs (start_x, start_y)) in
  match _solve_with_warnsdorff_variation
          {| a_tour := t2; a_rng := g1; a_tracking := Some [] |}
          start_x start_y variation prefs verbose with
  | IndexError => IndexError
  | OutOfFuel => OutOfFuel
  | Returned (success, s) =>
      let t3 := a_tour s in
      let info := {| attempt_no := attempt + 1;
                     variation_type := variation;
                     random_seed := random_seed;
                     move_preferences := prefs;
                     start_position := (start_x, start_y);
                     timestamp := clock attempt;
                     successful := success;
                     path_length := length (path t3);
                     move_tracking := default [] (a_tracking s) |} in
      let t4 := with_stats t3 (variation_stats t3 ++ [info]) in
      let continue (t' : tour) :=
        let paths :=
          if (0 <? length (path t'))%nat
          then {[_get_path_hash hash t']} ∪ attempted_paths r
          else attempted_paths r in
        Returned (false,
          {| r_tour := t'; r_rng := a_rng s; attempted_paths := paths |}) in
      if success then
        if bool_decide (_get_path_hash hash t4 ∈ attempted_paths r) then
          continue (log_move t4 (DuplicateMsg (attempt + 1)))
        else
          Returned (true,
            {| r_tour := log_move t4 (SuccessMsg (attempt + 1) variation);
               r_rng := a_rng s; attempted_paths := attempted_paths r |})
      else continue (log_move t4 (FailedMsg (attempt + 1) variation))
  end.

Fixpoint attempts_loop (hash : string → Z) (clock : Z → string)
    (start_x start_y : Z)
    (verbose : bool) (max_attempts : Z) (n : nat) (attempt : Z)
    (r : run_state) : result (bool * run_state) :=
  match n with
  | O =>
      Returned (false,
        {| r_tour := log_move (r_tour r) (AllFailedMsg max_attempts);
           r_rng := r_rng r; attempted_paths := attempted_paths r |})
  | S n' =>
      match attempt_body hash clock start_x start_y verbose attempt r with
      | Returned (false, r') =>
          attempts_loop hash clock start_x start_y verbose max_attempts n'
            (attempt + 1) r'
      | other => other
      end
  end.

Definition solve_with_multiple_warnsdorff_attempts
    (hash : string → Z) (clock : Z → string) (t : tour) (g : rng)
    (start_x start_y : Z) (max_attempts : Z) (verbose : bool)
  : result (bool * run_state) :=
  let t0 := with_log (with_stats t []) [] in
  attempts_loop hash clock start_x start_y verbose max_attempts
    (Z.to_nat max_attempts) 0
    {| r_tour := t0; r_rng := g; attempted_paths := ∅ |}.

End Warnsdorff.

(** ** Specification vocabulary *)

(** The 8 knight offsets, as pairs. *)
Definition knight_offsets : list cell :=
  [(2, 1); (1, 2); (-1, 2); (-2, 1); (-2, -1); (-1, -2); (1, -2); (2, -1)].

Definition is_knight_step (a b : cell) : bool :=
  bool_decide ((b.1 - a.1, b.2 - a.2) ∈ knight_offsets).

(** Every pair of consecutive positions is one knight move apart. *)
Fixpoint knight_chain (p : list cell) : bool :=
  match p with
  | a :: p' =>
      match p' with
      | b :: _ => is_knight_step a b && knight_chain p'
      | [] => true
      end
  | [] => true
  end.

Definition cell_in_bounds (n : Z) (c : cell) : Prop :=
  in_bounds n c.1 c.2 = true.

(** A knight's tour of the [n] by [n] board from [start]: a chain of knight
    moves inside the board that begins at [start], never repeats a cell and
    leaves no cell out. *)
Record is_tour (n : Z) (start : cell) (q : list cell) : Prop := {
  tour_head : head q = Some start;
  tour_inside : ∀ c, c ∈ q → cell_in_bounds n c;
  tour_nodup : NoDup q;
  tour_all : ∀ c, cell_in_bounds n c → c ∈ q;
  tour_chain : knight_chain q = true
}.

(** The board has [n] rows of [n] cells. *)
Definition wf_board (n : Z) (b : board_t) : Prop :=
  length b = Z.to_nat n ∧ Forall (λ row, length row = Z.to_nat n) b.

(** Board and path agree: the [j]-th position of the path is a cell of the
    board holding [j], and a cell of the board holds either -1 or its own
    index in the path. *)
Record placed (t : tour) : Prop := {
  placed_wf : wf_board (size t) (board t);
  placed_path : ∀ (j : nat) c, path t !! j = Some c →
      cell_in_bounds (size t) c ∧ board_get (board t) c.1 c.2 = Some (Z.of_nat j);
  placed_board : ∀ x y v, in_bounds (size t) x y = true →
      board_get (board t) x y = Some v →
      v = -1 ∨ (0 <= v ∧ path t !! Z.to_nat v = Some (x, y))
}.

(** The stack mirrors the path: the frame at height [j] stands on the
    [j]-th position and carries the count [j]. *)
Inductive stack_inv : list frame → list cell → Prop :=
  | stack_inv_nil : stack_inv [] []
  | stack_inv_cons f rest p :
      stack_inv rest p →
      f_count f = Z.of_nat (length p) + 1 →
      stack_inv (f :: rest) (p ++ [(f_x f, f_y f)]).

(** [n] passes through the loop of [solve]. *)
Fixpoint solve_iter (n : nat) (t : tour) (stack : list frame) : iteration :=
  match n with
  | O => Continue_ t stack
  | S n' =>
      match solve_body t stack with
      | Continue_ t' stack' => solve_iter n' t' stack'
      | r => r
      end
  end.

(** The cells of the path are cells of the board that no longer hold -1,
    and no cell occurs twice in the path. *)
Record visited (t : tour) : Prop := {
  visited_wf : wf_board (size t) (board t);
  visited_path : ∀ c, c ∈ path t →
      cell_in_bounds (size t) c ∧ board_get (board t) c.1 c.2 ≠ Some (-1);
  visited_nodup : NoDup (path t)
}.

(** Between two passes of the loop of [solve]: the path is a chain of
    knight moves from [start] over visited cells, and the stack mirrors the
    path (or is empty, once the bottom frame has been popped). *)
Record solve_inv (start : cell) (t : tour) (stack : list frame) : Prop := {
  inv_visited : visited t;
  inv_chain : knight_chain (path t) = true;
  inv_head : head (path t) = Some start;
  inv_stack : stack = [] ∨ stack_inv stack (path t)
}.

(** Between two passes of a Warnsdorff attempt: the path is a chain of
    knight moves from [start] over visited cells, it ends at the current
    position, and the counter of the loop is its length. *)
Record walk_inv (start : cell) (t : tour) (x y : Z) (move_count : Z) : Prop := {
  walk_visited : visited t;
  walk_chain : knight_chain (path t) = true;
  walk_head : head (path t) = Some start;
  walk_last : last (path t) = Some (x, y);
  walk_count : move_count = Z.of_nat (length (path t))
}.

(** The first [n] passes of the loop of [solve(start_x, start_y)]. *)
Definition solve_steps (n : nat) (t : tour) (start_x start_y : Z) : iteration :=
  match board_set (board t) start_x start_y 0 with
  | None => Raise_
  | Some b =>
      solve_iter n (with_path (with_board t b) [(start_x, start_y)])
        [{| f_count := 1; f_x := start_x; f_y := start_y; f_i := 0 |}]
  end.

(** All cells of the board. *)
Definition all_cells (n : Z) : list cell := list_prod (seqZ 0 n) (seqZ 0 n).

(** [q] is a tour from [start] that begins with the partial path [p]. *)
Definition completes (n : Z) (start : cell) (p q : list cell) : Prop :=
  is_tour n start q ∧ ∃ k, q = p ++ k.

(** Passes needed to finish a frame with cursor 0 that has [k] levels
    below it. *)
Fixpoint subtree_cost (k : nat) : nat :=
  match k with
  | O => 1
  | S k' => 1 + 8 * (1 + subtree_cost k')
  end.

(** Passes a frame can still cause: moves left for its cursor, each
    followed by a whole subtree, and its own pop. *)
Definition frame_cost (cells : nat) (f : frame) : nat :=
  match (cells - Z.to_nat (f_count f))%nat with
  | O => 1
  | S k => 1 + (8 - f_i f) * (1 + subtree_cost k)
  end.

Fixpoint stack_cost (cells : nat) (stack : list frame) : nat :=
  match stack with
  | [] => 0
  | f :: rest => frame_cost cells f + stack_cost cells rest
  end.

(** [a <= b] on tuples, as [not (b < a)]. *)
Definition tuple_le (a b : score_t) : bool := negb (tuple_lt b a).

(** The preference indices whose move from [(x, y)] is legal, in
    preference order. *)
Definition legal_prefs (t : tour) (x y : Z) (prefs : list nat) : list nat :=
  List.filter (λ p, is_valid_move t (x + move_dx p) (y + move_dy p)) prefs.

(** The entry of [considered_moves] for one preference index. *)
Definition considered_of (t : tour) (x y : Z) (p : nat) : considered_move :=
  {| direccion := (move_dx p, move_dy p);
     destino := (x + move_dx p, y + move_dy p);
     estado := status_of t (x + move_dx p) (y + move_dy p) |}.

(** The candidate for the legal move of index [p] when the generator
    yields [r]: its degree, the tie-break [r * 0.1] and the score built
    from them. *)
Definition candidate_of (t : tour) (x y : Z) (scoring : scoring_func)
    (p : nat) (r : Q) : candidate :=
  let next_x := x + move_dx p in
  let next_y := y + move_dy p in
  let degree := _count_valid_moves t next_x next_y in
  let tie := (r * (1 # 10))%Q in
  let sc := scoring t next_x next_y degree tie p in
  {| c_score := sc; c_x := next_x; c_y := next_y;
     c_details := {| grado := degree; random_factor := tie;
                     preferencia := p; score := sc |} |}.

(** Manhattan distance. *)
Definition manhattan (a b : cell) : Z := Z.abs (a.1 - b.1) + Z.abs (a.2 - b.2).

(** The least Manhattan distance from [c] to one of the four corners of a
    board of size [n], in the words of the specification; it is written
    without the list and the minimum of the code. *)
Definition corner_distance (n : Z) (c : cell) : Z :=
  Z.min (Z.min (manhattan c (0, 0)) (manhattan c (0, n - 1)))
        (Z.min (manhattan c (n - 1, 0)) (manhattan c (n - 1, n - 1))).

Section WarnsdorffVocabulary.
Context {E : Env}.

(** [n] successive calls of [random.random()]. *)
Fixpoint draws (n : nat) (g : rng) : list Q * rng :=
  match n with
  | O => ([], g)
  | S n' =>
      let '(r, g1) := random g in
      let '(rs, g2) := draws n' g1 in
      (r :: rs, g2)
  end.

(** The candidates of one step: one per legal preference index, each with
    its own draw from the generator. *)
Definition candidates (t : tour) (g : rng) (x y : Z) (prefs : list nat)
    (scoring : scoring_func) : list candidate :=
  zip_with (candidate_of t x y scoring) (legal_prefs t x y prefs)
           (draws (length (legal_prefs t x y prefs)) g).1.

(** The state in which the loop of [_solve_with_warnsdorff_variation]
    begins. *)
Definition warnsdorff_entry (s : attempt_state) (start_x start_y : Z)
  : option attempt_state :=
  b ← board_set (board (a_tour s)) start_x start_y 0;
  Some {| a_tour := log_move (with_path (with_board (a_tour s) b)
                                        [(start_x, start_y)])
                             (StartMsg (start_x, start_y));
          a_rng := a_rng s; a_tracking := a_tracking s |}.

(** The first [k] passes of the loop. *)
Fixpoint warnsdorff_iter (k : nat) (move_count : Z) (curr_x curr_y : Z)
    (prefs : list nat) (scoring : scoring_func) (verbose : bool)
    (s : attempt_state) : pass :=
  match k with
  | O => Moved curr_x curr_y s
  | S k' =>
      match warnsdorff_body move_count curr_x curr_y prefs scoring verbose s with
      | Moved next_x next_y s' =>
          warnsdorff_iter k' (move_count + 1) next_x next_y prefs scoring
            verbose s'
      | r => r
      end
  end.

(** The statements after the loop of an attempt. *)
Definition warnsdorff_complete (s : attempt_state) : attempt_state :=
  {| a_tour := log_move (a_tour s) (CompleteMsg (length (path (a_tour s))));
     a_rng := a_rng s; a_tracking := a_tracking s |}.

(** The value an attempt returns once its passes are done. *)
Definition pass_result (p : pass) : result (bool * attempt_state) :=
  match p with
  | Moved _ _ s' => Returned (true, warnsdorff_complete s')
  | Dead_end s' => Returned (false, s')
  | Raised => IndexError
  end.

(** What a search depends on and what it produces: the state without the
    statistics and the debug log, and, unless [keep] is set, without the
    tracking list. *)
Definition forget (keep : bool) (s : attempt_state) : attempt_state :=
  {| a_tour := {| size := size (a_tour s); board := board (a_tour s);
                  path := path (a_tour s);
                  variation_stats := []; debug_log := [] |};
     a_rng := a_rng s;
     a_tracking := if keep then a_tracking s else None |}.

Definition forget_pass (keep : bool) (p : pass) : pass :=
  match p with
  | Dead_end s => Dead_end (forget keep s)
  | Raised => Raised
  | Moved x y s => Moved x y (forget keep s)
  end.

Definition forget_result (keep : bool) (r : result (bool * attempt_state))
  : result (bool * attempt_state) :=
  match r with
  | Returned (b, s) => Returned (b, forget keep s)
  | IndexError => IndexError
  | OutOfFuel => OutOfFuel
  end.

(** The first [k] passes of an attempt, from its entry. *)
Definition warnsdorff_steps (k : nat) (s : attempt_state) (start_x start_y : Z)
    (variation : Z) (prefs : list nat) (verbose : bool) : pass :=
  match warnsdorff_entry s start_x start_y with
  | None => Raised
  | Some s0 =>
      warnsdorff_iter k 1 start_x start_y prefs (select_scoring variation)
        verbose s0
  end.

(** *** The attempts of a run, one by one *)

(** Attempt number [i] on a board of size [n]: seed [i + 1000 n], the
    preference order shuffled from the seeded generator, variant [i mod 3],
    all on a new object. *)
Definition attempt_seed (n i : Z) : Z := i + n * 1000.

Definition attempt_prefs (n i : Z) : list nat :=
  (shuffle (seed (attempt_seed n i)) (seq 0 8)).1.

Definition attempt_alone (n start_x start_y i : Z) (verbose : bool)
  : result (bool * attempt_state) :=
  _solve_with_warnsdorff_variation
    {| a_tour := init n;
       a_rng := (shuffle (seed (attempt_seed n i)) (seq 0 8)).2;
       a_tracking := Some [] |}
    start_x start_y (i mod 3) (attempt_prefs n i) verbose.

Definition attempt_success (n start_x start_y i : Z) : bool :=
  match attempt_alone n start_x start_y i false with
  | Returned (b, _) => b
  | _ => false
  end.

Definition attempt_path (n start_x start_y i : Z) : list cell :=
  match attempt_alone n start_x start_y i false with
  | Returned (_, s) => path (a_tour s)
  | _ => []
  end.

Definition attempt_board (n start_x start_y i : Z) : board_t :=
  match attempt_alone n start_x start_y i false with
  | Returned (_, s) => board (a_tour s)
  | _ => []
  end.

Definition attempt_tracking (n start_x start_y i : Z) : list tracked_move :=
  match attempt_alone n start_x start_y i false with
  | Returned (_, s) => default [] (a_tracking s)
  | _ => []
  end.

(** The record the run keeps of attempt [i]. *)
Definition attempt_info (clock : Z → string) (n start_x start_y i : Z)
  : variation_info :=
  {| attempt_no := i + 1;
     variation_type := i mod 3;
     random_seed := attempt_seed n i;
     move_preferences := attempt_prefs n i;
     start_position := (start_x, start_y);
     timestamp := clock i;
     successful := attempt_success n start_x start_y i;
     path_length := length (attempt_path n start_x start_y i);
     move_tracking := attempt_tracking n start_x start_y i |}.

Definition fingerprint (hash : string → Z) (p : list cell) : Z :=
  hash (path_sample p).

(** The fingerprints of the paths left by the attempts before number [k]. *)
Definition prior_fingerprints (hash : string → Z) (n start_x start_y : Z)
    (k : nat) : gset Z :=
  list_to_set
    ((λ j, fingerprint hash (attempt_path n start_x start_y (Z.of_nat j)))
       <$> seq 0 k).

(** Attempt [i] succeeds with a fingerprint no earlier attempt left. *)
Definition novel_success (hash : string → Z) (n start_x start_y : Z)
    (i : nat) : bool :=
  attempt_success n start_x start_y (Z.of_nat i)
  && negb (bool_decide
             (fingerprint hash (attempt_path n start_x start_y (Z.of_nat i))
              ∈ prior_fingerprints hash n start_x start_y i)).

(** The state of the run after [k] passes of the loop, when none of them
    has returned. *)
Fixpoint attempts_iter (hash : string → Z) (clock : Z → string)
    (start_x start_y : Z)
    (verbose : bool) (k : nat) (attempt : Z) (r : run_state)
  : result (bool * run_state) :=
  match k with
  | O => Returned (false, r)
  | S k' =>
      match attempt_body hash clock start_x start_y verbose attempt r with
      | Returned (false, r') =>
          attempts_iter hash clock start_x start_y verbose k' (attempt + 1) r'
      | other => other
      end
  end.

(** The statements after the loop of a run. *)
Definition run_exhausted (max_attempts : Z) (r : run_state) : run_state :=
  {| r_tour := log_move (r_tour r) (AllFailedMsg max_attempts);
     r_rng := r_rng r; attempted_paths := attempted_paths r |}.

(** The records of the attempts before number [k]. *)
Definition attempt_infos (clock : Z → string) (n start_x start_y : Z) (k : nat)
  : list variation_info :=
  (λ j, attempt_info clock n start_x start_y (Z.of_nat j)) <$> seq 0 k.


(** The statistics without the wall-clock strings. *)
Definition untimed (i : variation_info) : variation_info :=
  {| attempt_no := attempt_no i; variation_type := variation_type i;
     random_seed := random_seed i; move_preferences := move_preferences i;
     start_position := start_position i; timestamp := EmptyString;
     successful := successful i; path_length := path_length i;
     move_tracking := move_tracking i |}.

(** *** Fingerprints that tell paths apart *)



End WarnsdorffVocabulary.

(** A decimal digit, and a string of decimal digits. *)
Definition is_digit (a : Ascii.ascii) : bool :=
  let n := Ascii.nat_of_ascii a in (48 <=? n)%nat && (n <=? 57)%nat.

Fixpoint digits (s : string) : bool :=
  match s with
  | EmptyString => true
  | String a s' => is_digit a && digits s'
  end.



(** The invariant of a search in the words of the board description: with
    [k] cells placed, each order value below [k] is held by exactly one
    cell, which is the position of that index in the path, and every cell
    off the path holds -1. *)
Definition order_invariant (t : tour) : Prop :=
  (∀ j : nat, (j < length (path t))%nat →
     ∃ c, path t !! j = Some c
          ∧ cell_in_bounds (size t) c
          ∧ board_get (board t) c.1 c.2 = Some (Z.of_nat j)
          ∧ ∀ c', cell_in_bounds (size t) c' →
                  board_get (board t) c'.1 c'.2 = Some (Z.of_nat j) → c' = c)
  ∧ (∀ c, cell_in_bounds (size t) c → c ∉ path t →
          board_get (board t) c.1 c.2 = Some (-1)).

(** ** Generators to run the model with *)

(** A generator that always yields 0 and leaves lists in order. *)
Definition still_env : Env :=
  {| rng := unit;
     seed := λ _, ();
     random := λ g, (0%Q, g);
     shuffle := λ g l, (l, g) |}.

(** A generator that yields 0 and rotates a list by its seed. *)
Definition rotating_env : Env :=
  {| rng := Z;
     seed := λ z, z;
     random := λ g, (0%Q, g);
     shuffle := λ g l, (rotate (Z.to_nat (g mod 8)) l, g) |}.

(** A hash under which all strings collide, a hash that tells strings of
    different lengths apart, and a stopped clock. *)
Definition constant_hash : string → Z := λ _, 0.
Definition length_hash : string → Z := λ s, Z.of_nat (String.length s).
Definition stopped_clock : Z → string := λ _, EmptyString.


(** ** The other methods of [KnightsTour] *)

(** *** [solve_with_warnsdorff] *)

(** The dispatch on [mode]: every string but the two named ones selects
    the random scoring. *)
Definition mode_scoring (mode : string) : scoring_func :=
  if bool_decide (mode = "center") then _score_center
  else if bool_decide (mode = "corners") then _score_corners
  else _score_random.

Section SingleAttempt.
Context {E : Env}.

(** The loop [for move_count in range(1, size * size)] of
    [solve_with_warnsdorff]; [n] counts the passes left.  Nothing is logged
    and nothing is tracked. *)
Fixpoint warnsdorff_plain_loop (n : nat) (move_count : Z) (curr_x curr_y : Z)
    (prefs : list nat) (scoring : scoring_func) (t : tour) (g : rng)
  : result (bool * (tour * rng)) :=
  match n with
  | O => Returned (true, (t, g))
  | S n' =>
      match _get_next_move_warnsdorff_generic_detailed
              t g curr_x curr_y prefs scoring with
      | (None, g') => Returned (false, (t, g'))
      | (Some (next_x, next_y, _), g') =>
          match board_set (board t) next_x next_y move_count with
          | None => IndexError
          | Some b =>
              warnsdorff_plain_loop n' (move_count + 1) next_x next_y prefs
                scoring
                (with_path (with_board t b) (path t ++ [(next_x, next_y)])) g'
          end
      end
  end.

Definition solve_with_warnsdorff (t : tour) (g : rng) (start_x start_y : Z)
    (mode : string) : result (bool * (tour * rng)) :=
  let scoring := mode_scoring mode in
  let '(move_preferences, g1) := shuffle g (seq 0 8) in
  match board_set (board t) start_x start_y 0 with
  | None => IndexError
  | Some b =>
      warnsdorff_plain_loop (Z.to_nat (size t * size t - 1)) 1
        start_x start_y move_preferences scoring
        (with_path (with_board t b) [(start_x, start_y)]) g1
  end.

End SingleAttempt.

(** *** [print_solution] and [print_path]

    What [print_solution] prints is ASCII and is represented by its
    lines.  What [print_path] prints holds an arrow outside ASCII, and a
    character for each column that is outside ASCII from column 31 on; it
    is kept as a list of code points, as a Python string is. *)

(** [f"{v:2d}"]: the decimal numeral, padded on the left to two
    characters. *)
Definition format_2d (v : Z) : string :=
  let s := pretty v in
  if (String.length s <? 2)%nat then " " +:+ s else s.

(** The inner loop over [j]: every cell of row [i] followed by a space.
    [None] stands for the IndexError of a missing cell. *)
Fixpoint print_row (b : board_t) (i : Z) (js : list Z) : option string :=
  match js with
  | [] => Some EmptyString
  | j :: js' =>
      v ← board_get b i j;
      rest ← print_row b i js';
      Some (format_2d v +:+ " " +:+ rest)
  end.

Definition print_solution (t : tour) : option (list string) :=
  rows ← mapM (λ i, print_row (board t) i (seqZ 0 (size t))) (seqZ 0 (size t));
  Some (EmptyString :: "Recorrido del Caballo:" :: rows).

(** A Python string as the list of its code points. *)
Abbreviation pystr := (list Z).

Definition pystr_of (s : string) : pystr :=
  (λ a, Z.of_N (Ascii.N_of_ascii a)) <$> String.list_ascii_of_string s.

(** [chr(i)]; [None] stands for the ValueError outside the code space
    (an OverflowError, in some versions of the interpreter, for an argument
    outside the range of a C int). *)
Definition chr (i : Z) : option Z :=
  if (0 <=? i) && (i <? 1114112) then Some i else None.

(** [f"{chr(97 + y)}{self.size - x}"] *)
Definition chess_notation (n : Z) (c : cell) : option pystr :=
  col ← chr (97 + c.2);
  Some (col :: pystr_of (pretty (n - c.1))).

(** [sep.join(l)] *)
Fixpoint join (sep : pystr) (l : list pystr) : pystr :=
  match l with
  | [] => []
  | [s] => s
  | s :: l' => s ++ sep ++ join sep l'
  end.

(** The list [path_notations] built by the loop of [print_path]. *)
Definition path_notations (t : tour) : option (list pystr) :=
  mapM (chess_notation (size t)) (path t).

(** *** The output stream

    [print] writes to [sys.stdout].  A write of a string with a code point
    that the encoding of the stream does not have raises
    UnicodeEncodeError, and nothing of that string is written.  A stream is
    given by the code points outside ASCII that it encodes: the encodings
    Python offers for a terminal or a file all encode ASCII. *)
Definition stream : Type := Z → bool.

Definition can_write (out : stream) (s : pystr) : bool :=
  forallb (λ c, ((0 <=? c) && (c <? 128)) || out c) s.

(** The text of a [print] that is built from literals and numbers is
    represented by the code points outside ASCII that it holds; they decide
    whether the [print] raises. *)
Definition prints (out : stream) (non_ascii : list Z) : bool :=
  forallb out non_ascii.

(** The exceptions that end a method of the model. *)
Module Exn.
Inductive t := IndexError | ValueError | UnicodeEncodeError.
End Exn.

(** What a method has written to the stream, and the exception that ended
    it, if one did. *)
Record printed := {
  written : pystr;
  raised : option Exn.t
}.

(** [print_path]: the heading is written first; the ValueError of [chr]
    comes from the loop, before the second [print]. *)
Definition print_path (out : stream) (t : tour) : printed :=
  let heading := [10] ++ pystr_of "Secuencia de movimientos:" ++ [32] in
  match path_notations t with
  | None => {| written := heading; raised := Some Exn.ValueError |}
  | Some notations =>
      let line := join [32; 8594; 32] notations in
      if can_write out line
      then {| written := heading ++ line ++ [10]; raised := None |}
      else {| written := heading; raised := Some Exn.UnicodeEncodeError |}
  end.

(** *** [analyze_variation_performance] *)

(** What is printed for one variation. *)
Record variation_report := {
  rep_type : Z;
  rep_attempts : nat;
  rep_successes : nat;
  rep_success_rate : Q;
  rep_avg_path_length : Q
}.

(** [variation_groups[var_type].append(stat)], after the key has been
    added when it was missing.  The dictionary keeps its keys in the order
    of their insertion. *)
Fixpoint group_append (var_type : Z) (stat : variation_info)
    (groups : list (Z * list variation_info))
  : list (Z * list variation_info) :=
  match groups with
  | [] => [(var_type, [stat])]
  | (k, stats) :: rest =>
      if k =? var_type then (k, stats ++ [stat]) :: rest
      else (k, stats) :: group_append var_type stat rest
  end.

Definition variation_groups (stats : list variation_info)
  : list (Z * list variation_info) :=
  fold_left (λ groups stat, group_append (variation_type stat) stat groups)
            stats [].

Definition sum_path_length (stats : list variation_info) : nat :=
  foldr (λ s acc, (path_length s + acc)%nat) O stats.

Definition report_of (group : Z * list variation_info) : variation_report :=
  let stats := group.2 in
  let succeeded := List.filter successful stats in
  {| rep_type := group.1;
     rep_attempts := length stats;
     rep_successes := length succeeded;
     rep_success_rate :=
       match stats with
       | [] => 0
       | _ => inject_Z (Z.of_nat (length succeeded))
              / inject_Z (Z.of_nat (length stats)) * 100
       end%Q;
     rep_avg_path_length :=
       match stats with
       | [] => 0
       | _ => inject_Z (Z.of_nat (sum_path_length stats))
              / inject_Z (Z.of_nat (length stats))
       end%Q |}.

(** [None]: there are no statistics, and only that is said. *)
Definition analyze_variation_performance (t : tour)
  : option (list variation_report) :=
  match variation_stats t with
  | [] => None
  | _ => Some (report_of <$> variation_groups (variation_stats t))
  end.

(** ** The solvers with their prints

    The texts that [solve_with_multiple_warnsdorff_attempts] and
    [_solve_with_warnsdorff_variation] print are those they log. *)

(** The code points outside ASCII in the text of a message.  The text of
    a step holds the [repr] of [move_info]: the key ['dirección'] of every
    considered move and the state ['válido'] of the valid ones. *)
Definition considered_non_ascii (l : list considered_move) : list Z :=
  flat_map (λ m, 243 :: match estado m with
                        | Valido => [225]
                        | _ => []
                        end) l.

Definition message_non_ascii (m : log_msg) : list Z :=
  match m with
  | AttemptHeader _ _ _ _ _ => [243]
  | StartMsg _ => []
  | NoMovesMsg _ _ => [225; 243]
  | StepMsg _ _ _ info => considered_non_ascii (movimientos_considerados info)
  | ProgressMsg _ _ => []
  | CompleteMsg _ => [161]
  | SuccessMsg _ _ => [161; 201; 243]
  | DuplicateMsg _ => [243]
  | FailedMsg _ _ => [243]
  | AllFailedMsg _ => []
  end.

(** How a call ends: it returns, raises, or the fuel of the model runs
    out. *)
Inductive outcome (A : Type) :=
  | Done (a : A)
  | Raises (e : Exn.t)
  | No_fuel.
Arguments Done {A} a.
Arguments Raises {A} e.
Arguments No_fuel {A}.

Definition of_result {A : Type} (r : result A) : outcome A :=
  match r with
  | Returned a => Done a
  | IndexError => Raises Exn.IndexError
  | OutOfFuel => No_fuel
  end.

(** What becomes of the writing of a log file: it is written, or an
    exception is raised whose message holds the given code points outside
    ASCII. *)
Inductive file_write :=
  | File_written
  | File_error (message : list Z).

Record log_files := {
  stats_file : file_write;
  debug_file : file_write
}.

(** [_save_variation_stats]: the [print] after the writing stands inside
    the [try]; the [print] of the [except] clause shows the exception, which
    is the one of the writing or the UnicodeEncodeError of the first
    [print] (whose message is ASCII). *)
Definition _save_variation_stats (out : stream) (w : file_write)
  : option Exn.t :=
  match w with
  | File_written =>
      if prints out [237; 243] then None
      else if prints out [237] then None
      else Some Exn.UnicodeEncodeError
  | File_error message =>
      if prints out (237 :: message) then None
      else Some Exn.UnicodeEncodeError
  end.

(** [_save_debug_log]: here the text of the [except] clause is ASCII. *)
Definition _save_debug_log (out : stream) (w : file_write) : option Exn.t :=
  match w with
  | File_written => None
  | File_error message =>
      if prints out message then None else Some Exn.UnicodeEncodeError
  end.

(** The two calls under [if save_logs:]. *)
Definition save_logs_files (out : stream) (files : log_files)
    (save_logs : bool) : option Exn.t :=
  if save_logs then
    match _save_variation_stats out (stats_file files) with
    | Some e => Some e
    | None => _save_debug_log out (debug_file files)
    end
  else None.

Section Printing.
Context {E : Env}.

(** The loop of [_solve_with_warnsdorff_variation] with its prints: in a
    pass, the text of the dead end or of the step is printed before the
    object is changed; the text of the progress is ASCII. *)
Fixpoint warnsdorff_loop_printing (out : stream) (n : nat) (move_count : Z)
    (curr_x curr_y : Z) (prefs : list nat) (scoring : scoring_func)
    (verbose : bool) (s : attempt_state) : outcome (bool * attempt_state) :=
  match n with
  | O =>
      let success_msg := CompleteMsg (length (path (a_tour s))) in
      if verbose && negb (prints out (message_non_ascii success_msg))
      then Raises Exn.UnicodeEncodeError
      else
        Done (true,
          {| a_tour := log_move (a_tour s) success_msg;
             a_rng := a_rng s; a_tracking := a_tracking s |})
  | S n' =>
      let msg :=
        match (_get_next_move_warnsdorff_generic_detailed
                 (a_tour s) (a_rng s) curr_x curr_y prefs scoring).1 with
        | None => NoMovesMsg move_count (curr_x, curr_y)
        | Some (next_x, next_y, move_info) =>
            StepMsg move_count (curr_x, curr_y) (next_x, next_y) move_info
        end in
      if verbose && negb (prints out (message_non_ascii msg))
      then Raises Exn.UnicodeEncodeError
      else
        match warnsdorff_body move_count curr_x curr_y prefs scoring
                verbose s with
        | Dead_end s' => Done (false, s')
        | Raised => Raises Exn.IndexError
        | Moved next_x next_y s' =>
            warnsdorff_loop_printing out n' (move_count + 1) next_x next_y
              prefs scoring verbose s'
        end
  end.

(** [_solve_with_warnsdorff_variation] with its prints; the text of the
    start is ASCII. *)
Definition _solve_with_warnsdorff_variation_printing (out : stream)
    (s : attempt_state) (start_x start_y : Z) (variation : Z)
    (prefs : list nat) (verbose : bool) : outcome (bool * attempt_state) :=
  let t := a_tour s in
  let scoring := select_scoring variation in
  match board_set (board t) start_x start_y 0 with
  | None => Raises Exn.IndexError
  | Some b =>
      let t1 := with_path (with_board t b) [(start_x, start_y)] in
      let t2 := log_move t1 (StartMsg (start_x, start_y)) in
      warnsdorff_loop_printing out (Z.to_nat (size t * size t - 1)) 1
        start_x start_y prefs scoring verbose
        {| a_tour := t2; a_rng := a_rng s; a_tracking := a_tracking s |}
  end.

(** One pass of the loop of [solve_with_multiple_warnsdorff_attempts], with
    its prints and with the writing of the log files. *)
Definition attempt_body_printing (out : stream) (files : log_files)
    (hash : string → Z) (clock : Z → string) (start_x start_y : Z)
    (verbose save_logs : bool) (attempt : Z) (r : run_state)
  : outcome (bool * run_state) :=
  let t := r_tour r in
  let variation := attempt mod 3 in
  let random_seed := attempt + size t * 1000 in
  let g0 := seed random_seed in
  let t1 := with_path (with_board t (fresh_board (size t))) [] in
  let '(prefs, g1) := shuffle g0 (seq 0 8) in
  let attempt_msg := AttemptHeader (attempt + 1) variation random_seed
                                   prefs (start_x, start_y) in
  if verbose && negb (prints out (message_non_ascii attempt_msg))
  then Raises Exn.UnicodeEncodeError
  else
    let t2 := log_move t1 attempt_msg in
    match _solve_with_warnsdorff_variation_printing out
            {| a_tour := t2; a_rng := g1; a_tracking := Some [] |}
            start_x start_y variation prefs verbose with
    | Raises e => Raises e
    | No_fuel => No_fuel
    | Done (success, s) =>
        let t3 := a_tour s in
        let info := {| attempt_no := attempt + 1;
                       variation_type := variation;
                       random_seed := random_seed;
                       move_preferences := prefs;
                       start_position := (start_x, start_y);
                       timestamp := clock attempt;
                       successful := success;
                       path_length := length (path t3);
                       move_tracking := default [] (a_tracking s) |} in
        let t4 := with_stats t3 (variation_stats t3 ++ [info]) in
        let continue (msg : log_msg) :=
          if prints out (message_non_ascii msg) then
            let t' := log_move t4 msg in
            let paths :=
              if (0 <? length (path t'))%nat
              then {[_get_path_hash hash t']} ∪ attempted_paths r
              else attempted_paths r in
            Done (false,
              {| r_tour := t'; r_rng := a_rng s; attempted_paths := paths |})
          else Raises Exn.UnicodeEncodeError in
        if success then
          if bool_decide (_get_path_hash hash t4 ∈ attempted_paths r) then
            continue (DuplicateMsg (attempt + 1))
          else
            let success_msg := SuccessMsg (attempt + 1) variation in
            if prints out (message_non_ascii success_msg) then
              match save_logs_files out files save_logs with
              | Some e => Raises e
              | None =>
                  Done (true,
                    {| r_tour := log_move t4 success_msg;
                       r_rng := a_rng s;
                       attempted_paths := attempted_paths r |})
              end
            else Raises Exn.UnicodeEncodeError
        else continue (FailedMsg (attempt + 1) variation)
    end.

Fixpoint attempts_loop_printing (out : stream) (files : log_files)
    (hash : string → Z) (clock : Z → string) (start_x start_y : Z)
    (verbose save_logs : bool) (max_attempts : Z) (n : nat) (attempt : Z)
    (r : run_state) : outcome (bool * run_state) :=
  match n with
  | O =>
      match save_logs_files out files save_logs with
      | Some e => Raises e
      | None =>
          Done (false,
            {| r_tour := log_move (r_tour r) (AllFailedMsg max_attempts);
               r_rng := r_rng r; attempted_paths := attempted_paths r |})
      end
  | S n' =>
      match attempt_body_printing out files hash clock start_x start_y
              verbose save_logs attempt r with
      | Done (false, r') =>
          attempts_loop_printing out files hash clock start_x start_y
            verbose save_logs max_attempts n' (attempt + 1) r'
      | other => other
      end
  end.

(** [solve_with_multiple_warnsdorff_attempts] with its prints; the first
    text and the text after the loop are ASCII. *)
Definition solve_with_multiple_warnsdorff_attempts_printing
    (out : stream) (files : log_files)
    (hash : string → Z) (clock : Z → string) (t : tour) (g : rng)
    (start_x start_y : Z) (max_attempts : Z) (verbose save_logs : bool)
  : outcome (bool * run_state) :=
  let t0 := with_log (with_stats t []) [] in
  attempts_loop_printing out files hash clock start_x start_y verbose
    save_logs max_attempts (Z.to_nat max_attempts) 0
    {| r_tour := t0; r_rng := g; attempted_paths := ∅ |}.

End Printing.

(** ** The program: the [__main__] block *)

Inductive solver := Warnsdorff | Backtracking.

(** How the block ends before the visualizer is created: [sequence] is
    what [print_path] has written. *)
Inductive main_outcome :=
  | Exit_status (code : Z)
  | Visualized (how : solver) (t : tour)
      (solution : list string) (sequence : pystr)
  | No_tour
  | Board_too_large.

Inductive main_end :=
  | Ended (o : main_outcome)
  | Uncaught (e : Exn.t)
  | Main_out_of_fuel.

(** The statements under the last [if success:], up to the creation of the
    visualizer.  The texts of the controls hold the letters of
    ['visualización gráfica'] and ['ratón']. *)
Definition show (out : stream) (how : solver) (t : tour) : main_end :=
  match print_solution t with
  | None => Uncaught Exn.IndexError
  | Some solution =>
      let sequence := print_path out t in
      match raised sequence with
      | Some e => Uncaught e
      | None =>
          if prints out [243; 225; 243] then
            Ended (Visualized how t solution (written sequence))
          else Uncaught Exn.UnicodeEncodeError
      end
  end.

Section Program.
Context {E : Env}.

(** The arguments are the stream of [sys.stdout], what becomes of the log
    files, and those of the command line; [g] is the state of the generator
    when the program starts and [fuel] bounds the passes of the
    backtracking loop.  Each [print] whose text is not ASCII is marked by
    its letters. *)
Definition main (out : stream) (files : log_files)
    (hash : string → Z) (clock : Z → string) (fuel : nat) (g : rng)
    (size start_x start_y attempts : Z) (verbose no_logs : bool) : main_end :=
  (* 'Buscando solución para un tablero ... desde la posición ...' *)
  if negb (prints out [243; 243]) then Uncaught Exn.UnicodeEncodeError
  else
    let tour := init size in
    if negb (in_bounds size start_x start_y) then
      (* 'Posición inicial ... fuera del tablero ...' *)
      if negb (prints out [243]) then Uncaught Exn.UnicodeEncodeError
      else Ended (Exit_status 1)
    else
      (* 'Buscando solución con ... intentos de la heurística ...' *)
      if negb (prints out [243; 237]) then Uncaught Exn.UnicodeEncodeError
      else
        match solve_with_multiple_warnsdorff_attempts_printing out files
                hash clock tour g start_x start_y attempts verbose
                (negb no_logs) with
        | Raises e => Uncaught e
        | No_fuel => Main_out_of_fuel
        | Done (true, r) =>
            (* 'Se encontró una solución con Warnsdorff desde la posición
               inicial ...' *)
            if negb (prints out [243; 243; 243])
            then Uncaught Exn.UnicodeEncodeError
            else show out Warnsdorff (r_tour r)
        | Done (false, _) =>
            (* 'No se encontró solución con Warnsdorff después de ...' *)
            if negb (prints out [243; 243; 233])
            then Uncaught Exn.UnicodeEncodeError
            else if size <=? 30 then
              match solve fuel (init size) start_x start_y with
              | IndexError => Uncaught Exn.IndexError
              | OutOfFuel => Main_out_of_fuel
              | Returned (true, t) =>
                  (* 'Se encontró solución con backtracking desde ...' *)
                  if negb (prints out [243; 243])
                  then Uncaught Exn.UnicodeEncodeError
                  else show out Backtracking t
              | Returned (false, _) =>
                  (* 'No existe solución para este tablero desde ...' *)
                  if negb (prints out [243])
                  then Uncaught Exn.UnicodeEncodeError
                  else Ended No_tour
              end
            else Ended Board_too_large
        end.

End Program.

(** ** The visualizer: the state of the view

    Of [KnightsTourVisualizer] the model keeps the numbers that place the
    board in the window and the flags of the mouse; the pygame surfaces are
    left out.  Floats are exact rationals. *)

Definition window_width : Z := 900.
Definition window_height : Z := 600.

(** [int(self.window_width * 0.3)] *)
Definition sidebar_width : Z := Qfloor (inject_Z window_width * (3 # 10)).

Record visualizer := {
  vis_tour : tour;
  base_cell_size : Q;
  cell_size : Q;
  offset_x : Q;
  offset_y : Q;
  zoom_level : Q;
  dragging : bool;
  drag_start : Z * Z;
  (** whether [knight.png] was loaded *)
  knight_img : bool;
  (** the side of the scaled image, when there is one *)
  knight_img_scaled : option Z
}.

(** [int(q)]: rounding towards zero. *)
Definition Qtrunc (q : Q) : Z :=
  if Qle_bool 0 q then Qfloor q else Qceiling q.

Definition update_knight_image (v : visualizer) : visualizer :=
  if knight_img v then
    let knight_size := Qtrunc (cell_size v * zoom_level v - 30) in
    {| vis_tour := vis_tour v; base_cell_size := base_cell_size v;
       cell_size := cell_size v; offset_x := offset_x v;
       offset_y := offset_y v; zoom_level := zoom_level v;
       dragging := dragging v; drag_start := drag_start v;
       knight_img := knight_img v;
       knight_img_scaled :=
         if 10 <? knight_size then Some knight_size else None |}
  else v.

Definition center_view (v : visualizer) : visualizer :=
  let board_width :=
    (inject_Z (size (vis_tour v)) * cell_size v * zoom_level v)%Q in
  let board_height :=
    (inject_Z (size (vis_tour v)) * cell_size v * zoom_level v)%Q in
  {| vis_tour := vis_tour v; base_cell_size := base_cell_size v;
     cell_size := cell_size v;
     offset_x := inject_Z window_width * (65 # 100) - board_width / 2;
     offset_y := (inject_Z window_height - board_height) / 2;
     zoom_level := zoom_level v;
     dragging := dragging v; drag_start := drag_start v;
     knight_img := knight_img v;
     knight_img_scaled := knight_img_scaled v |}.

(** [KnightsTourVisualizer(tour)]; [image_loads] tells whether the image
    file can be read. *)
Definition new_visualizer (t : tour) (image_loads : bool) : visualizer :=
  let base :=
    inject_Z (Qfloor (Qmin (inject_Z window_width * (6 # 10))
                           (inject_Z window_height)
                      / inject_Z (Z.max (size t) 8))) in
  let v := center_view
    {| vis_tour := t; base_cell_size := base; cell_size := base;
       offset_x := 0; offset_y := 0; zoom_level := 1;
       dragging := false; drag_start := (0, 0);
       knight_img := false; knight_img_scaled := None |} in
  if image_loads then
    update_knight_image
      {| vis_tour := vis_tour v; base_cell_size := base_cell_size v;
         cell_size := cell_size v; offset_x := offset_x v;
         offset_y := offset_y v; zoom_level := zoom_level v;
         dragging := dragging v; drag_start := drag_start v;
         knight_img := true; knight_img_scaled := None |}
  else v.

Inductive key := K_ESCAPE | K_r | K_other.

(** The events the loop of [handle_events] tells apart. *)
Inductive event :=
  | QUIT
  | KEYDOWN (k : key)
  | MOUSEBUTTONDOWN (button : Z)
  | MOUSEBUTTONUP (button : Z)
  | MOUSEMOTION
  | OTHER_EVENT.

Definition with_zoom (v : visualizer) (z : Q) : visualizer :=
  {| vis_tour := vis_tour v; base_cell_size := base_cell_size v;
     cell_size := cell_size v; offset_x := offset_x v;
     offset_y := offset_y v; zoom_level := z;
     dragging := dragging v; drag_start := drag_start v;
     knight_img := knight_img v;
     knight_img_scaled := knight_img_scaled v |}.

Definition with_offset (v : visualizer) (ox oy : Q) : visualizer :=
  {| vis_tour := vis_tour v; base_cell_size := base_cell_size v;
     cell_size := cell_size v; offset_x := ox; offset_y := oy;
     zoom_level := zoom_level v;
     dragging := dragging v; drag_start := drag_start v;
     knight_img := knight_img v;
     knight_img_scaled := knight_img_scaled v |}.

Definition with_drag (v : visualizer) (d : bool) (start : Z * Z) : visualizer :=
  {| vis_tour := vis_tour v; base_cell_size := base_cell_size v;
     cell_size := cell_size v; offset_x := offset_x v;
     offset_y := offset_y v; zoom_level := zoom_level v;
     dragging := d; drag_start := start;
     knight_img := knight_img v;
     knight_img_scaled := knight_img_scaled v |}.

(** The two branches of the mouse wheel: the zoom level becomes
    [new_zoom] and the offsets are rescaled about the mouse.  [None] stands
    for the ZeroDivisionError of [self.zoom_level / old_zoom]. *)
Definition zoom_about (v : visualizer) (new_zoom : Q) (mouse : Z * Z)
  : option visualizer :=
  let old_zoom := zoom_level v in
  if Qeq_bool old_zoom 0 then None
  else
    let mouse_x := inject_Z mouse.1 in
    let mouse_y := inject_Z mouse.2 in
    let ox := (mouse_x - (mouse_x - offset_x v) * (new_zoom / old_zoom))%Q in
    let oy := (mouse_y - (mouse_y - offset_y v) * (new_zoom / old_zoom))%Q in
    Some (update_knight_image (with_offset (with_zoom v new_zoom) ox oy)).

Inductive handled :=
  | Stop
  | Go_on (v : visualizer)
  | ZeroDivisionError.

(** The body of [for event in pygame.event.get()]; [mouse] is what
    [pygame.mouse.get_pos()] answers while the event is handled. *)
Definition handle_event (v : visualizer) (e : event) (mouse : Z * Z)
  : handled :=
  match e with
  | QUIT => Stop
  | KEYDOWN K_ESCAPE => Stop
  | KEYDOWN K_r =>
      Go_on (update_knight_image (center_view (with_zoom v 1)))
  | KEYDOWN K_other => Go_on v
  | MOUSEBUTTONDOWN button =>
      if button =? 4 then
        match zoom_about v (Qmin 5 (zoom_level v * (11 # 10))) mouse with
        | Some v' => Go_on v'
        | None => ZeroDivisionError
        end
      else if button =? 5 then
        match zoom_about v (Qmax (1 # 10) (zoom_level v / (11 # 10))) mouse with
        | Some v' => Go_on v'
        | None => ZeroDivisionError
        end
      else if button =? 1 then
        if sidebar_width <? mouse.1 then Go_on (with_drag v true mouse)
        else Go_on v
      else Go_on v
  | MOUSEBUTTONUP button =>
      if button =? 1 then Go_on (with_drag v false (drag_start v))
      else Go_on v
  | MOUSEMOTION =>
      if dragging v then
        let dx := mouse.1 - (drag_start v).1 in
        let dy := mouse.2 - (drag_start v).2 in
        Go_on (with_drag
                 (with_offset v (offset_x v + inject_Z dx)
                                (offset_y v + inject_Z dy))
                 true mouse)
      else Go_on v
  | OTHER_EVENT => Go_on v
  end.

(** [handle_events]: the returned flag and the view it leaves; [None]
    stands for the ZeroDivisionError. *)
Fixpoint handle_events (v : visualizer) (events : list (event * (Z * Z)))
  : option (bool * visualizer) :=
  match events with
  | [] => Some (true, v)
  | (e, mouse) :: events' =>
      match handle_event v e mouse with
      | Stop => Some (false, v)
      | Go_on v' => handle_events v' events'
      | ZeroDivisionError => None
      end
  end.

(** One picture put on the screen by [run]: the view it is drawn with and
    the argument of [_draw_partial_path], if the path is drawn at all. *)
Record screen := {
  scr_view : visualizer;
  scr_steps : option nat
}.

(** What a pass of the loop of [run] draws after the board, and the two
    local variables [animation_done] and [current_step] as it leaves
    them. *)
Definition run_draw (animate : bool) (total_steps : nat)
    (animation_done : bool) (current_step : nat) : option nat * bool * nat :=
  if animate && negb animation_done then
    if (current_step <? total_steps)%nat
    then (Some (S current_step), animation_done, S current_step)
    else (None, true, current_step)
  else (Some total_steps, animation_done, current_step).

(** The loop [while running] of [run].  The queue of events read by the
    successive calls of [handle_events] is given as a list of batches; the
    result is the pictures shown, one for each pass, and whether the loop
    was left ([false] when the batches run out first). *)
Fixpoint run_loop (animate : bool) (total_steps : nat)
    (batches : list (list (event * (Z * Z))))
    (v : visualizer) (animation_done : bool) (current_step : nat)
  : option (list screen * bool) :=
  match batches with
  | [] => Some ([], false)
  | events :: batches' =>
      match handle_events v events with
      | None => None
      | Some (running, v') =>
          let d := run_draw animate total_steps animation_done current_step in
          let shown := {| scr_view := v'; scr_steps := d.1.1 |} in
          if running then
            match run_loop animate total_steps batches' v' d.1.2 d.2 with
            | None => None
            | Some (rest, ended) => Some (shown :: rest, ended)
            end
          else Some ([shown], true)
      end
  end.

(** [run(animate, delay)]: the board alone is shown first. *)
Definition run (v : visualizer) (animate : bool)
    (batches : list (list (event * (Z * Z)))) : option (list screen * bool) :=
  match run_loop animate (length (path (vis_tour v))) batches v false O with
  | None => None
  | Some (shown, ended) =>
      Some ({| scr_view := v; scr_steps := None |} :: shown, ended)
  end.

(** ** Vocabulary for the properties of these methods *)

(** The tracked moves [l] retrace the path [p]: one entry for each step,
    numbered from 1, from each position to the next. *)
Definition retraces (p : list cell) (l : list tracked_move) : Prop :=
  (length l + 1 = length p)%nat
  ∧ ∀ (k : nat) (m : tracked_move), l !! k = Some m →
      move_number m = Z.of_nat k + 1
      ∧ p !! k = Some (from_cell m)
      ∧ p !! S k = Some (to_cell m).

(** A stream that encodes every code point. *)
Definition full_stream : stream := λ _, true.

(** The stream encodes the letters outside ASCII of the texts of the
    program, but for the arrow of [print_path]. *)
Definition encodes_letters (out : stream) : Prop :=
  out 161 = true ∧ out 201 = true ∧ out 225 = true ∧ out 233 = true
  ∧ out 237 = true ∧ out 243 = true.

(** The stream encodes the message of a failed writing. *)
Definition encodes_error (out : stream) (w : file_write) : Prop :=
  match w with
  | File_written => True
  | File_error message => prints out message = true
  end.

Definition encodes_errors (out : stream) (files : log_files) : Prop :=
  encodes_error out (stats_file files) ∧ encodes_error out (debug_file files).

(** The stream encodes the arrow and the characters of the columns of a
    board of size [n]: those from column 31 on are outside ASCII. *)
Definition encodes_path (out : stream) (n : Z) : Prop :=
  out 8594 = true ∧ ∀ y, 31 <= y < n → out (97 + y) = true.

(** The stream can take all that the program writes for a board of size
    [n]. *)
Definition stream_suffices (out : stream) (files : log_files) (n : Z) : Prop :=
  encodes_letters out ∧ encodes_errors out files ∧ encodes_path out n.

(** A stream with the code points below 256 and no other, as one encoded
    in Latin-1. *)
Definition latin1_stream : stream := λ c, c <? 256.

(** Log files that are written. *)
Definition files_written : log_files :=
  {| stats_file := File_written; debug_file := File_written |}.

(** A new object of size [n] on which a search has placed its start
    cell. *)
Definition started (n x y : Z) : tour :=
  with_path (with_board (init n)
               (default [] (board_set (board (init n)) x y 0))) [(x, y)].

(** The number under which [_solve_with_warnsdorff_variation] knows the
    scoring that [solve_with_warnsdorff] selects by name. *)
Definition mode_variation (mode : string) : Z :=
  if bool_decide (mode = "center") then 1
  else if bool_decide (mode = "corners") then 2
  else 0.

(** No cell of the board is left to move to. *)
Definition full_board (t : tour) : Prop :=
  ∀ x y, is_valid_move t x y = false.

(** Two objects with the same board size, board and path. *)
Definition same_search (t1 t2 : tour) : Prop :=
  size t1 = size t2 ∧ board t1 = board t2 ∧ path t1 = path t2.

(** The statistics of one variation, in the order of the attempts. *)
Definition stats_of_type (k : Z) (stats : list variation_info)
  : list variation_info :=
  filter (λ s, variation_type s = k) stats.

(** The zoom level is within its two bounds. *)
Definition zoom_in_range (v : visualizer) : Prop :=
  ((1 # 10) <= zoom_level v)%Q ∧ (zoom_level v <= 5)%Q.

(** An event that makes [handle_events] return [False]. *)
Definition quits (e : event) : bool :=
  match e with
  | QUIT | KEYDOWN K_ESCAPE => true
  | _ => false
  end.

(** The side of the board on the screen, in pixels. *)
Definition board_side (v : visualizer) : Q :=
  inject_Z (size (vis_tour v)) * cell_size v * zoom_level v.

(** The scaled image fits the zoom level: it is what
    [update_knight_image] would make of the view as it is. *)
Definition image_fits_zoom (v : visualizer) : Prop :=
  knight_img_scaled v
  = if knight_img v then
      let knight_size := Qtrunc (cell_size v * zoom_level v - 30) in
      if 10 <? knight_size then Some knight_size else None
    else None.

(** A run of mouse motions through the positions [ms]. *)
Definition motions (ms : list (Z * Z)) : list (event * (Z * Z)) :=
  (λ m, (MOUSEMOTION, m)) <$> ms.

(** The steps of the path drawn in pass [i] (from 0) of the loop of [run]
    for a path of [total] positions; [None] when the board is shown
    without the path. *)
Definition animation_steps (animate : bool) (total i : nat) : option nat :=
  if animate then
    if (i <? total)%nat then Some (S i)
    else if (i =? total)%nat then None
    else Some total
  else Some total.

(** No tour from [start] begins with the path [p] followed by [c]. *)
Definition refuted (n : Z) (start : cell) (p : list cell) (c : cell) : Prop :=
  ¬ ∃ q, completes n start (p ++ [c]) q.

(** The frames below a frame that stands on [c], over the path [p] that
    leads to [c]: each has its cursor one past the move to the position
    above it, and every move before that one is refuted. *)
Inductive below (n : Z) (start : cell) : list frame → list cell → cell → Prop :=
  | below_nil c : below n start [] [] c
  | below_cons g rest p c j :
      below n start rest p (f_x g, f_y g) →
      f_i g = S j → (j < 8)%nat →
      c = (f_x g + move_dx j, f_y g + move_dy j) →
      (∀ j', (j' < j)%nat →
         refuted n start (p ++ [(f_x g, f_y g)])
                 (f_x g + move_dx j', f_y g + move_dy j')) →
      below n start (g :: rest) (p ++ [(f_x g, f_y g)]) c.

(** Between two passes of the loop of [solve]: the moves tried before the
    one taken, at every position of the path, and the moves before the
    cursor of the top frame are refuted. *)
Definition first_inv (n : Z) (start : cell) (t : tour) (stack : list frame)
  : Prop :=
  match stack with
  | [] => True
  | f :: rest =>
      ∃ p, path t = p ++ [(f_x f, f_y f)]
           ∧ below n start rest p (f_x f, f_y f)
           ∧ ∀ j', (j' < f_i f)%nat →
               refuted n start (path t)
                       (f_x f + move_dx j', f_y f + move_dy j')
  end.

(** The path takes, at each of its positions, the first move that is not
    refuted. *)
Definition first_choices (n : Z) (start : cell) (p : list cell) : Prop :=
  ∀ (d : nat) (x y : Z) (c : cell),
    p !! d = Some (x, y) → p !! S d = Some c →
    ∃ j, (j < 8)%nat ∧ c = (x + move_dx j, y + move_dy j)
         ∧ ∀ j', (j' < j)%nat →
             refuted n start (take (S d) p) (x + move_dx j', y + move_dy j').
(** ** Arrays *)

Lemma py_index_in_range (len : nat) (i : Z) :
  0 <= i < Z.of_nat len → py_index len i = Some (Z.to_nat i).
Proof.
  intros H. unfold py_index.
  destruct (Z.leb_spec 0 i), (Z.ltb_spec i (Z.of_nat len)); simpl; try lia.
  reflexivity.
Qed.

Lemma in_bounds_spec (n x y : Z) :
  in_bounds n x y = true ↔ 0 <= x < n ∧ 0 <= y < n.
Proof.
  unfold in_bounds. rewrite !andb_true_iff, !Z.leb_le, !Z.ltb_lt. lia.
Qed.

Lemma wf_board_row (n : Z) (b : board_t) (x : Z) :
  wf_board n b → 0 <= x < n →
  ∃ row, b !! Z.to_nat x = Some row ∧ length row = Z.to_nat n.
Proof.
  intros [Hlen Hrows] Hx.
  destruct (lookup_lt_is_Some_2 b (Z.to_nat x)) as [row Hrow]; [lia|].
  exists row. split; [done|].
  eapply Forall_lookup_1 in Hrows; eauto.
Qed.

Lemma board_get_in_bounds (n : Z) (b : board_t) (x y : Z) :
  wf_board n b → in_bounds n x y = true →
  ∃ row v, b !! Z.to_nat x = Some row ∧ row !! Z.to_nat y = Some v
           ∧ board_get b x y = Some v.
Proof.
  intros Hwf Hb. apply in_bounds_spec in Hb as [Hx Hy].
  destruct (wf_board_row n b x Hwf Hx) as (row & Hrow & Hlen).
  destruct (lookup_lt_is_Some_2 row (Z.to_nat y)) as [v Hv]; [lia|].
  exists row, v. repeat split; try done.
  unfold board_get. destruct Hwf as [Hb _].
  rewrite py_index_in_range by lia. simpl. rewrite Hrow. simpl.
  rewrite py_index_in_range by lia. simpl. done.
Qed.

Lemma board_set_in_bounds (n : Z) (b : board_t) (x y v : Z) :
  wf_board n b → in_bounds n x y = true →
  ∃ b', board_set b x y v = Some b' ∧ wf_board n b'
        ∧ board_get b' x y = Some v
        ∧ ∀ x' y', in_bounds n x' y' = true → (x', y') ≠ (x, y) →
                   board_get b' x' y' = board_get b x' y'.
Proof.
  intros Hwf Hb.
  destruct (board_get_in_bounds n b x y Hwf Hb) as (row & v0 & Hrow & Hv0 & _).
  pose proof Hb as Hb'. apply in_bounds_spec in Hb' as [Hx Hy].
  pose proof Hwf as [Hlen Hrows].
  assert (Hrl : length row = Z.to_nat n).
  { eapply Forall_lookup_1 in Hrows; eauto. }
  exists (<[Z.to_nat x := <[Z.to_nat y := v]> row]> b).
  assert (Hwf' : wf_board n (<[Z.to_nat x := <[Z.to_nat y := v]> row]> b)).
  { split; [by rewrite length_insert|].
    apply Forall_insert; [done|]. by rewrite length_insert. }
  split.
  { unfold board_set. rewrite py_index_in_range by lia. simpl.
    rewrite Hrow. simpl. rewrite py_index_in_range by lia. done. }
  split; [done|]. split.
  { destruct (board_get_in_bounds n _ x y Hwf' Hb) as (row' & v' & Hrow' & Hv' & ->).
    rewrite list_lookup_insert_eq in Hrow' by lia. injection Hrow' as <-.
    rewrite list_lookup_insert_eq in Hv' by lia. done. }
  intros x' y' Hb2 Hne.
  destruct (board_get_in_bounds n _ x' y' Hwf' Hb2) as (r1 & v1 & Hr1 & Hv1 & ->).
  destruct (board_get_in_bounds n _ x' y' Hwf Hb2) as (r2 & v2 & Hr2 & Hv2 & ->).
  apply in_bounds_spec in Hb2 as [Hx' Hy'].
  destruct (decide (x' = x)) as [->|Hxne].
  - rewrite list_lookup_insert_eq in Hr1 by lia. injection Hr1 as <-.
    rewrite Hrow in Hr2. injection Hr2 as <-.
    rewrite list_lookup_insert_ne in Hv1 by (intros Heq; apply Hne; f_equal; lia).
    congruence.
  - rewrite list_lookup_insert_ne in Hr1 by lia. congruence.
Qed.

Lemma fresh_board_wf (n : Z) : wf_board n (fresh_board n).
Proof.
  split; unfold fresh_board.
  - by rewrite length_replicate.
  - apply Forall_replicate. by rewrite length_replicate.
Qed.

Lemma fresh_board_get (n x y : Z) :
  in_bounds n x y = true → board_get (fresh_board n) x y = Some (-1).
Proof.
  intros Hb.
  destruct (board_get_in_bounds n _ x y (fresh_board_wf n) Hb)
    as (row & v & Hrow & Hv & ->).
  unfold fresh_board in Hrow.
  apply lookup_replicate in Hrow as [-> _].
  apply lookup_replicate in Hv as [-> _]. done.
Qed.

Lemma list_pop_snoc {A : Type} (l : list A) (x : A) :
  list_pop (l ++ [x]) = Some (l, x).
Proof.
  unfold list_pop. rewrite reverse_snoc. by rewrite reverse_involutive.
Qed.

(** ** Knight moves *)

Lemma move_is_knight_step (x y : Z) (j : nat) :
  (j < 8)%nat → is_knight_step (x, y) (x + move_dx j, y + move_dy j) = true.
Proof.
  intros Hj. unfold is_knight_step. apply bool_decide_eq_true. simpl.
  replace (x + move_dx j - x) with (move_dx j) by lia.
  replace (y + move_dy j - y) with (move_dy j) by lia.
  do 8 (destruct j as [|j]; [set_solver|]). lia.
Qed.

Lemma knight_step_is_move (a b : cell) :
  is_knight_step a b = true →
  ∃ j, (j < 8)%nat ∧ b = (a.1 + move_dx j, a.2 + move_dy j).
Proof.
  unfold is_knight_step. intros H. apply bool_decide_eq_true in H.
  destruct a as [ax ay], b as [bx b_y]. simpl in *.
  unfold knight_offsets in H.
  repeat (apply elem_of_cons in H as [H|H]);
    [injection H as H1 H2 .. | by apply elem_of_nil in H].
  1: exists 0%nat. 2: exists 1%nat. 3: exists 2%nat. 4: exists 3%nat.
  5: exists 4%nat. 6: exists 5%nat. 7: exists 6%nat. 8: exists 7%nat.
  all: split; [lia|]; unfold move_dx, move_dy; simpl; f_equal; lia.
Qed.

Lemma knight_chain_snoc (p : list cell) (a b : cell) :
  knight_chain (p ++ [a]) = true → is_knight_step a b = true →
  knight_chain (p ++ [a; b]) = true.
Proof.
  induction p as [|c p IH]; simpl; intros Hc Hs.
  - by rewrite Hs.
  - destruct p as [|d p]; simpl in *.
    + apply andb_true_iff in Hc as [-> _]. by rewrite Hs.
    + apply andb_true_iff in Hc as [-> Hc]. simpl. by apply IH.
Qed.

Lemma knight_chain_app_l (p k : list cell) :
  knight_chain (p ++ k) = true → knight_chain p = true.
Proof.
  induction p as [|c p IH]; simpl; [done|].
  destruct p as [|d p]; simpl in *; [done|].
  intros H. apply andb_true_iff in H as [-> H]. simpl. by apply IH.
Qed.

Lemma knight_chain_next (p k : list cell) (a b : cell) :
  knight_chain (p ++ a :: b :: k) = true → is_knight_step a b = true.
Proof.
  induction p as [|c p IH]; simpl.
  - intros H. by apply andb_true_iff in H as [-> _].
  - destruct p as [|d p]; simpl in *.
    + intros H. apply andb_true_iff in H as [_ H]. by apply IH.
    + intros H. apply andb_true_iff in H as [_ H]. by apply IH.
Qed.

(** ** The moves tried by the scan *)

Lemma is_valid_move_true (t : tour) (x y : Z) :
  is_valid_move t x y = true ↔
  in_bounds (size t) x y = true ∧ board_get (board t) x y = Some (-1).
Proof.
  unfold is_valid_move. rewrite andb_true_iff.
  destruct (board_get (board t) x y) as [v|]; split; intros [H1 H2];
    split; try done.
  - apply Z.eqb_eq in H2. by subst.
  - injection H2 as ->. done.
Qed.

Lemma scan_moves_some (t : tour) (x y : Z) (k i j : nat) :
  scan_moves t x y k i = Some j →
  (i <= j < i + k)%nat
  ∧ is_valid_move t (x + move_dx j) (y + move_dy j) = true
  ∧ ∀ j', (i <= j' < j)%nat →
          is_valid_move t (x + move_dx j') (y + move_dy j') = false.
Proof.
  revert i. induction k as [|k IH]; simpl; intros i H; [done|].
  destruct (is_valid_move t (x + move_dx i) (y + move_dy i)) eqn:Hv.
  - injection H as <-. repeat split; try done; try lia; intros; lia.
  - apply IH in H as (Hr & Hj & Hlt). repeat split; try done; try lia.
    intros j' Hj'. destruct (decide (j' = i)) as [->|]; [done|].
    apply Hlt. lia.
Qed.

Lemma scan_moves_none (t : tour) (x y : Z) (k i : nat) :
  scan_moves t x y k i = None →
  ∀ j', (i <= j' < i + k)%nat →
        is_valid_move t (x + move_dx j') (y + move_dy j') = false.
Proof.
  revert i. induction k as [|k IH]; simpl; intros i H j' Hj'; [lia|].
  destruct (is_valid_move t (x + move_dx i) (y + move_dy i)) eqn:Hv; [done|].
  destruct (decide (j' = i)) as [->|]; [done|]. apply (IH (S i)); [done|lia].
Qed.

(** ** Placing and unplacing a cell *)

Lemma placed_nodup (t : tour) : placed t → NoDup (path t).
Proof.
  intros [_ Hp _]. apply NoDup_alt. intros i j c Hi Hj.
  apply Hp in Hi as [_ Hi]. apply Hp in Hj as [_ Hj].
  rewrite Hi in Hj. injection Hj. lia.
Qed.

Lemma placed_visited (t : tour) (x y : Z) :
  placed t → in_bounds (size t) x y = true →
  is_valid_move t x y = false → (x, y) ∈ path t.
Proof.
  intros Hpl Hb Hv.
  destruct (board_get_in_bounds _ _ x y (placed_wf _ Hpl) Hb)
    as (row & v & _ & _ & Hget).
  destruct (placed_board _ Hpl x y v Hb Hget) as [->|[_ Hl]].
  - assert (is_valid_move t x y = true) by (by apply is_valid_move_true).
    congruence.
  - eapply list_elem_of_lookup_2; eauto.
Qed.

Lemma placed_unvisited (t : tour) (x y : Z) :
  placed t → is_valid_move t x y = true → (x, y) ∉ path t.
Proof.
  intros Hpl Hv Hin. apply is_valid_move_true in Hv as [Hb Hget].
  apply list_elem_of_lookup_1 in Hin as [j Hj].
  apply (placed_path _ Hpl) in Hj as [_ Hj]. simpl in Hj.
  rewrite Hget in Hj. injection Hj. lia.
Qed.

Lemma placed_place (t : tour) (x y : Z) (b : board_t) :
  placed t → is_valid_move t x y = true →
  board_set (board t) x y (Z.of_nat (length (path t))) = Some b →
  placed (with_path (with_board t b) (path t ++ [(x, y)])).
Proof.
  intros Hpl Hv Hset. pose proof Hv as Hv'.
  apply is_valid_move_true in Hv' as [Hb Hget].
  destruct (board_set_in_bounds _ _ x y (Z.of_nat (length (path t)))
              (placed_wf _ Hpl) Hb) as (b' & Hset' & Hwf & Hnew & Hold).
  rewrite Hset in Hset'. injection Hset' as <-.
  split; simpl.
  - done.
  - intros j c Hj. apply lookup_app_Some in Hj as [Hj|[Hlen Hj]].
    + pose proof Hj as Hj'. apply (placed_path _ Hpl) in Hj' as [Hcb Hcg].
      split; [done|]. rewrite Hold; [done|done|].
      intros Heq. apply (placed_unvisited t x y Hpl Hv).
      eapply list_elem_of_lookup_2. destruct c. simpl in *.
      injection Heq as -> ->. eauto.
    + destruct (j - length (path t))%nat as [|m] eqn:Hm; [|done].
      simpl in Hj. injection Hj as <-. simpl. split; [done|].
      rewrite Hnew. f_equal. lia.
  - intros x' y' v Hb' Hg.
    destruct (decide ((x', y') = (x, y))) as [Heq|Hne].
    + injection Heq as -> ->. rewrite Hnew in Hg. injection Hg as <-.
      right. split; [lia|]. rewrite Nat2Z.id.
      rewrite lookup_app_r by lia. by rewrite Nat.sub_diag.
    + rewrite Hold in Hg by done.
      destruct (placed_board _ Hpl x' y' v Hb' Hg) as [->|[Hv0 Hl]];
        [by left|right]. split; [done|].
      apply lookup_app_Some. by left.
Qed.

Lemma placed_unplace (t : tour) (p : list cell) (x y : Z) (b : board_t) :
  placed t → path t = p ++ [(x, y)] →
  board_set (board t) x y (-1) = Some b →
  placed (with_path (with_board t b) p).
Proof.
  intros Hpl Hpath Hset.
  assert (Hlast : path t !! length p = Some (x, y)).
  { rewrite Hpath, lookup_app_r by lia. by rewrite Nat.sub_diag. }
  destruct (placed_path _ Hpl _ _ Hlast) as [Hb Hget]. simpl in Hb, Hget.
  destruct (board_set_in_bounds _ _ x y (-1) (placed_wf _ Hpl) Hb)
    as (b' & Hset' & Hwf & Hnew & Hold).
  rewrite Hset in Hset'. injection Hset' as <-.
  split; simpl.
  - done.
  - intros j c Hj.
    assert (Hj' : path t !! j = Some c).
    { rewrite Hpath. apply lookup_app_Some. by left. }
    destruct (placed_path _ Hpl _ _ Hj') as [Hcb Hcg]. split; [done|].
    rewrite Hold; [done|done|].
    intros Heq. apply lookup_lt_Some in Hj.
    destruct c; simpl in *. injection Heq as -> ->.
    rewrite Hcg in Hget. injection Hget. lia.
  - intros x' y' v Hb' Hg.
    destruct (decide ((x', y') = (x, y))) as [Heq|Hne].
    + injection Heq as -> ->. rewrite Hnew in Hg. injection Hg as <-. by left.
    + rewrite Hold in Hg by done.
      destruct (placed_board _ Hpl x' y' v Hb' Hg) as [->|[Hv0 Hl]];
        [by left|right]. split; [done|].
      rewrite Hpath in Hl. apply lookup_app_Some in Hl as [Hl|[Hlen Hl]]; [done|].
      destruct (Z.to_nat v - length p)%nat; [|done].
      simpl in Hl. by injection Hl as <- <-.
Qed.

Lemma placed_is_visited (t : tour) : placed t → visited t.
Proof.
  intros Hpl. split.
  - apply (placed_wf _ Hpl).
  - intros c Hc. apply list_elem_of_lookup_1 in Hc as [j Hj].
    apply (placed_path _ Hpl) in Hj as [Hb Hg]. split; [done|].
    rewrite Hg. intros [=]. lia.
  - by apply placed_nodup.
Qed.

Lemma visited_unvisited (t : tour) (x y : Z) :
  visited t → is_valid_move t x y = true → (x, y) ∉ path t.
Proof.
  intros Hvis Hv Hin. apply is_valid_move_true in Hv as [_ Hget].
  by apply (visited_path _ Hvis) in Hin as [_ Hne].
Qed.

Lemma visited_place (t : tour) (x y v : Z) (b : board_t) :
  visited t → is_valid_move t x y = true → v ≠ -1 →
  board_set (board t) x y v = Some b →
  visited (with_path (with_board t b) (path t ++ [(x, y)])).
Proof.
  intros Hvis Hv Hv1 Hset. pose proof Hv as Hv'.
  apply is_valid_move_true in Hv' as [Hb Hget].
  destruct (board_set_in_bounds _ _ x y v (visited_wf _ Hvis) Hb)
    as (b' & Hset' & Hwf & Hnew & Hold).
  rewrite Hset in Hset'. injection Hset' as <-.
  pose proof (visited_unvisited t x y Hvis Hv) as Hfresh.
  split; simpl.
  - done.
  - intros c Hc. apply elem_of_app in Hc as [Hc|Hc].
    + destruct (visited_path _ Hvis c Hc) as [Hcb Hcg]. split; [done|].
      rewrite Hold; [done|done|]. intros Heq. apply Hfresh.
      destruct c. simpl in *. by injection Heq as <- <-.
    + apply list_elem_of_singleton in Hc as ->. simpl. split; [done|].
      rewrite Hnew. intros [=]. done.
  - apply NoDup_app. split; [apply (visited_nodup _ Hvis)|]. split.
    + intros c Hc Hc'. apply list_elem_of_singleton in Hc' as ->. done.
    + apply NoDup_singleton.
Qed.

Lemma visited_unplace (t : tour) (p : list cell) (x y : Z) (b : board_t) :
  visited t → path t = p ++ [(x, y)] →
  board_set (board t) x y (-1) = Some b →
  visited (with_path (with_board t b) p).
Proof.
  intros Hvis Hpath Hset.
  assert (Hlast : (x, y) ∈ path t) by (rewrite Hpath; set_solver).
  destruct (visited_path _ Hvis _ Hlast) as [Hb _]. simpl in Hb.
  destruct (board_set_in_bounds _ _ x y (-1) (visited_wf _ Hvis) Hb)
    as (b' & Hset' & Hwf & Hnew & Hold).
  rewrite Hset in Hset'. injection Hset' as <-.
  pose proof (visited_nodup _ Hvis) as Hnd. rewrite Hpath in Hnd.
  apply NoDup_app in Hnd as (Hnd & Hdisj & _).
  split; simpl.
  - done.
  - intros c Hc.
    assert (Hc' : c ∈ path t) by (rewrite Hpath; set_solver).
    destruct (visited_path _ Hvis c Hc') as [Hcb Hcg]. split; [done|].
    rewrite Hold; [done|done|]. intros Heq. apply (Hdisj c Hc).
    destruct c. simpl in *. injection Heq as -> ->. set_solver.
  - done.
Qed.

Lemma visited_inside (t : tour) (c : cell) :
  visited t → c ∈ path t → cell_in_bounds (size t) c.
Proof. intros Hvis Hc. by apply (visited_path _ Hvis) in Hc as [? _]. Qed.

(** ** The loop invariant of [solve] *)

Lemma stack_inv_nonempty (f : frame) (rest : list frame) (p : list cell) :
  stack_inv (f :: rest) p →
  ∃ p', p = p' ++ [(f_x f, f_y f)] ∧ stack_inv rest p'
        ∧ f_count f = Z.of_nat (length p).
Proof.
  intros H. inversion H as [|f' rest' p' Hrest Hc]; subst.
  exists p'. repeat split; try done. rewrite length_app. simpl. lia.
Qed.

Lemma head_snoc_nonempty {A : Type} (l : list A) (x y : A) :
  head ((l ++ [x]) ++ [y]) = head (l ++ [x]).
Proof. by destruct l. Qed.

(** What one pass does to a state that satisfies the invariant. *)
Lemma solve_body_inv (start : cell) (t : tour) (stack : list frame) :
  solve_inv start t stack →
  match solve_body t stack with
  | Return_ true t' =>
      t' = t ∧ Z.of_nat (length (path t)) = size t * size t
  | Return_ false t' => t' = solve_reset t ∧ stack = []
  | Raise_ => False
  | Continue_ t' stack' => solve_inv start t' stack' ∧ size t' = size t
  end.
Proof.
  intros [Hvis Hch Hhd Hst]. destruct stack as [|top rest]; simpl; [done|].
  destruct Hst as [|Hst]; [done|].
  apply stack_inv_nonempty in Hst as (p & Hp & Hrest & Hcount).
  destruct (Z.eqb_spec (f_count top) (size t * size t)) as [Heq|Hne].
  { split; [done|]. lia. }
  destruct (scan_moves t (f_x top) (f_y top) (8 - f_i top) (f_i top))
    as [i|] eqn:Hscan.
  - apply scan_moves_some in Hscan as (Hi & Hv & _).
    pose proof Hv as Hv'. apply is_valid_move_true in Hv' as [Hb _].
    destruct (board_set_in_bounds _ _ _ _ (f_count top) (visited_wf _ Hvis) Hb)
      as (b & Hset & _).
    rewrite Hset. split; [|done]. split; simpl.
    + apply (visited_place t _ _ (f_count top)); [done|done|lia|done].
    + rewrite Hp, <- app_assoc. simpl. apply knight_chain_snoc.
      * by rewrite <- Hp.
      * apply move_is_knight_step. lia.
    + rewrite Hp, head_snoc_nonempty. by rewrite <- Hp.
    + right. apply stack_inv_cons; simpl; [|lia].
      rewrite Hp.
      apply (stack_inv_cons
               {| f_count := f_count top; f_x := f_x top; f_y := f_y top;
                  f_i := S i |}); simpl; [done|].
      rewrite Hcount, Hp, length_app. simpl. lia.
  - destruct rest as [|f' rest']; [split; [|done]; split; auto|].
    rewrite Hp, list_pop_snoc.
    assert (Hlast : (f_x top, f_y top) ∈ path t) by (rewrite Hp; set_solver).
    destruct (visited_path _ Hvis _ Hlast) as [Hb _]. simpl in Hb.
    destruct (board_set_in_bounds _ _ _ _ (-1) (visited_wf _ Hvis) Hb)
      as (b & Hset & _).
    simpl in Hset |- *. rewrite Hset. split; [|done]. split; simpl.
    + eapply visited_unplace; eauto.
    + rewrite Hp in Hch. by apply knight_chain_app_l in Hch.
    + apply stack_inv_nonempty in Hrest as Hrest'.
      destruct Hrest' as (p' & Hp' & _). rewrite Hp in Hhd.
      rewrite Hp' in *. by rewrite head_snoc_nonempty in Hhd.
    + by right.
Qed.

(** The state in which [solve] enters its loop. *)
Lemma solve_entry (t : tour) (start_x start_y : Z) :
  wf_board (size t) (board t) →
  in_bounds (size t) start_x start_y = true →
  ∃ b, board_set (board t) start_x start_y 0 = Some b
       ∧ solve_inv (start_x, start_y)
           (with_path (with_board t b) [(start_x, start_y)])
           [{| f_count := 1; f_x := start_x; f_y := start_y; f_i := 0 |}].
Proof.
  intros Hwf Hb.
  destruct (board_set_in_bounds _ _ start_x start_y 0 Hwf Hb)
    as (b & Hset & Hwf' & Hnew & _).
  exists b. split; [done|]. split; simpl.
  - split; simpl.
    + done.
    + intros c Hc. apply list_elem_of_singleton in Hc as ->. simpl.
      split; [done|]. rewrite Hnew. intros [=].
    + apply NoDup_singleton.
  - done.
  - done.
  - right.
    apply (stack_inv_cons
             {| f_count := 1; f_x := start_x; f_y := start_y; f_i := 0 |}
             [] []); [constructor|done].
Qed.

Lemma solve_entry_placed (t : tour) (start_x start_y : Z) (b : board_t) :
  board t = fresh_board (size t) →
  in_bounds (size t) start_x start_y = true →
  board_set (board t) start_x start_y 0 = Some b →
  placed (with_path (with_board t b) [(start_x, start_y)]).
Proof.
  intros Hfresh Hb Hset.
  set (t0 := with_path t []).
  assert (Hpl0 : placed t0).
  { split; simpl.
    - rewrite Hfresh. apply fresh_board_wf.
    - intros j c Hj. done.
    - intros x y v Hb' Hg. rewrite Hfresh, fresh_board_get in Hg by done.
      left. congruence. }
  assert (Hv : is_valid_move t0 start_x start_y = true).
  { apply is_valid_move_true. simpl. split; [done|].
    rewrite Hfresh. by apply fresh_board_get. }
  apply (placed_place t0 start_x start_y b Hpl0 Hv Hset).
Qed.

Lemma solve_iter_inv (start : cell) (n : nat) (t : tour) (stack : list frame) :
  solve_inv start t stack →
  match solve_iter n t stack with
  | Return_ true t' =>
      visited t' ∧ knight_chain (path t') = true
      ∧ head (path t') = Some start
      ∧ Z.of_nat (length (path t')) = size t' * size t' ∧ size t' = size t
  | Return_ false t' =>
      board t' = fresh_board (size t) ∧ path t' = [] ∧ size t' = size t
  | Raise_ => False
  | Continue_ t' stack' => solve_inv start t' stack' ∧ size t' = size t
  end.
Proof.
  revert t stack. induction n as [|n IH]; intros t stack Hinv; simpl; [done|].
  pose proof (solve_body_inv start t stack Hinv) as Hbody.
  destruct (solve_body t stack) as [[|] t'| |t' stack'].
  - destruct Hbody as [-> Hlen]. by destruct Hinv.
  - destruct Hbody as [-> _]. done.
  - done.
  - destruct Hbody as [Hinv' Hsz]. specialize (IH t' stack' Hinv').
    rewrite Hsz in IH. done.
Qed.

Lemma solve_loop_iter (n : nat) (t : tour) (stack : list frame) :
  solve_loop n t stack =
  match solve_iter n t stack with
  | Return_ b t' => Returned (b, t')
  | Raise_ => IndexError
  | Continue_ _ _ => OutOfFuel
  end.
Proof.
  revert t stack. induction n as [|n IH]; intros t stack; simpl; [done|].
  destruct (solve_body t stack); try done.
Qed.

Lemma solve_iter_add (n m : nat) (t : tour) (stack : list frame) :
  solve_iter (n + m) t stack =
  match solve_iter n t stack with
  | Continue_ t' stack' => solve_iter m t' stack'
  | r => r
  end.
Proof.
  revert t stack. induction n as [|n IH]; intros t stack; simpl; [done|].
  destruct (solve_body t stack); try done.
Qed.

Lemma solve_iter_1 (t : tour) (stack : list frame) :
  solve_iter 1 t stack = solve_body t stack.
Proof. unfold solve_iter. by destruct (solve_body t stack). Qed.

(** More fuel never changes an answer already given. *)
Lemma solve_loop_mono (n m : nat) (t : tour) (stack : list frame)
    (r : bool * tour) :
  solve_loop n t stack = Returned r → (n <= m)%nat →
  solve_loop m t stack = Returned r.
Proof.
  intros H Hle. replace m with (n + (m - n))%nat by lia.
  rewrite solve_loop_iter in *. rewrite solve_iter_add.
  destruct (solve_iter n t stack); done.
Qed.

(** ** Counting cells *)

Lemma all_cells_elem (n : Z) (c : cell) :
  c ∈ all_cells n ↔ cell_in_bounds n c.
Proof.
  unfold all_cells, cell_in_bounds. destruct c as [x y]. simpl.
  rewrite list_elem_of_In, in_prod_iff, <- !list_elem_of_In.
  rewrite !elem_of_seqZ, in_bounds_spec. lia.
Qed.

Lemma all_cells_length (n : Z) :
  length (all_cells n) = (Z.to_nat n * Z.to_nat n)%nat.
Proof. unfold all_cells. by rewrite length_prod, length_seqZ. Qed.

Lemma all_cells_nodup (n : Z) : NoDup (all_cells n).
Proof.
  unfold all_cells. rewrite <- list_cprod_list_prod.
  unfold cprod, list_cprod. apply NoDup_bind.
  - intros x1 x2 [a b] _ _ H1 H2.
    apply list_elem_of_fmap in H1 as (? & [= -> _] & _).
    apply list_elem_of_fmap in H2 as (? & [= -> _] & _). done.
  - intros x _. apply NoDup_fmap_2; [|apply NoDup_seqZ].
    intros a b [=]. done.
  - apply NoDup_seqZ.
Qed.

Lemma path_length_bound (n : Z) (p : list cell) :
  NoDup p → (∀ c, c ∈ p → cell_in_bounds n c) →
  (length p <= Z.to_nat n * Z.to_nat n)%nat.
Proof.
  intros Hnd Hin. rewrite <- all_cells_length.
  apply submseteq_length, NoDup_submseteq; [done|].
  intros c Hc. apply all_cells_elem. auto.
Qed.

Lemma path_covers (n : Z) (p : list cell) :
  NoDup p → (∀ c, c ∈ p → cell_in_bounds n c) →
  length p = (Z.to_nat n * Z.to_nat n)%nat →
  ∀ c, cell_in_bounds n c → c ∈ p.
Proof.
  intros Hnd Hin Hlen c Hc.
  assert (Hperm : p ≡ₚ all_cells n).
  { apply submseteq_length_Permutation.
    - apply NoDup_submseteq; [done|]. intros d Hd. apply all_cells_elem. auto.
    - rewrite all_cells_length. lia. }
  rewrite Hperm. by apply all_cells_elem.
Qed.

Lemma tour_length (n : Z) (start : cell) (q : list cell) :
  is_tour n start q → length q = (Z.to_nat n * Z.to_nat n)%nat.
Proof.
  intros [_ Hin Hnd Hall _]. apply Nat.le_antisymm.
  - by apply path_length_bound.
  - rewrite <- all_cells_length.
    apply submseteq_length, NoDup_submseteq; [apply all_cells_nodup|].
    intros c Hc. apply Hall. by apply all_cells_elem.
Qed.

(** A chain over visited cells with one position per cell is a tour. *)
Lemma visited_full_is_tour (t : tour) (start : cell) :
  visited t → knight_chain (path t) = true → head (path t) = Some start →
  0 <= size t →
  Z.of_nat (length (path t)) = size t * size t →
  is_tour (size t) start (path t).
Proof.
  intros Hvis Hch Hhd Hsz Hlen.
  pose proof (visited_nodup _ Hvis) as Hnd.
  assert (Hin : ∀ c, c ∈ path t → cell_in_bounds (size t) c).
  { intros c. by apply visited_inside. }
  split; try done.
  apply path_covers; try done. nia.
Qed.

(** ** The search is exhaustive *)

(** The position a completion takes after the current path is a legal move
    from the last position. *)
Lemma completion_next (t : tour) (start : cell) (p0 : list cell) (x y : Z)
    (q : list cell) :
  placed t → path t = p0 ++ [(x, y)] →
  completes (size t) start (path t) q →
  (length (path t) < Z.to_nat (size t) * Z.to_nat (size t))%nat →
  ∃ j, (j < 8)%nat
       ∧ q !! length (path t) = Some (x + move_dx j, y + move_dy j)
       ∧ is_valid_move t (x + move_dx j) (y + move_dy j) = true.
Proof.
  intros Hpl Hp [Htour [k Hq]] Hlt.
  pose proof (tour_length _ _ _ Htour) as Hlen.
  destruct k as [|c k].
  { rewrite app_nil_r in Hq. subst q. lia. }
  assert (Hstep : is_knight_step (x, y) c = true).
  { apply (knight_chain_next p0 k). rewrite <- (tour_chain _ _ _ Htour).
    rewrite Hq, Hp, <- app_assoc. done. }
  apply knight_step_is_move in Hstep as (j & Hj & ->). simpl.
  exists j. split; [done|]. split.
  { rewrite Hq, lookup_app_r by lia. by rewrite Nat.sub_diag. }
  destruct (is_valid_move t (x + move_dx j) (y + move_dy j)) eqn:Hv; [done|].
  exfalso.
  assert (Hin : cell_in_bounds (size t) (x + move_dx j, y + move_dy j)).
  { apply (tour_inside _ _ _ Htour). rewrite Hq. set_solver. }
  apply placed_visited in Hv; [|done|done].
  pose proof (tour_nodup _ _ _ Htour) as Hnd. rewrite Hq in Hnd.
  apply NoDup_app in Hnd as (_ & Hdisj & _).
  apply (Hdisj _ Hv). set_solver.
Qed.

Lemma solve_body_done (t : tour) (top : frame) (rest : list frame) :
  f_count top = size t * size t →
  solve_body t (top :: rest) = Return_ true t.
Proof. intros H. simpl. by rewrite H, Z.eqb_refl. Qed.

Lemma solve_body_push (start : cell) (t : tour) (top : frame)
    (rest : list frame) (i : nat) :
  solve_inv start t (top :: rest) →
  f_count top ≠ size t * size t →
  scan_moves t (f_x top) (f_y top) (8 - f_i top) (f_i top) = Some i →
  ∃ b, solve_body t (top :: rest) =
       Continue_
         (with_path (with_board t b)
            (path t ++ [(f_x top + move_dx i, f_y top + move_dy i)]))
         ({| f_count := f_count top + 1; f_x := f_x top + move_dx i;
             f_y := f_y top + move_dy i; f_i := 0 |}
          :: {| f_count := f_count top; f_x := f_x top; f_y := f_y top;
                f_i := S i |} :: rest).
Proof.
  intros Hinv Hne Hscan.
  pose proof (solve_body_inv start t _ Hinv) as Hbody. simpl in *.
  destruct (Z.eqb_spec (f_count top) (size t * size t)); [done|].
  rewrite Hscan in *.
  destruct (board_set _ _ _ _) as [b|]; [|done]. by exists b.
Qed.

Lemma solve_body_pop (start : cell) (t : tour) (top : frame)
    (rest : list frame) :
  solve_inv start t (top :: rest) →
  f_count top ≠ size t * size t →
  scan_moves t (f_x top) (f_y top) (8 - f_i top) (f_i top) = None →
  ∃ t', solve_body t (top :: rest) = Continue_ t' rest
        ∧ (rest ≠ [] → path t = path t' ++ [(f_x top, f_y top)]).
Proof.
  intros Hinv Hne Hscan.
  pose proof (solve_body_inv start t _ Hinv) as Hbody. simpl in *.
  destruct (Z.eqb_spec (f_count top) (size t * size t)); [done|].
  rewrite Hscan in *.
  destruct rest as [|f' rest']; [by exists t|].
  destruct (inv_stack _ _ _ Hinv) as [|Hst]; [done|].
  apply stack_inv_nonempty in Hst as (p & Hp & _).
  rewrite Hp, list_pop_snoc in *.
  destruct (board_set _ _ _ _) as [b|]; [|done].
  eexists. split; [done|]. done.
Qed.

(** On a board that agrees with the path, every pass keeps the two in
    agreement. *)
Lemma solve_body_placed (start : cell) (t t' : tour) (stack stack' : list frame) :
  solve_inv start t stack → placed t →
  solve_body t stack = Continue_ t' stack' → placed t'.
Proof.
  intros Hinv Hpl Hbody.
  destruct stack as [|top rest]; [done|].
  destruct (inv_stack _ _ _ Hinv) as [|Hst]; [done|].
  apply stack_inv_nonempty in Hst as (p0 & Hp0 & _ & Hcount).
  destruct (Z.eqb_spec (f_count top) (size t * size t)) as [Heq|Hne].
  { rewrite solve_body_done in Hbody; done. }
  destruct (scan_moves t (f_x top) (f_y top) (8 - f_i top) (f_i top))
    as [i|] eqn:Hscan.
  - pose proof Hbody as Hbody'. simpl in Hbody'.
    destruct (Z.eqb_spec (f_count top) (size t * size t)); [done|].
    rewrite Hscan in Hbody'.
    destruct (board_set _ _ _ _) as [b|] eqn:Hset; [|done].
    injection Hbody' as <- <-.
    apply scan_moves_some in Hscan as (_ & Hv & _).
    apply placed_place; [done|done|]. by rewrite <- Hcount.
  - pose proof Hbody as Hbody'. simpl in Hbody'.
    destruct (Z.eqb_spec (f_count top) (size t * size t)); [done|].
    rewrite Hscan in Hbody'.
    destruct rest as [|f' rest']; [by injection Hbody' as <- <-|].
    rewrite Hp0, list_pop_snoc in Hbody'.
    destruct (board_set _ _ _ _) as [b|] eqn:Hset; [|done].
    injection Hbody' as <- <-. eapply placed_unplace; eauto.
Qed.

Lemma solve_iter_placed (start : cell) (n : nat) (t t' : tour)
    (stack stack' : list frame) :
  solve_inv start t stack → placed t →
  solve_iter n t stack = Continue_ t' stack' → placed t'.
Proof.
  revert t stack. induction n as [|n IH]; intros t stack Hinv Hpl Hrun.
  { by injection Hrun as <- <-. }
  simpl in Hrun. destruct (solve_body t stack) as [| |t1 stack1] eqn:Hbody;
    try done.
  pose proof (solve_body_inv start t stack Hinv) as Hinv1.
  rewrite Hbody in Hinv1. destruct Hinv1 as [Hinv1 _].
  apply (IH t1 stack1 Hinv1); [|done].
  by apply (solve_body_placed start t t1 stack stack1).
Qed.

(** From a state whose top frame stands at the end of the path, the loop
    either reaches [return True], or comes back to the state in which that
    frame has just been popped; in the second case every tour that begins
    with the current path continues with a move the frame's cursor had
    already passed. *)
Lemma explore (start : cell) (k : nat) :
  ∀ (c8 : nat) (t : tour) (top : frame) (rest : list frame),
    solve_inv start t (top :: rest) → placed t → 1 <= size t →
    (length (path t) + k = Z.to_nat (size t) * Z.to_nat (size t))%nat →
    (f_i top + c8 = 8)%nat →
    ∃ n,
      (∃ t', solve_iter n t (top :: rest) = Return_ true t')
      ∨ (∃ t', solve_iter n t (top :: rest) = Continue_ t' rest
               ∧ (rest ≠ [] → path t = path t' ++ [(f_x top, f_y top)])
               ∧ ∀ q, completes (size t) start (path t) q →
                      ∃ j, (j < f_i top)%nat
                           ∧ q !! length (path t)
                             = Some (f_x top + move_dx j, f_y top + move_dy j)).
Proof.
  induction k as [|k IHk].
  { intros c8 t top rest Hinv _ Hsz Hlen _. exists 1%nat. left. exists t.
    rewrite solve_iter_1, solve_body_done; [done|].
    destruct (inv_stack _ _ _ Hinv) as [|Hst]; [done|].
    apply stack_inv_nonempty in Hst as (p & _ & _ & ->). nia. }
  intros c8. induction c8 as [c8 IHc] using lt_wf_ind.
  intros t top rest Hinv Hpl Hsz Hlen Hcur.
  destruct (inv_stack _ _ _ Hinv) as [|Hst]; [done|].
  apply stack_inv_nonempty in Hst as (p0 & Hp0 & _ & Hcount).
  assert (Hne : f_count top ≠ size t * size t) by nia.
  assert (Hlt : (length (path t) < Z.to_nat (size t) * Z.to_nat (size t))%nat)
    by lia.
  destruct (scan_moves t (f_x top) (f_y top) (8 - f_i top) (f_i top))
    as [i|] eqn:Hscan.
  - (* a legal move at index [i]: push, explore below, then go on from [i+1] *)
    destruct (solve_body_push start t top rest i Hinv Hne Hscan) as [b Hpush].
    apply scan_moves_some in Hscan as (Hi & Hvi & Hbefore).
    set (next := (f_x top + move_dx i, f_y top + move_dy i)) in *.
    set (t1 := with_path (with_board t b) (path t ++ [next])) in *.
    set (new := {| f_count := f_count top + 1; f_x := next.1; f_y := next.2;
                   f_i := 0 |}) in *.
    set (top' := {| f_count := f_count top; f_x := f_x top; f_y := f_y top;
                    f_i := S i |}) in *.
    pose proof (solve_body_inv start t _ Hinv) as Hinv1.
    rewrite Hpush in Hinv1. destruct Hinv1 as [Hinv1 Hsz1].
    assert (Hpl1 : placed t1).
    { by apply (solve_body_placed start t t1 _ _ Hinv Hpl Hpush). }
    destruct (IHk 8%nat t1 new (top' :: rest) Hinv1 Hpl1) as [n1 Hsub].
    { lia. }
    { rewrite Hsz1. subst t1. simpl. rewrite length_app. simpl. lia. }
    { done. }
    destruct Hsub as [[t' Hret]|(t2 & Hcont & Hpath2 & Hnone)].
    { exists (1 + n1)%nat. left. exists t'.
      by rewrite solve_iter_add, solve_iter_1, Hpush. }
    assert (Hrun1 : solve_iter (1 + n1) t (top :: rest)
                    = Continue_ t2 (top' :: rest)).
    { by rewrite solve_iter_add, solve_iter_1, Hpush. }
    pose proof (solve_iter_inv start (1 + n1) t _ Hinv) as Hinv2.
    rewrite Hrun1 in Hinv2. destruct Hinv2 as [Hinv2 Hsz2].
    assert (Hp2 : path t2 = path t).
    { specialize (Hpath2 ltac:(done)). subst t1. simpl in Hpath2.
      by apply app_inj_tail in Hpath2 as [-> _]. }
    assert (Hpl2 : placed t2).
    { by apply (solve_iter_placed start _ t t2 _ _ Hinv Hpl Hrun1). }
    destruct (IHc (8 - S i)%nat ltac:(lia) t2 top' rest Hinv2 Hpl2)
      as [n2 Hrest].
    { lia. }
    { rewrite Hp2, Hsz2. done. }
    { simpl. lia. }
    exists ((1 + n1) + n2)%nat. rewrite solve_iter_add, Hrun1.
    destruct Hrest as [[t' Hret]|(t3 & Hcont3 & Hpath3 & Hnone3)].
    { left. by exists t'. }
    right. exists t3. split; [done|]. split.
    { intros Hr. rewrite <- Hp2. by apply Hpath3. }
    intros q Hq.
    destruct (completion_next t start p0 _ _ q Hpl Hp0 Hq Hlt)
      as (j0 & Hj0 & Hq0 & Hv0).
    rewrite Hp2, Hsz2 in Hnone3. destruct (Hnone3 q Hq) as (j & Hj & Hqj).
    simpl in Hj, Hqj.
    destruct (decide (j < f_i top)%nat) as [Hlow|Hhigh]; [by exists j|].
    exfalso. destruct (decide (j = i)) as [->|Hji].
    + (* the move that was explored below *)
      destruct (Hnone q) as (j' & Hj' & _); [|simpl in Hj'; lia].
      rewrite Hsz1. destruct Hq as [Htour [kq Hkq]]. split; [done|].
      subst t1. simpl.
      destruct kq as [|c kq].
      { rewrite app_nil_r in Hkq. subst q.
        apply lookup_lt_Some in Hqj. lia. }
      rewrite Hkq, lookup_app_r, Nat.sub_diag in Hqj by lia.
      simpl in Hqj. injection Hqj as ->.
      exists kq. rewrite Hkq, <- app_assoc. done.
    + (* a move the scan had found illegal *)
      rewrite Hq0 in Hqj. injection Hqj as Hx Hy.
      rewrite Hx, Hy in Hv0. rewrite Hbefore in Hv0; [done|lia].
  - (* no legal move left: pop *)
    destruct (solve_body_pop start t top rest Hinv Hne Hscan)
      as (t' & Hpop & Hpath).
    exists 1%nat. right. exists t'. rewrite solve_iter_1, Hpop.
    split; [done|]. split; [done|].
    intros q Hq.
    destruct (completion_next t start p0 _ _ q Hpl Hp0 Hq Hlt)
      as (j0 & Hj0 & Hq0 & Hv0).
    exists j0. split; [|done].
    destruct (decide (j0 < f_i top)%nat); [done|].
    rewrite (scan_moves_none _ _ _ _ _ Hscan) in Hv0; [done|lia].
Qed.

(** ** A bound on the number of passes *)

Lemma frame_cost_pos (cells : nat) (f : frame) : (1 <= frame_cost cells f)%nat.
Proof. unfold frame_cost. case_match; nia. Qed.

Lemma frame_cost_fresh (cells : nat) (c x y : Z) :
  frame_cost cells {| f_count := c; f_x := x; f_y := y; f_i := 0 |}
  = subtree_cost (cells - Z.to_nat c).
Proof.
  unfold frame_cost. cbn [f_count f_i].
  destruct (cells - Z.to_nat c)%nat; cbn [subtree_cost]; lia.
Qed.

Lemma frame_cost_push (cells : nat) (top : frame) (i : nat) (x y : Z) :
  (Z.to_nat (f_count top) < cells)%nat → 0 <= f_count top →
  (f_i top <= i < 8)%nat →
  (frame_cost cells {| f_count := f_count top + 1; f_x := x; f_y := y;
                       f_i := 0 |}
   + frame_cost cells {| f_count := f_count top; f_x := f_x top;
                         f_y := f_y top; f_i := S i |}
   < frame_cost cells top)%nat.
Proof.
  intros Hlt Hc Hi. rewrite frame_cost_fresh.
  unfold frame_cost. cbn [f_count f_i].
  destruct (cells - Z.to_nat (f_count top))%nat as [|k] eqn:Hk; [lia|].
  replace (cells - Z.to_nat (f_count top + 1))%nat with k by lia.
  nia.
Qed.

(** Every pass that goes on lowers the cost of the stack. *)
Lemma solve_body_cost (start : cell) (t t' : tour) (stack stack' : list frame) :
  solve_inv start t stack → 0 <= size t →
  solve_body t stack = Continue_ t' stack' →
  (stack_cost (Z.to_nat (size t * size t)) stack'
   < stack_cost (Z.to_nat (size t * size t)) stack)%nat.
Proof.
  intros Hinv Hsz Hbody.
  set (cells := Z.to_nat (size t * size t)).
  destruct stack as [|top rest]; [done|].
  pose proof (inv_visited _ _ _ Hinv) as Hvis.
  destruct (inv_stack _ _ _ Hinv) as [|Hst]; [done|].
  apply stack_inv_nonempty in Hst as (p0 & Hp0 & _ & Hcount).
  assert (Hbound : (length (path t) <= Z.to_nat (size t) * Z.to_nat (size t))%nat).
  { apply path_length_bound; [apply (visited_nodup _ Hvis)|].
    intros c. by apply visited_inside. }
  destruct (Z.eqb_spec (f_count top) (size t * size t)) as [Heq|Hne].
  { rewrite solve_body_done in Hbody; done. }
  destruct (scan_moves t (f_x top) (f_y top) (8 - f_i top) (f_i top))
    as [i|] eqn:Hscan.
  - destruct (solve_body_push start t top rest i Hinv Hne Hscan) as [b Hpush].
    rewrite Hpush in Hbody. injection Hbody as <- <-.
    apply scan_moves_some in Hscan as (Hi & _ & _).
    cbn [stack_cost].
    pose proof (frame_cost_push cells top i (f_x top + move_dx i)
                  (f_y top + move_dy i)) as Hcost.
    lapply Hcost; [clear Hcost; intros Hcost|subst cells; nia].
    lapply Hcost; [clear Hcost; intros Hcost|lia].
    lapply Hcost; [clear Hcost; intros Hcost|lia].
    lia.
  - destruct (solve_body_pop start t top rest Hinv Hne Hscan) as (t2 & Hpop & _).
    rewrite Hpop in Hbody. injection Hbody as <- <-.
    cbn [stack_cost].
    pose proof (frame_cost_pos cells top). lia.
Qed.

Lemma solve_iter_cost (start : cell) (n : nat) (t t' : tour)
    (stack stack' : list frame) :
  solve_inv start t stack → 0 <= size t →
  solve_iter n t stack = Continue_ t' stack' →
  (stack_cost (Z.to_nat (size t * size t)) stack' + n
   <= stack_cost (Z.to_nat (size t * size t)) stack)%nat.
Proof.
  revert t stack. induction n as [|n IH]; intros t stack Hinv Hsz Hrun.
  { injection Hrun as <- <-. lia. }
  simpl in Hrun. destruct (solve_body t stack) as [| |t1 stack1] eqn:Hbody;
    try done.
  pose proof (solve_body_cost start _ _ _ _ Hinv Hsz Hbody) as Hlt.
  pose proof (solve_body_inv start t stack Hinv) as Hinv1.
  rewrite Hbody in Hinv1. destruct Hinv1 as [Hinv1 Hsz1].
  specialize (IH t1 stack1 Hinv1). rewrite Hsz1 in IH.
  specialize (IH Hsz Hrun). lia.
Qed.

(** ** [solve] from its entry *)

Lemma solve_steps_spec (fuel : nat) (t : tour) (start_x start_y : Z) :
  solve fuel t start_x start_y =
  match solve_steps fuel t start_x start_y with
  | Return_ b t' => Returned (b, t')
  | Raise_ => IndexError
  | Continue_ _ _ => OutOfFuel
  end.
Proof.
  unfold solve, solve_steps.
  destruct (board_set _ _ _ _); [apply solve_loop_iter|done].
Qed.

Lemma solve_mono (n m : nat) (t : tour) (start_x start_y : Z)
    (r : bool * tour) :
  solve n t start_x start_y = Returned r → (n <= m)%nat →
  solve m t start_x start_y = Returned r.
Proof.
  unfold solve. destruct (board_set _ _ _ _); [|done].
  apply solve_loop_mono.
Qed.

(** A [True] from [solve] comes with a tour, whatever the board held. *)
Lemma solve_success (fuel : nat) (t t' : tour) (start_x start_y : Z) :
  wf_board (size t) (board t) →
  in_bounds (size t) start_x start_y = true →
  solve fuel t start_x start_y = Returned (true, t') →
  size t' = size t ∧ visited t'
  ∧ is_tour (size t) (start_x, start_y) (path t').
Proof.
  intros Hwf Hb Hret.
  destruct (solve_entry t start_x start_y Hwf Hb) as (b0 & Hset & Hinv).
  assert (Hsz : 1 <= size t) by (apply in_bounds_spec in Hb; lia).
  unfold solve in Hret. rewrite Hset, solve_loop_iter in Hret.
  pose proof (solve_iter_inv _ fuel _ _ Hinv) as Hfin.
  destruct (solve_iter fuel _ _) as [[|] t1| |]; try done.
  injection Hret as <-.
  destruct Hfin as (Hvis & Hch & Hhd & Hlen & Hsz'). simpl in Hsz'.
  split_and!; try done. rewrite <- Hsz'.
  apply visited_full_is_tour; try done. lia.
Qed.

(** A [False] from [solve] comes with the board and the path reset. *)
Lemma solve_failure_clean (fuel : nat) (t t' : tour) (start_x start_y : Z) :
  wf_board (size t) (board t) →
  in_bounds (size t) start_x start_y = true →
  solve fuel t start_x start_y = Returned (false, t') →
  path t' = [] ∧ board t' = fresh_board (size t).
Proof.
  intros Hwf Hb Hret.
  destruct (solve_entry t start_x start_y Hwf Hb) as (b0 & Hset & Hinv).
  unfold solve in Hret. rewrite Hset, solve_loop_iter in Hret.
  pose proof (solve_iter_inv _ fuel _ _ Hinv) as Hfin.
  destruct (solve_iter fuel _ _) as [[|] t1| |]; try done.
  injection Hret as <-. by destruct Hfin as (? & ? & _).
Qed.

(** What [solve] returns on a fresh board, and after how many passes. *)
Lemma solve_outcome (t : tour) (start_x start_y : Z) :
  board t = fresh_board (size t) →
  in_bounds (size t) start_x start_y = true →
  ∃ n b t', solve n t start_x start_y = Returned (b, t')
    ∧ size t' = size t
    ∧ (b = true → is_tour (size t) (start_x, start_y) (path t'))
    ∧ (b = false → board t' = fresh_board (size t) ∧ path t' = []
                   ∧ ¬ ∃ q, is_tour (size t) (start_x, start_y) q).
Proof.
  intros Hfresh Hb.
  assert (Hwf : wf_board (size t) (board t)).
  { rewrite Hfresh. apply fresh_board_wf. }
  destruct (solve_entry t start_x start_y Hwf Hb) as (b0 & Hset & Hinv).
  pose proof (solve_entry_placed t start_x start_y b0 Hfresh Hb Hset) as Hpl.
  assert (Hsz : 1 <= size t) by (apply in_bounds_spec in Hb; lia).
  set (t0 := with_path (with_board t b0) [(start_x, start_y)]) in *.
  set (f0 := {| f_count := 1; f_x := start_x; f_y := start_y; f_i := 0 |}) in *.
  destruct (explore (start_x, start_y)
              (Z.to_nat (size t) * Z.to_nat (size t) - 1) 8 t0 f0 [] Hinv Hpl)
    as [n Hex]; [done| |done|].
  { simpl. nia. }
  destruct Hex as [[t' Hret]|(t' & Hcont & _ & Hnone)].
  - exists n, true, t'.
    assert (Hsolve : solve n t start_x start_y = Returned (true, t')).
    { unfold solve. rewrite Hset, solve_loop_iter. fold t0 f0. by rewrite Hret. }
    destruct (solve_success n t t' start_x start_y Hwf Hb Hsolve)
      as (Hsz' & _ & Htour).
    split_and!; done.
  - exists (n + 1)%nat, false, (solve_reset t').
    pose proof (solve_iter_inv _ n _ _ Hinv) as Hfin. rewrite Hcont in Hfin.
    destruct Hfin as [_ Hsz'].
    unfold solve. rewrite Hset, solve_loop_iter. fold t0 f0.
    rewrite solve_iter_add, Hcont, solve_iter_1. simpl.
    split_and!; try done. intros _. split_and!; try done.
    { by rewrite Hsz'. }
    intros [q Hq].
    destruct (Hnone q) as (j & Hj & _); [|simpl in Hj; lia].
    split; [done|]. simpl. destruct q as [|c q].
    + by destruct Hq as [Hhd _ _ _ _].
    + destruct Hq as [Hhd _ _ _ _]. simpl in Hhd. injection Hhd as ->.
      by exists q.
Qed.

(** ** Scores and the sort *)

Lemma tuple_lt_irrefl (a : score_t) : tuple_lt a a = false.
Proof.
  induction a as [|x a IH]; simpl; [done|].
  assert (Hx : (x ?= x)%Q = Eq) by (apply Qeq_alt; reflexivity).
  by rewrite Hx.
Qed.

Lemma tuple_lt_asym (a b : score_t) :
  tuple_lt a b = true → tuple_lt b a = false.
Proof.
  revert b. induction a as [|x a IH]; intros [|y b]; simpl; try done.
  rewrite <- (Qcompare_antisym x y).
  destruct (x ?= y)%Q; simpl; auto.
Qed.

(** If [a < c] then any [b] is above [a] or below [c]. *)
Lemma tuple_lt_between (a b c : score_t) :
  tuple_lt a c = true → tuple_lt a b = true ∨ tuple_lt b c = true.
Proof.
  revert b c. induction a as [|x a IH]; intros [|y b] [|z c]; simpl;
    try done; auto.
  destruct (Qcompare_spec x z) as [Hxz|Hxz|Hxz]; try done;
    destruct (Qcompare_spec x y) as [Hxy|Hxy|Hxy]; auto;
    destruct (Qcompare_spec y z) as [Hyz|Hyz|Hyz]; auto;
    intros Hac; try (exfalso; lra).
Qed.

Lemma sort_moves_perm (l : list candidate) : sort_moves l ≡ₚ l.
Proof.
  induction l as [|m l IH]; simpl; [done|].
  rewrite <- IH at 2. generalize (sort_moves l). clear.
  intros l. induction l as [|m' l IH]; simpl; [done|].
  destruct (tuple_lt _ _); [|done].
  rewrite IH. apply Permutation_swap.
Qed.

(** The head of the sorted list has a score no later element is below. *)
Lemma sort_moves_head (l : list candidate) (best : candidate)
    (rest : list candidate) :
  sort_moves l = best :: rest →
  best ∈ l ∧ ∀ m, m ∈ l → tuple_le (c_score best) (c_score m) = true.
Proof.
  intros Hs. split.
  { rewrite <- (sort_moves_perm l), Hs. set_solver. }
  unfold tuple_le. revert best rest Hs.
  induction l as [|a l IH]; intros best rest Hs m Hm; [by apply elem_of_nil in Hm|].
  simpl in Hs. destruct (sort_moves l) as [|h tl] eqn:Hl.
  { assert (l = []) as ->.
    { apply Permutation_nil. by rewrite <- (sort_moves_perm l), Hl. }
    simpl in Hs. injection Hs as <- <-.
    apply list_elem_of_singleton in Hm as ->. by rewrite tuple_lt_irrefl. }
  simpl in Hs. destruct (tuple_lt (c_score h) (c_score a)) eqn:Hha.
  - injection Hs as <- <-. apply elem_of_cons in Hm as [->|Hm].
    + by rewrite (tuple_lt_asym _ _ Hha).
    + by apply (IH h tl).
  - injection Hs as <- <-. apply elem_of_cons in Hm as [->|Hm].
    + by rewrite tuple_lt_irrefl.
    + specialize (IH h tl eq_refl m Hm).
      destruct (tuple_lt (c_score m) (c_score a)) eqn:Hma; [|done].
      apply (tuple_lt_between _ (c_score h)) in Hma as [Hmh|Hha'].
      * by rewrite Hmh in IH.
      * by rewrite Hha' in Hha.
Qed.

Section WarnsdorffProofs.
Context {E : Env}.

(** ** The candidates of one step *)

Lemma evaluate_moves_spec (t : tour) (x y : Z) (scoring : scoring_func)
    (prefs : list nat) :
  ∀ (g : rng) (moves : list candidate) (considered : list considered_move),
    evaluate_moves t x y scoring prefs g moves considered =
    (moves ++ zip_with (candidate_of t x y scoring) (legal_prefs t x y prefs)
                       (draws (length (legal_prefs t x y prefs)) g).1,
     considered ++ map (considered_of t x y) prefs,
     (draws (length (legal_prefs t x y prefs)) g).2).
Proof.
  induction prefs as [|p prefs IH]; intros g moves considered.
  { simpl. by rewrite !app_nil_r. }
  cbn [evaluate_moves legal_prefs List.filter map].
  destruct (is_valid_move t (x + move_dx p) (y + move_dy p)) eqn:Hv.
  - cbn [length draws]. destruct (random g) as [r g1] eqn:Hr.
    rewrite IH. fold (legal_prefs t x y prefs).
    destruct (draws (length (legal_prefs t x y prefs)) g1) as [rs g2].
    cbn [fst snd zip_with]. rewrite <- !app_assoc. done.
  - rewrite IH. fold (legal_prefs t x y prefs). by rewrite <- !app_assoc.
Qed.

Lemma draws_length (n : nat) (g : rng) : length (draws n g).1 = n.
Proof.
  revert g. induction n as [|n IH]; intros g; simpl; [done|].
  destruct (random g) as [r g1]. specialize (IH g1).
  destruct (draws n g1) as [rs g2]. simpl in *. by rewrite IH.
Qed.

Lemma legal_prefs_elem (t : tour) (x y : Z) (prefs : list nat) (p : nat) :
  p ∈ legal_prefs t x y prefs ↔
  p ∈ prefs ∧ is_valid_move t (x + move_dx p) (y + move_dy p) = true.
Proof. unfold legal_prefs. rewrite !list_elem_of_In. apply filter_In. Qed.

Lemma candidates_elem (t : tour) (g : rng) (x y : Z) (prefs : list nat)
    (scoring : scoring_func) (c : candidate) :
  c ∈ candidates t g x y prefs scoring →
  ∃ (k : nat) (p : nat) (r : Q),
    legal_prefs t x y prefs !! k = Some p
    ∧ (draws (length (legal_prefs t x y prefs)) g).1 !! k = Some r
    ∧ c = candidate_of t x y scoring p r.
Proof.
  unfold candidates. intros Hc.
  apply list_elem_of_lookup_1 in Hc as [k Hk].
  apply lookup_zip_with_Some in Hk as (p & r & -> & Hp & Hr).
  by exists k, p, r.
Qed.

Lemma get_next_spec (t : tour) (g : rng) (x y : Z) (prefs : list nat)
    (scoring : scoring_func) :
  _get_next_move_warnsdorff_generic_detailed t g x y prefs scoring =
  (match sort_moves (candidates t g x y prefs scoring) with
   | [] => None
   | best :: _ =>
       Some (c_x best, c_y best,
             {| chosen := c_details best;
                movimientos_considerados := map (considered_of t x y) prefs;
                total_opciones := length (legal_prefs t x y prefs) |})
   end,
   (draws (length (legal_prefs t x y prefs)) g).2).
Proof.
  unfold _get_next_move_warnsdorff_generic_detailed.
  rewrite evaluate_moves_spec. cbn [app]. fold (candidates t g x y prefs scoring).
  destruct (sort_moves _); [done|].
  unfold candidates. rewrite length_zip_with, draws_length, Nat.min_id. done.
Qed.

Lemma candidates_nil (t : tour) (g : rng) (x y : Z) (prefs : list nat)
    (scoring : scoring_func) :
  candidates t g x y prefs scoring = [] ↔ legal_prefs t x y prefs = [].
Proof.
  unfold candidates. split.
  - intros H. apply (f_equal length) in H.
    rewrite length_zip_with, draws_length in H.
    apply nil_length_inv. simpl in H. lia.
  - intros ->. done.
Qed.


(** The degree is the number of legal moves. *)
Lemma count_valid_moves_length (t : tour) (x y : Z) :
  _count_valid_moves t x y
  = Z.of_nat (length (legal_prefs t x y (seq 0 8))).
Proof.
  unfold _count_valid_moves, legal_prefs.
  assert (Hgen : ∀ (l : list nat) (acc : Z),
    fold_left (λ count i,
                 if is_valid_move t (x + move_dx i) (y + move_dy i)
                 then count + 1 else count) l acc
    = acc + Z.of_nat (length (List.filter
                                (λ p, is_valid_move t (x + move_dx p)
                                                    (y + move_dy p)) l))).
  { induction l as [|i l IH]; intros acc; simpl; [lia|].
    rewrite IH. destruct (is_valid_move _ _ _); simpl; lia. }
  rewrite Hgen. lia.
Qed.

(** Every value of [draws] is a value of [random]. *)
Lemma draws_elem (n : nat) (g : rng) (r : Q) :
  r ∈ (draws n g).1 → ∃ g0, r = (random g0).1.
Proof.
  revert g. induction n as [|n IH]; intros g; simpl.
  { intros H. by apply elem_of_nil in H. }
  destruct (random g) as [r0 g1] eqn:Hr. specialize (IH g1).
  destruct (draws n g1) as [rs g2]. simpl in *.
  intros H. apply elem_of_cons in H as [->|H]; [|auto].
  exists g. by rewrite Hr.
Qed.

Lemma candidates_prefs (t : tour) (g : rng) (x y : Z) (prefs : list nat)
    (scoring : scoring_func) :
  (λ c, preferencia (c_details c)) <$> candidates t g x y prefs scoring
  = legal_prefs t x y prefs.
Proof.
  unfold candidates.
  pose proof (draws_length (length (legal_prefs t x y prefs)) g) as Hlen.
  revert Hlen. generalize (draws (length (legal_prefs t x y prefs)) g).1.
  induction (legal_prefs t x y prefs) as [|p l IH]; intros [|r rs] Hlen;
    simpl in *; try done.
  f_equal. apply IH. lia.
Qed.

Lemma candidates_ties (t : tour) (g : rng) (x y : Z) (prefs : list nat)
    (scoring : scoring_func) :
  (λ c, random_factor (c_details c)) <$> candidates t g x y prefs scoring
  = (λ r, r * (1 # 10))%Q
      <$> (draws (length (legal_prefs t x y prefs)) g).1.
Proof.
  unfold candidates.
  pose proof (draws_length (length (legal_prefs t x y prefs)) g) as Hlen.
  revert Hlen. generalize (draws (length (legal_prefs t x y prefs)) g).1.
  induction (legal_prefs t x y prefs) as [|p l IH]; intros [|r rs] Hlen;
    simpl in *; try done.
  f_equal. apply IH. lia.
Qed.

(** ** One pass of a Warnsdorff attempt *)

Lemma visited_ext (t t' : tour) :
  size t' = size t → board t' = board t → path t' = path t →
  visited t → visited t'.
Proof. intros Hs Hb Hp [H1 H2 H3]. split; rewrite ?Hs, ?Hb, ?Hp; done. Qed.

Lemma placed_ext (t t' : tour) :
  size t' = size t → board t' = board t → path t' = path t →
  placed t → placed t'.
Proof. intros Hs Hb Hp [H1 H2 H3]. split; rewrite ?Hs, ?Hb, ?Hp; done. Qed.

Lemma is_valid_move_ext (t t' : tour) (x y : Z) :
  size t' = size t → board t' = board t →
  is_valid_move t' x y = is_valid_move t x y.
Proof. intros Hs Hb. unfold is_valid_move. by rewrite Hs, Hb. Qed.

Lemma legal_prefs_ext (t t' : tour) (x y : Z) (prefs : list nat) :
  size t' = size t → board t' = board t →
  legal_prefs t' x y prefs = legal_prefs t x y prefs.
Proof.
  intros Hs Hb. unfold legal_prefs. apply filter_ext. intros p.
  by apply is_valid_move_ext.
Qed.

(** A legal move leaves the current cell, so its index is one of the 8. *)
Lemma valid_move_index (t : tour) (x y : Z) (p : nat) :
  visited t → (x, y) ∈ path t →
  is_valid_move t (x + move_dx p) (y + move_dy p) = true → (p < 8)%nat.
Proof.
  intros Hvis Hin Hv. destruct (decide (p < 8)%nat) as [|Hge]; [done|].
  exfalso. apply (visited_unvisited t _ _ Hvis Hv).
  unfold move_dx, move_dy. rewrite !nth_overflow by (simpl; lia).
  by rewrite !Z.add_0_r.
Qed.

Lemma last_elem_of {A : Type} (l : list A) (x : A) : last l = Some x → x ∈ l.
Proof.
  intros H. apply last_Some in H as [l' ->]. set_solver.
Qed.

(** What one pass does: it stops when no preference index is legal, and
    otherwise moves to the head of the sorted candidates. *)
Lemma warnsdorff_body_cases (move_count x y : Z) (prefs : list nat)
    (scoring : scoring_func) (verbose : bool) (s : attempt_state) :
  wf_board (size (a_tour s)) (board (a_tour s)) →
  match warnsdorff_body move_count x y prefs scoring verbose s with
  | Dead_end s' =>
      legal_prefs (a_tour s) x y prefs = []
      ∧ size (a_tour s') = size (a_tour s)
      ∧ board (a_tour s') = board (a_tour s)
      ∧ path (a_tour s') = path (a_tour s)
      ∧ a_rng s' = a_rng s ∧ a_tracking s' = a_tracking s
  | Raised => False
  | Moved next_x next_y s' =>
      ∃ best rest p,
        sort_moves (candidates (a_tour s) (a_rng s) x y prefs scoring)
        = best :: rest
        ∧ p ∈ prefs ∧ next_x = x + move_dx p ∧ next_y = y + move_dy p
        ∧ c_x best = next_x ∧ c_y best = next_y
        ∧ is_valid_move (a_tour s) next_x next_y = true
        ∧ size (a_tour s') = size (a_tour s)
        ∧ board_set (board (a_tour s)) next_x next_y move_count
          = Some (board (a_tour s'))
        ∧ path (a_tour s') = path (a_tour s) ++ [(next_x, next_y)]
        ∧ a_rng s'
          = (draws (length (legal_prefs (a_tour s) x y prefs)) (a_rng s)).2
  end.
Proof.
  intros Hwf. unfold warnsdorff_body. cbv zeta. rewrite get_next_spec.
  destruct (sort_moves (candidates (a_tour s) (a_rng s) x y prefs scoring))
    as [|best rest] eqn:Hsort.
  - assert (Hnil : legal_prefs (a_tour s) x y prefs = []).
    { apply (candidates_nil _ (a_rng s) _ _ _ scoring).
      apply Permutation_nil.
      by rewrite <- (sort_moves_perm (candidates _ _ _ _ _ _)), Hsort. }
    rewrite Hnil. simpl. done.
  - destruct (sort_moves_head _ _ _ Hsort) as [Hin _].
    apply candidates_elem in Hin as (k & p & r & Hp & _ & Hbest).
    apply list_elem_of_lookup_2, legal_prefs_elem in Hp as [Hp Hv].
    assert (Hx : c_x best = x + move_dx p) by by rewrite Hbest.
    assert (Hy : c_y best = y + move_dy p) by by rewrite Hbest.
    rewrite Hx, Hy.
    set (t1 := if verbose then _ else a_tour s).
    assert (Ht1 : size t1 = size (a_tour s) ∧ board t1 = board (a_tour s)
                  ∧ path t1 = path (a_tour s)).
    { subst t1. by destruct verbose. }
    destruct Ht1 as (Hs1 & Hb1 & Hp1).
    pose proof Hv as Hv'. apply is_valid_move_true in Hv' as [Hb _].
    destruct (board_set_in_bounds _ _ _ _ move_count Hwf Hb) as (b & Hset & _).
    rewrite Hb1, Hset.
    exists best, rest, p. split_and!; try done.
    + by destruct (move_count mod 500 =? 0).
    + by destruct (move_count mod 500 =? 0).
    + destruct (move_count mod 500 =? 0); simpl; by rewrite Hp1.
Qed.

Lemma warnsdorff_body_inv (start : cell) (move_count x y : Z)
    (prefs : list nat) (scoring : scoring_func) (verbose : bool)
    (s : attempt_state) :
  walk_inv start (a_tour s) x y move_count →
  match warnsdorff_body move_count x y prefs scoring verbose s with
  | Dead_end s' =>
      walk_inv start (a_tour s') x y move_count
      ∧ size (a_tour s') = size (a_tour s)
      ∧ path (a_tour s') = path (a_tour s)
      ∧ legal_prefs (a_tour s') x y prefs = []
      ∧ (placed (a_tour s) → placed (a_tour s'))
  | Raised => False
  | Moved next_x next_y s' =>
      walk_inv start (a_tour s') next_x next_y (move_count + 1)
      ∧ size (a_tour s') = size (a_tour s)
      ∧ path (a_tour s') = path (a_tour s) ++ [(next_x, next_y)]
      ∧ (placed (a_tour s) → placed (a_tour s'))
  end.
Proof.
  intros [Hvis Hch Hhd Hlast Hcount].
  pose proof (warnsdorff_body_cases move_count x y prefs scoring verbose s
                (visited_wf _ Hvis)) as Hcases.
  destruct (warnsdorff_body _ _ _ _ _ _ _) as [s'| |nx ny s']; [| done |].
  - destruct Hcases as (Hnil & Hs & Hb & Hp & _).
    split_and!; try done.
    + split; rewrite ?Hp; try done. by apply (visited_ext (a_tour s)).
    + by rewrite (legal_prefs_ext (a_tour s)).
    + by apply placed_ext.
  - destruct Hcases as (best & rest & p & _ & Hpin & -> & -> & _ & _ & Hv & Hs
                        & Hset & Hp & _).
    pose proof (last_elem_of _ _ Hlast) as Hin.
    pose proof (valid_move_index _ _ _ _ Hvis Hin Hv) as Hp8.
    apply last_Some in Hlast as [p0 Hp0].
    set (t' := with_path (with_board (a_tour s) (board (a_tour s')))
                         (path (a_tour s) ++ [(x + move_dx p, y + move_dy p)])).
    assert (Hext : size (a_tour s') = size t' ∧ board (a_tour s') = board t'
                   ∧ path (a_tour s') = path t') by done.
    destruct Hext as (He1 & He2 & He3).
    split_and!; try done.
    + split.
      * apply (visited_ext t'); try done.
        apply (visited_place _ _ _ move_count); try done. lia.
      * rewrite Hp, Hp0, <- app_assoc. apply knight_chain_snoc.
        -- by rewrite <- Hp0.
        -- by apply move_is_knight_step.
      * rewrite Hp, Hp0, head_snoc_nonempty. by rewrite <- Hp0.
      * rewrite Hp. apply last_snoc.
      * rewrite Hp, length_app. simpl. lia.
    + intros Hpl. apply (placed_ext t'); try done.
      apply placed_place; try done. by rewrite <- Hcount.
Qed.


(** ** A whole attempt *)

Lemma warnsdorff_loop_iter (n : nat) (move_count x y : Z) (prefs : list nat)
    (scoring : scoring_func) (verbose : bool) (s : attempt_state) :
  warnsdorff_loop n move_count x y prefs scoring verbose s =
  pass_result (warnsdorff_iter n move_count x y prefs scoring verbose s).
Proof.
  revert move_count x y s. induction n as [|n IH]; intros mc x y s; simpl;
    [done|].
  destruct (warnsdorff_body mc x y prefs scoring verbose s); try done.
Qed.

Lemma solve_variation_steps (s : attempt_state) (start_x start_y variation : Z)
    (prefs : list nat) (verbose : bool) :
  _solve_with_warnsdorff_variation s start_x start_y variation prefs verbose =
  pass_result
    (warnsdorff_steps
       (Z.to_nat (size (a_tour s) * size (a_tour s) - 1))
       s start_x start_y variation prefs verbose).
Proof.
  unfold _solve_with_warnsdorff_variation, warnsdorff_steps, warnsdorff_entry.
  destruct (board_set _ _ _ _); simpl; [|done]. apply warnsdorff_loop_iter.
Qed.

(** The invariant holds after any number of passes; a dead end is reached
    with fewer cells than passes allowed. *)
Lemma warnsdorff_iter_inv (start : cell) (prefs : list nat)
    (scoring : scoring_func) (verbose : bool) (k : nat) :
  ∀ (move_count x y : Z) (s : attempt_state),
    walk_inv start (a_tour s) x y move_count →
    match warnsdorff_iter k move_count x y prefs scoring verbose s with
    | Moved x' y' s' =>
        walk_inv start (a_tour s') x' y' (move_count + Z.of_nat k)
        ∧ size (a_tour s') = size (a_tour s)
        ∧ (placed (a_tour s) → placed (a_tour s'))
    | Dead_end s' =>
        (∃ x' y' mc, walk_inv start (a_tour s') x' y' mc
                     ∧ mc < move_count + Z.of_nat k
                     ∧ legal_prefs (a_tour s') x' y' prefs = [])
        ∧ size (a_tour s') = size (a_tour s)
        ∧ (placed (a_tour s) → placed (a_tour s'))
    | Raised => False
    end.
Proof.
  induction k as [|k IH]; intros mc x y s Hinv.
  { simpl. split_and!; try done. by rewrite Z.add_0_r. }
  cbn [warnsdorff_iter].
  pose proof (warnsdorff_body_inv start mc x y prefs scoring verbose s Hinv)
    as Hbody.
  destruct (warnsdorff_body mc x y prefs scoring verbose s) as [s1| |x1 y1 s1];
    [| done |].
  - destruct Hbody as (Hinv1 & Hs1 & _ & Hnil & Hpl1).
    split_and!; try done. exists x, y, mc. split_and!; try done. lia.
  - destruct Hbody as (Hinv1 & Hs1 & _ & Hpl1).
    specialize (IH (mc + 1) x1 y1 s1 Hinv1).
    destruct (warnsdorff_iter k (mc + 1) x1 y1 prefs scoring verbose s1)
      as [s2| |x2 y2 s2]; [| done |].
    + destruct IH as ((x' & y' & mc' & Hinv2 & Hlt & Hnil) & Hs2 & Hpl2).
      split_and!; [|congruence|auto].
      exists x', y', mc'. split_and!; try done. lia.
    + destruct IH as (Hinv2 & Hs2 & Hpl2).
      split_and!; [|congruence|auto].
      replace (mc + Z.of_nat (S k)) with (mc + 1 + Z.of_nat k) by lia. done.
Qed.

Lemma warnsdorff_entry_inv (s : attempt_state) (start_x start_y : Z) :
  wf_board (size (a_tour s)) (board (a_tour s)) →
  in_bounds (size (a_tour s)) start_x start_y = true →
  ∃ s0, warnsdorff_entry s start_x start_y = Some s0
        ∧ walk_inv (start_x, start_y) (a_tour s0) start_x start_y 1
        ∧ size (a_tour s0) = size (a_tour s)
        ∧ path (a_tour s0) = [(start_x, start_y)]
        ∧ a_rng s0 = a_rng s ∧ a_tracking s0 = a_tracking s
        ∧ (board (a_tour s) = fresh_board (size (a_tour s)) →
           placed (a_tour s0)).
Proof.
  intros Hwf Hb.
  destruct (solve_entry (a_tour s) start_x start_y Hwf Hb)
    as (b & Hset & [Hvis Hch Hhd _]).
  unfold warnsdorff_entry. rewrite Hset. simpl.
  eexists. split; [done|]. simpl. split_and!; try done.
  - split; try done.
    by apply (visited_ext (with_path (with_board (a_tour s) b)
                                     [(start_x, start_y)])).
  - intros Hfresh.
    apply (placed_ext (with_path (with_board (a_tour s) b)
                                 [(start_x, start_y)])); try done.
    by apply (solve_entry_placed (a_tour s) start_x start_y b).
Qed.

(** What an attempt returns and leaves behind. *)
Lemma solve_variation_outcome (s : attempt_state)
    (start_x start_y variation : Z) (prefs : list nat) (verbose : bool) :
  wf_board (size (a_tour s)) (board (a_tour s)) →
  in_bounds (size (a_tour s)) start_x start_y = true →
  ∃ b s',
    _solve_with_warnsdorff_variation s start_x start_y variation prefs verbose
    = Returned (b, s')
    ∧ size (a_tour s') = size (a_tour s)
    ∧ visited (a_tour s')
    ∧ knight_chain (path (a_tour s')) = true
    ∧ head (path (a_tour s')) = Some (start_x, start_y)
    ∧ (b = true →
       Z.of_nat (length (path (a_tour s')))
       = size (a_tour s) * size (a_tour s))
    ∧ (b = false →
       Z.of_nat (length (path (a_tour s')))
       < size (a_tour s) * size (a_tour s)
       ∧ ∃ x y, last (path (a_tour s')) = Some (x, y)
                ∧ legal_prefs (a_tour s') x y prefs = [])
    ∧ (board (a_tour s) = fresh_board (size (a_tour s)) → placed (a_tour s')).
Proof.
  intros Hwf Hb.
  assert (Hsz : 1 <= size (a_tour s)) by (apply in_bounds_spec in Hb; lia).
  destruct (warnsdorff_entry_inv s start_x start_y Hwf Hb)
    as (s0 & Hentry & Hinv0 & Hs0 & Hp0 & _ & _ & Hpl0).
  rewrite solve_variation_steps. unfold warnsdorff_steps. rewrite Hentry.
  set (n := Z.to_nat (size (a_tour s) * size (a_tour s) - 1)).
  pose proof (warnsdorff_iter_inv (start_x, start_y) prefs
                (select_scoring variation) verbose n 1 start_x start_y s0 Hinv0)
    as Hrun.
  destruct (warnsdorff_iter n 1 start_x start_y prefs _ verbose s0)
    as [s1| |x1 y1 s1]; [| done |].
  - destruct Hrun as ((x' & y' & mc & [Hvis Hch Hhd Hlast Hcount] & Hlt & Hnil)
                      & Hs1 & Hpl1).
    exists false, s1. simpl. split_and!; try done; try congruence.
    + intros _. split; [lia|]. by exists x', y'.
    + auto.
  - destruct Hrun as ([Hvis Hch Hhd Hlast Hcount] & Hs1 & Hpl1).
    exists true, (warnsdorff_complete s1). simpl.
    split_and!; try done; try congruence.
    + by apply (visited_ext (a_tour s1)).
    + intros _. subst n. lia.
    + intros Hfresh. apply (placed_ext (a_tour s1)); auto.
Qed.


(** ** A search reads the board, not the logs *)

Lemma count_valid_moves_ext (t t' : tour) (x y : Z) :
  size t' = size t → board t' = board t →
  _count_valid_moves t' x y = _count_valid_moves t x y.
Proof.
  intros Hs Hb. unfold _count_valid_moves.
  generalize 0. induction (seq 0 8) as [|i l IH]; intros acc; simpl; [done|].
  rewrite (is_valid_move_ext t t') by done. apply IH.
Qed.

Lemma select_scoring_ext (variation : Z) (t t' : tour) (x y d : Z) (r : Q)
    (p : nat) :
  size t' = size t →
  select_scoring variation t' x y d r p = select_scoring variation t x y d r p.
Proof.
  intros Hs. unfold select_scoring.
  destruct (variation =? 1); [|destruct (variation =? 2)];
    unfold _score_center, _score_corners, _score_random, corners;
    by rewrite ?Hs.
Qed.

Lemma candidate_of_ext (variation : Z) (t t' : tour) (x y : Z) (p : nat) (r : Q) :
  size t' = size t → board t' = board t →
  candidate_of t' x y (select_scoring variation) p r
  = candidate_of t x y (select_scoring variation) p r.
Proof.
  intros Hs Hb. unfold candidate_of.
  rewrite (count_valid_moves_ext t t') by done.
  by rewrite (select_scoring_ext variation t t').
Qed.

Lemma get_next_ext (variation : Z) (t t' : tour) (g : rng) (x y : Z)
    (prefs : list nat) :
  size t' = size t → board t' = board t →
  _get_next_move_warnsdorff_generic_detailed t' g x y prefs
    (select_scoring variation)
  = _get_next_move_warnsdorff_generic_detailed t g x y prefs
      (select_scoring variation).
Proof.
  intros Hs Hb. rewrite !get_next_spec. unfold candidates.
  rewrite (legal_prefs_ext t t') by done.
  rewrite (zip_with_ext (candidate_of t' x y (select_scoring variation))
             (candidate_of t x y (select_scoring variation)) _ _ _ _
             (λ p r, candidate_of_ext variation t t' x y p r Hs Hb)
             eq_refl eq_refl).
  rewrite (map_ext (considered_of t' x y) (considered_of t x y)); [done|].
  intros p. unfold considered_of, status_of. by rewrite Hs, Hb.
Qed.

Lemma forget_eq (keep : bool) (s1 s2 : attempt_state) :
  forget keep s1 = forget keep s2 →
  size (a_tour s1) = size (a_tour s2) ∧ board (a_tour s1) = board (a_tour s2)
  ∧ path (a_tour s1) = path (a_tour s2) ∧ a_rng s1 = a_rng s2
  ∧ (keep = true → a_tracking s1 = a_tracking s2).
Proof.
  unfold forget. intros [= Hs Hb Hp Hg Ht]. split_and!; try done.
  intros ->. done.
Qed.

Lemma forget_intro (keep : bool) (s1 s2 : attempt_state) :
  size (a_tour s1) = size (a_tour s2) → board (a_tour s1) = board (a_tour s2) →
  path (a_tour s1) = path (a_tour s2) → a_rng s1 = a_rng s2 →
  (keep = true → a_tracking s1 = a_tracking s2) →
  forget keep s1 = forget keep s2.
Proof.
  unfold forget. intros -> -> -> -> Ht. destruct keep; [|done].
  by rewrite Ht.
Qed.

(** One pass gives the same move and the same board whatever the logs,
    the statistics and the verbosity are. *)
Lemma warnsdorff_body_forget (keep : bool) (variation move_count x y : Z)
    (prefs : list nat) (verbose1 verbose2 : bool) (s1 s2 : attempt_state) :
  forget keep s1 = forget keep s2 →
  forget_pass keep (warnsdorff_body move_count x y prefs
                      (select_scoring variation) verbose1 s1)
  = forget_pass keep (warnsdorff_body move_count x y prefs
                        (select_scoring variation) verbose2 s2).
Proof.
  intros Heq. apply forget_eq in Heq as (Hs & Hb & Hp & Hg & Ht).
  unfold warnsdorff_body. cbv zeta.
  rewrite (get_next_ext variation (a_tour s2) (a_tour s1)) by done.
  rewrite Hg.
  destruct (_get_next_move_warnsdorff_generic_detailed _ _ _ _ _ _)
    as [[[[nx ny] info]|] g'].
  - set (t1 := if verbose1 then _ else a_tour s1).
    set (t2 := if verbose2 then _ else a_tour s2).
    assert (H1 : size t1 = size t2 ∧ board t1 = board t2 ∧ path t1 = path t2).
    { subst t1 t2. by destruct verbose1, verbose2. }
    destruct H1 as (Hs1 & Hb1 & Hp1). rewrite Hb1.
    destruct (board_set (board t2) nx ny move_count) as [b|]; [|done].
    cbn [forget_pass]. f_equal. apply forget_intro; simpl; try done.
    + by destruct (move_count mod 500 =? 0).
    + by destruct (move_count mod 500 =? 0).
    + destruct (move_count mod 500 =? 0); simpl; by rewrite Hp1.
    + intros Hk. by rewrite (Ht Hk).
  - cbn [forget_pass]. f_equal. by apply forget_intro.
Qed.

Lemma warnsdorff_iter_forget (keep : bool) (variation : Z) (prefs : list nat)
    (verbose1 verbose2 : bool) (k : nat) :
  ∀ (move_count x y : Z) (s1 s2 : attempt_state),
    forget keep s1 = forget keep s2 →
    forget_pass keep (warnsdorff_iter k move_count x y prefs
                        (select_scoring variation) verbose1 s1)
    = forget_pass keep (warnsdorff_iter k move_count x y prefs
                          (select_scoring variation) verbose2 s2).
Proof.
  induction k as [|k IH]; intros mc x y s1 s2 Heq.
  { simpl. by rewrite Heq. }
  cbn [warnsdorff_iter].
  pose proof (warnsdorff_body_forget keep variation mc x y prefs verbose1
                verbose2 s1 s2 Heq) as Hbody.
  destruct (warnsdorff_body mc x y prefs _ verbose1 s1) as [a1| |x1 y1 a1],
    (warnsdorff_body mc x y prefs _ verbose2 s2) as [a2| |x2 y2 a2];
    try done.
  cbn [forget_pass] in Hbody.
  assert (Hx : x1 = x2) by congruence. assert (Hy : y1 = y2) by congruence.
  assert (Ha : forget keep a1 = forget keep a2) by congruence.
  subst x2 y2. by apply IH.
Qed.

Lemma forget_complete (keep : bool) (s1 s2 : attempt_state) :
  forget keep s1 = forget keep s2 →
  forget keep (warnsdorff_complete s1) = forget keep (warnsdorff_complete s2).
Proof.
  intros Heq. apply forget_eq in Heq as (Hs & Hb & Hp & Hg & Ht).
  by apply forget_intro.
Qed.

(** An attempt is determined by the size, the board and the generator it
    is given (and its tracking by the tracking list it is given). *)
Lemma solve_variation_forget (keep : bool) (s1 s2 : attempt_state)
    (start_x start_y variation : Z) (prefs : list nat)
    (verbose1 verbose2 : bool) :
  size (a_tour s1) = size (a_tour s2) → board (a_tour s1) = board (a_tour s2) →
  a_rng s1 = a_rng s2 → (keep = true → a_tracking s1 = a_tracking s2) →
  forget_result keep (_solve_with_warnsdorff_variation s1 start_x start_y
                        variation prefs verbose1)
  = forget_result keep (_solve_with_warnsdorff_variation s2 start_x start_y
                          variation prefs verbose2).
Proof.
  intros Hs Hb Hg Ht. rewrite !solve_variation_steps.
  unfold warnsdorff_steps, warnsdorff_entry. rewrite Hs, Hb.
  destruct (board_set (board (a_tour s2)) start_x start_y 0) as [b|]; [|done].
  simpl.
  match goal with
  | |- forget_result _ (pass_result (warnsdorff_iter ?k _ _ _ _ _ _ ?a1))
       = forget_result _ (pass_result (warnsdorff_iter _ _ _ _ _ _ _ ?a2)) =>
      pose proof (warnsdorff_iter_forget keep variation prefs verbose1
                    verbose2 k 1 start_x start_y a1 a2) as Hrun
  end.
  lapply Hrun; [clear Hrun; intros Hrun|by apply forget_intro].
  destruct (warnsdorff_iter _ _ _ _ _ _ verbose1 _) as [a1| |x1 y1 a1],
    (warnsdorff_iter _ _ _ _ _ _ verbose2 _) as [a2| |x2 y2 a2]; try done.
  - cbn [forget_pass] in Hrun.
    assert (Ha : forget keep a1 = forget keep a2) by congruence.
    simpl. by rewrite Ha.
  - cbn [forget_pass] in Hrun.
    assert (Ha : forget keep a1 = forget keep a2) by congruence.
    simpl. by rewrite (forget_complete keep a1 a2).
Qed.

End WarnsdorffProofs.

(** The minimum that [_score_corners] takes over its list of corners is
    the least distance to one of the four corners. *)
Lemma list_min_corners (t : tour) (c : cell) :
  list_min (map (manhattan c) (corners t)) = corner_distance (size t) c.
Proof.
  unfold corners, corner_distance. cbn [map list_min fold_left]. lia.
Qed.

Lemma score_corners_spec (t : tour) (x y d : Z) (r : Q) (p : nat) :
  _score_corners t x y d r p
  = [inject_Z d; (inject_Z (- corner_distance (size t) (x, y)) + r)%Q].
Proof.
  unfold _score_corners. cbv zeta.
  change (map (λ c : cell, Z.abs (x - c.1) + Z.abs (y - c.2)) (corners t))
    with (map (manhattan (x, y)) (corners t)).
  by rewrite list_min_corners.
Qed.

(** ** The attempts of a run *)

Section RunProofs.
Context {E : Env}.

(** An attempt leaves the statistics alone. *)
Lemma warnsdorff_body_stats (move_count x y : Z) (prefs : list nat)
    (scoring : scoring_func) (verbose : bool) (s : attempt_state) :
  match warnsdorff_body move_count x y prefs scoring verbose s with
  | Dead_end s' | Moved _ _ s' =>
      variation_stats (a_tour s') = variation_stats (a_tour s)
  | Raised => True
  end.
Proof.
  unfold warnsdorff_body. cbv zeta.
  destruct (_get_next_move_warnsdorff_generic_detailed _ _ _ _ _ _)
    as [[[[nx ny] info]|] g']; [|done].
  destruct (board_set _ _ _ _); [|done].
  by destruct verbose, (move_count mod 500 =? 0).
Qed.

Lemma warnsdorff_iter_stats (prefs : list nat) (scoring : scoring_func)
    (verbose : bool) (k : nat) :
  ∀ (move_count x y : Z) (s : attempt_state),
    match warnsdorff_iter k move_count x y prefs scoring verbose s with
    | Dead_end s' | Moved _ _ s' =>
        variation_stats (a_tour s') = variation_stats (a_tour s)
    | Raised => True
    end.
Proof.
  induction k as [|k IH]; intros mc x y s; [done|]. cbn [warnsdorff_iter].
  pose proof (warnsdorff_body_stats mc x y prefs scoring verbose s) as Hbody.
  destruct (warnsdorff_body mc x y prefs scoring verbose s)
    as [s1| |x1 y1 s1]; try done.
  specialize (IH (mc + 1) x1 y1 s1).
  destruct (warnsdorff_iter k _ _ _ _ _ _ s1); try done; congruence.
Qed.

Lemma solve_variation_stats (s s' : attempt_state)
    (start_x start_y variation : Z) (prefs : list nat) (verbose b : bool) :
  _solve_with_warnsdorff_variation s start_x start_y variation prefs verbose
  = Returned (b, s') →
  variation_stats (a_tour s') = variation_stats (a_tour s).
Proof.
  rewrite solve_variation_steps. unfold warnsdorff_steps, warnsdorff_entry.
  destruct (board_set _ _ _ _) as [b0|]; [|done]. simpl.
  match goal with
  | |- pass_result (warnsdorff_iter ?k ?mc ?x ?y ?p ?sc ?v ?a) = _ → _ =>
      pose proof (warnsdorff_iter_stats p sc v k mc x y a) as Hrun;
      destruct (warnsdorff_iter k mc x y p sc v a) as [s1| |x1 y1 s1]
  end; simpl; intros [= <- <-]; simpl; done.
Qed.

(** Inside a run, attempt [i] does what it does on its own. *)
Lemma attempt_in_run (t : tour) (g : rng) (start_x start_y i : Z)
    (verbose : bool) :
  board t = fresh_board (size t) →
  in_bounds (size t) start_x start_y = true →
  g = (shuffle (seed (attempt_seed (size t) i)) (seq 0 8)).2 →
  ∃ s',
    _solve_with_warnsdorff_variation
      {| a_tour := t; a_rng := g; a_tracking := Some [] |}
      start_x start_y (i mod 3) (attempt_prefs (size t) i) verbose
    = Returned (attempt_success (size t) start_x start_y i, s')
    ∧ size (a_tour s') = size t
    ∧ path (a_tour s') = attempt_path (size t) start_x start_y i
    ∧ board (a_tour s') = attempt_board (size t) start_x start_y i
    ∧ default [] (a_tracking s') = attempt_tracking (size t) start_x start_y i
    ∧ variation_stats (a_tour s') = variation_stats t
    ∧ head (path (a_tour s')) = Some (start_x, start_y).
Proof.
  intros Hfresh Hb ->.
  set (s := {| a_tour := t; a_rng := _; a_tracking := Some [] |}).
  assert (Hwf : wf_board (size (a_tour s)) (board (a_tour s))).
  { simpl. rewrite Hfresh. apply fresh_board_wf. }
  destruct (solve_variation_outcome s start_x start_y (i mod 3)
              (attempt_prefs (size t) i) verbose Hwf Hb)
    as (b & s' & Hret & Hsz & _ & _ & Hhd & _).
  pose proof (solve_variation_stats _ _ _ _ _ _ _ _ Hret) as Hstats.
  pose proof (solve_variation_forget true s
                {| a_tour := init (size t);
                   a_rng := (shuffle (seed (attempt_seed (size t) i))
                                     (seq 0 8)).2;
                   a_tracking := Some [] |}
                start_x start_y (i mod 3) (attempt_prefs (size t) i)
                verbose false eq_refl Hfresh eq_refl (λ _, eq_refl))
    as Hforget.
  fold (attempt_alone (size t) start_x start_y i false) in Hforget.
  rewrite Hret in Hforget.
  unfold attempt_success, attempt_path, attempt_board, attempt_tracking.
  destruct (attempt_alone (size t) start_x start_y i false)
    as [[b1 s1]| |]; try done.
  simpl in Hforget. injection Hforget as -> Hs Hbd Hp Hg Ht.
  exists s'. rewrite Ht. split_and!; done.
Qed.


(** One pass of the loop of a run. *)
Lemma attempt_body_spec (hash : string → Z) (clock : Z → string) (start_x start_y : Z)
    (verbose : bool) (i : Z) (r : run_state) :
  in_bounds (size (r_tour r)) start_x start_y = true →
  let n := size (r_tour r) in
  let fp := fingerprint hash (attempt_path n start_x start_y i) in
  let ok := attempt_success n start_x start_y i in
  let novel := ok && negb (bool_decide (fp ∈ attempted_paths r)) in
  ∃ r',
    attempt_body hash clock start_x start_y verbose i r = Returned (novel, r')
    ∧ size (r_tour r') = n
    ∧ path (r_tour r') = attempt_path n start_x start_y i
    ∧ board (r_tour r') = attempt_board n start_x start_y i
    ∧ variation_stats (r_tour r')
      = variation_stats (r_tour r) ++ [attempt_info clock n start_x start_y i]
    ∧ attempted_paths r'
      = (if novel then attempted_paths r else {[fp]} ∪ attempted_paths r)
    ∧ last (debug_log (r_tour r'))
      = Some (if novel then SuccessMsg (i + 1) (i mod 3)
              else if ok then DuplicateMsg (i + 1)
              else FailedMsg (i + 1) (i mod 3)).
Proof.
  intros Hb n fp ok novel. unfold attempt_body. cbv zeta.
  destruct (shuffle (seed (i + size (r_tour r) * 1000)) (seq 0 8))
    as [prefs g1] eqn:Hshuffle.
  set (t2 := log_move _ (AttemptHeader _ _ _ _ _)).
  assert (Hprefs : attempt_prefs n i = prefs).
  { unfold attempt_prefs, attempt_seed. subst n. by rewrite Hshuffle. }
  destruct (attempt_in_run t2 g1 start_x start_y i verbose) as
    (s' & Hret & Hsz & Hpath & Hboard & Htrack & Hstats & Hhd); try done.
  { change (size t2) with n. unfold attempt_seed. subst n.
    by rewrite Hshuffle. }
  change (size t2) with n in *. rewrite Hprefs in Hret. rewrite Hret.
  fold ok. fold fp in Hpath.
  assert (Hinfo :
    {| attempt_no := i + 1; variation_type := i mod 3;
       random_seed := i + size (r_tour r) * 1000;
       move_preferences := prefs; start_position := (start_x, start_y);
       timestamp := clock i; successful := ok;
       path_length := length (path (a_tour s'));
       move_tracking := default [] (a_tracking s') |}
    = attempt_info clock n start_x start_y i).
  { unfold attempt_info. by rewrite Hpath, Htrack, Hprefs. }
  rewrite Hinfo.
  assert (Hlen : (0 <? length (path (a_tour s')))%nat = true).
  { apply Nat.ltb_lt. destruct (path (a_tour s')); [done|simpl; lia]. }
  unfold _get_path_hash. cbn [path with_stats log_move with_log].
  rewrite Hlen, Hpath. fold (fingerprint hash (attempt_path n start_x start_y i)).
  fold fp. subst novel. destruct ok.
  - destruct (bool_decide (fp ∈ attempted_paths r)) eqn:Hdup; simpl.
    + eexists. split; [done|]. simpl. split_and!; try done.
      * by rewrite Hstats.
      * by rewrite last_snoc.
    + eexists. split; [done|]. simpl. split_and!; try done.
      * by rewrite Hstats.
      * by rewrite last_snoc.
  - simpl. eexists. split; [done|]. simpl. split_and!; try done.
    + by rewrite Hstats.
    + by rewrite last_snoc.
Qed.


Lemma attempts_loop_iter (hash : string → Z) (clock : Z → string) (start_x start_y : Z)
    (verbose : bool) (max_attempts : Z) (k : nat) :
  ∀ (i : Z) (r : run_state),
    attempts_loop hash clock start_x start_y verbose max_attempts k i r =
    match attempts_iter hash clock start_x start_y verbose k i r with
    | Returned (false, r') => Returned (false, run_exhausted max_attempts r')
    | other => other
    end.
Proof.
  induction k as [|k IH]; intros i r; simpl; [done|].
  destruct (attempt_body hash clock start_x start_y verbose i r)
    as [[[|] r']| |]; try done.
Qed.

Lemma prior_fingerprints_S (hash : string → Z) (n start_x start_y : Z) (k : nat) :
  prior_fingerprints hash n start_x start_y (S k)
  = {[fingerprint hash (attempt_path n start_x start_y (Z.of_nat k))]}
    ∪ prior_fingerprints hash n start_x start_y k.
Proof.
  unfold prior_fingerprints. rewrite seq_S, fmap_app, list_to_set_app_L.
  simpl. rewrite (right_id_L ∅ (∪)). apply (comm_L (∪)).
Qed.

Lemma attempt_infos_S (clock : Z → string) (n start_x start_y : Z) (k : nat) :
  attempt_infos clock n start_x start_y (S k)
  = attempt_infos clock n start_x start_y k
    ++ [attempt_info clock n start_x start_y (Z.of_nat k)].
Proof. unfold attempt_infos. by rewrite seq_S, fmap_app. Qed.

(** The passes of a run, from a state that records the attempts before
    number [i]: they go on while no attempt is a novel success, and the
    first novel success returns [True] at once. *)
Lemma attempts_iter_spec (hash : string → Z) (clock : Z → string) (n start_x start_y : Z)
    (verbose : bool) (k : nat) :
  in_bounds n start_x start_y = true →
  ∀ (i : nat) (r : run_state),
    size (r_tour r) = n →
    attempted_paths r = prior_fingerprints hash n start_x start_y i →
    variation_stats (r_tour r) = attempt_infos clock n start_x start_y i →
    ∃ b r',
      attempts_iter hash clock start_x start_y verbose k (Z.of_nat i) r
      = Returned (b, r')
      ∧ size (r_tour r') = n
      ∧ (b = false →
         (∀ j, (i <= j < i + k)%nat → novel_success hash n start_x start_y j = false)
         ∧ attempted_paths r' = prior_fingerprints hash n start_x start_y (i + k)
         ∧ variation_stats (r_tour r')
           = attempt_infos clock n start_x start_y (i + k)
         ∧ ∀ j, (i + k = S j)%nat → (0 < k)%nat →
                path (r_tour r') = attempt_path n start_x start_y (Z.of_nat j)
                ∧ board (r_tour r')
                  = attempt_board n start_x start_y (Z.of_nat j))
      ∧ (b = true →
         ∃ j, (i <= j < i + k)%nat
              ∧ novel_success hash n start_x start_y j = true
              ∧ (∀ j', (i <= j' < j)%nat →
                       novel_success hash n start_x start_y j' = false)
              ∧ path (r_tour r') = attempt_path n start_x start_y (Z.of_nat j)
              ∧ board (r_tour r')
                = attempt_board n start_x start_y (Z.of_nat j)
              ∧ variation_stats (r_tour r')
                = attempt_infos clock n start_x start_y (S j)).
Proof.
  intros Hb. induction k as [|k IH]; intros i r Hsz Hpaths Hstats.
  { exists false, r. simpl. split_and!; try done. intros _.
    rewrite Nat.add_0_r. split_and!; try done; intros; lia. }
  cbn [attempts_iter].
  destruct (attempt_body_spec hash clock start_x start_y verbose (Z.of_nat i) r)
    as (r1 & Hbody & Hsz1 & Hpath1 & Hboard1 & Hstats1 & Hpaths1 & _).
  { by rewrite Hsz. }
  rewrite Hsz, Hpaths in *. rewrite Hbody.
  fold (novel_success hash n start_x start_y i) in *.
  destruct (novel_success hash n start_x start_y i) eqn:Hnovel.
  - exists true, r1. split_and!; try done. intros _. exists i.
    split_and!; try done; try lia.
    by rewrite attempt_infos_S, <- Hstats.
  - destruct (IH (S i) r1) as (b & r2 & Hrun & Hsz2 & Hfalse & Htrue).
    { done. }
    { by rewrite prior_fingerprints_S. }
    { by rewrite attempt_infos_S, <- Hstats. }
    replace (Z.of_nat i + 1)%Z with (Z.of_nat (S i)) by lia.
    exists b, r2. split_and!; try done.
    + intros Hbf. destruct (Hfalse Hbf) as (Hnone & Hp2 & Hs2 & Hlast).
      replace (i + S k)%nat with (S i + k)%nat by lia.
      split_and!; try done.
      * intros j Hj. destruct (decide (j = i)) as [->|]; [done|].
        apply Hnone. lia.
      * intros j Hj _. destruct k as [|k].
        -- simpl in Hrun. injection Hrun as <- <-.
           assert (j = i) as -> by lia. done.
        -- apply Hlast; lia.
    + intros Hbt.
      destruct (Htrue Hbt) as (j & Hj & Hnj & Hbefore & Hp & Hbd & Hst).
      exists j. split_and!; try done; try lia.
      intros j' Hj'. destruct (decide (j' = i)) as [->|]; [done|].
      apply Hbefore. lia.
Qed.


(** What a run returns and leaves behind. *)
Lemma run_outcome (hash : string → Z) (clock : Z → string) (t : tour) (g : rng)
    (start_x start_y max_attempts : Z) (verbose : bool) :
  in_bounds (size t) start_x start_y = true →
  ∃ b r',
    solve_with_multiple_warnsdorff_attempts hash clock t g start_x start_y
      max_attempts verbose = Returned (b, r')
    ∧ size (r_tour r') = size t
    ∧ (b = false →
       (∀ j, (j < Z.to_nat max_attempts)%nat →
             novel_success hash (size t) start_x start_y j = false)
       ∧ variation_stats (r_tour r')
         = attempt_infos clock (size t) start_x start_y (Z.to_nat max_attempts)
       ∧ (∀ j, Z.to_nat max_attempts = S j →
               path (r_tour r')
               = attempt_path (size t) start_x start_y (Z.of_nat j)
               ∧ board (r_tour r')
                 = attempt_board (size t) start_x start_y (Z.of_nat j))
       ∧ (Z.to_nat max_attempts = O →
          path (r_tour r') = path t ∧ board (r_tour r') = board t))
    ∧ (b = true →
       ∃ j, (j < Z.to_nat max_attempts)%nat
            ∧ novel_success hash (size t) start_x start_y j = true
            ∧ (∀ j', (j' < j)%nat →
                     novel_success hash (size t) start_x start_y j' = false)
            ∧ path (r_tour r')
              = attempt_path (size t) start_x start_y (Z.of_nat j)
            ∧ board (r_tour r')
              = attempt_board (size t) start_x start_y (Z.of_nat j)
            ∧ variation_stats (r_tour r')
              = attempt_infos clock (size t) start_x start_y (S j)).
Proof.
  intros Hb. unfold solve_with_multiple_warnsdorff_attempts.
  rewrite attempts_loop_iter.
  set (r0 := {| r_tour := with_log (with_stats t []) []; r_rng := g;
                attempted_paths := ∅ |}).
  destruct (attempts_iter_spec hash clock (size t) start_x start_y verbose
              (Z.to_nat max_attempts) Hb 0 r0 eq_refl eq_refl eq_refl)
    as (b & r' & Hrun & Hsz & Hfalse & Htrue).
  change (Z.of_nat 0) with 0 in Hrun. rewrite Hrun. destruct b.
  - exists true, r'. split_and!; try done. intros _.
    destruct (Htrue eq_refl) as (j & Hj & Hnj & Hbefore & Hp & Hbd & Hst).
    exists j. split_and!; try done; try lia. intros j' Hj'. apply Hbefore. lia.
  - exists false, (run_exhausted max_attempts r'). split_and!; try done.
    intros _. destruct (Hfalse eq_refl) as (Hnone & Hpaths & Hstats & Hlast).
    simpl. split_and!; try done.
    + intros j Hj. apply Hnone. lia.
    + intros j Hj. apply Hlast; lia.
    + intros Hz. rewrite Hz in Hrun. simpl in Hrun. by injection Hrun as <-.
Qed.

Lemma attempt_alone_outcome (n start_x start_y i : Z) :
  in_bounds n start_x start_y = true →
  head (attempt_path n start_x start_y i) = Some (start_x, start_y)
  ∧ (attempt_success n start_x start_y i = true →
     is_tour n (start_x, start_y) (attempt_path n start_x start_y i)).
Proof.
  intros Hb.
  assert (Hsz : 0 <= n) by (apply in_bounds_spec in Hb; lia).
  set (s := {| a_tour := init n;
               a_rng := (shuffle (seed (attempt_seed n i)) (seq 0 8)).2;
               a_tracking := Some [] |}).
  destruct (solve_variation_outcome s start_x start_y (i mod 3)
              (attempt_prefs n i) false (fresh_board_wf n) Hb)
    as (b & s' & Hret & Hsz' & Hvis & Hch & Hhd & Htrue & _).
  unfold attempt_path, attempt_success, attempt_alone. fold s. rewrite Hret.
  split; [done|]. intros ->. specialize (Htrue eq_refl).
  simpl in Hsz', Htrue. rewrite <- Hsz'.
  apply visited_full_is_tour; try done; by rewrite Hsz'.
Qed.


Lemma prior_fingerprints_elem (hash : string → Z) (n start_x start_y : Z)
    (k : nat) (h : Z) :
  h ∈ prior_fingerprints hash n start_x start_y k ↔
  ∃ j, (j < k)%nat
       ∧ h = fingerprint hash (attempt_path n start_x start_y (Z.of_nat j)).
Proof.
  unfold prior_fingerprints. rewrite elem_of_list_to_set, list_elem_of_fmap.
  split.
  - intros (j & -> & Hj). apply elem_of_seq in Hj. exists j. split; [lia|done].
  - intros (j & Hj & ->). exists j. split; [done|]. apply elem_of_seq. lia.
Qed.

Lemma novel_success_spec (hash : string → Z) (n start_x start_y : Z) (i : nat) :
  novel_success hash n start_x start_y i = true ↔
  attempt_success n start_x start_y (Z.of_nat i) = true
  ∧ ¬ ∃ j, (j < i)%nat
           ∧ fingerprint hash (attempt_path n start_x start_y (Z.of_nat i))
             = fingerprint hash (attempt_path n start_x start_y (Z.of_nat j)).
Proof.
  unfold novel_success.
  rewrite andb_true_iff, negb_true_iff, bool_decide_eq_false.
  by rewrite prior_fingerprints_elem.
Qed.

Lemma attempt_infos_lookup (clock : Z → string) (n start_x start_y : Z)
    (k i : nat) (info : variation_info) :
  attempt_infos clock n start_x start_y k !! i = Some info →
  (i < k)%nat ∧ info = attempt_info clock n start_x start_y (Z.of_nat i).
Proof.
  unfold attempt_infos. rewrite list_lookup_fmap.
  destruct (seq 0 k !! i) as [j|] eqn:Hj; [|done].
  apply lookup_seq in Hj as [-> Hlt]. simpl. intros [= <-]. done.
Qed.

Lemma attempt_infos_untimed (clock1 clock2 : Z → string)
    (n start_x start_y : Z) (k : nat) :
  untimed <$> attempt_infos clock1 n start_x start_y k
  = untimed <$> attempt_infos clock2 n start_x start_y k.
Proof. unfold attempt_infos. rewrite <- !list_fmap_compose. done. Qed.



Lemma attempt_infos_prefix (clock : Z → string) (n start_x start_y : Z)
    (k1 k2 : nat) :
  (k1 <= k2)%nat →
  attempt_infos clock n start_x start_y k1
  `prefix_of` attempt_infos clock n start_x start_y k2.
Proof.
  intros Hle. unfold attempt_infos.
  replace k2 with (k1 + (k2 - k1))%nat by lia.
  rewrite seq_app, fmap_app. by eexists.
Qed.

(** The records of a run are the records of its first attempts. *)
Lemma run_stats (hash : string → Z) (clock : Z → string) (t : tour) (g : rng)
    (start_x start_y max_attempts : Z) (verbose b : bool) (r' : run_state) :
  in_bounds (size t) start_x start_y = true →
  solve_with_multiple_warnsdorff_attempts hash clock t g start_x start_y
    max_attempts verbose = Returned (b, r') →
  ∃ k, variation_stats (r_tour r')
       = attempt_infos clock (size t) start_x start_y k.
Proof.
  intros Hb Hret.
  destruct (run_outcome hash clock t g start_x start_y max_attempts verbose
              Hb) as (b1 & r1 & Hret1 & _ & Hfalse & Htrue).
  rewrite Hret in Hret1. injection Hret1 as <- <-. destruct b.
  - destruct (Htrue eq_refl) as (j & _ & _ & _ & _ & _ & Hst). by exists (S j).
  - destruct (Hfalse eq_refl) as (_ & Hst & _).
    by exists (Z.to_nat max_attempts).
Qed.

End RunProofs.

(** An attempt made on a new object returns. *)
Lemma attempt_alone_returns `{E : Env} (n start_x start_y i : Z) :
  in_bounds n start_x start_y = true →
  ∃ b s, attempt_alone n start_x start_y i false = Returned (b, s).
Proof.
  intros Hb.
  destruct (solve_variation_outcome
              {| a_tour := init n;
                 a_rng := (shuffle (seed (attempt_seed n i)) (seq 0 8)).2;
                 a_tracking := Some [] |}
              start_x start_y (i mod 3) (attempt_prefs n i) false
              (fresh_board_wf n) Hb) as (b & s & Hret & _).
  by exists b, s.
Qed.

(** The attempts a run has made when it returns, and what the last of them
    leaves. *)
Lemma run_attempts `{E : Env} (hash : string → Z) (clock : Z → string)
    (t : tour) (g : rng) (start_x start_y max_attempts : Z) (verbose : bool)
    (b : bool) (r' : run_state) :
  in_bounds (size t) start_x start_y = true →
  solve_with_multiple_warnsdorff_attempts hash clock t g start_x start_y
    max_attempts verbose = Returned (b, r') →
  ∃ k : nat,
    variation_stats (r_tour r')
    = attempt_infos clock (size t) start_x start_y k
    ∧ (k <= Z.to_nat max_attempts)%nat
    ∧ (1 <= max_attempts → (1 <= k)%nat)
    ∧ (b = false → k = Z.to_nat max_attempts)
    ∧ ∀ i, S i = k →
        path (r_tour r') = attempt_path (size t) start_x start_y (Z.of_nat i)
        ∧ board (r_tour r')
          = attempt_board (size t) start_x start_y (Z.of_nat i).
Proof.
  intros Hb Hret.
  destruct (run_outcome hash clock t g start_x start_y max_attempts verbose
              Hb) as (b0 & r0 & Hret0 & _ & Hfalse & Htrue).
  rewrite Hret in Hret0. injection Hret0 as <- <-. destruct b.
  - destruct (Htrue eq_refl) as (j & Hj & _ & _ & Hp & Hbd & Hst).
    exists (S j). split_and!; try done; try lia.
    by intros i [= ->].
  - destruct (Hfalse eq_refl) as (_ & Hst & Hlast & _).
    exists (Z.to_nat max_attempts). split_and!; try done; try lia.
    intros i Hi. by apply Hlast.
Qed.

(** * The fingerprint of a path *)

(** ** Strings *)

Lemma string_length_app (s1 s2 : string) :
  String.length (s1 +:+ s2) = (String.length s1 + String.length s2)%nat.
Proof.
  induction s1 as [|a s1 IH]; [done|].
  change (String a s1 +:+ s2) with (String a (s1 +:+ s2)).
  cbn [String.length]. by rewrite IH.
Qed.




(** ** Decimal numerals *)

Lemma pretty_N_go_length (x : N) :
  ∀ s, (String.length s <= String.length (pretty_N_go x s))%nat.
Proof.
  induction (N.lt_wf_0 x) as [x _ IH]. intros s.
  destruct (decide (x = 0%N)) as [->|Hx].
  - by rewrite pretty_N_go_0.
  - rewrite pretty_N_go_step by lia.
    etransitivity; [|apply IH].
    + cbn. lia.
    + apply N.div_lt; lia.
Qed.

Lemma pretty_N_length_pos (x : N) : (1 <= String.length (pretty x))%nat.
Proof.
  unfold pretty, pretty_N. destruct (decide (x = 0%N)) as [->|Hx]; [done|].
  rewrite pretty_N_go_step by lia.
  etransitivity; [|apply pretty_N_go_length]. cbn. lia.
Qed.

Lemma pretty_N_char_digit (x : N) : is_digit (pretty_N_char x) = true.
Proof. unfold pretty_N_char. by repeat case_match. Qed.

Lemma pretty_N_go_digits (x : N) :
  ∀ s, digits s = true → digits (pretty_N_go x s) = true.
Proof.
  induction (N.lt_wf_0 x) as [x _ IH]. intros s Hs.
  destruct (decide (x = 0%N)) as [->|Hx].
  - by rewrite pretty_N_go_0.
  - rewrite pretty_N_go_step by lia. apply IH; [apply N.div_lt; lia|].
    cbn [digits]. by rewrite pretty_N_char_digit.
Qed.

Lemma pretty_N_digits (x : N) :
  digits (pretty x) = true ∧ pretty x ≠ EmptyString.
Proof.
  split.
  - unfold pretty, pretty_N. destruct (decide (x = 0%N)); [done|].
    by apply pretty_N_go_digits.
  - intros Hnil. pose proof (pretty_N_length_pos x) as Hlen.
    rewrite Hnil in Hlen. cbn in Hlen. lia.
Qed.

(** A numeral is a string of digits, after a sign if the number is
    negative. *)
Lemma pretty_Z_shape (z : Z) :
  ∃ d, digits d = true ∧ d ≠ EmptyString
       ∧ (pretty z = d ∨ pretty z = String "-"%char d).
Proof.
  destruct z as [|p|p].
  - exists "0". split_and!; try done. by left.
  - exists (pretty (N.pos p)).
    destruct (pretty_N_digits (N.pos p)). split_and!; try done. by left.
  - exists (pretty (N.pos p)).
    destruct (pretty_N_digits (N.pos p)). split_and!; try done. by right.
Qed.



(** ** [str] of a list of cells *)







(** ** Dead ends and tours on boards of at most 200 cells *)


Lemma knight_chain_lookup (p : list cell) (k : nat) (a b : cell) :
  knight_chain p = true → p !! k = Some a → p !! S k = Some b →
  is_knight_step a b = true.
Proof.
  intros Hch Ha Hb.
  pose proof (take_drop_middle p k a Ha) as Hp.
  assert (Hd : drop (S k) p = b :: drop (S (S k)) p).
  { apply drop_S. done. }
  rewrite Hd in Hp. rewrite <- Hp in Hch.
  by apply knight_chain_next in Hch.
Qed.


Section FingerprintProofs.
Context {E : Env}.



End FingerprintProofs.

(** * The claims *)

(** ** Backtracking *)

Lemma init_fresh (n : Z) : board (init n) = fresh_board (size (init n)).
Proof. done. Qed.

Lemma in_bounds_3 (x y : Z) :
  in_bounds 3 x y = true →
  (x = 0 ∨ x = 1 ∨ x = 2) ∧ (y = 0 ∨ y = 1 ∨ y = 2).
Proof. intros H. apply in_bounds_spec in H. lia. Qed.

(** C1.  On a new board of any size and from any start cell inside it,
    [solve] returns [False] only if no knight's tour from that cell exists;
    on the 3 by 3 board it returns [False] from every start cell, with an
    empty path. *)
Theorem solve_failure_exhaustive (n start_x start_y : Z) :
  in_bounds n start_x start_y = true →
  (∀ (fuel : nat) (t' : tour),
     solve fuel (init n) start_x start_y = Returned (false, t') →
     ¬ ∃ q, is_tour n (start_x, start_y) q)
  ∧ (n = 3 →
     ∀ fuel : nat, (31 <= fuel)%nat →
       ∃ t', solve fuel (init n) start_x start_y = Returned (false, t')
             ∧ path t' = []).
Proof.
  intros Hb. split.
  - intros fuel t' Hret.
    destruct (solve_outcome (init n) start_x start_y (init_fresh n) Hb)
      as (m & b & t1 & Hm & _ & _ & Hfalse).
    pose proof (solve_mono _ (max fuel m) _ _ _ _ Hret (Nat.le_max_l _ _)) as H1.
    pose proof (solve_mono _ (max fuel m) _ _ _ _ Hm (Nat.le_max_r _ _)) as H2.
    rewrite H1 in H2. injection H2 as <- _. by apply Hfalse.
  - intros -> fuel Hfuel.
    assert (H31 : ∃ t', solve 31 (init 3) start_x start_y = Returned (false, t')).
    { destruct (in_bounds_3 _ _ Hb) as [[ -> | [ -> | -> ]] [ -> | [ -> | -> ]]];
        eexists; vm_compute; reflexivity. }
    destruct H31 as [t' H31]. exists t'.
    pose proof (solve_mono 31 fuel _ _ _ _ H31 Hfuel) as Hret.
    split; [done|].
    by destruct (solve_failure_clean fuel (init 3) t' start_x start_y
                   (fresh_board_wf 3) Hb Hret).
Qed.

Lemma solve_failure_exhaustive_witness :
  in_bounds 3 1 2 = true
  ∧ (∃ t', solve 40 (init 3) 1 2 = Returned (false, t'))
  ∧ ¬ ∃ q, is_tour 3 (1, 2) q.
Proof.
  assert (Hb : in_bounds 3 1 2 = true) by reflexivity.
  destruct (solve_failure_exhaustive 3 1 2 Hb) as [Hnone Hthree].
  destruct (Hthree eq_refl 40%nat ltac:(lia)) as [t' [Ht' _]].
  split; [exact Hb|]. split; [by exists t'|]. exact (Hnone 40%nat t' Ht').
Defined.

(** C9.  On a new board of size at least 1 and from any start cell inside
    it, [solve] returns: after at most [subtree_cost (n * n - 1) + 1] passes
    of its loop.  No two passes of a run start from the same stack of
    frames (positions and cursors). *)
Theorem solve_terminates (n start_x start_y : Z) :
  1 <= n → in_bounds n start_x start_y = true →
  (∀ fuel : nat,
     (subtree_cost (Z.to_nat (n * n) - 1) < fuel)%nat →
     ∃ b t', solve fuel (init n) start_x start_y = Returned (b, t'))
  ∧ (∀ (i j : nat) (ti tj : tour) (si sj : list frame),
       (i < j)%nat →
       solve_steps i (init n) start_x start_y = Continue_ ti si →
       solve_steps j (init n) start_x start_y = Continue_ tj sj →
       si ≠ sj).
Proof.
  intros Hn Hb.
  assert (Hwf : wf_board (size (init n)) (board (init n))).
  { apply fresh_board_wf. }
  destruct (solve_entry (init n) start_x start_y Hwf Hb) as (b0 & Hset & Hinv).
  set (t0 := with_path (with_board (init n) b0) [(start_x, start_y)]) in *.
  set (f0 := {| f_count := 1; f_x := start_x; f_y := start_y; f_i := 0 |}) in *.
  assert (Hcost0 : stack_cost (Z.to_nat (size t0 * size t0)) [f0]
                   = subtree_cost (Z.to_nat (n * n) - 1)).
  { cbn [stack_cost]. subst f0. rewrite frame_cost_fresh, Nat.add_0_r.
    change (size t0) with n. done. }
  split.
  - intros fuel Hfuel. rewrite solve_steps_spec. unfold solve_steps.
    rewrite Hset. fold t0 f0.
    pose proof (solve_iter_inv _ fuel _ _ Hinv) as Hfin.
    destruct (solve_iter fuel t0 [f0]) as [b t'| |t' st'] eqn:Hrun.
    + by exists b, t'.
    + done.
    + exfalso.
      pose proof (solve_iter_cost _ _ _ _ _ _ Hinv ltac:(simpl; lia) Hrun).
      lia.
  - intros i j ti tj si sj Hij Hi Hj Heq. unfold solve_steps in Hi, Hj.
    rewrite Hset in Hi, Hj. fold t0 f0 in Hi, Hj.
    replace j with (i + (j - i))%nat in Hj by lia.
    rewrite solve_iter_add, Hi in Hj.
    pose proof (solve_iter_inv _ i _ _ Hinv) as Hinvi. rewrite Hi in Hinvi.
    destruct Hinvi as [Hinvi Hszi].
    pose proof (solve_iter_cost _ _ _ _ _ _ Hinvi
                  ltac:(rewrite Hszi; simpl; lia) Hj) as Hcost.
    rewrite Heq in Hcost. lia.
Qed.

Lemma solve_terminates_witness :
  ∃ b t', solve 2000 (init 2) 1 0 = Returned (b, t').
Proof.
  assert (Hn : 1 <= 2) by lia.
  assert (Hb : in_bounds 2 1 0 = true) by reflexivity.
  destruct (solve_terminates 2 1 0 Hn Hb) as [Hret _].
  apply Hret. vm_compute. lia.
Defined.

Lemma placed_order_invariant (t : tour) : placed t → order_invariant t.
Proof.
  intros Hpl. split.
  - intros j Hj.
    destruct (lookup_lt_is_Some_2 (path t) j Hj) as [c Hc].
    destruct (placed_path _ Hpl j c Hc) as [Hin Hget].
    exists c. split_and!; try done.
    intros c' Hin' Hget'.
    destruct (placed_board _ Hpl c'.1 c'.2 _ Hin' Hget') as [?|[_ Hl]]; [lia|].
    rewrite Nat2Z.id, Hc in Hl. destruct c'. by injection Hl as ->.
  - intros c Hin Hout.
    destruct (board_get_in_bounds _ _ c.1 c.2 (placed_wf _ Hpl) Hin)
      as (row & v & _ & _ & Hget).
    destruct (placed_board _ Hpl c.1 c.2 v Hin Hget) as [->|[_ Hl]]; [done|].
    exfalso. apply Hout. apply list_elem_of_lookup_2 in Hl. by destruct c.
Qed.

(** ** Successful searches *)

Section SolverClaims.
Context {E : Env}.

(** C2.  On a board of [n] rows of [n] cells and from a start cell inside
    it, a [True] from [solve] or from one Warnsdorff attempt comes with a
    path of exactly [n * n] positions, all inside the board, in which every
    cell of the board occurs once and only once, and in which consecutive
    positions are one knight offset apart. *)
Theorem success_is_tour (t : tour) (start_x start_y : Z) :
  wf_board (size t) (board t) →
  in_bounds (size t) start_x start_y = true →
  (∀ (fuel : nat) (t' : tour),
     solve fuel t start_x start_y = Returned (true, t') →
     Z.of_nat (length (path t')) = size t * size t
     ∧ is_tour (size t) (start_x, start_y) (path t'))
  ∧ (∀ (g : rng) (tracking : option (list tracked_move)) (variation : Z)
       (prefs : list nat) (verbose : bool) (s' : attempt_state),
       _solve_with_warnsdorff_variation
         {| a_tour := t; a_rng := g; a_tracking := tracking |}
         start_x start_y variation prefs verbose = Returned (true, s') →
       Z.of_nat (length (path (a_tour s'))) = size t * size t
       ∧ is_tour (size t) (start_x, start_y) (path (a_tour s'))).
Proof.
  intros Hwf Hb.
  assert (Hsz : 0 <= size t) by (apply in_bounds_spec in Hb; lia).
  split.
  - intros fuel t' Hret.
    destruct (solve_success fuel t t' start_x start_y Hwf Hb Hret)
      as (Hsz' & _ & Htour).
    split; [|done]. rewrite (tour_length _ _ _ Htour). nia.
  - intros g tracking variation prefs verbose s' Hret.
    destruct (solve_variation_outcome
                {| a_tour := t; a_rng := g; a_tracking := tracking |}
                start_x start_y variation prefs verbose Hwf Hb)
      as (b & s1 & Hret1 & Hsz1 & Hvis & Hch & Hhd & Htrue & _).
    rewrite Hret in Hret1. injection Hret1 as <- <-.
    specialize (Htrue eq_refl). simpl in Htrue, Hsz1. split; [done|].
    rewrite <- Hsz1. apply visited_full_is_tour; try done; rewrite Hsz1; done.
Qed.

End SolverClaims.

Lemma success_is_tour_witness :
  ∃ s', @_solve_with_warnsdorff_variation still_env
          {| a_tour := init 5; a_rng := (tt : @rng still_env);
             a_tracking := None |}
          0 0 0 (seq 0 8) false = Returned (true, s')
        ∧ Z.of_nat (length (path (a_tour s'))) = 25
        ∧ is_tour 5 (0, 0) (path (a_tour s')).
Proof.
  assert (Hwf : wf_board (size (init 5)) (board (init 5))).
  { apply fresh_board_wf. }
  assert (Hb : in_bounds (size (init 5)) 0 0 = true) by reflexivity.
  destruct (@success_is_tour still_env (init 5) 0 0 Hwf Hb) as [_ Hwalk].
  destruct (@_solve_with_warnsdorff_variation still_env
              {| a_tour := init 5; a_rng := (tt : @rng still_env);
             a_tracking := None |}
              0 0 0 (seq 0 8) false) as [[[|] s']| |] eqn:Hrun;
    try (vm_compute in Hrun; discriminate Hrun).
  exists s'. split; [reflexivity|].
  exact (Hwalk tt None 0 (seq 0 8) false s' Hrun).
Defined.

(** ** The state of board and path *)

Section StateClaims.
Context {E : Env}.

(** C8.  During a search on a new board, after every pass of the loop of
    [solve] (a placement or an undo) and after every pass of a Warnsdorff
    attempt (a placement), each order value below the number of placed
    cells is held by exactly one cell of the board, that cell is the
    position of that index in the path, and every other cell holds -1. *)
Theorem search_keeps_order_invariant (t : tour) (start_x start_y : Z) :
  board t = fresh_board (size t) →
  in_bounds (size t) start_x start_y = true →
  (∀ (k : nat) (t' : tour) (stack' : list frame),
     solve_steps k t start_x start_y = Continue_ t' stack' →
     order_invariant t')
  ∧ (∀ (g : rng) (tracking : option (list tracked_move)) (variation : Z)
       (prefs : list nat) (verbose : bool) (k : nat),
       match warnsdorff_steps k
               {| a_tour := t; a_rng := g; a_tracking := tracking |}
               start_x start_y variation prefs verbose with
       | Moved _ _ s' =>
           order_invariant (a_tour s') ∧ length (path (a_tour s')) = S k
       | Dead_end s' => order_invariant (a_tour s')
       | Raised => False
       end).
Proof.
  intros Hfresh Hb.
  assert (Hwf : wf_board (size t) (board t)).
  { rewrite Hfresh. apply fresh_board_wf. }
  split.
  - intros k t' stack' Hrun. unfold solve_steps in Hrun.
    destruct (solve_entry t start_x start_y Hwf Hb) as (b0 & Hset & Hinv).
    rewrite Hset in Hrun. apply placed_order_invariant.
    apply (solve_iter_placed _ k _ t' _ stack' Hinv); [|done].
    by apply solve_entry_placed.
  - intros g tracking variation prefs verbose k. unfold warnsdorff_steps.
    destruct (warnsdorff_entry_inv
                {| a_tour := t; a_rng := g; a_tracking := tracking |}
                start_x start_y Hwf Hb)
      as (s0 & Hentry & Hinv0 & _ & Hp0 & _ & _ & Hpl0).
    rewrite Hentry. specialize (Hpl0 Hfresh).
    pose proof (warnsdorff_iter_inv (start_x, start_y) prefs
                  (select_scoring variation) verbose k 1 start_x start_y s0
                  Hinv0) as Hrun.
    destruct (warnsdorff_iter k 1 start_x start_y prefs _ verbose s0)
      as [s1| |x1 y1 s1]; [| done |].
    + destruct Hrun as (_ & _ & Hpl1). apply placed_order_invariant. auto.
    + destruct Hrun as ([_ _ _ _ Hcount] & _ & Hpl1).
      split; [apply placed_order_invariant; auto|]. lia.
Qed.

(** C10.  On the board of one cell, [solve] returns [True] in its first
    pass and a Warnsdorff attempt returns [True] without a pass of its loop:
    the path is [[(0, 0)]], the cell holds 0, and the attempt leaves the
    generator and the move tracking as they were and logs no step. *)
Theorem single_cell_board (g : rng) (tracking : option (list tracked_move))
    (variation : Z) (prefs : list nat) (verbose : bool) :
  (∃ t', solve 1 (init 1) 0 0 = Returned (true, t')
         ∧ path t' = [(0, 0)] ∧ board t' = [[0]])
  ∧ (∃ s', _solve_with_warnsdorff_variation
             {| a_tour := init 1; a_rng := g; a_tracking := tracking |}
             0 0 variation prefs verbose = Returned (true, s')
           ∧ path (a_tour s') = [(0, 0)] ∧ board (a_tour s') = [[0]]
           ∧ a_rng s' = g ∧ a_tracking s' = tracking
           ∧ debug_log (a_tour s') = [StartMsg (0, 0); CompleteMsg 1]).
Proof.
  split.
  - eexists. split; [reflexivity|]. done.
  - eexists. split; [reflexivity|]. done.
Qed.

End StateClaims.

Lemma search_keeps_order_invariant_witness :
  ∃ t' stack', solve_steps 6 (init 3) 0 0 = Continue_ t' stack'
               ∧ order_invariant t'.
Proof.
  assert (Hb : in_bounds (size (init 3)) 0 0 = true) by reflexivity.
  destruct (@search_keeps_order_invariant still_env (init 3) 0 0
              (init_fresh 3) Hb) as [Hsolve _].
  destruct (solve_steps 6 (init 3) 0 0) as [| |t' stack'] eqn:Hrun;
    try (vm_compute in Hrun; discriminate Hrun).
  exists t', stack'. split; [reflexivity|]. exact (Hsolve 6%nat t' stack' Hrun).
Defined.

(** ** Failures *)

Section FailureClaims.
Context {E : Env}.

(** C3, as the code has it.  A [False] from [solve] comes with a board
    reset to -1 in every cell and an empty path.  A [False] from a
    Warnsdorff attempt comes with the cells placed so far still on the
    board and in the path: the path begins at the start cell, is shorter
    than the board and ends at a cell, no longer -1, from which no move of
    the preference order is legal.  A [False] from a run of at least one
    attempt comes with the path and the board of its last attempt, a path
    that begins at the start cell; a run of no attempt leaves board and
    path as it found them. *)
Theorem failure_state (t : tour) (start_x start_y : Z) :
  wf_board (size t) (board t) →
  in_bounds (size t) start_x start_y = true →
  (∀ (fuel : nat) (t' : tour),
     solve fuel t start_x start_y = Returned (false, t') →
     path t' = [] ∧ board t' = fresh_board (size t))
  ∧ (∀ (g : rng) (tracking : option (list tracked_move)) (variation : Z)
       (prefs : list nat) (verbose : bool) (s' : attempt_state),
       _solve_with_warnsdorff_variation
         {| a_tour := t; a_rng := g; a_tracking := tracking |}
         start_x start_y variation prefs verbose = Returned (false, s') →
       head (path (a_tour s')) = Some (start_x, start_y)
       ∧ Z.of_nat (length (path (a_tour s'))) < size t * size t
       ∧ ∃ x y, last (path (a_tour s')) = Some (x, y)
                ∧ board_get (board (a_tour s')) x y ≠ Some (-1)
                ∧ legal_prefs (a_tour s') x y prefs = [])
  ∧ (∀ (hash : string → Z) (clock : Z → string) (g : rng)
       (max_attempts : Z) (verbose : bool) (r' : run_state),
       1 <= max_attempts →
       solve_with_multiple_warnsdorff_attempts hash clock t g
         start_x start_y max_attempts verbose = Returned (false, r') →
       path (r_tour r')
       = attempt_path (size t) start_x start_y (max_attempts - 1)
       ∧ board (r_tour r')
         = attempt_board (size t) start_x start_y (max_attempts - 1)
       ∧ head (path (r_tour r')) = Some (start_x, start_y))
  ∧ (∀ (hash : string → Z) (clock : Z → string) (g : rng)
       (max_attempts : Z) (verbose : bool) (r' : run_state),
       max_attempts <= 0 →
       solve_with_multiple_warnsdorff_attempts hash clock t g
         start_x start_y max_attempts verbose = Returned (false, r') →
       path (r_tour r') = path t ∧ board (r_tour r') = board t).
Proof.
  intros Hwf Hb. split_and!.
  - intros fuel t'. by apply solve_failure_clean.
  - intros g tracking variation prefs verbose s' Hret.
    destruct (solve_variation_outcome
                {| a_tour := t; a_rng := g; a_tracking := tracking |}
                start_x start_y variation prefs verbose Hwf Hb)
      as (b & s1 & Hret1 & Hsz1 & Hvis & Hch & Hhd & _ & Hfalse & _).
    rewrite Hret in Hret1. injection Hret1 as <- <-.
    destruct (Hfalse eq_refl) as (Hlen & x & y & Hlast & Hnil).
    split_and!; try done. exists x, y. split_and!; try done.
    by apply (visited_path _ Hvis (x, y)), last_elem_of.
  - intros hash clock g max_attempts verbose r' Hmax Hret.
    destruct (run_outcome hash clock t g start_x start_y max_attempts verbose
                Hb) as (b & r1 & Hret1 & _ & Hfalse & _).
    rewrite Hret in Hret1. injection Hret1 as <- <-.
    destruct (Hfalse eq_refl) as (_ & _ & Hlast & _).
    destruct (Hlast (Z.to_nat (max_attempts - 1)) ltac:(lia)) as [Hp Hbd].
    rewrite Z2Nat.id in Hp, Hbd by lia. split_and!; try done.
    rewrite Hp. apply (proj1 (attempt_alone_outcome _ _ _ _ Hb)).
  - intros hash clock g max_attempts verbose r' Hmax Hret.
    destruct (run_outcome hash clock t g start_x start_y max_attempts verbose
                Hb) as (b & r1 & Hret1 & _ & Hfalse & _).
    rewrite Hret in Hret1. injection Hret1 as <- <-.
    destruct (Hfalse eq_refl) as (_ & _ & _ & Hnone). apply Hnone. lia.
Qed.

End FailureClaims.

(** C3, as stated, fails: on the 2 by 2 board no knight move stays inside
    the board, so an attempt from [(0, 0)] returns [False] at its first
    step, with the start cell in the path and on the board. *)
Lemma failure_state_counterexample :
  ∃ s', @_solve_with_warnsdorff_variation still_env
          {| a_tour := init 2; a_rng := (tt : @rng still_env);
             a_tracking := None |}
          0 0 0 (seq 0 8) false = Returned (false, s')
        ∧ path (a_tour s') = [(0, 0)]
        ∧ board (a_tour s') = [[0; -1]; [-1; -1]]
        ∧ path (a_tour s') ≠ []
        ∧ board (a_tour s') ≠ fresh_board 2.
Proof.
  eexists. split; [vm_compute; reflexivity|]. simpl. split_and!; done.
Qed.

Lemma failure_state_witness :
  ∃ s', @_solve_with_warnsdorff_variation still_env
          {| a_tour := init 2; a_rng := (tt : @rng still_env);
             a_tracking := None |}
          0 0 0 (seq 0 8) false = Returned (false, s')
        ∧ head (path (a_tour s')) = Some (0, 0)
        ∧ Z.of_nat (length (path (a_tour s'))) < 2 * 2.
Proof.
  assert (Hwf : wf_board (size (init 2)) (board (init 2))).
  { apply fresh_board_wf. }
  assert (Hb : in_bounds (size (init 2)) 0 0 = true) by reflexivity.
  destruct (@failure_state still_env (init 2) 0 0 Hwf Hb)
    as (_ & Hwalk & _ & _).
  destruct (@_solve_with_warnsdorff_variation still_env
              {| a_tour := init 2; a_rng := (tt : @rng still_env);
                 a_tracking := None |}
              0 0 0 (seq 0 8) false) as [[[|] s']| |] eqn:Hrun;
    try (vm_compute in Hrun; discriminate Hrun).
  exists s'. split; [reflexivity|].
  destruct (Hwalk tt None 0 (seq 0 8) false s' Hrun) as (Hhd & Hlen & _).
  split; [exact Hhd|exact Hlen].
Defined.

(** ** The rule of a Warnsdorff step *)

Section StepClaims.
Context {E : Env}.

(** C6.  At a step from [(x, y)] the candidates are the moves of the
    preference order that are legal, in that order; each carries its
    degree (the number of legal moves from it) and its own draw from the
    generator scaled into [0, 0.1); its score is [(degree + tie)] for the
    random variant, [(degree, Manhattan distance to the centre + tie)] for
    the centre variant and [(degree, - least Manhattan distance to one of
    the four corners + tie)] for the corner variant; the step moves to a candidate no other candidate has a
    smaller score than, after one entry of [considered_moves] per index
    of the preference order, and there is no move exactly when there is no
    candidate.  An attempt returns [True] exactly when its path has
    [n * n] cells, and [False] at a cell from which no move of the
    preference order is legal. *)
Theorem warnsdorff_rule (t : tour) (g : rng) (x y : Z) (prefs : list nat)
    (variation : Z) :
  (∀ g0 : rng, (0 <= (random g0).1)%Q ∧ ((random g0).1 < 1)%Q) →
  let scoring := select_scoring variation in
  let cands := candidates t g x y prefs scoring in
  let legal := legal_prefs t x y prefs in
  (λ c, preferencia (c_details c)) <$> cands = legal
  ∧ (λ c, random_factor (c_details c)) <$> cands
    = (λ r, r * (1 # 10))%Q <$> (draws (length legal) g).1
  ∧ (∀ c, c ∈ cands →
       let p := preferencia (c_details c) in
       let d := grado (c_details c) in
       let r := random_factor (c_details c) in
       c_x c = x + move_dx p ∧ c_y c = y + move_dy p
       ∧ is_valid_move t (c_x c) (c_y c) = true
       ∧ d = _count_valid_moves t (c_x c) (c_y c)
       ∧ d = Z.of_nat (length (legal_prefs t (c_x c) (c_y c) (seq 0 8)))
       ∧ (0 <= r)%Q ∧ (r < 1 # 10)%Q
       ∧ score (c_details c) = c_score c
       ∧ c_score c =
         if variation =? 1 then
           [inject_Z d;
            (inject_Z (manhattan (c_x c, c_y c) (size t / 2, size t / 2)%Z)
             + r)%Q]
         else if variation =? 2 then
           [inject_Z d;
            (inject_Z (- corner_distance (size t) (c_x c, c_y c))%Z + r)%Q]
         else [(inject_Z d + r)%Q])
  ∧ match (_get_next_move_warnsdorff_generic_detailed
             t g x y prefs scoring).1 with
    | None => legal = []
    | Some (next_x, next_y, info) =>
        ∃ best, best ∈ cands
                ∧ next_x = c_x best ∧ next_y = c_y best
                ∧ chosen info = c_details best
                ∧ movimientos_considerados info = considered_of t x y <$> prefs
                ∧ ∀ c, c ∈ cands → tuple_le (c_score best) (c_score c) = true
    end
  ∧ (_get_next_move_warnsdorff_generic_detailed t g x y prefs scoring).2
    = (draws (length legal) g).2
  ∧ (∀ (tracking : option (list tracked_move)) (verbose : bool)
       (start_x start_y : Z),
       wf_board (size t) (board t) →
       in_bounds (size t) start_x start_y = true →
       ∃ b s',
         _solve_with_warnsdorff_variation
           {| a_tour := t; a_rng := g; a_tracking := tracking |}
           start_x start_y variation prefs verbose = Returned (b, s')
         ∧ (b = true ↔
            Z.of_nat (length (path (a_tour s'))) = size t * size t)
         ∧ (b = false →
            ∃ lx ly, last (path (a_tour s')) = Some (lx, ly)
                     ∧ legal_prefs (a_tour s') lx ly prefs = [])).
Proof.
  intros Hrange scoring cands legal. split_and!.
  - apply candidates_prefs.
  - apply candidates_ties.
  - intros c Hc p d r.
    apply candidates_elem in Hc as (k & p0 & r0 & Hp0 & Hr0 & Hcand).
    apply list_elem_of_lookup_2, legal_prefs_elem in Hp0 as [_ Hv].
    apply list_elem_of_lookup_2, draws_elem in Hr0 as [g0 Hg0].
    destruct (Hrange g0) as [Hlo Hhi]. rewrite <- Hg0 in Hlo, Hhi.
    subst p d r. rewrite Hcand. cbn [candidate_of c_x c_y c_details c_score
      preferencia grado random_factor score].
    split_and!; try done.
    + apply count_valid_moves_length.
    + lra.
    + lra.
    + subst scoring. unfold select_scoring.
      destruct (variation =? 1); [done|].
      destruct (variation =? 2); [apply score_corners_spec|done].
  - rewrite get_next_spec. cbn [fst]. fold cands.
    destruct (sort_moves cands) as [|best rest] eqn:Hsort.
    + apply (candidates_nil t g x y prefs scoring). fold cands.
      apply Permutation_nil.
      pose proof (sort_moves_perm cands) as Hperm. by rewrite Hsort in Hperm.
    + destruct (sort_moves_head _ _ _ Hsort) as [Hin Hmin].
      exists best. split_and!; done.
  - by rewrite get_next_spec.
  - intros tracking verbose start_x start_y Hwf Hb.
    destruct (solve_variation_outcome
                {| a_tour := t; a_rng := g; a_tracking := tracking |}
                start_x start_y variation prefs verbose Hwf Hb)
      as (b & s' & Hret & _ & _ & _ & _ & Htrue & Hfalse & _).
    exists b, s'. simpl in *. split_and!; try done.
    + split; [done|]. intros Hlen. destruct b; [done|].
      destruct (Hfalse eq_refl) as [Hlt _]. lia.
    + intros Hb'. by destruct (Hfalse Hb') as [_ ?].
Qed.

(** C7.  Two runs of one Warnsdorff attempt with the same board size, the
    same board, the same generator state, the same start cell, variant and
    preference order return the same flag and leave the same path, the same
    board and the same generator state, whatever debug log, statistics,
    tracking list, earlier path and verbosity each of them runs with. *)
Theorem attempt_deterministic (s1 s2 : attempt_state)
    (start_x start_y variation : Z) (prefs : list nat)
    (verbose1 verbose2 : bool) :
  size (a_tour s1) = size (a_tour s2) →
  board (a_tour s1) = board (a_tour s2) →
  a_rng s1 = a_rng s2 →
  match
    _solve_with_warnsdorff_variation s1 start_x start_y variation prefs
      verbose1,
    _solve_with_warnsdorff_variation s2 start_x start_y variation prefs
      verbose2
  with
  | Returned (b1, s1'), Returned (b2, s2') =>
      b1 = b2 ∧ path (a_tour s1') = path (a_tour s2')
      ∧ board (a_tour s1') = board (a_tour s2') ∧ a_rng s1' = a_rng s2'
  | IndexError, IndexError => True
  | _, _ => False
  end.
Proof.
  intros Hs Hb Hg.
  pose proof (solve_variation_forget false s1 s2 start_x start_y variation
                prefs verbose1 verbose2 Hs Hb Hg ltac:(done)) as Hsame.
  pose proof (solve_variation_steps s1 start_x start_y variation prefs verbose1)
    as Hshape.
  destruct (_solve_with_warnsdorff_variation s1 _ _ _ _ _) as [[b1 a1]| |],
    (_solve_with_warnsdorff_variation s2 _ _ _ _ _) as [[b2 a2]| |];
    try done.
  - simpl in Hsame. injection Hsame as -> _ Hbd Hp Hrng. done.
  - by destruct (warnsdorff_steps _ _ _ _ _ _ _).
Qed.

End StepClaims.

Lemma still_env_range :
  ∀ g0 : @rng still_env,
    (0 <= (@random still_env g0).1)%Q ∧ ((@random still_env g0).1 < 1)%Q.
Proof. intros g0. simpl. split; [unfold Qle; simpl; lia|reflexivity]. Defined.

Lemma warnsdorff_rule_witness :
  (λ c, preferencia (c_details c))
    <$> @candidates still_env (init 5) tt 2 2 (seq 0 8) (select_scoring 1)
  = seq 0 8
  ∧ ∃ c,
      @candidates still_env (init 8) tt 1 0 (seq 0 8) (select_scoring 2)
        !! 2%nat = Some c
      ∧ (c_x c, c_y c) = (0, 2) ∧ corner_distance 8 (0, 2) = 2
      ∧ c_score c
        = [inject_Z 4; (inject_Z (- 2) + random_factor (c_details c))%Q].
Proof.
  split.
  - destruct (@warnsdorff_rule still_env (init 5) tt 2 2 (seq 0 8) 1
                still_env_range) as [Hprefs _].
    etransitivity; [exact Hprefs|]. vm_compute. reflexivity.
  - destruct (@warnsdorff_rule still_env (init 8) tt 1 0 (seq 0 8) 2
                still_env_range) as (_ & _ & Hcands & _).
    cbv zeta in Hcands.
    destruct (@candidates still_env (init 8) tt 1 0 (seq 0 8)
                (select_scoring 2) !! 2%nat) as [c|] eqn:Hl;
      [|vm_compute in Hl; discriminate Hl].
    assert (Hcell : (c_x c, c_y c) = (0, 2) ∧ grado (c_details c) = 4).
    { vm_compute in Hl. injection Hl as <-. split; reflexivity. }
    destruct Hcell as [Hcell Hdeg].
    destruct (Hcands c (list_elem_of_lookup_2 _ _ _ Hl))
      as (_ & _ & _ & _ & _ & _ & _ & _ & Hscore).
    exists c. split; [reflexivity|]. split; [exact Hcell|].
    split; [reflexivity|].
    rewrite Hscore, Hcell, Hdeg. reflexivity.
Defined.

Lemma attempt_deterministic_witness :
  ∃ b s1' s2',
    @_solve_with_warnsdorff_variation still_env
      {| a_tour := init 5; a_rng := (tt : @rng still_env);
         a_tracking := None |}
      0 0 2 (seq 0 8) false = Returned (b, s1')
    ∧ @_solve_with_warnsdorff_variation still_env
        {| a_tour := log_move (init 5) (StartMsg (4, 4));
           a_rng := (tt : @rng still_env); a_tracking := Some [] |}
        0 0 2 (seq 0 8) true = Returned (b, s2')
    ∧ path (a_tour s1') = path (a_tour s2').
Proof.
  pose proof (@attempt_deterministic still_env
                {| a_tour := init 5; a_rng := (tt : @rng still_env);
                   a_tracking := None |}
                {| a_tour := log_move (init 5) (StartMsg (4, 4));
                   a_rng := (tt : @rng still_env); a_tracking := Some [] |}
                0 0 2 (seq 0 8) false true eq_refl eq_refl eq_refl) as Hsame.
  destruct (@_solve_with_warnsdorff_variation still_env
              {| a_tour := init 5; a_rng := (tt : @rng still_env);
                 a_tracking := None |} 0 0 2 (seq 0 8) false)
    as [[b1 s1']| |] eqn:Hrun1;
    try (vm_compute in Hrun1; discriminate Hrun1).
  destruct (@_solve_with_warnsdorff_variation still_env
              {| a_tour := log_move (init 5) (StartMsg (4, 4));
                 a_rng := (tt : @rng still_env); a_tracking := Some [] |}
              0 0 2 (seq 0 8) true)
    as [[b2 s2']| |] eqn:Hrun2;
    try (vm_compute in Hrun2; discriminate Hrun2).
  destruct Hsame as (Hb & Hp & _). subst b2.
  exists b1, s1', s2'. split; [reflexivity|]. split; [reflexivity|exact Hp].
Defined.

(** ** Runs of several attempts *)

Section RunClaims.
Context {E : Env}.


(** C5.  A run makes the attempts 0, 1, 2, ... one after the other and
    records each of them: it leaves [k] records, with [k] the budget when
    it returns [False], at least one when the budget is at least one, and
    never more than the budget.  Attempt [i] is the Warnsdorff search with
    variant [i mod 3] on a board that is all unvisited and a path that is
    empty, with the generator seeded with [i + 1000 n] and the preference
    order shuffled from it, a permutation of the 8 move indices; its record
    carries that variant, seed and order and the outcome of that search,
    and the last attempt made leaves its path and board in the object.  The
    pass for attempt [i] does not read the board, the path or the generator
    it finds.  A second run with the same size, start and budget, whatever
    object contents, generator state, clock and verbosity it starts with,
    returns the same flag, records the same attempts (up to their time
    stamps) and leaves the same path and board.  Under another salt of the
    string hash, the attempts recorded by the two runs still agree as far
    as both runs go. *)
Theorem attempts_are_reproducible (hash : string → Z) (clock : Z → string)
    (t : tour) (g : rng) (start_x start_y max_attempts : Z) (verbose : bool) :
  in_bounds (size t) start_x start_y = true →
  (∀ (g0 : rng) (l : list nat), (shuffle g0 l).1 ≡ₚ l) →
  let n := size t in
  (∀ (i : Z) (r : run_state),
     attempt_body hash clock start_x start_y verbose i r
     = attempt_body hash clock start_x start_y verbose i
         {| r_tour := with_path
                        (with_board (r_tour r)
                                    (fresh_board (size (r_tour r)))) [];
            r_rng := seed (i + 1000 * size (r_tour r));
            attempted_paths := attempted_paths r |})
  ∧ ∃ b r',
      solve_with_multiple_warnsdorff_attempts hash clock t g start_x start_y
        max_attempts verbose = Returned (b, r')
      ∧ (length (variation_stats (r_tour r')) <= Z.to_nat max_attempts)%nat
      ∧ (1 <= max_attempts →
         (1 <= length (variation_stats (r_tour r')))%nat)
      ∧ (b = false →
         length (variation_stats (r_tour r')) = Z.to_nat max_attempts)
      ∧ (∀ i : nat,
           (i < length (variation_stats (r_tour r')))%nat →
           let random_seed := Z.of_nat i + 1000 * n in
           let shuffled := shuffle (seed random_seed) (seq 0 8) in
           ∃ (success : bool) (s : attempt_state),
             _solve_with_warnsdorff_variation
               {| a_tour := init n; a_rng := shuffled.2;
                  a_tracking := Some [] |}
               start_x start_y (Z.of_nat i mod 3) shuffled.1 false
             = Returned (success, s)
             ∧ board (init n) = fresh_board n ∧ path (init n) = []
             ∧ shuffled.1 ≡ₚ seq 0 8
             ∧ variation_stats (r_tour r') !! i
               = Some {| attempt_no := Z.of_nat i + 1;
                         variation_type := Z.of_nat i mod 3;
                         random_seed := random_seed;
                         move_preferences := shuffled.1;
                         start_position := (start_x, start_y);
                         timestamp := clock (Z.of_nat i);
                         successful := success;
                         path_length := length (path (a_tour s));
                         move_tracking := default [] (a_tracking s) |}
             ∧ (S i = length (variation_stats (r_tour r')) →
                path (r_tour r') = path (a_tour s)
                ∧ board (r_tour r') = board (a_tour s)))
      ∧ (∀ (i : nat) (info : variation_info),
           variation_stats (r_tour r') !! i = Some info →
           info = attempt_info clock n start_x start_y (Z.of_nat i)
           ∧ variation_type info = Z.of_nat i mod 3
           ∧ random_seed info = Z.of_nat i + 1000 * n
           ∧ move_preferences info
             = (shuffle (seed (Z.of_nat i + 1000 * n)) (seq 0 8)).1
           ∧ move_preferences info ≡ₚ seq 0 8)
      ∧ (∀ (clock2 : Z → string) (t2 : tour) (g2 : rng) (verbose2 : bool),
           size t2 = n →
           ∃ r2,
             solve_with_multiple_warnsdorff_attempts hash clock2 t2 g2
               start_x start_y max_attempts verbose2 = Returned (b, r2)
             ∧ untimed <$> variation_stats (r_tour r2)
               = untimed <$> variation_stats (r_tour r')
             ∧ (1 <= max_attempts →
                path (r_tour r2) = path (r_tour r')
                ∧ board (r_tour r2) = board (r_tour r')))
      ∧ (∀ (hash2 : string → Z) (clock2 : Z → string) (t2 : tour) (g2 : rng)
           (verbose2 : bool),
           size t2 = n →
           ∃ b2 r2,
             solve_with_multiple_warnsdorff_attempts hash2 clock2 t2 g2
               start_x start_y max_attempts verbose2 = Returned (b2, r2)
             ∧ (untimed <$> variation_stats (r_tour r2)
                `prefix_of` untimed <$> variation_stats (r_tour r')
                ∨ untimed <$> variation_stats (r_tour r')
                  `prefix_of` untimed <$> variation_stats (r_tour r2))).
Proof.
  intros Hb Hperm n. subst n. split; [done|].
  destruct (run_outcome hash clock t g start_x start_y max_attempts verbose
              Hb) as (b & r' & Hret & _ & Hfalse & Htrue).
  destruct (run_attempts hash clock t g start_x start_y max_attempts verbose
              b r' Hb Hret) as (made & Hrec & Hmost & Hone & Hall & Hleft).
  assert (Hcount : length (variation_stats (r_tour r')) = made).
  { rewrite Hrec. unfold attempt_infos. by rewrite length_fmap, length_seq. }
  exists b, r'. rewrite Hcount. split_and!; try done.
  - intros i Hi random_seed shuffled.
    assert (Hseed : random_seed = attempt_seed (size t) (Z.of_nat i)).
    { subst random_seed. unfold attempt_seed. lia. }
    subst shuffled. rewrite Hseed.
    pose proof (attempt_alone_returns (size t) start_x start_y (Z.of_nat i)
                  Hb) as (success & s & Halone).
    exists success, s. unfold attempt_alone, attempt_prefs in Halone.
    split_and!; try done.
    + rewrite Hrec. unfold attempt_infos.
      rewrite list_lookup_fmap, lookup_seq_lt by done.
      change (0 + i)%nat with i. cbn [fmap option_fmap option_map].
      unfold attempt_info, attempt_success, attempt_path, attempt_tracking,
        attempt_alone, attempt_prefs.
      rewrite Halone. done.
    + intros Hik. destruct (Hleft i Hik) as [Hp Hbd].
      rewrite Hp, Hbd. unfold attempt_path, attempt_board, attempt_alone,
        attempt_prefs. by rewrite Halone.
  - intros i info Hinfo.
    assert (Hlook : ∃ k, attempt_infos clock (size t) start_x start_y k !! i
                         = Some info).
    { destruct b.
      - destruct (Htrue eq_refl) as (j & _ & _ & _ & _ & _ & Hst).
        exists (S j). by rewrite <- Hst.
      - destruct (Hfalse eq_refl) as (_ & Hst & _).
        exists (Z.to_nat max_attempts). by rewrite <- Hst. }
    destruct Hlook as [k Hk].
    apply attempt_infos_lookup in Hk as [_ ->]. simpl.
    unfold attempt_prefs, attempt_seed.
    replace (Z.of_nat i + 1000 * size t) with (Z.of_nat i + size t * 1000)
      by lia.
    split_and!; try done; apply Hperm.
  - intros clock2 t2 g2 verbose2 Hsz2.
    assert (Hb2 : in_bounds (size t2) start_x start_y = true)
      by by rewrite Hsz2.
    destruct (run_outcome hash clock2 t2 g2 start_x start_y max_attempts
                verbose2 Hb2) as (b2 & r2 & Hret2 & _ & Hfalse2 & Htrue2).
    rewrite Hsz2 in Hfalse2, Htrue2.
    destruct b, b2.
    + destruct (Htrue eq_refl) as (j & Hj & Hnj & Hbefore & Hp & Hbd & Hst).
      destruct (Htrue2 eq_refl)
        as (j2 & Hj2 & Hnj2 & Hbefore2 & Hp2 & Hbd2 & Hst2).
      assert (j2 = j) as ->.
      { destruct (lt_eq_lt_dec j2 j) as [[Hlt|Heq]|Hgt]; [|done|].
        - rewrite (Hbefore j2 Hlt) in Hnj2. done.
        - rewrite (Hbefore2 j Hgt) in Hnj. done. }
      exists r2. split; [done|]. rewrite Hst, Hst2, Hp, Hp2, Hbd, Hbd2.
      split; [apply attempt_infos_untimed|done].
    + destruct (Htrue eq_refl) as (j & Hj & Hnj & _).
      destruct (Hfalse2 eq_refl) as (Hnone & _).
      rewrite (Hnone j Hj) in Hnj. done.
    + destruct (Htrue2 eq_refl) as (j & Hj & Hnj & _).
      destruct (Hfalse eq_refl) as (Hnone & _).
      rewrite (Hnone j Hj) in Hnj. done.
    + destruct (Hfalse eq_refl) as (_ & Hst & Hlast & _).
      destruct (Hfalse2 eq_refl) as (_ & Hst2 & Hlast2 & _).
      exists r2. split; [done|]. rewrite Hst, Hst2.
      split; [apply attempt_infos_untimed|].
      intros Hmax.
      destruct (Hlast (Z.to_nat (max_attempts - 1)) ltac:(lia)) as [Hp Hbd].
      destruct (Hlast2 (Z.to_nat (max_attempts - 1)) ltac:(lia)) as [Hp2 Hbd2].
      by rewrite Hp, Hp2, Hbd, Hbd2.
  - intros hash2 clock2 t2 g2 verbose2 Hsz2.
    assert (Hb2 : in_bounds (size t2) start_x start_y = true)
      by by rewrite Hsz2.
    destruct (run_outcome hash2 clock2 t2 g2 start_x start_y max_attempts
                verbose2 Hb2) as (b2 & r2 & Hret2 & _).
    exists b2, r2. split; [done|].
    destruct (run_stats _ _ _ _ _ _ _ _ _ _ Hb Hret) as [k ->].
    destruct (run_stats _ _ _ _ _ _ _ _ _ _ Hb2 Hret2) as [k2 ->].
    rewrite Hsz2.
    rewrite (attempt_infos_untimed clock2 clock (size t) start_x start_y k2).
    destruct (Nat.le_ge_cases k2 k) as [Hle|Hge].
    + left.
      destruct (attempt_infos_prefix clock (size t) start_x start_y k2 k Hle)
        as [rest ->].
      rewrite fmap_app. by eexists.
    + right.
      destruct (attempt_infos_prefix clock (size t) start_x start_y k k2 Hge)
        as [rest ->].
      rewrite fmap_app. by eexists.
Qed.

End RunClaims.

(** The hypothesis on the fingerprints in the rule of duplicates is needed:
    with a hash under which all strings collide, on the 6 by 6 board from
    [(3, 3)], attempt 0 fails, attempt 1 succeeds and is logged as a
    duplicate although no earlier attempt succeeded, and the run of two
    attempts returns [False]. *)
Remark colliding_hash_duplicate :
  @attempt_success rotating_env 6 3 3 0 = false
  ∧ @attempt_success rotating_env 6 3 3 1 = true
  ∧ ∃ r',
      @solve_with_multiple_warnsdorff_attempts rotating_env constant_hash
        stopped_clock (init 6) (0 : @rng rotating_env) 3 3 2 false
      = Returned (false, r')
      ∧ debug_log (r_tour r') !! 7%nat = Some (DuplicateMsg 2)
      ∧ length (path (r_tour r')) = 36%nat.
Proof.
  split; [vm_compute; reflexivity|]. split; [vm_compute; reflexivity|].
  eexists. split; [vm_compute; reflexivity|]. split; reflexivity.
Qed.



Lemma still_env_shuffle :
  ∀ (g0 : @rng still_env) (l : list nat), (@shuffle still_env g0 l).1 ≡ₚ l.
Proof. intros g0 l. simpl. reflexivity. Defined.

Lemma rotating_env_shuffle :
  ∀ (g0 : @rng rotating_env) (l : list nat),
    (@shuffle rotating_env g0 l).1 ≡ₚ l.
Proof.
  intros g0 l. simpl. unfold rotate.
  rewrite Permutation_app_comm. by rewrite take_drop.
Defined.

Lemma attempts_are_reproducible_witness :
  ∃ r' r2,
    @solve_with_multiple_warnsdorff_attempts rotating_env length_hash
      stopped_clock (init 6) (0 : @rng rotating_env) 3 3 2 false
    = Returned (true, r')
    ∧ (λ info, (attempt_no info, variation_type info, random_seed info,
                move_preferences info, successful info, path_length info))
        <$> variation_stats (r_tour r')
      = [(1, 0, 6000, seq 0 8, false, 34%nat);
         (2, 1, 6001, [1; 2; 3; 4; 5; 6; 7; 0]%nat, true, 36%nat)]
    ∧ @solve_with_multiple_warnsdorff_attempts rotating_env length_hash
        (λ i, pretty i) (log_move (init 6) (StartMsg (1, 1)))
        (5 : @rng rotating_env) 3 3 2 true
      = Returned (true, r2)
    ∧ path (r_tour r2) = path (r_tour r').
Proof.
  assert (Hb : in_bounds (size (init 6)) 3 3 = true) by reflexivity.
  destruct (@attempts_are_reproducible rotating_env length_hash stopped_clock
              (init 6) (0 : @rng rotating_env) 3 3 2 false Hb
              rotating_env_shuffle)
    as (_ & b & r' & Hret & _ & _ & _ & _ & _ & Hsecond & _).
  destruct (Hsecond (λ i, pretty i) (log_move (init 6) (StartMsg (1, 1)))
              (5 : @rng rotating_env) true eq_refl)
    as (r2 & Hret2 & _ & Hsame).
  assert (Hrun : b = true
                 ∧ (λ info, (attempt_no info, variation_type info,
                             random_seed info, move_preferences info,
                             successful info, path_length info))
                     <$> variation_stats (r_tour r')
                   = [(1, 0, 6000, seq 0 8, false, 34%nat);
                      (2, 1, 6001, [1; 2; 3; 4; 5; 6; 7; 0]%nat, true,
                       36%nat)]).
  { vm_compute in Hret. injection Hret as <- <-. split; reflexivity. }
  destruct Hrun as [-> Hrecords].
  exists r', r2. split; [exact Hret|]. split; [exact Hrecords|].
  split; [exact Hret2|].
  destruct (Hsame ltac:(lia)) as [Hp _]. exact Hp.
Defined.

(** * Lemmas on the other methods, the program and the visualizer *)

(** ** The choice of a Warnsdorff step *)

Lemma tuple_le_head (a b : Q) (l k : score_t) :
  tuple_le (a :: l) (b :: k) = true → (a <= b)%Q.
Proof.
  unfold tuple_le. cbn [tuple_lt]. destruct (b ?= a)%Q eqn:Hc; intros H.
  - apply Qeq_alt in Hc. rewrite Hc. apply Qle_refl.
  - done.
  - apply Qgt_alt in Hc. by apply Qlt_le_weak.
Qed.

Lemma tuple_le_second (a b c d : Q) :
  tuple_le [a; c] [b; d] = true → (a == b)%Q → (c <= d)%Q.
Proof.
  unfold tuple_le. cbn [tuple_lt]. intros H Heq.
  assert (Hc : (b ?= a)%Q = Eq) by (apply Qeq_alt; by symmetry).
  rewrite Hc in H. destruct (d ?= c)%Q eqn:Hd.
  - apply Qeq_alt in Hd. rewrite Hd. apply Qle_refl.
  - done.
  - apply Qgt_alt in Hd. by apply Qlt_le_weak.
Qed.

Lemma inject_Z_le_tie (d1 d2 : Z) (r1 r2 : Q) :
  (0 <= r1)%Q → (r2 < 1)%Q → (inject_Z d1 + r1 <= inject_Z d2 + r2)%Q →
  d1 <= d2.
Proof.
  intros H1 H2 H. destruct (Z_le_gt_dec d1 d2) as [|Hgt]; [done|].
  assert (Hq : (inject_Z (d2 + 1) <= inject_Z d1)%Q)
    by (rewrite <- Zle_Qle; lia).
  rewrite inject_Z_plus in Hq. change (inject_Z 1) with 1%Q in Hq. lra.
Qed.

(** The first element of the sorted list is the first of the elements of
    least score. *)
Lemma sort_moves_first (l : list candidate) (best : candidate)
    (rest : list candidate) :
  sort_moves l = best :: rest →
  ∃ k, l !! k = Some best
       ∧ ∀ j c, (j < k)%nat → l !! j = Some c →
                tuple_lt (c_score best) (c_score c) = true.
Proof.
  revert best rest. induction l as [|m l IH]; intros best rest; [done|].
  cbn [sort_moves fold_right]. fold (sort_moves l).
  destruct (sort_moves l) as [|b' r'] eqn:Hs.
  - cbn [insert_by_score]. intros [= <- <-]. exists O. split; [done|].
    intros j c Hj. lia.
  - cbn [insert_by_score].
    destruct (tuple_lt (c_score b') (c_score m)) eqn:Hlt.
    + intros [= <- <-]. destruct (IH b' r' eq_refl) as (k & Hk & Hbefore).
      exists (S k). split; [done|]. intros [|j] c Hj Hc.
      * injection Hc as <-. done.
      * apply (Hbefore j c); [lia|done].
    + intros [= <- <-]. exists O. split; [done|]. intros j c Hj. lia.
Qed.

Section StepChoice.
Context {E : Env}.

Lemma candidates_of_legal (t : tour) (g : rng) (x y : Z) (prefs : list nat)
    (scoring : scoring_func) (p : nat) :
  p ∈ legal_prefs t x y prefs →
  ∃ c r, c ∈ candidates t g x y prefs scoring
         ∧ r ∈ (draws (length (legal_prefs t x y prefs)) g).1
         ∧ c = candidate_of t x y scoring p r.
Proof.
  intros Hp. rewrite <- (candidates_prefs t g x y prefs scoring) in Hp.
  apply list_elem_of_fmap in Hp as (c & Hpc & Hc).
  destruct (candidates_elem _ _ _ _ _ _ _ Hc) as (k & p0 & r & Hp0 & Hr & ->).
  exists (candidate_of t x y scoring p0 r), r. split; [done|].
  split; [by eapply list_elem_of_lookup_2|]. cbn in Hpc. by subst p.
Qed.

(** The score of a candidate begins with its degree, up to a tie-break
    below one. *)
Lemma score_degree (t : tour) (variation x y d1 d2 : Z) (r1 r2 : Q)
    (p1 p2 : nat) (x' y' : Z) :
  (0 <= r1)%Q → (r1 < 1)%Q → (0 <= r2)%Q → (r2 < 1)%Q →
  tuple_le (select_scoring variation t x y d1 r1 p1)
           (select_scoring variation t x' y' d2 r2 p2) = true →
  d1 <= d2.
Proof.
  intros H1 H1' H2 H2'. unfold select_scoring.
  destruct (variation =? 1); [|destruct (variation =? 2)]; intros Hle.
  - apply tuple_le_head in Hle. by rewrite Zle_Qle.
  - apply tuple_le_head in Hle. by rewrite Zle_Qle.
  - apply tuple_le_head in Hle. by apply (inject_Z_le_tie d1 d2 r1 r2).
Qed.

(** The move of a step, set against every legal move of the preference
    order. *)
Lemma get_next_best (t : tour) (g : rng) (x y : Z) (prefs : list nat)
    (scoring : scoring_func) (next_x next_y : Z) (info : best_details) :
  (_get_next_move_warnsdorff_generic_detailed t g x y prefs scoring).1
  = Some (next_x, next_y, info) →
  ∃ pb rb,
    pb ∈ legal_prefs t x y prefs
    ∧ rb ∈ (draws (length (legal_prefs t x y prefs)) g).1
    ∧ next_x = x + move_dx pb ∧ next_y = y + move_dy pb
    ∧ chosen info = c_details (candidate_of t x y scoring pb rb)
    ∧ ∀ p, p ∈ legal_prefs t x y prefs →
        ∃ r, r ∈ (draws (length (legal_prefs t x y prefs)) g).1
             ∧ tuple_le (c_score (candidate_of t x y scoring pb rb))
                        (c_score (candidate_of t x y scoring p r)) = true.
Proof.
  rewrite get_next_spec. cbn [fst].
  destruct (sort_moves (candidates t g x y prefs scoring))
    as [|best rest] eqn:Hsort; [done|].
  intros [= <- <- <-].
  destruct (sort_moves_head _ _ _ Hsort) as [Hin Hmin].
  destruct (candidates_elem _ _ _ _ _ _ _ Hin) as (k & pb & rb & Hpb & Hrb & ->).
  exists pb, rb. split_and!; try done.
  - by eapply list_elem_of_lookup_2.
  - by eapply list_elem_of_lookup_2.
  - intros p Hp.
    destruct (candidates_of_legal t g x y prefs scoring p Hp)
      as (c & r & Hc & Hr & ->).
    exists r. split; [done|]. by apply Hmin.
Qed.

Lemma tie_range (g : rng) (n : nat) (r : Q) :
  (∀ g0 : rng, (0 <= (random g0).1)%Q ∧ ((random g0).1 < 1)%Q) →
  r ∈ (draws n g).1 → (0 <= r * (1 # 10))%Q ∧ (r * (1 # 10) < 1)%Q.
Proof.
  intros Hrange Hr. apply draws_elem in Hr as [g0 ->].
  destruct (Hrange g0). split; lra.
Qed.

End StepChoice.

(** ** The tracking list of an attempt *)

Section TrackingProofs.
Context {E : Env}.

Lemma warnsdorff_body_tracking (move_count x y : Z) (prefs : list nat)
    (scoring : scoring_func) (verbose : bool) (s : attempt_state) :
  match warnsdorff_body move_count x y prefs scoring verbose s with
  | Dead_end s' => a_tracking s' = a_tracking s
  | Raised => True
  | Moved next_x next_y s' =>
      ∃ info,
        a_tracking s'
        = (λ l, l ++ [{| move_number := move_count; from_cell := (x, y);
                         to_cell := (next_x, next_y); details := info |}])
            <$> a_tracking s
  end.
Proof.
  unfold warnsdorff_body. cbv zeta.
  destruct (_get_next_move_warnsdorff_generic_detailed _ _ _ _ _ _)
    as [[[[nx ny] info]|] g']; [|done].
  destruct (board_set _ _ _ _); [|done]. by exists info.
Qed.

Lemma retraces_snoc (p : list cell) (l : list tracked_move) (x y : Z)
    (next : cell) (info : best_details) :
  retraces p l → last p = Some (x, y) →
  retraces (p ++ [next])
    (l ++ [{| move_number := Z.of_nat (length p); from_cell := (x, y);
              to_cell := next; details := info |}]).
Proof.
  intros [Hlen Hl] Hlast. split.
  - rewrite !length_app. simpl. lia.
  - intros k m Hk. destruct (decide (k < length l)%nat) as [Hlt|Hge].
    + rewrite lookup_app_l in Hk by done.
      destruct (Hl k m Hk) as (Hn & Hf & Ht). split_and!; [done|..].
      * rewrite lookup_app_l; [done|]. by eapply lookup_lt_Some.
      * rewrite lookup_app_l; [done|]. by eapply lookup_lt_Some.
    + rewrite lookup_app_r in Hk by lia.
      destruct (k - length l)%nat as [|?] eqn:Hd; [|done].
      injection Hk as <-. cbn.
      assert (k = length l) as -> by lia.
      split_and!.
      * lia.
      * rewrite lookup_app_l by lia. rewrite last_lookup in Hlast.
        replace (length l) with (pred (length p)) by lia. done.
      * rewrite lookup_app_r by lia.
        replace (S (length l) - length p)%nat with O by lia. done.
Qed.

Lemma warnsdorff_iter_retraces (start : cell) (prefs : list nat)
    (scoring : scoring_func) (verbose : bool) (k : nat) :
  ∀ (move_count x y : Z) (s : attempt_state) (l : list tracked_move),
    walk_inv start (a_tour s) x y move_count →
    a_tracking s = Some l → retraces (path (a_tour s)) l →
    match warnsdorff_iter k move_count x y prefs scoring verbose s with
    | Moved _ _ s' | Dead_end s' =>
        ∃ l', a_tracking s' = Some l' ∧ retraces (path (a_tour s')) l'
    | Raised => True
    end.
Proof.
  induction k as [|k IH]; intros move_count x y s l Hinv Htr Hre.
  - cbn. by exists l.
  - cbn [warnsdorff_iter].
    pose proof (warnsdorff_body_inv start move_count x y prefs scoring verbose
                  s Hinv) as Hbody.
    pose proof (warnsdorff_body_tracking move_count x y prefs scoring verbose s)
      as Htrack.
    destruct (warnsdorff_body move_count x y prefs scoring verbose s)
      as [s'| |nx ny s']; [| done |].
    + destruct Hbody as (_ & _ & Hp & _). exists l.
      rewrite Htrack, Hp. done.
    + destruct Hbody as (Hinv' & _ & Hp & _). destruct Htrack as [info Htrack].
      rewrite Htr in Htrack. cbn in Htrack.
      apply (IH _ _ _ _ _ Hinv' Htrack). rewrite Hp.
      destruct Hinv as [_ _ _ Hlast ->]. by apply retraces_snoc.
Qed.

Lemma solve_variation_retraces (s : attempt_state)
    (start_x start_y variation : Z) (prefs : list nat) (verbose b : bool)
    (s' : attempt_state) :
  wf_board (size (a_tour s)) (board (a_tour s)) →
  in_bounds (size (a_tour s)) start_x start_y = true →
  a_tracking s = Some [] →
  _solve_with_warnsdorff_variation s start_x start_y variation prefs verbose
  = Returned (b, s') →
  ∃ l, a_tracking s' = Some l ∧ retraces (path (a_tour s')) l.
Proof.
  intros Hwf Hb Htr. rewrite solve_variation_steps. unfold warnsdorff_steps.
  destruct (warnsdorff_entry_inv s start_x start_y Hwf Hb)
    as (s0 & -> & Hinv0 & _ & Hp0 & _ & Htr0 & _).
  rewrite Htr in Htr0.
  assert (Hre0 : retraces (path (a_tour s0)) []).
  { rewrite Hp0. split; [done|]. intros k m Hk. done. }
  pose proof (warnsdorff_iter_retraces (start_x, start_y) prefs
                (select_scoring variation) verbose
                (Z.to_nat (size (a_tour s) * size (a_tour s) - 1))
                1 start_x start_y s0 [] Hinv0 Htr0 Hre0) as Hrun.
  destruct (warnsdorff_iter _ _ _ _ _ _ _ _) as [s1| |x1 y1 s1]; cbn.
  - intros [= <- <-]. done.
  - done.
  - intros [= <- <-]. done.
Qed.

(** What attempt [i] of a run leaves, seen on its own. *)
Lemma attempt_alone_record (n start_x start_y i : Z) :
  in_bounds n start_x start_y = true →
  retraces (attempt_path n start_x start_y i)
           (attempt_tracking n start_x start_y i)
  ∧ knight_chain (attempt_path n start_x start_y i) = true
  ∧ head (attempt_path n start_x start_y i) = Some (start_x, start_y)
  ∧ (attempt_success n start_x start_y i = true ↔
     Z.of_nat (length (attempt_path n start_x start_y i)) = n * n)
  ∧ Z.of_nat (length (attempt_path n start_x start_y i)) <= n * n.
Proof.
  intros Hb.
  set (s := {| a_tour := init n;
               a_rng := (shuffle (seed (attempt_seed n i)) (seq 0 8)).2;
               a_tracking := Some [] |}).
  destruct (solve_variation_outcome s start_x start_y (i mod 3)
              (attempt_prefs n i) false (fresh_board_wf n) Hb)
    as (b & s' & Hret & Hsz' & Hvis & Hch & Hhd & Htrue & Hfalse & _).
  destruct (solve_variation_retraces s start_x start_y (i mod 3)
              (attempt_prefs n i) false b s' (fresh_board_wf n) Hb eq_refl Hret)
    as (l & Hl & Hre).
  unfold attempt_path, attempt_success, attempt_tracking, attempt_alone.
  fold s. rewrite Hret, Hl. cbn [default]. simpl in Htrue, Hfalse.
  split_and!; try done.
  - split; [done|]. intros Hlen. destruct b; [done|].
    destruct (Hfalse eq_refl) as [Hlt _]. lia.
  - destruct b; [by rewrite Htrue|]. destruct (Hfalse eq_refl) as [Hlt _]. lia.
Qed.

End TrackingProofs.

(** ** [solve_with_warnsdorff] against [_solve_with_warnsdorff_variation] *)

Lemma mode_scoring_variation (mode : string) :
  mode_scoring mode = select_scoring (mode_variation mode).
Proof.
  unfold mode_scoring, mode_variation.
  destruct (bool_decide (mode = "center")); [done|].
  destruct (bool_decide (mode = "corners")); done.
Qed.

Section SingleAttemptProofs.
Context {E : Env}.

(** The two loops make the same walk. *)
Lemma plain_loop_agrees (variation : Z) (prefs : list nat) (verbose : bool)
    (n : nat) :
  ∀ (move_count x y : Z) (t : tour) (g : rng) (s : attempt_state),
    size t = size (a_tour s) → board t = board (a_tour s) →
    path t = path (a_tour s) → g = a_rng s →
    match warnsdorff_plain_loop n move_count x y prefs
            (select_scoring variation) t g,
          warnsdorff_loop n move_count x y prefs (select_scoring variation)
            verbose s with
    | Returned (b1, (t1, g1)), Returned (b2, s2) =>
        b1 = b2 ∧ size t1 = size t ∧ board t1 = board (a_tour s2)
        ∧ path t1 = path (a_tour s2) ∧ g1 = a_rng s2
        ∧ variation_stats t1 = variation_stats t
        ∧ debug_log t1 = debug_log t
    | IndexError, IndexError => True
    | _, _ => False
    end.
Proof.
  induction n as [|n IH]; intros move_count x y t g s Hsz Hbd Hp ->.
  - cbn. done.
  - cbn [warnsdorff_plain_loop warnsdorff_loop]. unfold warnsdorff_body.
    cbv zeta.
    rewrite (get_next_ext variation (a_tour s) t (a_rng s) x y prefs Hsz Hbd).
    destruct (_get_next_move_warnsdorff_generic_detailed
                (a_tour s) (a_rng s) x y prefs (select_scoring variation))
      as [[[[nx ny] info]|] g'].
    + assert (Hbd' : board (if verbose
                            then log_move (a_tour s)
                                   (StepMsg move_count (x, y) (nx, ny) info)
                            else a_tour s) = board t)
        by (by destruct verbose).
      rewrite Hbd'.
      destruct (board_set (board t) nx ny move_count) as [b|]; [|done].
      match goal with
      | |- context [warnsdorff_loop n _ _ _ _ _ _ ?s1] =>
          pose proof (IH (move_count + 1) nx ny
                        (with_path (with_board t b) (path t ++ [(nx, ny)]))
                        g' s1) as Hstep
      end.
      match type of Hstep with
      | ?A → ?B → ?C → ?D → _ =>
          assert (H1 : A) by (destruct verbose, (move_count mod 500 =? 0); done);
          assert (H2 : B) by (destruct verbose, (move_count mod 500 =? 0); done);
          assert (H3 : C)
            by (destruct verbose, (move_count mod 500 =? 0); cbn; by rewrite Hp);
          assert (H4 : D) by done
      end.
      specialize (Hstep H1 H2 H3 H4). clear H1 H2 H3 H4 IH.
      destruct (warnsdorff_plain_loop n (move_count + 1) nx ny prefs _ _ g')
        as [[b1 [t1 g1]]| |]; try done;
        destruct (warnsdorff_loop n (move_count + 1) nx ny prefs _ verbose _)
          as [[b2 s2]| |]; try done.
    + cbn. done.
Qed.

Lemma single_attempt_agrees (t : tour) (g : rng)
    (start_x start_y : Z) (mode : string)
    (tracking : option (list tracked_move)) (verbose : bool) :
  match solve_with_warnsdorff t g start_x start_y mode,
        _solve_with_warnsdorff_variation
          {| a_tour := t; a_rng := (shuffle g (seq 0 8)).2;
             a_tracking := tracking |}
          start_x start_y (mode_variation mode) (shuffle g (seq 0 8)).1
          verbose with
  | Returned (b1, (t1, g1)), Returned (b2, s2) =>
      b1 = b2 ∧ size t1 = size t ∧ board t1 = board (a_tour s2)
      ∧ path t1 = path (a_tour s2) ∧ g1 = a_rng s2
      ∧ variation_stats t1 = variation_stats t
      ∧ debug_log t1 = debug_log t
  | IndexError, IndexError => True
  | _, _ => False
  end.
Proof.
  unfold solve_with_warnsdorff, _solve_with_warnsdorff_variation.
  cbv zeta. rewrite mode_scoring_variation.
  destruct (shuffle g (seq 0 8)) as [prefs g1]. cbn [fst snd a_tour a_rng].
  destruct (board_set (board t) start_x start_y 0) as [b|]; [|done].
  match goal with
  | |- context [warnsdorff_loop ?n _ _ _ _ _ _ ?s1] =>
      pose proof (plain_loop_agrees (mode_variation mode) prefs verbose n 1
                    start_x start_y
                    (with_path (with_board t b) [(start_x, start_y)]) g1 s1
                    eq_refl eq_refl eq_refl eq_refl) as Hsame
  end.
  destruct (warnsdorff_plain_loop _ 1 start_x start_y prefs _ _ g1)
    as [[b1 [t1 g1']]| |]; try done;
    destruct (warnsdorff_loop _ 1 start_x start_y prefs _ verbose _)
      as [[b2 s2]| |]; try done.
Qed.

End SingleAttemptProofs.

(** ** Searches on an object that has been used *)

Lemma tour_full_board (t : tour) (start : cell) :
  visited t → is_tour (size t) start (path t) → full_board t.
Proof.
  intros Hvis Htour x y.
  destruct (is_valid_move t x y) eqn:Hv; [|done].
  apply is_valid_move_true in Hv as [Hin Hget].
  destruct (visited_path _ Hvis (x, y)) as [_ Hne]; [|done].
  by apply (tour_all _ _ _ Htour).
Qed.

Lemma full_board_set (t : tour) (x y v : Z) (b : board_t) (p : list cell) :
  wf_board (size t) (board t) → in_bounds (size t) x y = true → v ≠ -1 →
  full_board t → board_set (board t) x y v = Some b →
  full_board (with_path (with_board t b) p).
Proof.
  intros Hwf Hb Hv Hfull Hset x' y'.
  destruct (is_valid_move _ x' y') eqn:Hvalid; [|done].
  apply is_valid_move_true in Hvalid as [Hin Hget]. cbn in Hin, Hget.
  destruct (board_set_in_bounds _ _ x y v Hwf Hb) as (b' & Hset' & _ & Hxy & Hother).
  rewrite Hset in Hset'. injection Hset' as <-.
  destruct (decide ((x', y') = (x, y))) as [[= -> ->]|Hne].
  - rewrite Hxy in Hget. by injection Hget.
  - rewrite (Hother x' y' Hin Hne) in Hget.
    assert (is_valid_move t x' y' = true) as Habs
      by by apply is_valid_move_true.
    by rewrite Hfull in Habs.
Qed.

Lemma scan_moves_full (t : tour) (cx cy : Z) (k i : nat) :
  full_board t → scan_moves t cx cy k i = None.
Proof.
  intros Hfull. revert i. induction k as [|k IH]; intros i; [done|].
  cbn. by rewrite Hfull.
Qed.

(** On a full board of more than one cell [solve] gives up in two passes. *)
Lemma solve_full (fuel : nat) (t : tour) (start_x start_y : Z) :
  wf_board (size t) (board t) → in_bounds (size t) start_x start_y = true →
  full_board t → size t ≠ 1 → (2 <= fuel)%nat →
  ∃ t', solve fuel t start_x start_y = Returned (false, t')
        ∧ size t' = size t ∧ path t' = []
        ∧ board t' = fresh_board (size t)
        ∧ variation_stats t' = variation_stats t
        ∧ debug_log t' = debug_log t.
Proof.
  intros Hwf Hb Hfull Hsz Hfuel.
  destruct (board_set_in_bounds _ _ start_x start_y 0 Hwf Hb)
    as (b & Hset & _).
  assert (Hfull' : full_board (with_path (with_board t b) [(start_x, start_y)])).
  { by apply (full_board_set t start_x start_y 0). }
  destruct fuel as [|[|fuel]]; [lia..|].
  unfold solve. rewrite Hset. cbn [solve_loop solve_body f_count f_x f_y f_i].
  assert (Hne : (1 =? size (with_path (with_board t b) [(start_x, start_y)])
                     * size (with_path (with_board t b) [(start_x, start_y)]))
                = false).
  { apply Z.eqb_neq. cbn. apply in_bounds_spec in Hb. nia. }
  rewrite Hne, scan_moves_full by done.
  eexists. split; [reflexivity|]. done.
Qed.

(** [solve] reads the board and its size only. *)
Lemma is_valid_move_same (t1 t2 : tour) (x y : Z) :
  same_search t1 t2 → is_valid_move t1 x y = is_valid_move t2 x y.
Proof. intros (Hs & Hb & _). unfold is_valid_move. by rewrite Hs, Hb. Qed.

Lemma scan_moves_same (t1 t2 : tour) (cx cy : Z) (k i : nat) :
  same_search t1 t2 → scan_moves t1 cx cy k i = scan_moves t2 cx cy k i.
Proof.
  intros Hsame. revert i. induction k as [|k IH]; intros i; [done|].
  cbn. rewrite (is_valid_move_same t1 t2) by done. by rewrite IH.
Qed.

Lemma solve_body_same (t1 t2 : tour) (stack : list frame) :
  same_search t1 t2 →
  match solve_body t1 stack, solve_body t2 stack with
  | Return_ b1 t1', Return_ b2 t2' => b1 = b2 ∧ same_search t1' t2'
  | Raise_, Raise_ => True
  | Continue_ t1' s1, Continue_ t2' s2 => s1 = s2 ∧ same_search t1' t2'
  | _, _ => False
  end.
Proof.
  intros Hsame. pose proof Hsame as (Hs & Hb & Hp).
  unfold solve_body. destruct stack as [|top rest].
  - unfold solve_reset, same_search. cbn. by rewrite Hs.
  - rewrite Hs. destruct (f_count top =? size t2 * size t2); [done|].
    rewrite (scan_moves_same t1 t2) by done.
    destruct (scan_moves t2 _ _ _ _) as [i|].
    + rewrite Hb. destruct (board_set (board t2) _ _ _); [|done].
      split; [done|]. unfold same_search. cbn. by rewrite Hs, Hp.
    + destruct rest as [|f rest]; [done|]. rewrite Hp.
      destruct (list_pop (path t2)) as [[p [x y]]|]; [|done].
      rewrite Hb. destruct (board_set (board t2) x y (-1)); [|done].
      split; [done|]. unfold same_search. cbn. by rewrite Hs.
Qed.

Lemma solve_loop_same (fuel : nat) :
  ∀ (t1 t2 : tour) (stack : list frame),
    same_search t1 t2 →
    match solve_loop fuel t1 stack, solve_loop fuel t2 stack with
    | Returned (b1, t1'), Returned (b2, t2') => b1 = b2 ∧ same_search t1' t2'
    | IndexError, IndexError => True
    | OutOfFuel, OutOfFuel => True
    | _, _ => False
    end.
Proof.
  induction fuel as [|fuel IH]; intros t1 t2 stack Hsame; [done|].
  cbn [solve_loop]. pose proof (solve_body_same t1 t2 stack Hsame) as Hbody.
  destruct (solve_body t1 stack) as [b1 t1'| |t1' s1],
    (solve_body t2 stack) as [b2 t2'| |t2' s2]; try done.
  destruct Hbody as [-> Hsame']. by apply IH.
Qed.

Lemma solve_same (fuel : nat) (t1 t2 : tour) (start_x start_y : Z) :
  size t1 = size t2 → board t1 = board t2 →
  match solve fuel t1 start_x start_y, solve fuel t2 start_x start_y with
  | Returned (b1, t1'), Returned (b2, t2') => b1 = b2 ∧ same_search t1' t2'
  | IndexError, IndexError => True
  | OutOfFuel, OutOfFuel => True
  | _, _ => False
  end.
Proof.
  intros Hs Hb. unfold solve. rewrite Hb.
  destruct (board_set (board t2) start_x start_y 0) as [b|]; [|done].
  apply solve_loop_same. unfold same_search. cbn. by rewrite Hs.
Qed.

Section UsedObjectProofs.
Context {E : Env}.

Lemma legal_prefs_full (t : tour) (x y : Z) (prefs : list nat) :
  full_board t → legal_prefs t x y prefs = [].
Proof.
  intros Hfull. apply elem_of_nil_inv. intros p Hp.
  apply legal_prefs_elem in Hp as [_ Hv]. by rewrite Hfull in Hv.
Qed.

Lemma get_next_full (t : tour) (g : rng) (x y : Z) (prefs : list nat)
    (scoring : scoring_func) :
  full_board t →
  _get_next_move_warnsdorff_generic_detailed t g x y prefs scoring = (None, g).
Proof.
  intros Hfull. rewrite get_next_spec. unfold candidates.
  rewrite legal_prefs_full by done. done.
Qed.

(** What a finished single attempt leaves. *)
Lemma single_attempt_visited (t : tour) (g : rng) (start_x start_y : Z)
    (mode : string) (b : bool) (t1 : tour) (g1 : rng) :
  wf_board (size t) (board t) →
  in_bounds (size t) start_x start_y = true →
  solve_with_warnsdorff t g start_x start_y mode = Returned (b, (t1, g1)) →
  size t1 = size t ∧ visited t1 ∧ knight_chain (path t1) = true
  ∧ head (path t1) = Some (start_x, start_y)
  ∧ (b = true → Z.of_nat (length (path t1)) = size t * size t)
  ∧ (board t = fresh_board (size t) → placed t1).
Proof.
  intros Hwf Hb Hret.
  pose proof (single_attempt_agrees t g start_x start_y mode None false)
    as Hsame.
  destruct (solve_variation_outcome
              {| a_tour := t; a_rng := (shuffle g (seq 0 8)).2;
                 a_tracking := None |}
              start_x start_y (mode_variation mode) (shuffle g (seq 0 8)).1
              false Hwf Hb)
    as (b' & s' & Hret' & Hsz' & Hvis & Hch & Hhd & Htrue & _ & Hpl).
  rewrite Hret, Hret' in Hsame. cbn [a_tour] in Hsz', Htrue, Hpl.
  destruct Hsame as (-> & Hsz1 & Hbd1 & Hp1 & _).
  split_and!; try done.
  - apply (visited_ext (a_tour s')); congruence.
  - by rewrite Hp1.
  - by rewrite Hp1.
  - by rewrite Hp1.
  - intros Hfresh. apply (placed_ext (a_tour s')); try congruence. auto.
Qed.

End UsedObjectProofs.

(** ** What is printed *)

Lemma pretty_N_length_100 (x : N) :
  (100 <= x)%N → (3 <= String.length (pretty x))%nat.
Proof.
  intros Hx. unfold pretty, pretty_N.
  destruct (decide (x = 0%N)) as [->|_]; [lia|].
  assert (10 <= x `div` 10)%N by (apply N.div_le_lower_bound; lia).
  assert (1 <= (x `div` 10) `div` 10)%N by (apply N.div_le_lower_bound; lia).
  rewrite pretty_N_go_step by lia.
  rewrite pretty_N_go_step by lia.
  rewrite pretty_N_go_step by lia.
  etransitivity; [|apply pretty_N_go_length]. cbn. lia.
Qed.

Lemma pretty_Z_length_pos (v : Z) : (1 <= String.length (pretty v))%nat.
Proof.
  destruct v as [|p|p]; [done|..].
  - apply (pretty_N_length_pos (N.pos p)).
  - change (pretty (Z.neg p)) with ("-" +:+ pretty p).
    rewrite string_length_app. cbn. lia.
Qed.

Lemma format_2d_length_ge (v : Z) : (2 <= String.length (format_2d v))%nat.
Proof.
  unfold format_2d. cbv zeta. pose proof (pretty_Z_length_pos v).
  destruct (String.length (pretty v) <? 2)%nat eqn:Hlt.
  - rewrite string_length_app. cbn. lia.
  - apply Nat.ltb_ge in Hlt. done.
Qed.

Lemma format_2d_length_two (v : Z) :
  -9 <= v <= 99 → String.length (format_2d v) = 2%nat.
Proof.
  intros Hv.
  assert (Hall : forallb (λ v, String.length (format_2d v) =? 2)%nat
                         (seqZ (-9) 109) = true) by (vm_compute; reflexivity).
  rewrite forallb_forall in Hall.
  apply Nat.eqb_eq, Hall, list_elem_of_In, elem_of_seqZ. lia.
Qed.

Lemma format_2d_length_wide (v : Z) :
  100 <= v → (3 <= String.length (format_2d v))%nat.
Proof.
  intros Hv. unfold format_2d. cbv zeta.
  assert (Hp : (3 <= String.length (pretty v))%nat).
  { destruct v as [|p|p]; [lia| |lia].
    apply (pretty_N_length_100 (N.pos p)). lia. }
  destruct (String.length (pretty v) <? 2)%nat eqn:Hlt; [|done].
  apply Nat.ltb_lt in Hlt. lia.
Qed.

Lemma print_row_length (b : board_t) (i : Z) (js : list Z) (s : string) :
  print_row b i js = Some s →
  (3 * length js <= String.length s)%nat
  ∧ ((∀ j v, j ∈ js → board_get b i j = Some v → -9 <= v <= 99) →
     String.length s = (3 * length js)%nat)
  ∧ ((∃ j v, j ∈ js ∧ board_get b i j = Some v ∧ 100 <= v) →
     (3 * length js < String.length s)%nat).
Proof.
  revert s. induction js as [|j js IH]; intros s.
  - intros [= <-]. split_and!; [done..|].
    intros (j & v & Hj & _). by apply not_elem_of_nil in Hj.
  - cbn [print_row]. destruct (board_get b i j) as [v|] eqn:Hget; [|done].
    cbn. destruct (print_row b i js) as [rest|]; [|done]. cbn.
    intros [= <-]. destruct (IH rest eq_refl) as (Hge & Hsmall & Hwide).
    rewrite !string_length_app. cbn [String.length length].
    pose proof (format_2d_length_ge v) as Hv. split_and!.
    + lia.
    + intros Hall. rewrite Hsmall.
      * rewrite (format_2d_length_two v); [lia|].
        apply (Hall j); [left|done].
      * intros j' v' Hj'. apply Hall. by right.
    + intros (j' & v' & Hj' & Hget' & Hv').
      apply elem_of_cons in Hj' as [->|Hj'].
      * rewrite Hget in Hget'. injection Hget' as ->.
        pose proof (format_2d_length_wide v' Hv'). lia.
      * assert (3 * length js < String.length rest)%nat; [|lia].
        apply Hwide. by exists j', v'.
Qed.

Lemma print_row_succeeds (n : Z) (b : board_t) (i : Z) (js : list Z) :
  wf_board n b → 0 <= i < n → (∀ j, j ∈ js → 0 <= j < n) →
  is_Some (print_row b i js).
Proof.
  intros Hwf Hi. induction js as [|j js IH]; intros Hjs; [done|].
  cbn [print_row].
  destruct (board_get_in_bounds n b i j Hwf) as (row & v & _ & _ & ->).
  { apply in_bounds_spec. split; [done|]. apply Hjs. left. }
  cbn. destruct IH as [rest ->]; [|done].
  intros j' Hj'. apply Hjs. by right.
Qed.

(** On a board of [size] rows of [size] cells [print_solution] prints one
    line for each row. *)
Lemma print_solution_rows (t : tour) :
  wf_board (size t) (board t) →
  ∃ rows,
    print_solution t = Some (EmptyString :: "Recorrido del Caballo:" :: rows)
    ∧ length rows = Z.to_nat (size t)
    ∧ ∀ (i : nat) (row : string), rows !! i = Some row →
        print_row (board t) (Z.of_nat i) (seqZ 0 (size t)) = Some row.
Proof.
  intros Hwf. unfold print_solution.
  destruct (mapM (λ i, print_row (board t) i (seqZ 0 (size t)))
                 (seqZ 0 (size t))) as [rows|] eqn:Hrows.
  - exists rows. split; [done|]. apply mapM_Some in Hrows.
    pose proof (Forall2_length _ _ _ Hrows) as Hlen.
    rewrite length_seqZ in Hlen. split; [done|].
    intros i row Hi.
    destruct (Forall2_lookup_r _ _ _ _ _ Hrows Hi) as (z & Hz & Hrow).
    apply lookup_seqZ in Hz as [-> _]. by rewrite Z.add_0_l in Hrow.
  - exfalso. apply mapM_None in Hrows. apply Exists_exists in Hrows.
    destruct Hrows as (i & Hi & Hnone). apply elem_of_seqZ in Hi.
    destruct (print_row_succeeds (size t) (board t) i (seqZ 0 (size t)))
      as [row Hrow]; [done|lia| |congruence].
    intros j Hj. apply elem_of_seqZ in Hj. lia.
Qed.

(** ** The object after a successful search *)

Lemma solve_iter_return_placed (start : cell) (n : nat) :
  ∀ (t t' : tour) (stack : list frame) (b : bool),
    solve_inv start t stack → placed t →
    solve_iter n t stack = Return_ b t' → b = true → placed t'.
Proof.
  induction n as [|n IH]; intros t t' stack b Hinv Hpl; [done|].
  cbn [solve_iter].
  pose proof (solve_body_inv start t stack Hinv) as Hbody.
  destruct (solve_body t stack) as [b1 t1| |t1 stack1] eqn:Hb.
  - intros [= <- <-] ->. by destruct Hbody as [-> _].
  - done.
  - destruct Hbody as [Hinv1 _]. apply (IH t1 t' stack1 b Hinv1).
    by apply (solve_body_placed start t t1 stack stack1).
Qed.

Lemma solve_success_placed (fuel : nat) (t t' : tour) (start_x start_y : Z) :
  board t = fresh_board (size t) →
  in_bounds (size t) start_x start_y = true →
  solve fuel t start_x start_y = Returned (true, t') →
  size t' = size t ∧ placed t'
  ∧ is_tour (size t) (start_x, start_y) (path t').
Proof.
  intros Hfresh Hb Hret.
  assert (Hwf : wf_board (size t) (board t)).
  { rewrite Hfresh. apply fresh_board_wf. }
  destruct (solve_success fuel t t' start_x start_y Hwf Hb Hret)
    as (Hsz & _ & Htour).
  split_and!; try done.
  destruct (solve_entry t start_x start_y Hwf Hb) as (b0 & Hset & Hinv).
  unfold solve in Hret. rewrite Hset, solve_loop_iter in Hret.
  destruct (solve_iter fuel _ _) as [b1 t1| |] eqn:Hrun; try done.
  injection Hret as -> ->.
  apply (solve_iter_return_placed _ _ _ _ _ _ Hinv) in Hrun; try done.
  by apply solve_entry_placed.
Qed.

(** On the board of a finished tour every cell holds an order from 0 to
    [size * size - 1], and every such order is held by a cell. *)
Lemma placed_tour_values (t : tour) (start : cell) :
  placed t → is_tour (size t) start (path t) →
  (∀ x y v, in_bounds (size t) x y = true →
            board_get (board t) x y = Some v → 0 <= v < size t * size t)
  ∧ (∀ v, 0 <= v < size t * size t →
          ∃ x y, in_bounds (size t) x y = true
                 ∧ board_get (board t) x y = Some v).
Proof.
  intros Hpl Htour.
  pose proof (tour_length _ _ _ Htour) as Hlen.
  assert (Hpos : 0 <= size t).
  { pose proof (tour_head _ _ _ Htour) as Hhd.
    destruct (path t) as [|c p] eqn:Hp; [done|].
    assert (Hc : cell_in_bounds (size t) c).
    { apply (tour_inside _ _ _ Htour). left. }
    apply in_bounds_spec in Hc. lia. }
  assert (Hlen' : size t * size t = Z.of_nat (length (path t))).
  { rewrite Hlen. nia. }
  clear Hlen. split.
  - intros x y v Hin Hget.
    destruct (placed_board _ Hpl x y v Hin Hget) as [->|[Hv Hl]].
    + exfalso.
      assert (Hmem : (x, y) ∈ path t) by by apply (tour_all _ _ _ Htour).
      apply list_elem_of_lookup_1 in Hmem as [j Hj].
      destruct (placed_path _ Hpl j _ Hj) as [_ Hget']. cbn in Hget'.
      rewrite Hget in Hget'. injection Hget' as Hj'. lia.
    + apply lookup_lt_Some in Hl. apply in_bounds_spec in Hin.
      rewrite Hlen'. lia.
  - intros v Hv.
    destruct (lookup_lt_is_Some_2 (path t) (Z.to_nat v)) as [[x y] Hc].
    { rewrite Hlen' in Hv. lia. }
    destruct (placed_path _ Hpl _ _ Hc) as [Hin Hget]. cbn in Hget.
    exists x, y. split; [done|]. rewrite Hget. f_equal. lia.
Qed.

Section RunSuccessProofs.
Context {E : Env}.

Lemma attempt_alone_placed (n start_x start_y i : Z) :
  in_bounds n start_x start_y = true →
  ∃ t', size t' = n ∧ board t' = attempt_board n start_x start_y i
        ∧ path t' = attempt_path n start_x start_y i ∧ placed t'.
Proof.
  intros Hb.
  set (s := {| a_tour := init n;
               a_rng := (shuffle (seed (attempt_seed n i)) (seq 0 8)).2;
               a_tracking := Some [] |}).
  destruct (solve_variation_outcome s start_x start_y (i mod 3)
              (attempt_prefs n i) false (fresh_board_wf n) Hb)
    as (b & s' & Hret & Hsz' & _ & _ & _ & _ & _ & Hpl).
  exists (a_tour s').
  unfold attempt_path, attempt_board, attempt_alone. fold s. rewrite Hret.
  split_and!; try done. by apply Hpl.
Qed.

(** What a run that returns [True] leaves. *)
Lemma run_success_state (hash : string → Z) (clock : Z → string) (t : tour)
    (g : rng) (start_x start_y max_attempts : Z) (verbose : bool)
    (r' : run_state) :
  in_bounds (size t) start_x start_y = true →
  solve_with_multiple_warnsdorff_attempts hash clock t g start_x start_y
    max_attempts verbose = Returned (true, r') →
  size (r_tour r') = size t ∧ placed (r_tour r')
  ∧ is_tour (size t) (start_x, start_y) (path (r_tour r')).
Proof.
  intros Hb Hret.
  destruct (run_outcome hash clock t g start_x start_y max_attempts verbose
              Hb) as (b & r1 & Hret1 & Hsz & _ & Htrue).
  rewrite Hret in Hret1. injection Hret1 as <- <-.
  destruct (Htrue eq_refl) as (j & _ & Hnovel & _ & Hp & Hbd & _).
  apply novel_success_spec in Hnovel as [Hok _].
  destruct (attempt_alone_placed (size t) start_x start_y (Z.of_nat j) Hb)
    as (t' & Hsz' & Hbd' & Hp' & Hpl).
  split_and!; try done.
  - apply (placed_ext t'); congruence.
  - rewrite Hp. by apply attempt_alone_outcome.
Qed.

End RunSuccessProofs.

(** The rows printed for the board of a finished tour. *)
Lemma print_solution_tour (t : tour) (start : cell) :
  placed t → is_tour (size t) start (path t) →
  ∃ rows,
    print_solution t = Some (EmptyString :: "Recorrido del Caballo:" :: rows)
    ∧ length rows = Z.to_nat (size t)
    ∧ (size t <= 10 →
       ∀ row, row ∈ rows → String.length row = (3 * Z.to_nat (size t))%nat)
    ∧ (11 <= size t →
       ∃ row, row ∈ rows ∧ (3 * Z.to_nat (size t) < String.length row)%nat).
Proof.
  intros Hpl Htour.
  destruct (placed_tour_values t start Hpl Htour) as [Hrange Hall].
  destruct (print_solution_rows t (placed_wf _ Hpl)) as (rows & Hp & Hlen & Hrows).
  exists rows. split_and!; try done.
  - intros Hsz row Hrow. apply list_elem_of_lookup_1 in Hrow as [i Hi].
    pose proof (lookup_lt_Some _ _ _ Hi) as Hlt.
    destruct (print_row_length _ _ _ _ (Hrows i row Hi)) as (_ & Hsmall & _).
    rewrite Hsmall, length_seqZ; [done|].
    intros j v Hj Hget. apply elem_of_seqZ in Hj.
    assert (0 <= v < size t * size t); [|nia].
    apply (Hrange (Z.of_nat i) j); [|done]. apply in_bounds_spec. lia.
  - intros Hsz. destruct (Hall 100) as (x & y & Hin & Hget); [nia|].
    apply in_bounds_spec in Hin.
    destruct (lookup_lt_is_Some_2 rows (Z.to_nat x)) as [row Hrow]; [lia|].
    exists row. split; [by eapply list_elem_of_lookup_2|].
    destruct (print_row_length _ _ _ _ (Hrows _ row Hrow)) as (_ & _ & Hwide).
    rewrite length_seqZ in Hwide. apply Hwide.
    exists y, 100. rewrite Z2Nat.id by lia. split_and!; [|done|done].
    apply elem_of_seqZ. lia.
Qed.

(** ** The chess notation of [print_path] *)

Lemma pystr_of_inj (s1 s2 : string) : pystr_of s1 = pystr_of s2 → s1 = s2.
Proof.
  unfold pystr_of. intros H.
  rewrite <- (String.string_of_list_ascii_of_string s1).
  rewrite <- (String.string_of_list_ascii_of_string s2). f_equal.
  revert H. generalize (String.list_ascii_of_string s1) as l1.
  generalize (String.list_ascii_of_string s2) as l2.
  intros l2 l1. revert l2. induction l1 as [|a l1 IH]; intros [|b l2]; try done.
  cbn. intros [= Hab Hl]. f_equal; [|by apply IH].
  rewrite <- (Ascii.ascii_N_embedding a), <- (Ascii.ascii_N_embedding b).
  f_equal. lia.
Qed.

Lemma chess_notation_inj (n : Z) (c1 c2 : cell) (s : pystr) :
  chess_notation n c1 = Some s → chess_notation n c2 = Some s → c1 = c2.
Proof.
  unfold chess_notation, chr. destruct c1 as [x1 y1], c2 as [x2 y2]. cbn.
  destruct ((0 <=? 97 + y1) && (97 + y1 <? 1114112)); [|done].
  destruct ((0 <=? 97 + y2) && (97 + y2 <? 1114112)); [|done].
  cbn. intros [= <-] [= Hy Hx]. apply pystr_of_inj in Hx.
  apply (inj pretty) in Hx. f_equal; lia.
Qed.

Lemma chess_notation_inside (n : Z) (c : cell) :
  n <= 1114015 → cell_in_bounds n c →
  chess_notation n c = Some ((97 + c.2) :: pystr_of (pretty (n - c.1))).
Proof.
  intros Hn Hc. apply in_bounds_spec in Hc. unfold chess_notation, chr.
  assert (H : (0 <=? 97 + c.2) && (97 + c.2 <? 1114112) = true).
  { apply andb_true_iff. split; [apply Z.leb_le|apply Z.ltb_lt]; lia. }
  by rewrite H.
Qed.

Lemma path_notations_inside (t : tour) :
  size t <= 1114015 → (∀ c, c ∈ path t → cell_in_bounds (size t) c) →
  ∃ l, path_notations t = Some l ∧ length l = length (path t)
       ∧ (∀ (i : nat) (c : cell), path t !! i = Some c →
            l !! i = Some ((97 + c.2) :: pystr_of (pretty (size t - c.1))))
       ∧ (NoDup (path t) → NoDup l).
Proof.
  intros Hn Hin. unfold path_notations.
  destruct (mapM (chess_notation (size t)) (path t)) as [l|] eqn:Hl.
  - exists l. apply mapM_Some in Hl.
    split; [done|]. split; [by rewrite (Forall2_length _ _ _ Hl)|]. split.
    + intros i c Hc.
      destruct (Forall2_lookup_l _ _ _ _ _ Hl Hc) as (s & Hs & Hnote).
      rewrite chess_notation_inside in Hnote; [congruence|done|].
      apply Hin. by eapply list_elem_of_lookup_2.
    + intros Hnd. apply NoDup_alt. intros i j s Hi Hj.
      destruct (Forall2_lookup_r _ _ _ _ _ Hl Hi) as (ci & Hci & Hni).
      destruct (Forall2_lookup_r _ _ _ _ _ Hl Hj) as (cj & Hcj & Hnj).
      pose proof (chess_notation_inj _ _ _ _ Hni Hnj) as <-.
      by apply (NoDup_lookup (path t) i j ci).
  - exfalso. apply mapM_None in Hl. apply Exists_exists in Hl.
    destruct Hl as (c & Hc & Hnone).
    rewrite chess_notation_inside in Hnone; [done..|by apply Hin].
Qed.

(** *** What [print_path] writes *)

Lemma can_write_app (out : stream) (s1 s2 : pystr) :
  can_write out (s1 ++ s2) = can_write out s1 && can_write out s2.
Proof. apply forallb_app. Qed.

Lemma can_write_ascii (out : stream) (s : pystr) :
  (∀ c, c ∈ s → 0 <= c < 128) → can_write out s = true.
Proof.
  intros H. apply forallb_forall. intros c Hc.
  apply list_elem_of_In, H in Hc. apply orb_true_iff. left.
  apply andb_true_iff. split; [apply Z.leb_le|apply Z.ltb_lt]; lia.
Qed.

Lemma digits_ascii (d : string) (c : Z) :
  digits d = true → c ∈ pystr_of d → 0 <= c < 128.
Proof.
  unfold pystr_of. induction d as [|a d IH]; cbn.
  - intros _ Hc. by apply elem_of_nil in Hc.
  - intros Hd Hc. apply andb_prop in Hd as [Ha Hd].
    apply elem_of_cons in Hc as [->|Hc]; [|by apply IH].
    unfold is_digit in Ha. cbv zeta in Ha.
    apply andb_prop in Ha as [_ Ha]. apply Nat.leb_le in Ha.
    unfold nat_of_ascii in Ha. lia.
Qed.

Lemma pretty_Z_ascii (z c : Z) : c ∈ pystr_of (pretty z) → 0 <= c < 128.
Proof.
  destruct (pretty_Z_shape z) as (d & Hd & _ & [->| ->]).
  - by apply digits_ascii.
  - change (pystr_of (String "-"%char d)) with (45 :: pystr_of d).
    intros Hc. apply elem_of_cons in Hc as [->|Hc]; [lia|].
    by apply (digits_ascii d).
Qed.

(** A notation can be written when the stream has the character of its
    column. *)
Lemma can_write_notation (out : stream) (y z : Z) :
  can_write out ((97 + y) :: pystr_of (pretty z)) = can_write out [97 + y].
Proof.
  change ((97 + y) :: pystr_of (pretty z))
    with ([97 + y] ++ pystr_of (pretty z)).
  rewrite can_write_app.
  rewrite (can_write_ascii out (pystr_of (pretty z)))
    by (intros c; apply pretty_Z_ascii).
  apply andb_true_r.
Qed.

Lemma can_write_arrow (out : stream) : can_write out [32; 8594; 32] = out 8594.
Proof. cbn. by rewrite andb_true_r. Qed.

Lemma can_write_join (out : stream) (l : list pystr) :
  can_write out (join [32; 8594; 32] l)
  = forallb (can_write out) l && ((length l <? 2)%nat || out 8594).
Proof.
  induction l as [|s l IH]; [done|].
  destruct l as [|s2 l].
  - cbn [join forallb length]. cbn. by rewrite !andb_true_r.
  - change (join [32; 8594; 32] (s :: s2 :: l))
      with (s ++ [32; 8594; 32] ++ join [32; 8594; 32] (s2 :: l)).
    rewrite !can_write_app, IH, can_write_arrow.
    cbn [forallb length]. destruct (can_write out s); [|done].
    destruct (can_write out s2); [|by rewrite andb_false_r].
    destruct (forallb (can_write out) l); [|by rewrite andb_false_r].
    cbn. destruct (out 8594); [|done].
    by rewrite orb_true_r.
Qed.

Lemma encodes_column (out : stream) (n y : Z) :
  encodes_path out n → 0 <= y < n → can_write out [97 + y] = true.
Proof.
  intros [_ Hcol] Hy. cbn. rewrite andb_true_r.
  destruct (Z_lt_ge_dec y 31) as [Hlt|Hge].
  - apply orb_true_iff. left.
    apply andb_true_iff. split; [apply Z.leb_le|apply Z.ltb_lt]; lia.
  - apply orb_true_iff. right. apply Hcol. lia.
Qed.

(** What [print_path] does for a path inside the board. *)
Lemma print_path_inside (out : stream) (t : tour) :
  size t <= 1114015 → (∀ c, c ∈ path t → cell_in_bounds (size t) c) →
  ∃ l,
    path_notations t = Some l
    ∧ (can_write out (join [32; 8594; 32] l) = true →
       print_path out t
       = {| written := [10] ++ pystr_of "Secuencia de movimientos:" ++ [32]
                       ++ join [32; 8594; 32] l ++ [10];
            raised := None |})
    ∧ (can_write out (join [32; 8594; 32] l) = false →
       print_path out t
       = {| written := [10] ++ pystr_of "Secuencia de movimientos:" ++ [32];
            raised := Some Exn.UnicodeEncodeError |})
    ∧ (encodes_path out (size t) →
       can_write out (join [32; 8594; 32] l) = true)
    ∧ (out 8594 = false → (2 <= length (path t))%nat →
       can_write out (join [32; 8594; 32] l) = false).
Proof.
  intros Hn Hin.
  destruct (path_notations_inside t Hn Hin) as (l & Hl & Hlen & Hnote & _).
  exists l. unfold print_path. rewrite Hl. cbv zeta. split_and!; try done.
  - intros ->. by rewrite <- !app_assoc.
  - by intros ->.
  - intros Henc. rewrite can_write_join. apply andb_true_iff. split.
    + apply forallb_forall. intros s Hs.
      apply list_elem_of_In, list_elem_of_lookup_1 in Hs as [i Hi].
      destruct (lookup_lt_is_Some_2 (path t) i) as [c Hc].
      { rewrite <- Hlen. by eapply lookup_lt_Some. }
      rewrite (Hnote i c Hc) in Hi. injection Hi as <-.
      rewrite can_write_notation. apply (encodes_column out (size t)); [done|].
      assert (Hcb : cell_in_bounds (size t) c).
      { apply Hin. by eapply list_elem_of_lookup_2. }
      apply in_bounds_spec in Hcb. lia.
    + destruct Henc as [-> _]. apply orb_true_r.
  - intros Harrow H2. rewrite can_write_join, Harrow, Hlen.
    rewrite orb_false_r. apply andb_false_iff. right.
    apply Nat.ltb_ge. lia.
Qed.

(** ** The grouping of [analyze_variation_performance] *)

Lemma variation_groups_snoc (stats : list variation_info) (s : variation_info) :
  variation_groups (stats ++ [s])
  = group_append (variation_type s) s (variation_groups stats).
Proof. unfold variation_groups. by rewrite fold_left_app. Qed.

Lemma group_append_keys (k : Z) (s : variation_info)
    (groups : list (Z * list variation_info)) :
  (group_append k s groups).*1
  = if bool_decide (k ∈ groups.*1) then groups.*1 else groups.*1 ++ [k].
Proof.
  induction groups as [|[k' l] groups IH]; [done|].
  cbn [group_append]. destruct (k' =? k) eqn:Hk.
  - apply Z.eqb_eq in Hk as ->. cbn. rewrite bool_decide_true; [done|left].
  - apply Z.eqb_neq in Hk. cbn. rewrite IH.
    destruct (bool_decide (k ∈ groups.*1)) eqn:Hin.
    + apply bool_decide_eq_true in Hin. rewrite bool_decide_true; [done|].
      by right.
    + apply bool_decide_eq_false in Hin. rewrite bool_decide_false; [done|].
      intros Habs. apply elem_of_cons in Habs as [ -> | Habs ]; done.
Qed.

Lemma group_append_elem (k : Z) (s : variation_info)
    (groups : list (Z * list variation_info)) (k' : Z)
    (l' : list variation_info) :
  NoDup groups.*1 →
  ((k', l') ∈ group_append k s groups) ↔
  (k' ≠ k ∧ (k', l') ∈ groups)
  ∨ (k' = k ∧ ((∃ l0, (k, l0) ∈ groups ∧ l' = l0 ++ [s])
               ∨ ((k ∉ groups.*1) ∧ l' = [s]))).
Proof.
  induction groups as [|[k0 l0] groups IH]; intros Hnd.
  - cbn. rewrite list_elem_of_singleton. split.
    + intros [= -> ->]. right. split; [done|]. right. split; [|done].
      apply not_elem_of_nil.
    + intros [[_ H]|[-> [(l0 & H & _)|[_ ->]]]]; try done;
        by apply not_elem_of_nil in H.
  - cbn [fmap list_fmap fst] in Hnd. apply NoDup_cons in Hnd as [Hk0 Hnd].
    cbn [group_append]. destruct (k0 =? k) eqn:Hk.
    + apply Z.eqb_eq in Hk as ->. rewrite !elem_of_cons. split.
      * intros [[= -> ->]|Hin].
        -- right. split; [done|]. left. exists l0. split; [by left|done].
        -- left. split; [|by right]. intros ->. apply Hk0.
           apply list_elem_of_fmap. by exists (k, l').
      * intros [[Hne [[= ? ?]|Hin]]|[-> [(l1 & Hin & ->)|[Hnot _]]]].
        -- done.
        -- by right.
        -- apply elem_of_cons in Hin as [[= ->]|Hin]; [by left|].
           exfalso. apply Hk0. apply list_elem_of_fmap. by exists (k, l1).
        -- exfalso. apply Hnot. cbn. left.
    + apply Z.eqb_neq in Hk. rewrite elem_of_cons, (IH Hnd). split.
      * intros [[= -> ->]|[[Hne Hin]|[-> [(l1 & Hin & ->)|[Hnot ->]]]]].
        -- left. split; [done|left].
        -- left. split; [done|by right].
        -- right. split; [done|]. left. exists l1. split; [by right|done].
        -- right. split; [done|]. right. split; [|done].
           cbn. intros Habs. apply elem_of_cons in Habs as [|]; done.
      * intros [[Hne Hin]|[-> [(l1 & Hin & ->)|[Hnot ->]]]].
        -- apply elem_of_cons in Hin as [[= -> ->]|Hin]; [by left|].
           right. left. done.
        -- apply elem_of_cons in Hin as [[= ? ?]|Hin]; [done|].
           right. right. split; [done|]. left. by exists l1.
        -- right. right. split; [done|]. right. split; [|done].
           intros Habs. apply Hnot. cbn. by right.
Qed.

(** The groups are the statistics sorted by type. *)
Lemma variation_groups_spec (stats : list variation_info) :
  NoDup (variation_groups stats).*1
  ∧ (∀ k, k ∈ (variation_groups stats).*1 ↔
          ∃ s, s ∈ stats ∧ variation_type s = k)
  ∧ ∀ k l, (k, l) ∈ variation_groups stats → l = stats_of_type k stats.
Proof.
  induction stats as [|s stats IH] using rev_ind.
  - split_and!; [constructor| |].
    + intros k. split; [intros H; by apply not_elem_of_nil in H|].
      intros (s & H & _). by apply not_elem_of_nil in H.
    + intros k l H. by apply not_elem_of_nil in H.
  - destruct IH as (Hnd & Hkeys & Hgroups).
    rewrite variation_groups_snoc. split_and!.
    + rewrite group_append_keys. case_bool_decide as Hin; [done|].
      apply NoDup_app. split_and!; [done| |apply NoDup_singleton].
      intros k Hk Hk'. apply list_elem_of_singleton in Hk' as ->. done.
    + intros k. rewrite group_append_keys. split.
      * intros Hk.
        assert (Hcase : k ∈ (variation_groups stats).*1 ∨ k = variation_type s).
        { case_bool_decide; [by left|].
          apply elem_of_app in Hk as [ Hk | Hk ]; [by left|right].
          by apply list_elem_of_singleton in Hk. }
        destruct Hcase as [ Hk' | -> ].
        -- apply Hkeys in Hk' as (s' & Hs' & Ht). exists s'.
           split; [|done]. apply elem_of_app. by left.
        -- exists s. split; [|done]. apply elem_of_app. right. left.
      * intros (s' & Hs' & <-). apply elem_of_app in Hs' as [Hs'|Hs'].
        -- assert (variation_type s' ∈ (variation_groups stats).*1)
             by (apply Hkeys; by exists s').
           case_bool_decide; [done|]. apply elem_of_app. by left.
        -- apply list_elem_of_singleton in Hs' as ->.
           case_bool_decide; [done|]. apply elem_of_app. right. left.
    + intros k l Hl. apply group_append_elem in Hl; [|done].
      unfold stats_of_type. rewrite filter_app.
      destruct Hl as [[Hne Hl]|[-> [(l0 & Hl0 & ->)|[Hnot ->]]]].
      * rewrite (Hgroups k l Hl). unfold stats_of_type.
        rewrite (filter_cons_False _ s) by done.
        by rewrite filter_nil, app_nil_r.
      * rewrite (Hgroups _ l0 Hl0). unfold stats_of_type.
        by rewrite (filter_cons_True _ s), filter_nil.
      * rewrite (filter_cons_True _ s), filter_nil by done.
        assert (Hnil : filter (λ s0, variation_type s0 = variation_type s) stats
                       = []); [|by rewrite Hnil].
        apply elem_of_nil_inv. intros s' Hs'.
        apply list_elem_of_filter in Hs' as [Ht Hs']. apply Hnot, Hkeys.
        by exists s'.
Qed.

Lemma group_append_total (k : Z) (s : variation_info)
    (groups : list (Z * list variation_info)) :
  sum_list ((λ g, length g.2) <$> group_append k s groups)
  = S (sum_list ((λ g, length g.2) <$> groups)).
Proof.
  induction groups as [|[k' l] groups IH]; [done|].
  cbn [group_append]. destruct (k' =? k).
  - cbn. rewrite length_app. cbn. lia.
  - cbn. cbn in IH. rewrite IH. lia.
Qed.

Lemma variation_groups_total (stats : list variation_info) :
  sum_list ((λ g, length g.2) <$> variation_groups stats) = length stats.
Proof.
  induction stats as [|s stats IH] using rev_ind; [done|].
  rewrite variation_groups_snoc, group_append_total, IH, length_app.
  cbn. lia.
Qed.

Lemma Qdiv_nat_bounds (a b : nat) :
  (a <= b)%nat → (1 <= b)%nat →
  (0 <= inject_Z (Z.of_nat a) / inject_Z (Z.of_nat b) * 100)%Q
  ∧ (inject_Z (Z.of_nat a) / inject_Z (Z.of_nat b) * 100 <= 100)%Q
  ∧ (inject_Z (Z.of_nat a) / inject_Z (Z.of_nat b) * 100
     * inject_Z (Z.of_nat b) == inject_Z (Z.of_nat a) * 100)%Q.
Proof.
  intros Hab Hb.
  assert (Hb0 : (0 < inject_Z (Z.of_nat b))%Q).
  { change 0%Q with (inject_Z 0). rewrite <- Zlt_Qlt. lia. }
  assert (Ha0 : (0 <= inject_Z (Z.of_nat a))%Q).
  { change 0%Q with (inject_Z 0). rewrite <- Zle_Qle. lia. }
  assert (Hab' : (inject_Z (Z.of_nat a) <= inject_Z (Z.of_nat b))%Q).
  { rewrite <- Zle_Qle. lia. }
  assert (Hq0 : (0 <= inject_Z (Z.of_nat a) / inject_Z (Z.of_nat b))%Q).
  { apply Qle_shift_div_l; [done|]. lra. }
  assert (Hq1 : (inject_Z (Z.of_nat a) / inject_Z (Z.of_nat b) <= 1)%Q).
  { apply Qle_shift_div_r; [done|]. lra. }
  split_and!.
  - apply Qmult_le_0_compat; [done|]. by compute.
  - apply (Qle_trans _ (1 * 100)); [|by compute].
    apply Qmult_le_compat_r; [done|]. by compute.
  - field. intros Habs. rewrite Habs in Hb0. by apply Qlt_irrefl in Hb0.
Qed.

Lemma sum_path_length_app (l1 l2 : list variation_info) :
  sum_path_length (l1 ++ l2)
  = (sum_path_length l1 + sum_path_length l2)%nat.
Proof.
  induction l1 as [|s l1 IH]; [done|].
  change (sum_path_length ((s :: l1) ++ l2))
    with (path_length s + sum_path_length (l1 ++ l2))%nat.
  change (sum_path_length (s :: l1))
    with (path_length s + sum_path_length l1)%nat.
  rewrite IH. lia.
Qed.

(** What is reported for a group. *)
Lemma report_of_spec (k : Z) (l : list variation_info) :
  l ≠ [] →
  let r := report_of (k, l) in
  rep_type r = k
  ∧ rep_attempts r = length l
  ∧ rep_successes r = length (List.filter successful l)
  ∧ (rep_successes r <= rep_attempts r)%nat
  ∧ (0 <= rep_success_rate r)%Q ∧ (rep_success_rate r <= 100)%Q
  ∧ (rep_success_rate r * inject_Z (Z.of_nat (rep_attempts r))
     == inject_Z (Z.of_nat (rep_successes r)) * 100)%Q
  ∧ (rep_avg_path_length r * inject_Z (Z.of_nat (rep_attempts r))
     == inject_Z (Z.of_nat (sum_path_length l)))%Q.
Proof.
  intros Hl r. subst r. unfold report_of. cbn [fst snd].
  destruct l as [|s l]; [done|].
  cbn [rep_type rep_attempts rep_successes rep_success_rate
       rep_avg_path_length].
  assert (Hle : (length (List.filter successful (s :: l)) <= length (s :: l))%nat).
  { apply List.filter_length_le. }
  assert (Hpos : (1 <= length (s :: l))%nat) by (cbn; lia).
  destruct (Qdiv_nat_bounds _ _ Hle Hpos) as (H0 & H100 & Heq).
  split_and!; try done.
  field. change 0%Q with (inject_Z 0). rewrite inject_Z_injective. cbn. lia.
Qed.

Lemma stats_of_type_snoc (k : Z) (stats : list variation_info)
    (s : variation_info) :
  stats_of_type k (stats ++ [s])
  = stats_of_type k stats ++ (if bool_decide (variation_type s = k) then [s] else []).
Proof.
  unfold stats_of_type. rewrite filter_app. f_equal.
  case_bool_decide.
  - by rewrite filter_cons_True.
  - by rewrite filter_cons_False.
Qed.

Lemma avg_bounds (avg : Q) (att total bound : Z) :
  0 < att → att <= total → total <= att * bound →
  (avg * inject_Z att == inject_Z total)%Q →
  (1 <= avg)%Q ∧ (avg <= inject_Z bound)%Q.
Proof.
  intros Hatt Hlo Hhi Heq.
  assert (Ha : (0 < inject_Z att)%Q).
  { change 0%Q with (inject_Z 0). by rewrite <- Zlt_Qlt. }
  split.
  - apply (Qmult_le_r _ _ (inject_Z att)); [done|].
    rewrite Heq, Qmult_1_l. by rewrite <- Zle_Qle.
  - apply (Qmult_le_r _ _ (inject_Z att)); [done|].
    rewrite Heq, <- inject_Z_mult, <- Zle_Qle. lia.
Qed.

Section RunAnalysisProofs.
Context {E : Env}.

(** The types met in the first [k] attempts of a run, in the order in
    which they are met. *)
Lemma run_groups_keys (clock : Z → string) (n start_x start_y : Z) (k : nat) :
  (variation_groups (attempt_infos clock n start_x start_y k)).*1
  = Z.of_nat <$> seq 0 (Nat.min 3 k).
Proof.
  induction k as [|k IH]; [done|].
  rewrite attempt_infos_S, variation_groups_snoc, group_append_keys, IH.
  cbn [attempt_info variation_type].
  destruct k as [|[|[|k]]]; [done..|].
  replace (Nat.min 3 (S (S (S k)))) with 3%nat by lia.
  replace (Nat.min 3 (S (S (S (S k))))) with 3%nat by lia.
  rewrite bool_decide_true; [done|].
  assert (Hm : 0 <= Z.of_nat (S (S (S k))) mod 3 < 3) by (apply Z.mod_pos_bound; lia).
  cbn [seq fmap list_fmap].
  assert (Hc : Z.of_nat (S (S (S k))) mod 3 = 0
               ∨ Z.of_nat (S (S (S k))) mod 3 = 1
               ∨ Z.of_nat (S (S (S k))) mod 3 = 2) by lia.
  destruct Hc as [ -> | [ -> | -> ]].
  - left.
  - right. left.
  - right. right. left.
Qed.

Lemma run_group_size (clock : Z → string) (n start_x start_y v : Z) (k : nat) :
  0 <= v < 3 →
  Z.of_nat (length (stats_of_type v (attempt_infos clock n start_x start_y k)))
  = (Z.of_nat k + 2 - v) / 3.
Proof.
  intros Hv. induction k as [|k IH].
  - cbn. symmetry. apply Z.div_small. lia.
  - rewrite attempt_infos_S, stats_of_type_snoc, length_app, Nat2Z.inj_add, IH.
    cbn [attempt_info variation_type].
    case_bool_decide as Hk; cbn [length];
      Z.to_euclidean_division_equations; lia.
Qed.

Lemma run_group_lengths (clock : Z → string) (n start_x start_y v : Z) (k : nat) :
  in_bounds n start_x start_y = true →
  let l := stats_of_type v (attempt_infos clock n start_x start_y k) in
  Z.of_nat (length l) <= Z.of_nat (sum_path_length l)
  ∧ Z.of_nat (sum_path_length l) <= Z.of_nat (length l) * (n * n).
Proof.
  intros Hb l. subst l. induction k as [|k IH]; [done|].
  rewrite attempt_infos_S, stats_of_type_snoc, length_app, sum_path_length_app.
  case_bool_decide as Hk; cbn [length sum_path_length foldr]; [|lia].
  cbn [attempt_info path_length].
  destruct (attempt_alone_record n start_x start_y (Z.of_nat k) Hb)
    as (_ & _ & Hhd & _ & Hle).
  assert (1 <= Z.of_nat (length (attempt_path n start_x start_y (Z.of_nat k)))).
  { destruct (attempt_path n start_x start_y (Z.of_nat k)); [done|].
    cbn [length]. lia. }
  lia.
Qed.

End RunAnalysisProofs.

(** ** The solvers with their prints *)

Lemma prints_spec (out : stream) (l : list Z) :
  prints out l = true ↔ ∀ c, c ∈ l → out c = true.
Proof.
  unfold prints. rewrite forallb_forall. split.
  - intros H c Hc. apply H. by apply list_elem_of_In.
  - intros H c Hc. apply H. by apply list_elem_of_In.
Qed.

Lemma prints_full (l : list Z) : prints full_stream l = true.
Proof. by apply prints_spec. Qed.

Lemma can_write_full (s : pystr) : can_write full_stream s = true.
Proof.
  unfold can_write. apply forallb_forall. intros c _.
  unfold full_stream. by rewrite orb_true_r.
Qed.

Lemma full_stream_letters : encodes_letters full_stream.
Proof. by repeat split. Qed.

Lemma full_stream_errors (files : log_files) : encodes_errors full_stream files.
Proof.
  split; [destruct (stats_file files)|destruct (debug_file files)];
    cbn; auto using prints_full.
Qed.

Lemma message_letters (m : log_msg) (c : Z) :
  c ∈ message_non_ascii m → c ∈ [161; 201; 225; 243].
Proof.
  destruct m; cbn [message_non_ascii]; intros Hc;
    try (by apply elem_of_nil in Hc);
    try (revert Hc; rewrite !elem_of_cons; tauto).
  unfold considered_non_ascii in Hc.
  apply list_elem_of_In, in_flat_map in Hc as (e & _ & Hc).
  apply list_elem_of_In in Hc. revert Hc.
  destruct (estado e); rewrite !elem_of_cons; tauto.
Qed.

Lemma letters_print (out : stream) (m : log_msg) :
  encodes_letters out → prints out (message_non_ascii m) = true.
Proof.
  intros (H1 & H2 & H3 & H4 & H5 & H6). apply prints_spec. intros c Hc.
  apply message_letters in Hc.
  repeat (apply elem_of_cons in Hc as [->|Hc]; [done|]).
  by apply elem_of_nil in Hc.
Qed.

Lemma save_cases (out : stream) (files : log_files) (save_logs : bool) :
  save_logs_files out files save_logs = None
  ∨ (save_logs_files out files save_logs = Some Exn.UnicodeEncodeError
     ∧ ¬ (encodes_letters out ∧ encodes_errors out files)).
Proof.
  unfold save_logs_files. destruct save_logs; [|by left].
  assert (Hstats : _save_variation_stats out (stats_file files) = None
            ∨ (_save_variation_stats out (stats_file files)
               = Some Exn.UnicodeEncodeError
               ∧ ¬ (encodes_letters out ∧ encodes_errors out files))).
  { unfold _save_variation_stats, encodes_errors.
    destruct (stats_file files) as [|message].
    - destruct (prints out [237; 243]); [by left|].
      destruct (prints out [237]) eqn:H; [by left|]. right. split; [done|].
      intros [(_ & _ & _ & _ & H237 & _) _].
      assert (prints out [237] = true); [|congruence].
      apply prints_spec. intros c Hc.
      apply elem_of_cons in Hc as [->|Hc]; [done|by apply elem_of_nil in Hc].
    - destruct (prints out (237 :: message)) eqn:H; [by left|].
      right. split; [done|].
      intros [(_ & _ & _ & _ & H237 & _) [Herr _]]. cbn in Herr.
      assert (prints out (237 :: message) = true); [|congruence].
      apply prints_spec. intros c Hc.
      apply elem_of_cons in Hc as [->|Hc]; [done|].
      by apply (proj1 (prints_spec out message) Herr). }
  destruct Hstats as [->|[-> Hbad]]; [|by right].
  unfold _save_debug_log, encodes_errors.
  destruct (debug_file files) as [|message]; [by left|].
  destruct (prints out message) eqn:H; [by left|]. right. split; [done|].
  intros [_ [_ Herr]]. cbn in Herr. congruence.
Qed.

Section PrintingProofs.
Context {E : Env}.

(** The loop with its prints ends as the loop without them, unless a text
    cannot be written. *)
Lemma warnsdorff_loop_printing_cases (out : stream) (prefs : list nat)
    (scoring : scoring_func) (verbose : bool) (n : nat) :
  ∀ (move_count curr_x curr_y : Z) (s : attempt_state),
    warnsdorff_loop_printing out n move_count curr_x curr_y prefs scoring
      verbose s
    = of_result (warnsdorff_loop n move_count curr_x curr_y prefs scoring
                   verbose s)
    ∨ (warnsdorff_loop_printing out n move_count curr_x curr_y prefs scoring
         verbose s = Raises Exn.UnicodeEncodeError
       ∧ verbose = true ∧ ¬ encodes_letters out).
Proof.
  induction n as [|n IH]; intros move_count curr_x curr_y s.
  - cbn [warnsdorff_loop_printing warnsdorff_loop]. cbv zeta.
    destruct verbose; cbn [andb]; [|by left].
    destruct (prints out _) eqn:Hp; cbn [negb]; [by left|].
    right. split_and!; try done. intros Hl.
    by rewrite letters_print in Hp.
  - cbn [warnsdorff_loop_printing warnsdorff_loop]. cbv zeta.
    destruct verbose; cbn [andb].
    + destruct (prints out _) eqn:Hp; cbn [negb].
      * destruct (warnsdorff_body _ _ _ _ _ _ _); [by left|by left|apply IH].
      * right. split_and!; try done. intros Hl.
        by rewrite letters_print in Hp.
    + destruct (warnsdorff_body _ _ _ _ _ _ _); [by left|by left|apply IH].
Qed.

Lemma solve_variation_printing_cases (out : stream) (s : attempt_state)
    (start_x start_y variation : Z) (prefs : list nat) (verbose : bool) :
  _solve_with_warnsdorff_variation_printing out s start_x start_y variation
    prefs verbose
  = of_result (_solve_with_warnsdorff_variation s start_x start_y variation
                 prefs verbose)
  ∨ (_solve_with_warnsdorff_variation_printing out s start_x start_y
       variation prefs verbose = Raises Exn.UnicodeEncodeError
     ∧ verbose = true ∧ ¬ encodes_letters out).
Proof.
  unfold _solve_with_warnsdorff_variation_printing,
    _solve_with_warnsdorff_variation. cbv zeta.
  destruct (board_set _ _ _ _); [|by left].
  apply warnsdorff_loop_printing_cases.
Qed.

Lemma attempt_body_printing_cases (out : stream) (files : log_files)
    (hash : string → Z) (clock : Z → string) (start_x start_y : Z)
    (verbose save_logs : bool) (attempt : Z) (r : run_state) :
  attempt_body_printing out files hash clock start_x start_y verbose
    save_logs attempt r
  = of_result (attempt_body hash clock start_x start_y verbose attempt r)
  ∨ (attempt_body_printing out files hash clock start_x start_y verbose
       save_logs attempt r = Raises Exn.UnicodeEncodeError
     ∧ ¬ (encodes_letters out ∧ encodes_errors out files)).
Proof.
  unfold attempt_body_printing, attempt_body. cbv zeta.
  destruct (shuffle _ _) as [prefs g1].
  assert (Hbad : ∀ m, prints out (message_non_ascii m) = false →
            ¬ (encodes_letters out ∧ encodes_errors out files)).
  { intros m Hp [Hl _]. by rewrite letters_print in Hp. }
  assert (Hhead :
    (verbose && negb (prints out (message_non_ascii
       (AttemptHeader (attempt + 1) (attempt mod 3)
          (attempt + size (r_tour r) * 1000) prefs (start_x, start_y)))))
    = false
    ∨ ¬ (encodes_letters out ∧ encodes_errors out files)).
  { destruct verbose; [|by left].
    destruct (prints out _) eqn:Hp; [by left|]. right. by eapply Hbad. }
  destruct (verbose && negb _) eqn:Hcheck.
  { right. split; [done|]. by destruct Hhead. }
  clear Hhead Hcheck.
  match goal with
  | |- context [_solve_with_warnsdorff_variation_printing out ?s0 ?x ?y ?v ?p ?vb] =>
      destruct (solve_variation_printing_cases out s0 x y v p vb)
        as [->|(-> & _ & Hno)]
  end.
  2:{ right. split; [done|]. by intros [Hl _]. }
  destruct (_solve_with_warnsdorff_variation _ _ _ _ _ _)
    as [[success s]| |]; cbn [of_result]; [|left; reflexivity..].
  destruct success.
  - destruct (bool_decide _).
    + destruct (prints out (message_non_ascii (DuplicateMsg _))) eqn:Hp2;
        [left; reflexivity|]. right. split; [done|]. by eapply Hbad.
    + destruct (prints out (message_non_ascii (SuccessMsg _ _))) eqn:Hp2.
      * destruct (save_cases out files save_logs) as [->|[-> Hno]];
          [left; reflexivity|by right].
      * right. split; [done|]. by eapply Hbad.
  - destruct (prints out (message_non_ascii (FailedMsg _ _))) eqn:Hp2;
      [left; reflexivity|]. right. split; [done|]. by eapply Hbad.
Qed.

Lemma attempts_loop_printing_cases (out : stream) (files : log_files)
    (hash : string → Z) (clock : Z → string) (start_x start_y : Z)
    (verbose save_logs : bool) (max_attempts : Z) (n : nat) :
  ∀ (attempt : Z) (r : run_state),
    attempts_loop_printing out files hash clock start_x start_y verbose
      save_logs max_attempts n attempt r
    = of_result (attempts_loop hash clock start_x start_y verbose
                   max_attempts n attempt r)
    ∨ (attempts_loop_printing out files hash clock start_x start_y verbose
         save_logs max_attempts n attempt r = Raises Exn.UnicodeEncodeError
       ∧ ¬ (encodes_letters out ∧ encodes_errors out files)).
Proof.
  induction n as [|n IH]; intros attempt r.
  - cbn [attempts_loop_printing attempts_loop].
    destruct (save_cases out files save_logs) as [->|[-> Hbad]];
      [by left|by right].
  - cbn [attempts_loop_printing attempts_loop].
    destruct (attempt_body_printing_cases out files hash clock start_x
                start_y verbose save_logs attempt r) as [->|[-> Hbad]];
      [|by right].
    destruct (attempt_body _ _ _ _ _ _ _) as [[[|] r']| |]; cbn [of_result];
      try (by left). apply IH.
Qed.

(** A run with its prints ends as the run without them, unless a text
    cannot be written: then it raises UnicodeEncodeError. *)
Lemma run_printing_cases (out : stream) (files : log_files)
    (hash : string → Z) (clock : Z → string) (t : tour) (g : rng)
    (start_x start_y max_attempts : Z) (verbose save_logs : bool) :
  solve_with_multiple_warnsdorff_attempts_printing out files hash clock t g
    start_x start_y max_attempts verbose save_logs
  = of_result (solve_with_multiple_warnsdorff_attempts hash clock t g
                 start_x start_y max_attempts verbose)
  ∨ (solve_with_multiple_warnsdorff_attempts_printing out files hash clock
       t g start_x start_y max_attempts verbose save_logs
     = Raises Exn.UnicodeEncodeError
     ∧ ¬ (encodes_letters out ∧ encodes_errors out files)).
Proof. apply attempts_loop_printing_cases. Qed.

End PrintingProofs.

(** ** The program *)

(** A text of the program can be written when the stream has its
    letters. *)
Lemma prints_letters (out : stream) (l : list Z) :
  encodes_letters out →
  forallb (λ c, bool_decide (c ∈ [161; 201; 225; 233; 237; 243])) l = true →
  prints out l = true.
Proof.
  intros (H1 & H2 & H3 & H4 & H5 & H6) Hl. apply prints_spec. intros c Hc.
  rewrite forallb_forall in Hl.
  apply list_elem_of_In, Hl, bool_decide_eq_true in Hc.
  repeat (apply elem_of_cons in Hc as [->|Hc]; [done|]).
  by apply elem_of_nil in Hc.
Qed.

Lemma prints_fails (out : stream) (files : log_files) (n : Z) (l : list Z) :
  forallb (λ c, bool_decide (c ∈ [161; 201; 225; 233; 237; 243])) l = true →
  prints out l = false → ¬ stream_suffices out files n.
Proof.
  intros Hl Hp (Hletters & _). by rewrite prints_letters in Hp.
Qed.

(** The tour of a finished search is shown, unless the stream cannot take
    it. *)
Lemma show_tour (out : stream) (files : log_files) (how : solver) (t : tour)
    (start : cell) :
  size t <= 1114015 → placed t → is_tour (size t) start (path t) →
  ∃ solution,
    print_solution t = Some solution
    ∧ (show out how t = Uncaught Exn.UnicodeEncodeError
       ∧ ¬ stream_suffices out files (size t)
       ∨ show out how t
         = Ended (Visualized how t solution (written (print_path out t)))
         ∧ raised (print_path out t) = None)
    ∧ (out 8594 = false → (2 <= length (path t))%nat →
       show out how t = Uncaught Exn.UnicodeEncodeError).
Proof.
  intros Hsz Hpl Htour. unfold show.
  destruct (print_solution_rows t (placed_wf _ Hpl)) as (rows & -> & _).
  eexists. split; [done|].
  destruct (print_path_inside out t Hsz (tour_inside _ _ _ Htour))
    as (l & Hl & Hyes & Hno & Hpath & Harrow).
  destruct (can_write out (join [32; 8594; 32] l)) eqn:Hw.
  - rewrite (Hyes eq_refl). cbn [raised written]. split.
    + destruct (prints out [243; 225; 243]) eqn:Hp; [by right|].
      left. split; [done|]. by apply (prints_fails out files _ [243; 225; 243]).
    + intros H1 H2. by specialize (Harrow H1 H2).
  - rewrite (Hno eq_refl). cbn [raised written]. split; [|done].
    left. split; [done|]. intros (_ & _ & Henc). by specialize (Hpath Henc).
Qed.

Lemma show_cases (out : stream) (how : solver) (t : tour) (o : main_outcome) :
  show out how t = Ended o →
  ∃ solution,
    o = Visualized how t solution (written (print_path out t))
    ∧ print_solution t = Some solution
    ∧ raised (print_path out t) = None.
Proof.
  unfold show. destruct (print_solution t) as [solution|]; [|done].
  destruct (raised (print_path out t)); [done|].
  destruct (prints out _); [|done].
  intros [= <-]. by exists solution.
Qed.

Section ProgramProofs.
Context {E : Env}.

(** The search of the program on a board on which backtracking may run. *)
Lemma main_small (out : stream) (files : log_files)
    (hash : string → Z) (clock : Z → string) (g : rng)
    (n start_x start_y attempts : Z) (verbose no_logs : bool) :
  n <= 30 → in_bounds n start_x start_y = true →
  ∃ fuel0, ∀ fuel, (fuel0 <= fuel)%nat →
    (main out files hash clock fuel g n start_x start_y attempts verbose
       no_logs = Uncaught Exn.UnicodeEncodeError
     ∧ ¬ stream_suffices out files n)
    ∨ (∃ how t solution,
         main out files hash clock fuel g n start_x start_y attempts verbose
           no_logs
         = Ended (Visualized how t solution (written (print_path out t)))
         ∧ raised (print_path out t) = None
         ∧ size t = n ∧ placed t
         ∧ is_tour n (start_x, start_y) (path t)
         ∧ print_solution t = Some solution)
    ∨ (main out files hash clock fuel g n start_x start_y attempts verbose
         no_logs = Ended No_tour
       ∧ ¬ ∃ q, is_tour n (start_x, start_y) q).
Proof.
  intros Hn Hb.
  destruct (solve_outcome (init n) start_x start_y
              (eq_refl : board (init n) = fresh_board (size (init n))) Hb)
    as (fuel0 & b2 & t2 & Hsolve & Hsz2 & Htrue2 & Hfalse2).
  exists fuel0. intros fuel Hfuel.
  pose proof (solve_mono _ _ _ _ _ _ Hsolve Hfuel) as Hsolve'.
  unfold main.
  destruct (prints out [243; 243]) eqn:H1; cbn [negb];
    [|left; split; [done|by apply (prints_fails out files n [243; 243])]].
  rewrite Hb. cbn [negb].
  destruct (prints out [243; 237]) eqn:H2; cbn [negb];
    [|left; split; [done|by apply (prints_fails out files n [243; 237])]].
  destruct (run_printing_cases out files hash clock (init n) g start_x
              start_y attempts verbose (negb no_logs)) as [->|[-> Hbad]].
  2:{ left. split; [done|]. intros (Hl & He & _). by apply Hbad. }
  destruct (run_outcome hash clock (init n) g start_x start_y attempts verbose
              Hb) as (b & r' & Hret & Hsz & _).
  rewrite Hret. cbn [of_result]. destruct b.
  - destruct (prints out [243; 243; 243]) eqn:H3; cbn [negb];
      [|left; split; [done|by apply (prints_fails out files n [243; 243; 243])]].
    destruct (run_success_state hash clock (init n) g start_x start_y attempts
                verbose r' Hb Hret) as (Hsz' & Hpl & Htour).
    cbn in Hsz'. rewrite <- Hsz' in Htour.
    destruct (show_tour out files Warnsdorff (r_tour r') (start_x, start_y))
      as (solution & Hps & [[-> Hno]|[-> Hnone]] & _); try done; [lia|..].
    + left. split; [done|]. by rewrite <- Hsz'.
    + right. left. exists Warnsdorff, (r_tour r'), solution.
      rewrite Hsz' in Htour. done.
  - destruct (prints out [243; 243; 233]) eqn:H3; cbn [negb];
      [|left; split; [done|by apply (prints_fails out files n [243; 243; 233])]].
    assert (Hle : (n <=? 30) = true) by by apply Z.leb_le.
    rewrite Hle, Hsolve'. destruct b2.
    + destruct (prints out [243; 243]); [|done]. cbn [negb].
      destruct (solve_success_placed fuel (init n) t2 start_x start_y
                  (eq_refl : board (init n) = fresh_board (size (init n)))
                  Hb Hsolve') as (Hsz' & Hpl & Htour).
      cbn in Hsz'. rewrite <- Hsz' in Htour.
      destruct (show_tour out files Backtracking t2 (start_x, start_y))
        as (solution & Hps & [[-> Hno]|[-> Hnone]] & _); try done; [lia|..].
      * left. split; [done|]. by rewrite <- Hsz'.
      * right. left. exists Backtracking, t2, solution.
        rewrite Hsz' in Htour. done.
    + destruct (prints out [243]) eqn:H4; cbn [negb];
        [|left; split; [done|by apply (prints_fails out files n [243])]].
      right. right. split; [done|]. by apply Hfalse2.
Qed.

(** The search of the program on a board too large for backtracking. *)
Lemma main_large (out : stream) (files : log_files)
    (hash : string → Z) (clock : Z → string) (g : rng) (fuel : nat)
    (n start_x start_y attempts : Z) (verbose no_logs : bool) :
  30 < n → n <= 1114015 → in_bounds n start_x start_y = true →
  (main out files hash clock fuel g n start_x start_y attempts verbose
     no_logs = Uncaught Exn.UnicodeEncodeError
   ∧ ¬ stream_suffices out files n)
  ∨ (∃ t solution r',
       main out files hash clock fuel g n start_x start_y attempts verbose
         no_logs
       = Ended (Visualized Warnsdorff t solution
                  (written (print_path out t)))
       ∧ raised (print_path out t) = None
       ∧ solve_with_multiple_warnsdorff_attempts hash clock (init n) g
           start_x start_y attempts verbose = Returned (true, r')
       ∧ t = r_tour r'
       ∧ size t = n ∧ placed t
       ∧ is_tour n (start_x, start_y) (path t)
       ∧ print_solution t = Some solution)
  ∨ (main out files hash clock fuel g n start_x start_y attempts verbose
       no_logs = Ended Board_too_large
     ∧ ∃ r', solve_with_multiple_warnsdorff_attempts hash clock (init n) g
               start_x start_y attempts verbose = Returned (false, r')).
Proof.
  intros Hlo Hhi Hb. unfold main.
  destruct (prints out [243; 243]) eqn:H1; cbn [negb];
    [|left; split; [done|by apply (prints_fails out files n [243; 243])]].
  rewrite Hb. cbn [negb].
  destruct (prints out [243; 237]) eqn:H2; cbn [negb];
    [|left; split; [done|by apply (prints_fails out files n [243; 237])]].
  destruct (run_printing_cases out files hash clock (init n) g start_x
              start_y attempts verbose (negb no_logs)) as [->|[-> Hbad]].
  2:{ left. split; [done|]. intros (Hl & He & _). by apply Hbad. }
  destruct (run_outcome hash clock (init n) g start_x start_y attempts verbose
              Hb) as (b & r' & Hret & Hsz & _).
  rewrite Hret. cbn [of_result]. destruct b.
  - destruct (prints out [243; 243; 243]) eqn:H3; cbn [negb];
      [|left; split; [done|by apply (prints_fails out files n [243; 243; 243])]].
    destruct (run_success_state hash clock (init n) g start_x start_y attempts
                verbose r' Hb Hret) as (Hsz' & Hpl & Htour).
    cbn in Hsz'. rewrite <- Hsz' in Htour.
    destruct (show_tour out files Warnsdorff (r_tour r') (start_x, start_y))
      as (solution & Hps & [[-> Hno]|[-> Hnone]] & _); try done; [lia|..].
    + left. split; [done|]. by rewrite <- Hsz'.
    + right. left. exists (r_tour r'), solution, r'.
      rewrite Hsz' in Htour. done.
  - destruct (prints out [243; 243; 233]) eqn:H3; cbn [negb];
      [|left; split; [done|by apply (prints_fails out files n [243; 243; 233])]].
    assert (Hgt : (n <=? 30) = false) by (apply Z.leb_gt; lia).
    rewrite Hgt. right. right. split; [done|]. by exists r'.
Qed.

(** Outside the board the program exits, when it can say so. *)
Lemma main_outside (out : stream) (files : log_files)
    (hash : string → Z) (clock : Z → string) (g : rng) (fuel : nat)
    (n start_x start_y attempts : Z) (verbose no_logs : bool) :
  in_bounds n start_x start_y = false →
  (main out files hash clock fuel g n start_x start_y attempts verbose
     no_logs = Uncaught Exn.UnicodeEncodeError
   ∧ ¬ stream_suffices out files n)
  ∨ main out files hash clock fuel g n start_x start_y attempts verbose
      no_logs = Ended (Exit_status 1).
Proof.
  intros Hb. unfold main.
  destruct (prints out [243; 243]) eqn:H1; cbn [negb];
    [|left; split; [done|by apply (prints_fails out files n [243; 243])]].
  rewrite Hb. cbn [negb].
  destruct (prints out [243]) eqn:H2; cbn [negb]; [by right|].
  left. split; [done|]. by apply (prints_fails out files n [243]).
Qed.

End ProgramProofs.

(** ** The view of the visualizer *)

Lemma update_knight_image_view (v : visualizer) :
  vis_tour (update_knight_image v) = vis_tour v
  ∧ base_cell_size (update_knight_image v) = base_cell_size v
  ∧ cell_size (update_knight_image v) = cell_size v
  ∧ offset_x (update_knight_image v) = offset_x v
  ∧ offset_y (update_knight_image v) = offset_y v
  ∧ zoom_level (update_knight_image v) = zoom_level v
  ∧ dragging (update_knight_image v) = dragging v
  ∧ drag_start (update_knight_image v) = drag_start v
  ∧ knight_img (update_knight_image v) = knight_img v.
Proof.
  unfold update_knight_image. destruct (knight_img v) eqn:Hk; [|done].
  cbn. done.
Qed.

Lemma base_cell_size_value (n : Z) :
  Qfloor (Qmin (inject_Z window_width * (6 # 10)) (inject_Z window_height)
          / inject_Z (Z.max n 8))
  = 540 / Z.max n 8.
Proof.
  rewrite Zdiv_Qdiv. apply Qfloor_comp. apply Qdiv_comp; [|reflexivity].
  by compute.
Qed.

Lemma new_visualizer_view (t : tour) (image_loads : bool) :
  let v := new_visualizer t image_loads in
  vis_tour v = t
  ∧ cell_size v = inject_Z (540 / Z.max (size t) 8)
  ∧ base_cell_size v = cell_size v
  ∧ zoom_level v = 1%Q
  ∧ offset_x v
    = (inject_Z window_width * (65 # 100)
       - inject_Z (size t) * cell_size v * 1 / 2)%Q
  ∧ offset_y v
    = ((inject_Z window_height - inject_Z (size t) * cell_size v * 1) / 2)%Q
  ∧ dragging v = false
  ∧ knight_img v = image_loads.
Proof.
  cbv zeta. unfold new_visualizer. cbv zeta.
  rewrite base_cell_size_value. destruct image_loads.
  - match goal with
    | |- context [update_knight_image ?w] =>
        destruct (update_knight_image_view w)
          as (-> & -> & -> & -> & -> & -> & -> & _ & ->)
    end. done.
  - done.
Qed.

Lemma board_fits (n : Z) : n * (540 / Z.max n 8) <= 540.
Proof.
  destruct (Z_le_gt_dec 8 n) as [Hn|Hn].
  - rewrite Z.max_l by lia. apply Z.mul_div_le. lia.
  - rewrite Z.max_r by lia. change (540 / 8) with 67. lia.
Qed.

Lemma zoom_in_range_nonzero (v : visualizer) :
  zoom_in_range v → Qeq_bool (zoom_level v) 0 = false.
Proof.
  intros [Hlo _]. destruct (Qeq_bool (zoom_level v) 0) eqn:Hz; [|done].
  apply Qeq_bool_eq in Hz. rewrite Hz in Hlo. by compute in Hlo.
Qed.

Lemma zoom_in_bounds (z : Q) :
  ((1 # 10) <= z)%Q → (z <= 5)%Q →
  ((1 # 10) <= Qmin 5 (z * (11 # 10)))%Q ∧ (Qmin 5 (z * (11 # 10)) <= 5)%Q.
Proof.
  intros Hlo Hhi. split; [|apply Q.le_min_l].
  apply Q.min_glb; [by compute|lra].
Qed.

Lemma zoom_out_bounds (z : Q) :
  ((1 # 10) <= z)%Q → (z <= 5)%Q →
  ((1 # 10) <= Qmax (1 # 10) (z / (11 # 10)))%Q
  ∧ (Qmax (1 # 10) (z / (11 # 10)) <= 5)%Q.
Proof.
  intros Hlo Hhi. split; [apply Q.le_max_l|].
  apply Q.max_lub; [by compute|].
  apply Qle_shift_div_r; [by compute|]. lra.
Qed.

(** What an event can change. *)
Lemma handle_event_view (v : visualizer) (e : event) (mouse : Z * Z) :
  zoom_in_range v →
  match handle_event v e mouse with
  | Stop => quits e = true
  | Go_on v' =>
      quits e = false ∧ zoom_in_range v'
      ∧ vis_tour v' = vis_tour v ∧ cell_size v' = cell_size v
      ∧ base_cell_size v' = base_cell_size v
      ∧ knight_img v' = knight_img v
  | ZeroDivisionError => False
  end.
Proof.
  intros Hz. pose proof Hz as [Hlo Hhi].
  destruct e as [|[| |]|button|button| |]; cbn [handle_event quits]; try done.
  - match goal with
    | |- context [update_knight_image ?w] =>
        destruct (update_knight_image_view w)
          as (Ht & Hb & Hc & _ & _ & Hzoom & _ & _ & Hk)
    end.
    unfold zoom_in_range. rewrite Ht, Hb, Hc, Hzoom, Hk. cbn.
    split_and!; try done.
  - destruct (button =? 4).
    { unfold zoom_about. rewrite zoom_in_range_nonzero by done.
      match goal with
      | |- context [update_knight_image ?w] =>
          destruct (update_knight_image_view w)
            as (Ht & Hb & Hc & _ & _ & Hzoom & _ & _ & Hk)
      end.
      unfold zoom_in_range. rewrite Ht, Hb, Hc, Hzoom, Hk. cbn.
      split_and!; try done; by apply zoom_in_bounds. }
    destruct (button =? 5).
    { unfold zoom_about. rewrite zoom_in_range_nonzero by done.
      match goal with
      | |- context [update_knight_image ?w] =>
          destruct (update_knight_image_view w)
            as (Ht & Hb & Hc & _ & _ & Hzoom & _ & _ & Hk)
      end.
      unfold zoom_in_range. rewrite Ht, Hb, Hc, Hzoom, Hk. cbn.
      split_and!; try done; by apply zoom_out_bounds. }
    destruct (button =? 1); [|done].
    by destruct (sidebar_width <? mouse.1).
  - by destruct (button =? 1).
  - by destruct (dragging v).
Qed.

Lemma handle_events_view (events : list (event * (Z * Z))) :
  ∀ v, zoom_in_range v →
    ∃ running v',
      handle_events v events = Some (running, v')
      ∧ zoom_in_range v'
      ∧ vis_tour v' = vis_tour v ∧ cell_size v' = cell_size v
      ∧ base_cell_size v' = base_cell_size v
      ∧ knight_img v' = knight_img v
      ∧ (running = false ↔ ∃ e, e ∈ events.*1 ∧ quits e = true).
Proof.
  induction events as [|[e mouse] events IH]; intros v Hz.
  - exists true, v. split_and!; try done. split; [done|].
    intros (e & He & _). by apply not_elem_of_nil in He.
  - cbn [handle_events]. pose proof (handle_event_view v e mouse Hz) as He.
    destruct (handle_event v e mouse) as [|v1|]; [| |done].
    + exists false, v. split_and!; try done. split; [|done].
      intros _. exists e. split; [left|done].
    + destruct He as (Hq & Hz1 & Ht & Hc & Hb & Hk).
      destruct (IH v1 Hz1) as (running & v' & -> & Hz' & Ht' & Hc' & Hb' & Hk' & Hrun).
      exists running, v'. split_and!; try congruence; try done.
      rewrite Hrun. split.
      * intros (e' & He' & Hq'). exists e'. split; [by right|done].
      * intros (e' & He' & Hq'). cbn in He'.
        apply elem_of_cons in He' as [->|He']; [congruence|]. by exists e'.
Qed.

(** ** The scaled image, dragging and the animation *)

Lemma update_knight_image_fits (v : visualizer) :
  (knight_img v = false → knight_img_scaled v = None) →
  image_fits_zoom (update_knight_image v).
Proof.
  intros Hnone. unfold image_fits_zoom, update_knight_image.
  case_eq (knight_img v); intros Hk; [done|rewrite Hk; by apply Hnone].
Qed.

Lemma image_fits_none (v : visualizer) :
  image_fits_zoom v → knight_img v = false → knight_img_scaled v = None.
Proof. unfold image_fits_zoom. by intros -> ->. Qed.

Lemma new_visualizer_fits (t : tour) (image_loads : bool) :
  image_fits_zoom (new_visualizer t image_loads).
Proof.
  unfold new_visualizer. cbv zeta. destruct image_loads.
  - by apply update_knight_image_fits.
  - done.
Qed.

Lemma handle_event_fits (v : visualizer) (e : event) (mouse : Z * Z) :
  image_fits_zoom v →
  match handle_event v e mouse with
  | Go_on v' => image_fits_zoom v'
  | _ => True
  end.
Proof.
  intros Hfit. pose proof (image_fits_none v Hfit) as Hnone.
  destruct e as [|[| |]|button|button| |]; cbn [handle_event]; try done.
  - by apply update_knight_image_fits.
  - destruct (button =? 4).
    { unfold zoom_about. destruct (Qeq_bool (zoom_level v) 0); [done|].
      by apply update_knight_image_fits. }
    destruct (button =? 5).
    { unfold zoom_about. destruct (Qeq_bool (zoom_level v) 0); [done|].
      by apply update_knight_image_fits. }
    destruct (button =? 1); [|done].
    by destruct (sidebar_width <? mouse.1).
  - by destruct (button =? 1).
  - by destruct (dragging v).
Qed.

Lemma handle_events_fits (events : list (event * (Z * Z))) :
  ∀ v running v', image_fits_zoom v →
    handle_events v events = Some (running, v') → image_fits_zoom v'.
Proof.
  induction events as [|[e mouse] events IH]; intros v running v' Hfit.
  - by intros [= _ <-].
  - cbn [handle_events]. pose proof (handle_event_fits v e mouse Hfit) as He.
    destruct (handle_event v e mouse) as [|v1|]; [| |done].
    + by intros [= _ <-].
    + by apply IH.
Qed.

(** Mouse motions while the button is held. *)
Lemma handle_motions (ms : list (Z * Z)) :
  ∀ v, dragging v = true →
    ∃ v', handle_events v (motions ms) = Some (true, v')
          ∧ dragging v' = true
          ∧ drag_start v' = default (drag_start v) (last ms)
          ∧ (offset_x v'
             == offset_x v + inject_Z ((drag_start v').1 - (drag_start v).1))%Q
          ∧ (offset_y v'
             == offset_y v + inject_Z ((drag_start v').2 - (drag_start v).2))%Q
          ∧ zoom_level v' = zoom_level v
          ∧ knight_img_scaled v' = knight_img_scaled v.
Proof.
  induction ms as [|m ms IH]; intros v Hd.
  - exists v. cbn. rewrite !Z.sub_diag. split_and!; try done;
      by rewrite Qplus_0_r.
  - cbn [motions fmap list_fmap handle_events handle_event]. rewrite Hd.
    match goal with
    | |- context [handle_events ?w _] => destruct (IH w eq_refl)
        as (v' & Hrun & Hd' & Hs' & Hx & Hy & Hz & Hk)
    end.
    fold (motions ms). rewrite Hrun. exists v'. cbn in Hs', Hx, Hy, Hz, Hk.
    split_and!; try done.
    + rewrite Hs', last_cons. by destruct (last ms).
    + rewrite Hx. unfold Z.sub. rewrite !inject_Z_plus, !inject_Z_opp. ring.
    + rewrite Hy. unfold Z.sub. rewrite !inject_Z_plus, !inject_Z_opp. ring.
Qed.

(** The loop of [run], pass by pass. *)
Lemma run_loop_screens (animate : bool) (total : nat)
    (batches : list (list (event * (Z * Z)))) :
  ∀ (v : visualizer) (done_ : bool) (step i : nat),
    zoom_in_range v →
    (if animate then
       done_ = bool_decide (total < i)%nat ∧ step = Nat.min i total
     else True) →
    ∃ screens ended,
      run_loop animate total batches v done_ step = Some (screens, ended)
      ∧ (∀ j s, screens !! j = Some s →
           scr_steps s = animation_steps animate total (i + j))
      ∧ (ended = true ↔
         ∃ events e, events ∈ batches ∧ e ∈ events.*1 ∧ quits e = true)
      ∧ (ended = false → length screens = length batches)
      ∧ (length screens <= length batches)%nat.
Proof.
  induction batches as [|events batches IH]; intros v done_ step i Hz Hst.
  - exists [], false. split_and!; try done.
    split; [done|]. intros (ev & e & Hev & _). by apply not_elem_of_nil in Hev.
  - cbn [run_loop].
    destruct (handle_events_view events v Hz)
      as (running & v' & -> & Hz' & _ & _ & _ & _ & Hquit).
    assert (Hdraw : (run_draw animate total done_ step).1.1
                    = animation_steps animate total i
                    ∧ if animate then
                        (run_draw animate total done_ step).1.2
                        = bool_decide (total < S i)%nat
                        ∧ (run_draw animate total done_ step).2
                          = Nat.min (S i) total
                      else True).
    { unfold run_draw, animation_steps. destruct animate; [|done].
      destruct Hst as [-> ->]. case_bool_decide as Hlt; cbn [andb negb].
      - cbn [fst snd]. split.
        + destruct (Nat.ltb_spec i total); [lia|].
          destruct (Nat.eqb_spec i total); [lia|done].
        + split; [symmetry; apply bool_decide_eq_true; lia|lia].
      - destruct (Nat.ltb_spec (Nat.min i total) total) as [Hm|Hm];
          cbn [fst snd].
        + split.
          * destruct (Nat.ltb_spec i total); [f_equal; lia|lia].
          * split; [symmetry; apply bool_decide_eq_false; lia|lia].
        + split.
          * destruct (Nat.ltb_spec i total); [lia|].
            destruct (Nat.eqb_spec i total); [done|lia].
          * split; [symmetry; apply bool_decide_eq_true; lia|lia]. }
    destruct Hdraw as [Hsteps Hnext].
    destruct running.
    + destruct (IH v' (run_draw animate total done_ step).1.2
                  (run_draw animate total done_ step).2 (S i) Hz' Hnext)
        as (screens & ended & -> & Hscr & Hend & Hlen & Hle).
      eexists _, ended. split; [reflexivity|]. split_and!.
      * intros [|j] s Hs.
        -- injection Hs as <-. cbn. by rewrite Nat.add_0_r.
        -- cbn in Hs. rewrite (Hscr j s Hs). f_equal. lia.
      * rewrite Hend. split.
        -- intros (ev & e & Hev & He). exists ev, e. split; [by right|done].
        -- intros (ev & e & Hev & He & Hq).
           apply elem_of_cons in Hev as [->|Hev].
           ++ assert (true = false) as Habs; [|done].
              apply Hquit. by exists e.
           ++ by exists ev, e.
      * intros He. cbn. by rewrite Hlen.
      * cbn. lia.
    + eexists _, true. split; [reflexivity|]. split_and!.
      * intros [|j] s Hs; [|done]. injection Hs as <-. cbn.
        by rewrite Nat.add_0_r.
      * split; [|done]. intros _.
        destruct (proj1 Hquit eq_refl) as (e & He & Hq).
        exists events, e. split; [left|done].
      * done.
      * cbn. lia.
Qed.

(** ** The tour found by [solve] is the first one *)

(** A move to a cell that is not free cannot be continued to a tour. *)
Lemma refuted_invalid (t : tour) (start : cell) (x y : Z) :
  placed t → is_valid_move t x y = false →
  refuted (size t) start (path t) (x, y).
Proof.
  intros Hpl Hv (q & Htour & k & ->).
  assert (Hin : cell_in_bounds (size t) (x, y)).
  { apply (tour_inside _ _ _ Htour). rewrite !elem_of_app.
    left. right. left. }
  pose proof (placed_visited t x y Hpl Hin Hv) as Hmem.
  pose proof (tour_nodup _ _ _ Htour) as Hnd.
  rewrite <- !app_assoc in Hnd. apply NoDup_app in Hnd as (_ & Hdis & _).
  apply (Hdis (x, y) Hmem). left.
Qed.

(** A path all of whose next moves are refuted is itself refuted. *)
Lemma refuted_dead (t : tour) (start : cell) (p0 : list cell) (x y : Z) :
  placed t → path t = p0 ++ [(x, y)] →
  (length (path t) < Z.to_nat (size t) * Z.to_nat (size t))%nat →
  (∀ j, (j < 8)%nat →
        refuted (size t) start (path t) (x + move_dx j, y + move_dy j)) →
  refuted (size t) start p0 (x, y).
Proof.
  intros Hpl Hp Hlen Hall (q & Hq). rewrite <- Hp in Hq.
  destruct (completion_next t start p0 x y q Hpl Hp Hq Hlen)
    as (j & Hj & Hnext & _).
  apply (Hall j Hj). exists q. destruct Hq as [Htour [k Hk]].
  split; [done|].
  assert (Hk' : ∃ k', k = (x + move_dx j, y + move_dy j) :: k').
  { rewrite Hk in Hnext. rewrite lookup_app_r in Hnext by lia.
    rewrite Nat.sub_diag in Hnext. destruct k as [|c k']; [done|].
    injection Hnext as ->. by exists k'. }
  destruct Hk' as [k' ->]. exists k'. by rewrite <- app_assoc.
Qed.

Lemma below_first_choices (n : Z) (start : cell) (rest : list frame)
    (p : list cell) (c : cell) :
  below n start rest p c → first_choices n start (p ++ [c]).
Proof.
  induction 1 as [c|g rest p c j Hbelow IH Hi Hj Hc Hre].
  - intros d x y c' Hd HSd. destruct d; done.
  - intros d x y c' Hd HSd.
    destruct (decide (S d < length (p ++ [(f_x g, f_y g)]))%nat) as [Hlt|Hge].
    + rewrite lookup_app_l in Hd by lia. rewrite lookup_app_l in HSd by done.
      destruct (IH d x y c' Hd HSd) as (j0 & Hj0 & Hc0 & Hre0).
      exists j0. split_and!; try done.
      intros j' Hj'. rewrite take_app_le by lia. by apply Hre0.
    + assert (Hlen : length (p ++ [(f_x g, f_y g)]) = S (length p)).
      { rewrite length_app. cbn. lia. }
      assert (Hd' : d = length p).
      { apply lookup_lt_Some in HSd. rewrite length_app in HSd. cbn in HSd.
        lia. }
      subst d. rewrite lookup_app_l in Hd by lia.
      rewrite lookup_app_r in Hd by lia. rewrite Nat.sub_diag in Hd.
      injection Hd as <- <-.
      rewrite lookup_app_r in HSd by lia.
      replace (S (length p) - length (p ++ [(f_x g, f_y g)]))%nat with O in HSd
        by lia.
      injection HSd as <-.
      exists j. split_and!; try done.
      intros j' Hj'. rewrite take_app_length'; [by apply Hre|done].
Qed.

Lemma solve_inv_size (start : cell) (t : tour) (stack : list frame) :
  solve_inv start t stack → 0 <= size t.
Proof.
  intros Hinv. pose proof (inv_head _ _ _ Hinv) as Hhd.
  destruct (path t) as [|c p] eqn:Hp; [done|].
  assert (Hc : cell_in_bounds (size t) c).
  { apply (visited_inside t); [apply Hinv|]. rewrite Hp. left. }
  apply in_bounds_spec in Hc. lia.
Qed.

Lemma solve_inv_room (start : cell) (t : tour) (top : frame)
    (rest : list frame) :
  solve_inv start t (top :: rest) → f_count top ≠ size t * size t →
  (length (path t) < Z.to_nat (size t) * Z.to_nat (size t))%nat.
Proof.
  intros Hinv Hne. pose proof (solve_inv_size _ _ _ Hinv) as Hsz.
  destruct (inv_stack _ _ _ Hinv) as [|Hst]; [done|].
  apply stack_inv_nonempty in Hst as (p0 & Hp0 & _ & Hcount).
  pose proof (inv_visited _ _ _ Hinv) as Hvis.
  assert (Hle : (length (path t) <= Z.to_nat (size t) * Z.to_nat (size t))%nat).
  { apply path_length_bound; [apply Hvis|]. intros c. by apply visited_inside. }
  assert (Hz : Z.of_nat (length (path t)) ≠ size t * size t) by congruence.
  nia.
Qed.

(** Every pass of the loop keeps the refutations. *)
Lemma solve_body_first (start : cell) (t : tour) (stack : list frame) :
  solve_inv start t stack → placed t →
  first_inv (size t) start t stack →
  match solve_body t stack with
  | Continue_ t' stack' => first_inv (size t) start t' stack'
  | _ => True
  end.
Proof.
  intros Hinv Hpl Hfirst. destruct stack as [|top rest]; [done|].
  destruct Hfirst as (p & Hp & Hbelow & Hcursor).
  destruct (Z.eq_dec (f_count top) (size t * size t)) as [Hdone|Hne].
  { by rewrite solve_body_done. }
  pose proof (solve_inv_room _ _ _ _ Hinv Hne) as Hroom.
  destruct (scan_moves t (f_x top) (f_y top) (8 - f_i top) (f_i top))
    as [i|] eqn:Hscan.
  - destruct (solve_body_push start t top rest i Hinv Hne Hscan) as [b ->].
    destruct (scan_moves_some _ _ _ _ _ _ Hscan) as (Hi & Hvalid & Hbefore).
    cbn [first_inv f_x f_y f_i path with_path].
    exists (path t). split; [done|]. split; [|intros j' Hj'; lia].
    rewrite Hp.
    apply (below_cons (size t) start
             {| f_count := f_count top; f_x := f_x top; f_y := f_y top;
                f_i := S i |} rest p _ i); try done; [lia|].
    intros j' Hj'. cbn [f_x f_y]. rewrite <- Hp.
    destruct (decide (j' < f_i top)%nat) as [Hlt|Hge].
    + by apply Hcursor.
    + apply refuted_invalid; [done|]. apply Hbefore. lia.
  - destruct (solve_body_pop start t top rest Hinv Hne Hscan)
      as (t' & -> & Hpath).
    destruct rest as [|g rest']; [done|].
    specialize (Hpath ltac:(done)).
    inversion Hbelow as [|g0 rest0 p' c0 j Hbelow' Hgi Hj Hc Hre Hg Hpp Hcc].
    subst g0 rest0 c0.
    assert (Hp' : path t' = p' ++ [(f_x g, f_y g)]).
    { rewrite Hp, <- Hpp in Hpath. by apply app_inj_tail in Hpath as [-> _]. }
    cbn [first_inv]. exists p'. split; [done|]. split; [done|].
    intros j' Hj'. rewrite Hp'.
    destruct (decide (j' < j)%nat) as [Hlt|Hge]; [by apply Hre|].
    assert (j' = j) as -> by lia. rewrite <- Hc, <- Hp'.
    apply (refuted_dead t start (path t') (f_x top) (f_y top)); try done.
    intros j0 Hj0. destruct (decide (j0 < f_i top)%nat) as [Hlt0|Hge0].
    + by apply Hcursor.
    + apply refuted_invalid; [done|].
      apply (scan_moves_none _ _ _ _ _ Hscan). lia.
Qed.

Lemma solve_iter_first (start : cell) (n : nat) :
  ∀ (t : tour) (stack : list frame),
    solve_inv start t stack → placed t →
    first_inv (size t) start t stack →
    match solve_iter n t stack with
    | Return_ true t' => first_choices (size t) start (path t')
    | _ => True
    end.
Proof.
  induction n as [|n IH]; intros t stack Hinv Hpl Hfirst; [done|].
  cbn [solve_iter].
  pose proof (solve_body_inv start t stack Hinv) as Hbody.
  pose proof (solve_body_first start t stack Hinv Hpl Hfirst) as Hnext.
  destruct (solve_body t stack) as [[|] t1| |t1 stack1] eqn:Hb; try done.
  - destruct Hbody as [-> _]. destruct stack as [|top rest]; [done|].
    destruct Hfirst as (p & -> & Hbelow & _).
    by apply (below_first_choices _ _ rest).
  - destruct Hbody as [Hinv1 Hsz1]. rewrite <- Hsz1.
    apply IH; [done| |by rewrite Hsz1].
    by apply (solve_body_placed start t t1 stack stack1).
Qed.

(** Two different lists of one length agree up to the first index at
    which they differ. *)
Lemma first_difference {A : Type} `{EqDecision A} (l1 l2 : list A) :
  length l1 = length l2 → l1 ≠ l2 →
  ∃ d a b, take d l1 = take d l2 ∧ l1 !! d = Some a ∧ l2 !! d = Some b
           ∧ a ≠ b.
Proof.
  revert l2. induction l1 as [|a l1 IH]; intros [|b l2] Hlen Hne; try done.
  destruct (decide (a = b)) as [->|Hab].
  - destruct (IH l2) as (d & a' & b' & Htake & Ha & Hb & Hab').
    { cbn in Hlen. lia. }
    { intros ->. done. }
    exists (S d), a', b'. cbn. by rewrite Htake.
  - exists O, a, b. done.
Qed.

(** The tour [solve] finds on a new board is the first one. *)
Lemma solve_first (fuel : nat) (t t' : tour) (start_x start_y : Z) :
  board t = fresh_board (size t) →
  in_bounds (size t) start_x start_y = true →
  solve fuel t start_x start_y = Returned (true, t') →
  first_choices (size t) (start_x, start_y) (path t').
Proof.
  intros Hfresh Hb Hret.
  assert (Hwf : wf_board (size t) (board t)).
  { rewrite Hfresh. apply fresh_board_wf. }
  destruct (solve_entry t start_x start_y Hwf Hb) as (b0 & Hset & Hinv).
  pose proof (solve_entry_placed t start_x start_y b0 Hfresh Hb Hset) as Hpl.
  unfold solve in Hret. rewrite Hset, solve_loop_iter in Hret.
  match type of Hinv with
  | solve_inv _ ?t0 ?s0 =>
      pose proof (solve_iter_first (start_x, start_y) fuel t0 s0 Hinv Hpl)
        as Hfirst
  end.
  destruct (solve_iter fuel _ _) as [[|] t1| |]; try done.
  injection Hret as <-. apply Hfirst.
  exists []. split; [done|]. split; [constructor|]. intros j' Hj'.
  cbn in Hj'. lia.
Qed.

(** * Further properties of the code *)

Section StepProperties.
Context {E : Env}.

(** X1.  With [random.random()] in [0, 1), the move of a step goes, under
    each of the three scorings, to a legal cell of least degree: no legal
    move of the preference order leads to a cell with fewer onward
    moves. *)
Theorem step_takes_least_degree (t : tour) (g : rng) (x y : Z)
    (prefs : list nat) (variation next_x next_y : Z) (info : best_details) :
  (∀ g0 : rng, (0 <= (random g0).1)%Q ∧ ((random g0).1 < 1)%Q) →
  (_get_next_move_warnsdorff_generic_detailed
     t g x y prefs (select_scoring variation)).1
  = Some (next_x, next_y, info) →
  is_valid_move t next_x next_y = true
  ∧ (∃ p, p ∈ prefs ∧ next_x = x + move_dx p ∧ next_y = y + move_dy p)
  ∧ grado (chosen info) = _count_valid_moves t next_x next_y
  ∧ ∀ p, p ∈ prefs →
         is_valid_move t (x + move_dx p) (y + move_dy p) = true →
         _count_valid_moves t next_x next_y
         <= _count_valid_moves t (x + move_dx p) (y + move_dy p).
Proof.
  intros Hrange Hnext.
  destruct (get_next_best _ _ _ _ _ _ _ _ _ Hnext)
    as (pb & rb & Hpb & Hrb & -> & -> & Hinfo & Hmin).
  apply legal_prefs_elem in Hpb as [Hpb Hvalid].
  split_and!; try done.
  - by exists pb.
  - by rewrite Hinfo.
  - intros p Hp Hv.
    destruct (Hmin p) as (r & Hr & Hle); [by apply legal_prefs_elem|].
    destruct (tie_range g _ rb Hrange Hrb), (tie_range g _ r Hrange Hr).
    cbn [candidate_of c_score] in Hle.
    by apply (score_degree _ _ _ _ _ _ _ _ _ _ _ _) in Hle.
Qed.

(** X2.  With [random.random()] in [0, 1), among the legal moves to cells of
    that least degree the centre scoring takes one nearest (in Manhattan
    distance) to the cell [(size / 2, size / 2)], and the corner scoring
    takes one whose nearest corner, of the four corners of the board, is
    farthest away. *)
Theorem step_secondary_choice (t : tour) (g : rng) (x y : Z)
    (prefs : list nat) (variation next_x next_y : Z) (info : best_details)
    (p : nat) :
  (∀ g0 : rng, (0 <= (random g0).1)%Q ∧ ((random g0).1 < 1)%Q) →
  (_get_next_move_warnsdorff_generic_detailed
     t g x y prefs (select_scoring variation)).1
  = Some (next_x, next_y, info) →
  p ∈ prefs →
  is_valid_move t (x + move_dx p) (y + move_dy p) = true →
  _count_valid_moves t (x + move_dx p) (y + move_dy p)
  = _count_valid_moves t next_x next_y →
  (variation = 1 →
   manhattan (next_x, next_y) (size t / 2, size t / 2)
   <= manhattan (x + move_dx p, y + move_dy p) (size t / 2, size t / 2))
  ∧ (variation = 2 →
     corner_distance (size t) (x + move_dx p, y + move_dy p)
     <= corner_distance (size t) (next_x, next_y)).
Proof.
  intros Hrange Hnext Hp Hv Hdeg.
  destruct (get_next_best _ _ _ _ _ _ _ _ _ Hnext)
    as (pb & rb & Hpb & Hrb & -> & -> & Hinfo & Hmin).
  destruct (Hmin p) as (r & Hr & Hle); [by apply legal_prefs_elem|].
  destruct (tie_range g _ rb Hrange Hrb) as [Hb0 Hb1].
  destruct (tie_range g _ r Hrange Hr) as [Hr0 Hr1].
  cbn [candidate_of c_score] in Hle. rewrite Hdeg in Hle.
  split; intros ->.
  - change (select_scoring 1) with _score_center in Hle.
    apply tuple_le_second in Hle; [|reflexivity].
    by apply inject_Z_le_tie in Hle.
  - change (select_scoring 2) with _score_corners in Hle.
    rewrite !score_corners_spec in Hle.
    apply tuple_le_second in Hle; [|reflexivity].
    apply inject_Z_le_tie in Hle; [|done..]. lia.
Qed.

(** X3.  The move of a step is the first, in the preference order, of the
    candidates of least score: every candidate before it has a score
    that is strictly greater. *)
Theorem step_takes_first_of_least (t : tour) (g : rng) (x y : Z)
    (prefs : list nat) (scoring : scoring_func) (next_x next_y : Z)
    (info : best_details) :
  (_get_next_move_warnsdorff_generic_detailed t g x y prefs scoring).1
  = Some (next_x, next_y, info) →
  ∃ k best,
    candidates t g x y prefs scoring !! k = Some best
    ∧ legal_prefs t x y prefs !! k = Some (preferencia (chosen info))
    ∧ next_x = c_x best ∧ next_y = c_y best ∧ chosen info = c_details best
    ∧ (∀ c, c ∈ candidates t g x y prefs scoring →
            tuple_le (c_score best) (c_score c) = true)
    ∧ ∀ j c, (j < k)%nat →
             candidates t g x y prefs scoring !! j = Some c →
             tuple_lt (c_score best) (c_score c) = true.
Proof.
  rewrite get_next_spec. cbn [fst].
  destruct (sort_moves (candidates t g x y prefs scoring))
    as [|best rest] eqn:Hsort; [done|].
  intros [= <- <- <-].
  destruct (sort_moves_first _ _ _ Hsort) as (k & Hk & Hbefore).
  destruct (sort_moves_head _ _ _ Hsort) as [_ Hmin].
  exists k, best. split_and!; try done.
  rewrite <- (candidates_prefs t g x y prefs scoring).
  rewrite list_lookup_fmap, Hk. done.
Qed.

End StepProperties.

Lemma step_takes_least_degree_witness :
  ∃ next_x next_y info,
    (@_get_next_move_warnsdorff_generic_detailed still_env
       (init 5) tt 0 0 (seq 0 8) (select_scoring 0)).1
    = Some (next_x, next_y, info)
    ∧ is_valid_move (init 5) next_x next_y = true
    ∧ grado (chosen info) = 6.
Proof.
  exists 2, 1.
  destruct ((@_get_next_move_warnsdorff_generic_detailed still_env
       (init 5) tt 0 0 (seq 0 8) (select_scoring 0)).1)
    as [[[nx ny] info]|] eqn:Hnext; [|vm_compute in Hnext; discriminate Hnext].
  assert (Hnx : nx = 2 ∧ ny = 1).
  { vm_compute in Hnext. injection Hnext as <- <- _. done. }
  destruct Hnx as [-> ->]. exists info. split; [reflexivity|].
  destruct (@step_takes_least_degree still_env (init 5) tt 0 0 (seq 0 8) 0
              2 1 info still_env_range Hnext) as (Hv & _ & Hg & _).
  split; [exact Hv|]. rewrite Hg. vm_compute. reflexivity.
Defined.

Lemma step_secondary_choice_witness :
  (∃ info, (@_get_next_move_warnsdorff_generic_detailed still_env
              (started 8 2 3) tt 2 3 (seq 0 8) (select_scoring 1)).1
           = Some (0, 4, info))
  ∧ (∃ info, (@_get_next_move_warnsdorff_generic_detailed still_env
                (started 8 2 3) tt 2 3 (seq 0 8) (select_scoring 2)).1
             = Some (0, 4, info))
  ∧ _count_valid_moves (started 8 2 3) 0 2
    = _count_valid_moves (started 8 2 3) 0 4
  ∧ manhattan (0, 4) (4, 4) = 4 ∧ manhattan (0, 2) (4, 4) = 6
  ∧ corner_distance 8 (0, 2) = 2 ∧ corner_distance 8 (0, 4) = 3
  ∧ manhattan (0, 4) (8 / 2, 8 / 2)
    <= manhattan (2 + move_dx 4, 3 + move_dy 4) (8 / 2, 8 / 2)
  ∧ corner_distance 8 (2 + move_dx 4, 3 + move_dy 4)
    <= corner_distance 8 (0, 4).
Proof.
  set (t := started 8 2 3).
  assert (Hp : 4%nat ∈ seq 0 8) by (apply elem_of_seq; lia).
  assert (Hv : is_valid_move t (2 + move_dx 4) (3 + move_dy 4) = true)
    by reflexivity.
  assert (Hd : _count_valid_moves t (2 + move_dx 4) (3 + move_dy 4)
               = _count_valid_moves t 0 4) by reflexivity.
  destruct ((@_get_next_move_warnsdorff_generic_detailed still_env
       t tt 2 3 (seq 0 8) (select_scoring 1)).1)
    as [[[nx1 ny1] info1]|] eqn:Hnext1;
    [|vm_compute in Hnext1; discriminate Hnext1].
  assert (Hn1 : nx1 = 0 ∧ ny1 = 4).
  { vm_compute in Hnext1. injection Hnext1 as <- <- _. done. }
  destruct Hn1 as [-> ->].
  destruct ((@_get_next_move_warnsdorff_generic_detailed still_env
       t tt 2 3 (seq 0 8) (select_scoring 2)).1)
    as [[[nx2 ny2] info2]|] eqn:Hnext2;
    [|vm_compute in Hnext2; discriminate Hnext2].
  assert (Hn2 : nx2 = 0 ∧ ny2 = 4).
  { vm_compute in Hnext2. injection Hnext2 as <- <- _. done. }
  destruct Hn2 as [-> ->].
  destruct (@step_secondary_choice still_env t tt 2 3 (seq 0 8) 1
              0 4 info1 4 still_env_range Hnext1 Hp Hv Hd) as [Hcentre _].
  destruct (@step_secondary_choice still_env t tt 2 3 (seq 0 8) 2
              0 4 info2 4 still_env_range Hnext2 Hp Hv Hd) as [_ Hcorner].
  split; [by exists info1|]. split; [by exists info2|].
  split; [reflexivity|]. split; [reflexivity|]. split; [reflexivity|].
  split; [reflexivity|]. split; [reflexivity|].
  split; [exact (Hcentre eq_refl)|exact (Hcorner eq_refl)].
Defined.

Lemma step_takes_first_of_least_witness :
  ∃ k best,
    @candidates still_env (init 5) tt 0 0 (seq 0 8) (select_scoring 0) !! k
    = Some best
    ∧ c_x best = 2 ∧ c_y best = 1.
Proof.
  destruct ((@_get_next_move_warnsdorff_generic_detailed still_env
       (init 5) tt 0 0 (seq 0 8) (select_scoring 0)).1)
    as [[[nx ny] info]|] eqn:Hnext; [|vm_compute in Hnext; discriminate Hnext].
  assert (Hnx : nx = 2 ∧ ny = 1).
  { vm_compute in Hnext. injection Hnext as <- <- _. done. }
  destruct Hnx as [-> ->].
  destruct (@step_takes_first_of_least still_env (init 5) tt 0 0 (seq 0 8)
              (select_scoring 0) 2 1 info Hnext)
    as (k & best & Hk & _ & Hx & Hy & _).
  exists k, best. split; [exact Hk|]. split; [by rewrite <- Hx|by rewrite <- Hy].
Defined.

Section TrackingProperties.
Context {E : Env}.

(** X4.  An attempt given an empty tracking list leaves in it one entry for
    each step of its path: entry [k] is numbered [k + 1], goes from the
    position of index [k] to the position of index [k + 1], and these two
    cells are one knight move apart. *)
Theorem tracking_retraces_path (s : attempt_state)
    (start_x start_y variation : Z) (prefs : list nat) (verbose : bool) :
  wf_board (size (a_tour s)) (board (a_tour s)) →
  in_bounds (size (a_tour s)) start_x start_y = true →
  a_tracking s = Some [] →
  ∃ b s' l,
    _solve_with_warnsdorff_variation s start_x start_y variation prefs verbose
    = Returned (b, s')
    ∧ a_tracking s' = Some l
    ∧ (length l + 1 = length (path (a_tour s')))%nat
    ∧ ∀ (k : nat) (m : tracked_move), l !! k = Some m →
        move_number m = Z.of_nat k + 1
        ∧ path (a_tour s') !! k = Some (from_cell m)
        ∧ path (a_tour s') !! S k = Some (to_cell m)
        ∧ is_knight_step (from_cell m) (to_cell m) = true.
Proof.
  intros Hwf Hb Htr.
  destruct (solve_variation_outcome s start_x start_y variation prefs verbose
              Hwf Hb) as (b & s' & Hret & _ & _ & Hch & _).
  destruct (solve_variation_retraces s start_x start_y variation prefs verbose
              b s' Hwf Hb Htr Hret) as (l & Hl & Hlen & Hentries).
  exists b, s', l. split_and!; try done.
  intros k m Hk. destruct (Hentries k m Hk) as (Hn & Hf & Ht).
  split_and!; try done.
  by apply (knight_chain_lookup (path (a_tour s')) k).
Qed.

(** X5.  After a run from a start cell inside the board, the record of
    index [i] in [variation_stats] has attempt number [i + 1] and the start
    cell of the run; its [path_length] is the number of its tracked moves
    plus one and at most [size * size]; it is marked successful exactly
    when its [path_length] is [size * size]; its tracked moves are numbered
    from 1, begin at the start cell, each begins where the one before it
    ends, and each is a knight move. *)
Theorem run_records_consistent (hash : string → Z) (clock : Z → string)
    (t : tour) (g : rng) (start_x start_y max_attempts : Z) (verbose : bool) :
  in_bounds (size t) start_x start_y = true →
  ∃ b r',
    solve_with_multiple_warnsdorff_attempts hash clock t g start_x start_y
      max_attempts verbose = Returned (b, r')
    ∧ ∀ (i : nat) (info : variation_info),
        variation_stats (r_tour r') !! i = Some info →
        attempt_no info = Z.of_nat i + 1
        ∧ start_position info = (start_x, start_y)
        ∧ (length (move_tracking info) + 1 = path_length info)%nat
        ∧ Z.of_nat (path_length info) <= size t * size t
        ∧ (successful info = true ↔
           Z.of_nat (path_length info) = size t * size t)
        ∧ ∀ (k : nat) (m : tracked_move), move_tracking info !! k = Some m →
            move_number m = Z.of_nat k + 1
            ∧ is_knight_step (from_cell m) (to_cell m) = true
            ∧ (k = O → from_cell m = (start_x, start_y))
            ∧ ∀ m', move_tracking info !! S k = Some m' →
                    from_cell m' = to_cell m.
Proof.
  intros Hb.
  destruct (run_outcome hash clock t g start_x start_y max_attempts verbose
              Hb) as (b & r' & Hret & _).
  exists b, r'. split; [done|]. intros i info Hinfo.
  destruct (run_stats _ _ _ _ _ _ _ _ _ _ Hb Hret) as [n Hst].
  rewrite Hst in Hinfo. apply attempt_infos_lookup in Hinfo as [_ ->].
  destruct (attempt_alone_record (size t) start_x start_y (Z.of_nat i) Hb)
    as ([Hlen Hentries] & Hch & Hhd & Hok & Hle).
  cbn [attempt_info attempt_no start_position move_tracking path_length
       successful].
  split_and!; try done.
  intros k m Hk. destruct (Hentries k m Hk) as (Hn & Hf & Ht).
  split_and!; try done.
  - by apply (knight_chain_lookup
                 (attempt_path (size t) start_x start_y (Z.of_nat i)) k).
  - intros ->. rewrite <- head_lookup, Hhd in Hf. by injection Hf.
  - intros m' Hk'. destruct (Hentries (S k) m' Hk') as (_ & Hf' & _).
    rewrite Ht in Hf'. by injection Hf'.
Qed.

End TrackingProperties.

Lemma tracking_retraces_path_witness :
  ∃ b s' l,
    @_solve_with_warnsdorff_variation still_env
      {| a_tour := init 5; a_rng := (tt : @rng still_env);
         a_tracking := Some [] |}
      0 0 0 (seq 0 8) false = Returned (b, s')
    ∧ a_tracking s' = Some l
    ∧ (length l + 1 = length (path (a_tour s')))%nat.
Proof.
  assert (Hwf : wf_board (size (init 5)) (board (init 5))).
  { apply fresh_board_wf. }
  assert (Hb : in_bounds (size (init 5)) 0 0 = true) by reflexivity.
  destruct (@tracking_retraces_path still_env
              {| a_tour := init 5; a_rng := (tt : @rng still_env);
                 a_tracking := Some [] |}
              0 0 0 (seq 0 8) false Hwf Hb eq_refl)
    as (b & s' & l & Hret & Hl & Hlen & _).
  exists b, s', l. split; [exact Hret|]. split; [exact Hl|exact Hlen].
Defined.

Lemma run_records_consistent_witness :
  ∃ b r',
    @solve_with_multiple_warnsdorff_attempts still_env constant_hash
      stopped_clock (init 5) (tt : @rng still_env) 0 0 1 false
    = Returned (b, r')
    ∧ ∀ (i : nat) (info : variation_info),
        variation_stats (r_tour r') !! i = Some info →
        attempt_no info = Z.of_nat i + 1.
Proof.
  assert (Hb : in_bounds (size (init 5)) 0 0 = true) by reflexivity.
  destruct (@run_records_consistent still_env constant_hash stopped_clock
              (init 5) (tt : @rng still_env) 0 0 1 false Hb)
    as (b & r' & Hret & Hrec).
  exists b, r'. split; [exact Hret|]. intros i info Hinfo.
  destruct (Hrec i info Hinfo) as [Hno _]. exact Hno.
Defined.

(** X6.  The hash of a path of two cells or more reads only its first and
    its last [min(100, len / 2)] cells: replacing a cell between them (the
    middle cell of a path of odd length, every cell from index 100 to
    [len - 101] of a longer path) leaves the hash as it is, whatever the
    string hash. *)
Theorem path_hash_ignores_middle (hash : string → Z) (t : tour) (i : nat)
    (c : cell) :
  let sample_size := Nat.min 100 (length (path t) / 2) in
  (2 <= length (path t))%nat →
  (sample_size <= i < length (path t) - sample_size)%nat →
  _get_path_hash hash (with_path t (<[i := c]> (path t)))
  = _get_path_hash hash t.
Proof.
  intros sample_size Hlen Hi. unfold _get_path_hash, path_sample.
  cbn [path with_path]. rewrite length_insert. fold sample_size.
  assert (Hpos : (1 <= sample_size)%nat).
  { subst sample_size. apply Nat.min_glb; [lia|].
    apply Nat.div_le_lower_bound; lia. }
  destruct sample_size as [|n] eqn:Hs; [lia|].
  cbn [py_suffix]. rewrite length_insert.
  rewrite take_insert_ge by lia. rewrite drop_insert_lt by lia. done.
Qed.

Lemma path_hash_ignores_middle_witness :
  _get_path_hash constant_hash
    (with_path (init 3) (<[1%nat := (2, 2)]> [(0, 0); (1, 2); (2, 0)]))
  = _get_path_hash constant_hash (with_path (init 3) [(0, 0); (1, 2); (2, 0)]).
Proof.
  apply (path_hash_ignores_middle constant_hash
           (with_path (init 3) [(0, 0); (1, 2); (2, 0)]) 1 (2, 2)).
  - simpl. lia.
  - simpl. lia.
Defined.

Section SingleAttemptProperties.
Context {E : Env}.

(** X7.  [solve_with_warnsdorff] makes the walk that
    [_solve_with_warnsdorff_variation] makes with the shuffled preference
    order, the generator left by the shuffle and the scoring of the same
    name (1 for 'center', 2 for 'corners', 0 for any other string): both
    return the same flag and leave the same board, path and generator, or
    both raise.  Unlike the latter it writes nothing to the debug log. *)
Theorem single_attempt_is_variation (t : tour) (g : rng)
    (start_x start_y : Z) (mode : string)
    (tracking : option (list tracked_move)) (verbose : bool) :
  match solve_with_warnsdorff t g start_x start_y mode,
        _solve_with_warnsdorff_variation
          {| a_tour := t; a_rng := (shuffle g (seq 0 8)).2;
             a_tracking := tracking |}
          start_x start_y (mode_variation mode) (shuffle g (seq 0 8)).1
          verbose with
  | Returned (b1, (t1, g1)), Returned (b2, s2) =>
      b1 = b2 ∧ size t1 = size t ∧ board t1 = board (a_tour s2)
      ∧ path t1 = path (a_tour s2) ∧ g1 = a_rng s2
      ∧ variation_stats t1 = variation_stats t
      ∧ debug_log t1 = debug_log t
  | IndexError, IndexError => True
  | _, _ => False
  end.
Proof. apply single_attempt_agrees. Qed.

(** X8.  On a board of [size] rows of [size] cells, from a start cell
    inside it and with a shuffle that permutes, [solve_with_warnsdorff]
    returns.  With [True] its path is a knight's tour from the start cell.
    With [False] its path is a chain of knight moves from the start cell
    over fewer than [size * size] distinct cells, ending at a cell from
    which no move is legal. *)
Theorem single_attempt_outcome (t : tour) (g : rng) (start_x start_y : Z)
    (mode : string) :
  wf_board (size t) (board t) →
  in_bounds (size t) start_x start_y = true →
  (shuffle g (seq 0 8)).1 ≡ₚ seq 0 8 →
  ∃ b t' g',
    solve_with_warnsdorff t g start_x start_y mode = Returned (b, (t', g'))
    ∧ (b = true → is_tour (size t) (start_x, start_y) (path t'))
    ∧ (b = false →
       Z.of_nat (length (path t')) < size t * size t
       ∧ head (path t') = Some (start_x, start_y)
       ∧ knight_chain (path t') = true
       ∧ NoDup (path t')
       ∧ ∃ x y, last (path t') = Some (x, y)
                ∧ _count_valid_moves t' x y = 0).
Proof.
  intros Hwf Hb Hperm.
  assert (Hsz : 0 <= size t) by (apply in_bounds_spec in Hb; lia).
  pose proof (single_attempt_agrees t g start_x start_y mode None false)
    as Hsame.
  destruct (solve_variation_outcome
              {| a_tour := t; a_rng := (shuffle g (seq 0 8)).2;
                 a_tracking := None |}
              start_x start_y (mode_variation mode) (shuffle g (seq 0 8)).1
              false Hwf Hb)
    as (b & s' & Hret & Hsz' & Hvis & Hch & Hhd & Htrue & Hfalse & _).
  rewrite Hret in Hsame. cbn [a_tour] in Hsz', Htrue, Hfalse.
  destruct (solve_with_warnsdorff t g start_x start_y mode)
    as [[b1 [t1 g1]]| |]; try done.
  destruct Hsame as (-> & Hsz1 & Hbd1 & Hp1 & _).
  exists b, t1, g1. split; [done|]. rewrite Hp1. split.
  - intros ->. rewrite <- Hsz'.
    apply visited_full_is_tour; try done; rewrite Hsz'; [done|by apply Htrue].
  - intros ->. destruct (Hfalse eq_refl) as (Hlen & x & y & Hlast & Hnil).
    split_and!; try done; [apply Hvis|].
    exists x, y. split; [done|].
    rewrite count_valid_moves_length.
    rewrite (legal_prefs_ext (a_tour s') t1) by congruence.
    assert (Hfil : legal_prefs (a_tour s') x y (seq 0 8) = []).
    { apply elem_of_nil_inv. intros p Hp.
      apply legal_prefs_elem in Hp as [Hp Hv]. rewrite <- Hperm in Hp.
      assert (Hin : p ∈ legal_prefs (a_tour s') x y (shuffle g (seq 0 8)).1)
        by by apply legal_prefs_elem.
      rewrite Hnil in Hin. by apply not_elem_of_nil in Hin. }
    by rewrite Hfil.
Qed.

End SingleAttemptProperties.

Lemma single_attempt_outcome_witness :
  ∃ t' g',
    @solve_with_warnsdorff still_env (init 5) tt 0 0 "center"
    = Returned (true, (t', g'))
    ∧ is_tour 5 (0, 0) (path t').
Proof.
  assert (Hwf : wf_board (size (init 5)) (board (init 5))).
  { apply fresh_board_wf. }
  assert (Hb : in_bounds (size (init 5)) 0 0 = true) by reflexivity.
  destruct (@single_attempt_outcome still_env (init 5) tt 0 0 "center" Hwf Hb
              (still_env_shuffle tt (seq 0 8)))
    as (b & t' & g' & Hret & Htrue & _).
  destruct b.
  - exists t', g'. split; [exact Hret|]. exact (Htrue eq_refl).
  - vm_compute in Hret. discriminate Hret.
Defined.

(** X9.  [solve] does not clear the board when it starts.  Called again on
    the object of a tour it has found (on a board of more than one cell),
    it returns [False] in two passes, from whatever start cell, and leaves
    the board reset and the path empty; called a third time from the first
    start cell it finds the first tour again. *)
Theorem solve_on_used_object (t t1 : tour) (start_x start_y x2 y2 : Z)
    (fuel fuel2 : nat) :
  board t = fresh_board (size t) →
  in_bounds (size t) start_x start_y = true →
  solve fuel t start_x start_y = Returned (true, t1) →
  size t ≠ 1 → in_bounds (size t) x2 y2 = true → (2 <= fuel2)%nat →
  ∃ t2, solve fuel2 t1 x2 y2 = Returned (false, t2)
        ∧ path t2 = [] ∧ board t2 = fresh_board (size t)
        ∧ ∃ t3, solve fuel t2 start_x start_y = Returned (true, t3)
                ∧ path t3 = path t1 ∧ board t3 = board t1.
Proof.
  intros Hfresh Hb Hret Hsz Hb2 Hfuel.
  assert (Hwf : wf_board (size t) (board t)).
  { rewrite Hfresh. apply fresh_board_wf. }
  destruct (solve_success fuel t t1 start_x start_y Hwf Hb Hret)
    as (Hsz1 & Hvis & Htour).
  assert (Hfull : full_board t1).
  { apply (tour_full_board t1 (start_x, start_y)); [done|]. by rewrite Hsz1. }
  destruct (solve_full fuel2 t1 x2 y2) as (t2 & Hret2 & Hsz2 & Hp2 & Hbd2 & _);
    try done; try (rewrite Hsz1; done); [apply Hvis|].
  exists t2. rewrite Hsz1 in Hbd2. split_and!; try done.
  pose proof (solve_same fuel t2 t start_x start_y) as Hsame.
  rewrite Hret in Hsame.
  destruct (solve fuel t2 start_x start_y) as [[b3 t3]| |];
    try (by destruct Hsame; congruence).
  destruct Hsame as (-> & _ & Hbd3 & Hp3); [congruence..|]. by exists t3.
Qed.

Section UsedObjectProperties.
Context {E : Env}.

(** X10.  [solve_with_warnsdorff] does not clear the board either.  Called
    again on the object of a tour it has found (on a board of more than
    one cell) it returns [False] at its first step: the path is the new
    start cell alone, the board is the full board of the first call with
    0 written on the new start cell, and no random number is drawn after
    the shuffle. *)
Theorem single_attempt_on_used_object (t t1 : tour) (g g1 g2 : rng)
    (start_x start_y x2 y2 : Z) (mode mode2 : string) :
  wf_board (size t) (board t) →
  in_bounds (size t) start_x start_y = true →
  solve_with_warnsdorff t g start_x start_y mode = Returned (true, (t1, g1)) →
  size t ≠ 1 → in_bounds (size t) x2 y2 = true →
  ∃ t2,
    solve_with_warnsdorff t1 g2 x2 y2 mode2
    = Returned (false, (t2, (shuffle g2 (seq 0 8)).2))
    ∧ path t2 = [(x2, y2)]
    ∧ board_set (board t1) x2 y2 0 = Some (board t2)
    ∧ full_board t2.
Proof.
  intros Hwf Hb Hret Hsz Hb2.
  destruct (single_attempt_visited t g start_x start_y mode true t1 g1 Hwf Hb
              Hret) as (Hsz1 & Hvis & Hch & Hhd & Hlen & _).
  assert (Hpos : 0 <= size t) by (apply in_bounds_spec in Hb; lia).
  assert (Hfull : full_board t1).
  { apply (tour_full_board t1 (start_x, start_y)); [done|].
    apply visited_full_is_tour; try done; rewrite Hsz1; auto. }
  pose proof (visited_wf _ Hvis) as Hwf1. rewrite <- Hsz1 in Hb2.
  destruct (board_set_in_bounds _ _ x2 y2 0 Hwf1 Hb2) as (b & Hset & _).
  exists (with_path (with_board t1 b) [(x2, y2)]).
  unfold solve_with_warnsdorff. cbv zeta.
  destruct (shuffle g2 (seq 0 8)) as [prefs g3]. rewrite Hset. cbn [snd].
  assert (Hfull' : full_board (with_path (with_board t1 b) [(x2, y2)])).
  { by apply (full_board_set t1 x2 y2 0). }
  assert (Hn : ∃ n, Z.to_nat (size t1 * size t1 - 1) = S n).
  { exists (Z.to_nat (size t1 * size t1 - 2)). rewrite Hsz1.
    apply in_bounds_spec in Hb. nia. }
  destruct Hn as [n ->]. cbn [warnsdorff_plain_loop].
  rewrite get_next_full by done. done.
Qed.

End UsedObjectProperties.

Lemma solve_on_used_object_witness :
  ∃ t1 t2,
    solve 60 (init 5) 4 0 = Returned (true, t1)
    ∧ solve 2 t1 0 0 = Returned (false, t2)
    ∧ path t2 = [].
Proof.
  assert (Hb : in_bounds (size (init 5)) 4 0 = true) by reflexivity.
  assert (Hb2 : in_bounds (size (init 5)) 0 0 = true) by reflexivity.
  assert (Hsz : size (init 5) ≠ 1) by (simpl; lia).
  assert (Hfuel : (2 <= 2)%nat) by lia.
  destruct (solve 60 (init 5) 4 0) as [[[|] t1]| |] eqn:Hrun;
    try (vm_compute in Hrun; discriminate Hrun).
  destruct (solve_on_used_object (init 5) t1 4 0 0 0 60 2 (init_fresh 5) Hb
              Hrun Hsz Hb2 Hfuel) as (t2 & Hret2 & Hp2 & _).
  exists t1, t2. split; [reflexivity|]. split; [exact Hret2|exact Hp2].
Defined.

Lemma single_attempt_on_used_object_witness :
  ∃ t1 g1 t2,
    @solve_with_warnsdorff still_env (init 5) tt 0 0 "center"
    = Returned (true, (t1, g1))
    ∧ @solve_with_warnsdorff still_env t1 tt 1 1 "random"
      = Returned (false, (t2, tt))
    ∧ path t2 = [(1, 1)].
Proof.
  assert (Hwf : wf_board (size (init 5)) (board (init 5))).
  { apply fresh_board_wf. }
  assert (Hb : in_bounds (size (init 5)) 0 0 = true) by reflexivity.
  assert (Hb2 : in_bounds (size (init 5)) 1 1 = true) by reflexivity.
  assert (Hsz : size (init 5) ≠ 1) by (simpl; lia).
  destruct (@solve_with_warnsdorff still_env (init 5) tt 0 0 "center")
    as [[[|] [t1 g1]]| |] eqn:Hrun;
    try (vm_compute in Hrun; discriminate Hrun).
  destruct (@single_attempt_on_used_object still_env (init 5) t1 tt g1 tt
              0 0 1 1 "center" "random" Hwf Hb Hrun Hsz Hb2)
    as (t2 & Hret2 & Hp2 & _).
  exists t1, g1, t2. split; [reflexivity|]. split; [exact Hret2|exact Hp2].
Defined.

Section PrintProperties.
Context {E : Env}.

(** X11.  After [solve] on a new board, or a run of Warnsdorff attempts,
    has returned [True], [print_solution] prints, below its heading, one
    line for each row of the board.  On a board of up to 10 by 10 every
    such line has exactly [3 * size] characters; from 11 by 11 on an
    order of three digits makes some line longer. *)
Theorem printed_solution_rows (hash : string → Z) (clock : Z → string)
    (t : tour) (g : rng) (start_x start_y max_attempts : Z) (verbose : bool)
    (fuel : nat) (t' : tour) :
  board t = fresh_board (size t) →
  in_bounds (size t) start_x start_y = true →
  solve fuel t start_x start_y = Returned (true, t')
  ∨ (∃ r', solve_with_multiple_warnsdorff_attempts hash clock t g
             start_x start_y max_attempts verbose = Returned (true, r')
           ∧ t' = r_tour r') →
  ∃ rows,
    print_solution t' = Some (EmptyString :: "Recorrido del Caballo:" :: rows)
    ∧ length rows = Z.to_nat (size t)
    ∧ (size t <= 10 →
       ∀ row, row ∈ rows → String.length row = (3 * Z.to_nat (size t))%nat)
    ∧ (11 <= size t →
       ∃ row, row ∈ rows ∧ (3 * Z.to_nat (size t) < String.length row)%nat).
Proof.
  intros Hfresh Hb Hret.
  assert (Hstate : size t' = size t ∧ placed t'
                   ∧ is_tour (size t) (start_x, start_y) (path t')).
  { destruct Hret as [Hret|(r' & Hret & ->)].
    - by apply (solve_success_placed fuel).
    - by apply (run_success_state hash clock t g start_x start_y max_attempts
                  verbose). }
  destruct Hstate as (Hsz & Hpl & Htour). rewrite <- Hsz in Htour |- *.
  by apply (print_solution_tour t' (start_x, start_y)).
Qed.

End PrintProperties.

(** X12.  For a path inside a board of at most 1114015 columns,
    [print_path] raises no ValueError.  It writes its heading and then, on
    one line, one notation for each position, joined by arrows: the
    character of code [97 + y] followed by the numeral of [size - x].  When
    the stream cannot encode that line, it raises UnicodeEncodeError after
    the heading instead: so it does for every path of two cells or more on
    a stream without the arrow.  A stream with the arrow and the characters
    of the columns from 31 on takes the line.  Two cells never share a
    notation, so a path without repeats is printed without repeats; up to
    26 columns the character is a lower-case letter and the number a rank
    from 1 to [size]. *)
Theorem printed_path_notations (out : stream) (t : tour) :
  size t <= 1114015 → (∀ c, c ∈ path t → cell_in_bounds (size t) c) →
  ∃ l,
    path_notations t = Some l
    ∧ length l = length (path t)
    ∧ (∀ (i : nat) (c : cell), path t !! i = Some c →
         l !! i = Some ((97 + c.2) :: pystr_of (pretty (size t - c.1))))
    ∧ (∀ c1 c2 s, chess_notation (size t) c1 = Some s →
                  chess_notation (size t) c2 = Some s → c1 = c2)
    ∧ (NoDup (path t) → NoDup l)
    ∧ (size t <= 26 →
       ∀ s, s ∈ l →
         ∃ letter rank, s = letter :: pystr_of (pretty rank)
                        ∧ 97 <= letter <= 122 ∧ 1 <= rank <= size t)
    ∧ (can_write out (join [32; 8594; 32] l) = true
       ∧ print_path out t
         = {| written := [10] ++ pystr_of "Secuencia de movimientos:"
                         ++ [32] ++ join [32; 8594; 32] l ++ [10];
              raised := None |}
       ∨ can_write out (join [32; 8594; 32] l) = false
         ∧ print_path out t
           = {| written := [10] ++ pystr_of "Secuencia de movimientos:"
                           ++ [32];
                raised := Some Exn.UnicodeEncodeError |})
    ∧ (encodes_path out (size t) → raised (print_path out t) = None)
    ∧ (out 8594 = false → (2 <= length (path t))%nat →
       raised (print_path out t) = Some Exn.UnicodeEncodeError).
Proof.
  intros Hn Hin.
  destruct (path_notations_inside t Hn Hin) as (l & Hl & Hlen & Hnote & Hnd).
  destruct (print_path_inside out t Hn Hin)
    as (l' & Hl' & Hyes & Hno & Hpath & Harrow).
  assert (l' = l) as -> by congruence.
  exists l. split_and!; try done.
  - intros c1 c2 s. apply chess_notation_inj.
  - intros Hsz s Hs. apply list_elem_of_lookup_1 in Hs as [i Hi].
    destruct (lookup_lt_is_Some_2 (path t) i) as [c Hc].
    { rewrite <- Hlen. by eapply lookup_lt_Some. }
    rewrite (Hnote i c Hc) in Hi. injection Hi as <-.
    assert (Hcb : cell_in_bounds (size t) c).
    { apply Hin. by eapply list_elem_of_lookup_2. }
    apply in_bounds_spec in Hcb.
    exists (97 + c.2), (size t - c.1). split; [done|]. lia.
  - destruct (can_write out (join [32; 8594; 32] l)) eqn:Hw.
    + left. split; [done|]. by apply Hyes.
    + right. split; [done|]. by apply Hno.
  - intros Henc. by rewrite (Hyes (Hpath Henc)).
  - intros H1 H2. by rewrite (Hno (Harrow H1 H2)).
Qed.

Lemma printed_solution_rows_witness :
  ∃ t' rows,
    solve 60 (init 5) 4 0 = Returned (true, t')
    ∧ print_solution t'
      = Some (EmptyString :: "Recorrido del Caballo:" :: rows)
    ∧ ∀ row, row ∈ rows → String.length row = 15%nat.
Proof.
  assert (Hb : in_bounds (size (init 5)) 4 0 = true) by reflexivity.
  destruct (solve 60 (init 5) 4 0) as [[[|] t']| |] eqn:Hrun;
    try (vm_compute in Hrun; discriminate Hrun).
  destruct (@printed_solution_rows still_env constant_hash stopped_clock
              (init 5) tt 4 0 0 false 60 t' (init_fresh 5) Hb
              (or_introl Hrun)) as (rows & Hp & _ & Hsmall & _).
  exists t', rows. split; [reflexivity|]. split; [exact Hp|].
  apply Hsmall. simpl. lia.
Defined.

Lemma printed_path_notations_witness :
  path_notations (with_path (init 8) [(0, 0); (7, 7)])
  = Some [[97; 56]; [104; 49]]
  ∧ raised (print_path latin1_stream (with_path (init 8) [(0, 0); (7, 7)]))
    = Some Exn.UnicodeEncodeError
  ∧ raised (print_path full_stream (with_path (init 8) [(0, 0); (7, 7)]))
    = None.
Proof.
  assert (Hsz : size (with_path (init 8) [(0, 0); (7, 7)]) <= 1114015)
    by (simpl; lia).
  assert (Hin : ∀ c, c ∈ path (with_path (init 8) [(0, 0); (7, 7)]) →
                     cell_in_bounds (size (with_path (init 8) [(0, 0); (7, 7)]))
                                    c).
  { intros c Hc. apply elem_of_cons in Hc as [->|Hc]; [reflexivity|].
    apply elem_of_cons in Hc as [->|Hc]; [reflexivity|].
    by apply not_elem_of_nil in Hc. }
  destruct (printed_path_notations latin1_stream
              (with_path (init 8) [(0, 0); (7, 7)]) Hsz Hin)
    as (l & Hl & _ & _ & _ & _ & _ & _ & _ & Harrow).
  destruct (printed_path_notations full_stream
              (with_path (init 8) [(0, 0); (7, 7)]) Hsz Hin)
    as (l2 & _ & _ & _ & _ & _ & _ & _ & Hfull & _).
  split; [reflexivity|]. split.
  - apply Harrow; [reflexivity|simpl; lia].
  - apply Hfull. split; [reflexivity|]. intros y Hy. reflexivity.
Defined.

(** X13.  [analyze_variation_performance] reports nothing but a notice when
    there are no statistics.  Otherwise it reports once on each variation
    type that occurs: the attempts of that type, at least one (the division
    guard is never needed), the successful ones among them, a success rate
    between 0 and 100 that is their share, and the mean of their path
    lengths; the attempts counted in all reports together are all the
    statistics. *)
Theorem analysis_reports_by_type (t : tour) :
  (variation_stats t = [] → analyze_variation_performance t = None)
  ∧ (variation_stats t ≠ [] →
     ∃ reports,
       analyze_variation_performance t = Some reports
       ∧ NoDup (rep_type <$> reports)
       ∧ (∀ s, s ∈ variation_stats t →
               variation_type s ∈ rep_type <$> reports)
       ∧ sum_list (rep_attempts <$> reports) = length (variation_stats t)
       ∧ ∀ r, r ∈ reports →
           let l := stats_of_type (rep_type r) (variation_stats t) in
           (1 <= rep_attempts r)%nat
           ∧ rep_attempts r = length l
           ∧ rep_successes r = length (List.filter successful l)
           ∧ (rep_successes r <= rep_attempts r)%nat
           ∧ (0 <= rep_success_rate r)%Q ∧ (rep_success_rate r <= 100)%Q
           ∧ (rep_success_rate r * inject_Z (Z.of_nat (rep_attempts r))
              == inject_Z (Z.of_nat (rep_successes r)) * 100)%Q
           ∧ (rep_avg_path_length r * inject_Z (Z.of_nat (rep_attempts r))
              == inject_Z (Z.of_nat (sum_path_length l)))%Q).
Proof.
  unfold analyze_variation_performance. split.
  - by intros ->.
  - intros Hne. destruct (variation_groups_spec (variation_stats t))
      as (Hnd & Hkeys & Hgroups).
    exists (report_of <$> variation_groups (variation_stats t)).
    assert (Htypes : rep_type <$> (report_of <$> variation_groups (variation_stats t))
                     = (variation_groups (variation_stats t)).*1).
    { rewrite <- list_fmap_compose. by apply list_fmap_ext. }
    split_and!.
    + by destruct (variation_stats t).
    + by rewrite Htypes.
    + intros s Hs. rewrite Htypes. apply Hkeys. by exists s.
    + rewrite <- list_fmap_compose.
      rewrite <- (variation_groups_total (variation_stats t)).
      done.
    + intros r Hr. apply list_elem_of_fmap in Hr as ([k l] & -> & Hin).
      pose proof (Hgroups k l Hin) as Hl.
      assert (Hk : k ∈ (variation_groups (variation_stats t)).*1).
      { apply list_elem_of_fmap. by exists (k, l). }
      apply Hkeys in Hk as (s & Hs & Hks).
      assert (Hlne : l ≠ []).
      { rewrite Hl. intros Hnil.
        assert (Hin' : s ∈ stats_of_type k (variation_stats t)).
        { apply list_elem_of_filter. done. }
        rewrite Hnil in Hin'. by apply not_elem_of_nil in Hin'. }
      destruct (report_of_spec k l Hlne)
        as (Ht & Ha & Hs' & Hle & H0 & H100 & Hrate & Havg).
      cbv zeta. rewrite Ht, <- Hl. split_and!; try done.
      rewrite Ha. destruct l; [done|]. cbn. lia.
Qed.

Section AnalysisProperties.
Context {E : Env}.

(** X14.  After a run of at least one attempt from a start cell inside the
    board, the analysis reports on the types 0, 1, 2 in this order, as far
    as the attempts made go; type [v] has [(k + 2 - v) / 3] of the [k]
    attempts made, and the mean path length of each type lies between 1 and
    [size * size]. *)
Theorem analysis_after_run (hash : string → Z) (clock : Z → string)
    (t : tour) (g : rng) (start_x start_y max_attempts : Z) (verbose : bool) :
  in_bounds (size t) start_x start_y = true → 1 <= max_attempts →
  ∃ b r' reports,
    solve_with_multiple_warnsdorff_attempts hash clock t g start_x start_y
      max_attempts verbose = Returned (b, r')
    ∧ analyze_variation_performance (r_tour r') = Some reports
    ∧ let k := length (variation_stats (r_tour r')) in
      rep_type <$> reports = Z.of_nat <$> seq 0 (Nat.min 3 k)
      ∧ ∀ r, r ∈ reports →
          Z.of_nat (rep_attempts r) = (Z.of_nat k + 2 - rep_type r) / 3
          ∧ (1 <= rep_avg_path_length r)%Q
          ∧ (rep_avg_path_length r <= inject_Z (size t * size t))%Q.
Proof.
  intros Hb Hmax.
  destruct (run_outcome hash clock t g start_x start_y max_attempts verbose
              Hb) as (b & r' & Hret & _ & Hfalse & Htrue).
  assert (Hst : ∃ k, variation_stats (r_tour r')
                     = attempt_infos clock (size t) start_x start_y (S k)).
  { destruct b.
    - destruct (Htrue eq_refl) as (j & _ & _ & _ & _ & _ & Hst). by exists j.
    - destruct (Hfalse eq_refl) as (_ & Hst & _).
      exists (Z.to_nat (max_attempts - 1)).
      rewrite Hst. f_equal. lia. }
  destruct Hst as [k Hst].
  exists b, r', (report_of <$> variation_groups (variation_stats (r_tour r'))).
  split; [done|]. split.
  { assert (Hne : attempt_infos clock (size t) start_x start_y (S k) ≠ []).
    { rewrite attempt_infos_S. intros Hnil.
      apply (f_equal length) in Hnil. rewrite length_app in Hnil.
      cbn in Hnil. lia. }
    unfold analyze_variation_performance. rewrite Hst.
    by destruct (attempt_infos clock (size t) start_x start_y (S k)). }
  cbv zeta. rewrite Hst.
  assert (Hlen : length (attempt_infos clock (size t) start_x start_y (S k))
                 = S k).
  { unfold attempt_infos. by rewrite length_fmap, length_seq. }
  rewrite Hlen. split.
  - rewrite <- list_fmap_compose.
    by rewrite <- (run_groups_keys clock (size t) start_x start_y (S k)).
  - intros r Hr. apply list_elem_of_fmap in Hr as ([v l] & -> & Hin).
    destruct (variation_groups_spec
                (attempt_infos clock (size t) start_x start_y (S k)))
      as (_ & _ & Hgroups).
    pose proof (Hgroups v l Hin) as Hl.
    assert (Hv : v ∈ (variation_groups
                        (attempt_infos clock (size t) start_x start_y (S k))).*1).
    { apply list_elem_of_fmap. by exists (v, l). }
    rewrite run_groups_keys in Hv.
    assert (Hv3' : 0 <= v < 3 ∧ v < Z.of_nat (S k)).
    { apply list_elem_of_fmap in Hv as (i & -> & Hi).
      apply elem_of_seq in Hi. lia. }
    destruct Hv3' as [Hv3 Hvk].
    pose proof (run_group_size clock (size t) start_x start_y v (S k) Hv3)
      as Hsize.
    pose proof (run_group_lengths clock (size t) start_x start_y v (S k) Hb)
      as Hsum.
    cbv zeta in Hsum. rewrite <- Hl in Hsize, Hsum.
    assert (Hlne : l ≠ []).
    { intros ->.
      assert (1 <= (Z.of_nat (S k) + 2 - v) / 3)
        by (apply Z.div_le_lower_bound; lia).
      change (Z.of_nat (length [])) with 0 in Hsize. lia. }
    destruct (report_of_spec v l Hlne)
      as (Ht & Ha & _ & _ & _ & _ & _ & Havg).
    cbv zeta in Ht, Ha, Havg. rewrite Ht, Ha. split; [done|].
    rewrite Ha in Havg.
    apply (avg_bounds _ (Z.of_nat (length l))
                      (Z.of_nat (sum_path_length l))); try done; try lia.
    destruct l; [done|]. cbn. lia.
Qed.

End AnalysisProperties.

Lemma analysis_after_run_witness :
  ∃ b r' reports,
    @solve_with_multiple_warnsdorff_attempts rotating_env constant_hash
      stopped_clock (init 6) (0 : @rng rotating_env) 3 3 2 false
    = Returned (b, r')
    ∧ analyze_variation_performance (r_tour r') = Some reports
    ∧ rep_type <$> reports = [0; 1].
Proof.
  assert (Hb : in_bounds (size (init 6)) 3 3 = true) by reflexivity.
  assert (Hmax : 1 <= 2) by lia.
  destruct (@analysis_after_run rotating_env constant_hash stopped_clock
              (init 6) (0 : @rng rotating_env) 3 3 2 false Hb Hmax)
    as (b & r' & reports & Hret & Hrep & Htypes & _).
  exists b, r', reports. split; [exact Hret|]. split; [exact Hrep|].
  rewrite Htypes.
  assert (Hk : length (variation_stats (r_tour r')) = 2%nat).
  { vm_compute in Hret. injection Hret as _ <-. reflexivity. }
  rewrite Hk. reflexivity.
Defined.

Section ProgramProperties.
Context {E : Env}.

(** X15.  For a board of size at most 30 the program, given enough passes
    of backtracking, ends in one of two ways, whatever the attempts, the
    generator, the string hash and the log files.  Either a [print] raises
    an uncaught UnicodeEncodeError: only when the stream lacks a letter of
    the texts, the arrow of [print_path] or the message of a failed
    writing.  Or it ends without an exception and its answer is right: it
    exits with status 1 exactly when the start cell is outside the board;
    it shows a tour exactly when one exists from the start cell, and what
    it prints and hands to the visualizer is then a knight's tour from that
    cell with every order on its cell; it says that there is no solution
    exactly when there is none; it never says that the board is too
    large. *)
Theorem main_answer (out : stream) (files : log_files)
    (hash : string → Z) (clock : Z → string) (g : rng)
    (n start_x start_y attempts : Z) (verbose no_logs : bool) :
  n <= 30 →
  ∃ fuel0, ∀ fuel, (fuel0 <= fuel)%nat →
    (main out files hash clock fuel g n start_x start_y attempts verbose
       no_logs = Uncaught Exn.UnicodeEncodeError
     ∧ ¬ stream_suffices out files n)
    ∨ ∃ o,
        main out files hash clock fuel g n start_x start_y attempts verbose
          no_logs = Ended o
        ∧ (o = Exit_status 1 ↔ in_bounds n start_x start_y = false)
        ∧ (o = No_tour ↔
           in_bounds n start_x start_y = true
           ∧ ¬ ∃ q, is_tour n (start_x, start_y) q)
        ∧ ((∃ how t solution sequence,
              o = Visualized how t solution sequence) ↔
           in_bounds n start_x start_y = true
           ∧ ∃ q, is_tour n (start_x, start_y) q)
        ∧ (∀ how t solution sequence,
             o = Visualized how t solution sequence →
             size t = n
             ∧ is_tour n (start_x, start_y) (path t)
             ∧ order_invariant t
             ∧ print_solution t = Some solution
             ∧ print_path out t
               = {| written := sequence; raised := None |})
        ∧ o ≠ Board_too_large.
Proof.
  intros Hn. destruct (in_bounds n start_x start_y) eqn:Hb.
  - destruct (main_small out files hash clock g n start_x start_y attempts
                verbose no_logs Hn Hb) as (fuel0 & Hmain).
    exists fuel0. intros fuel Hfuel.
    destruct (Hmain fuel Hfuel)
      as [?|[(how & t & solution & -> & Hnone & Hsz & Hpl & Htour & Hps)
            |[-> Hno]]]; [by left|right..].
    + eexists. split; [reflexivity|]. split_and!.
      * done.
      * split; [done|]. intros [_ Habs]. exfalso. apply Habs.
        by exists (path t).
      * split.
        -- intros _. split; [done|]. by exists (path t).
        -- intros _. by eexists how, t, solution, _.
      * intros how' t' solution' sequence' [= <- <- <- <-].
        split_and!; try done; [by apply placed_order_invariant|].
        destruct (print_path out t). cbn in *. by subst.
      * done.
    + exists No_tour. split; [reflexivity|]. split_and!.
      * done.
      * done.
      * split.
        -- by intros (how & t & solution & sequence & ?).
        -- by intros [_ ?].
      * done.
      * done.
  - exists O. intros fuel _.
    destruct (main_outside out files hash clock g fuel n start_x start_y
                attempts verbose no_logs Hb) as [?| ->]; [by left|right].
    exists (Exit_status 1). split; [done|]. split_and!; try done.
    + split; [done|]. by intros [? _].
    + split; [by intros (how & t & solution & sequence & ?)|]. by intros [? _].
Qed.

(** X16.  For a board of size above 30 (and at most 1114015, the range of
    [chr]) the program never runs the backtracking search.  Whatever the
    fuel, either a [print] raises an uncaught UnicodeEncodeError, only when
    the stream lacks a letter of the texts, the arrow, the character of a
    column or the message of a failed writing; or the program exits with
    status 1 when the start cell is outside the board, shows the tour of
    the first Warnsdorff attempt that succeeds with a fingerprint not seen
    before in the run, or says that the board is too large exactly when no
    attempt does; it never says that there is no solution. *)
Theorem main_answer_large (out : stream) (files : log_files)
    (hash : string → Z) (clock : Z → string) (g : rng)
    (n start_x start_y attempts : Z) (verbose no_logs : bool) (fuel : nat) :
  30 < n → n <= 1114015 →
  (main out files hash clock fuel g n start_x start_y attempts verbose
     no_logs = Uncaught Exn.UnicodeEncodeError
   ∧ ¬ stream_suffices out files n)
  ∨ ∃ o,
      main out files hash clock fuel g n start_x start_y attempts verbose
        no_logs = Ended o
      ∧ (o = Exit_status 1 ↔ in_bounds n start_x start_y = false)
      ∧ (o = Board_too_large ↔
         in_bounds n start_x start_y = true
         ∧ ∀ j, (j < Z.to_nat attempts)%nat →
                novel_success hash n start_x start_y j = false)
      ∧ (∀ how t solution sequence,
           o = Visualized how t solution sequence →
           how = Warnsdorff ∧ size t = n
           ∧ is_tour n (start_x, start_y) (path t)
           ∧ order_invariant t
           ∧ print_solution t = Some solution
           ∧ print_path out t = {| written := sequence; raised := None |}
           ∧ ∃ j, (j < Z.to_nat attempts)%nat
                  ∧ novel_success hash n start_x start_y j = true
                  ∧ (∀ j', (j' < j)%nat →
                           novel_success hash n start_x start_y j' = false)
                  ∧ path t = attempt_path n start_x start_y (Z.of_nat j))
      ∧ o ≠ No_tour.
Proof.
  intros Hlo Hhi.
  destruct (in_bounds n start_x start_y) eqn:Hb.
  - destruct (run_outcome hash clock (init n) g start_x start_y attempts
                verbose Hb) as (b & r0 & Hret0 & _ & Hfalse & Htrue).
    cbn [size init] in Hfalse, Htrue.
    destruct (main_large out files hash clock g fuel n start_x start_y
                attempts verbose no_logs Hlo Hhi Hb)
      as [?|[(t & solution & r' & -> & Hnone & Hret & -> & Hsz & Hpl & Htour
              & Hps)
            |[-> [r' Hret]]]]; [by left|right..].
    + rewrite Hret in Hret0. injection Hret0 as <- <-.
      destruct (Htrue eq_refl) as (j & Hj & Hnovel & Hbefore & Hp & _).
      eexists. split; [reflexivity|]. split_and!; try done.
      * split; [done|]. intros [_ Hall]. by rewrite (Hall j Hj) in Hnovel.
      * intros how' t' solution' sequence' [= <- <- <- <-].
        split_and!; try done; [by apply placed_order_invariant| |by exists j].
        destruct (print_path out (r_tour r')). cbn in *. by subst.
    + rewrite Hret in Hret0. injection Hret0 as <- <-.
      exists Board_too_large. split; [done|]. split_and!; try done.
      split; [|done]. intros _. split; [done|]. by apply Hfalse.
  - destruct (main_outside out files hash clock g fuel n start_x start_y
                attempts verbose no_logs Hb) as [?| ->]; [by left|right].
    exists (Exit_status 1). split; [done|]. split_and!; try done.
    split; [done|]. by intros [? _].
Qed.

(** X24.  On a stream without the arrow of [print_path], as one encoded in
    Latin-1, the program does not get to show a tour of a board of more
    than one cell: for a size from 2 to 30 and a start cell from which a
    tour exists it ends, given enough passes of backtracking, with an
    uncaught UnicodeEncodeError. *)
Theorem main_without_arrow (out : stream) (files : log_files)
    (hash : string → Z) (clock : Z → string) (g : rng)
    (n start_x start_y attempts : Z) (verbose no_logs : bool) :
  n <= 30 → n ≠ 1 → in_bounds n start_x start_y = true →
  (∃ q, is_tour n (start_x, start_y) q) → out 8594 = false →
  ∃ fuel0, ∀ fuel, (fuel0 <= fuel)%nat →
    main out files hash clock fuel g n start_x start_y attempts verbose
      no_logs = Uncaught Exn.UnicodeEncodeError.
Proof.
  intros Hn Hn1 Hb Hex Harrow.
  destruct (main_small out files hash clock g n start_x start_y attempts
              verbose no_logs Hn Hb) as (fuel0 & Hmain).
  exists fuel0. intros fuel Hfuel.
  destruct (Hmain fuel Hfuel)
    as [[? _]|[(how & t & solution & _ & Hnone & Hsz & Hpl & Htour & _)
              |[_ Hno]]]; [done| |done].
  exfalso. rewrite <- Hsz in Htour.
  destruct (print_path_inside out t ltac:(lia) (tour_inside _ _ _ Htour))
    as (l & _ & _ & Hraise & _ & Hcannot).
  assert (Hlen : (2 <= length (path t))%nat).
  { rewrite (tour_length _ _ _ Htour). apply in_bounds_spec in Hb. nia. }
  rewrite (Hraise (Hcannot Harrow Hlen)) in Hnone. done.
Qed.

End ProgramProperties.

Lemma main_answer_witness :
  ∃ fuel0, ∀ fuel, (fuel0 <= fuel)%nat →
    ∃ how t solution sequence,
      @main still_env full_stream files_written constant_hash stopped_clock
        fuel tt 5 0 0 1 false false
      = Ended (Visualized how t solution sequence).
Proof.
  assert (Hn : 5 <= 30) by lia.
  destruct (@main_answer still_env full_stream files_written constant_hash
              stopped_clock tt 5 0 0 1 false false Hn) as (fuel0 & Hmain).
  exists fuel0. intros fuel Hfuel.
  destruct (Hmain fuel Hfuel) as [[Hend _]|(o & Hend & _)].
  - vm_compute in Hend. discriminate Hend.
  - destruct o as [code|how t solution sequence| |].
    + vm_compute in Hend. discriminate Hend.
    + by exists how, t, solution, sequence.
    + vm_compute in Hend. discriminate Hend.
    + vm_compute in Hend. discriminate Hend.
Defined.

Lemma main_answer_large_witness :
  @main still_env full_stream files_written constant_hash stopped_clock
    0 tt 31 0 0 0 false false = Ended Board_too_large.
Proof.
  assert (Hlo : 30 < 31) by lia.
  assert (Hhi : 31 <= 1114015) by lia.
  destruct (@main_answer_large still_env full_stream files_written
              constant_hash stopped_clock tt 31 0 0 0 false false O Hlo Hhi)
    as [[Hend _]|(o & Hend & _ & Hlarge & _)].
  - vm_compute in Hend. discriminate Hend.
  - rewrite Hend. f_equal. apply Hlarge. split; [reflexivity|].
    intros j Hj. change (Z.to_nat 0) with O in Hj. lia.
Defined.

Lemma main_without_arrow_witness :
  ∃ fuel0, ∀ fuel, (fuel0 <= fuel)%nat →
    @main still_env latin1_stream files_written constant_hash stopped_clock
      fuel tt 5 0 0 1 false false = Uncaught Exn.UnicodeEncodeError.
Proof.
  assert (Hn : 5 <= 30) by lia.
  assert (Hn1 : 5 ≠ 1) by lia.
  assert (Hb : in_bounds 5 0 0 = true) by reflexivity.
  assert (Hex : ∃ q, is_tour 5 (0, 0) q).
  { exists (@attempt_path still_env 5 0 0 0).
    apply (@attempt_alone_outcome still_env 5 0 0 0 Hb). reflexivity. }
  exact (@main_without_arrow still_env latin1_stream files_written
           constant_hash stopped_clock tt 5 0 0 1 false false Hn Hn1 Hb Hex
           eq_refl).
Defined.

(** X17.  A new visualizer shows the whole board (floats read as exact
    rationals): the cell size is [540 // max(size, 8)] at zoom 1, so the
    side of the board is at most 540 pixels; the board is centred on the
    point (585, 300) and lies inside the window, to the right of the
    sidebar; the scaled image fits the zoom level.  The cells have a
    size of at least one pixel exactly up to size 540. *)
Theorem new_view_shows_board (t : tour) (image_loads : bool) :
  let v := new_visualizer t image_loads in
  cell_size v = inject_Z (540 / Z.max (size t) 8)
  ∧ zoom_level v = 1%Q
  ∧ (board_side v <= 540)%Q
  ∧ (offset_x v + board_side v / 2 == 585)%Q
  ∧ (offset_y v + board_side v / 2 == 300)%Q
  ∧ (inject_Z sidebar_width <= offset_x v)%Q
  ∧ (offset_x v + board_side v <= inject_Z window_width)%Q
  ∧ (0 <= offset_y v)%Q
  ∧ (offset_y v + board_side v <= inject_Z window_height)%Q
  ∧ image_fits_zoom v
  ∧ ((1 <= cell_size v)%Q ↔ size t <= 540).
Proof.
  cbv zeta.
  destruct (new_visualizer_view t image_loads)
    as (Ht & Hc & _ & Hz & Hx & Hy & _).
  cbv zeta in *. unfold board_side. rewrite Hx, Hy, Ht, Hz, Hc.
  set (c := 540 / Z.max (size t) 8).
  assert (Hside : (inject_Z (size t) * inject_Z c * 1
                   == inject_Z (size t * c))%Q).
  { rewrite inject_Z_mult. ring. }
  assert (Hfit : (inject_Z (size t * c) <= 540)%Q).
  { change 540%Q with (inject_Z 540). rewrite <- Zle_Qle. apply board_fits. }
  change (inject_Z window_width) with 900%Q.
  change (inject_Z window_height) with 600%Q.
  change (inject_Z sidebar_width) with 270%Q.
  set (side := inject_Z (size t * c)) in *. clearbody side.
  split_and!; try done.
  - by rewrite Hside.
  - field.
  - field.
  - rewrite Hside. unfold Qdiv. change (/ 2)%Q with (1 # 2)%Q. lra.
  - rewrite Hside. unfold Qdiv. change (/ 2)%Q with (1 # 2)%Q. lra.
  - rewrite Hside. unfold Qdiv. change (/ 2)%Q with (1 # 2)%Q. lra.
  - rewrite Hside. unfold Qdiv. change (/ 2)%Q with (1 # 2)%Q. lra.
  - apply new_visualizer_fits.
  - change 1%Q with (inject_Z 1). rewrite <- Zle_Qle. subst c. split.
    + intros Hc1. destruct (Z_le_gt_dec (size t) 540) as [|Hgt]; [done|].
      rewrite Z.max_l in Hc1 by lia. rewrite Z.div_small in Hc1; lia.
    + intros Hsz. apply Z.div_le_lower_bound; lia.
Qed.

(** X18.  The zoom level of a new visualizer is 1, and [handle_events]
    keeps it between 0.1 and 5 whatever the events: the division by the
    old zoom level never fails.  Events change neither the tour nor the
    cell size and leave the scaled image fitted to the zoom level.
    [handle_events] returns [False] exactly when the batch holds a QUIT
    event or the escape key. *)
Theorem events_keep_zoom_in_range (t : tour) (image_loads : bool) :
  zoom_in_range (new_visualizer t image_loads)
  ∧ ∀ (v : visualizer) (events : list (event * (Z * Z))),
      zoom_in_range v →
      ∃ running v',
        handle_events v events = Some (running, v')
        ∧ zoom_in_range v'
        ∧ vis_tour v' = vis_tour v ∧ cell_size v' = cell_size v
        ∧ (image_fits_zoom v → image_fits_zoom v')
        ∧ (running = false ↔ ∃ e, e ∈ events.*1 ∧ quits e = true).
Proof.
  split.
  - destruct (new_visualizer_view t image_loads) as (_ & _ & _ & Hz & _).
    cbv zeta in Hz. unfold zoom_in_range. rewrite Hz. split; by compute.
  - intros v events Hz.
    destruct (handle_events_view events v Hz)
      as (running & v' & Hrun & Hz' & Ht & Hc & _ & _ & Hquit).
    exists running, v'. split_and!; try done.
    intros Hfit. by apply (handle_events_fits events v running v').
Qed.

(** X19.  With floats read as exact rationals, a turn of the mouse wheel
    (button 4 or 5) zooms about the mouse: the point of the board under the
    mouse, [(mouse - offset) / zoom] on each axis, is the same before and
    after, and the zoom level is multiplied or divided by 1.1 within the
    bounds 5 and 0.1. *)
Theorem wheel_zooms_about_mouse (v : visualizer) (button : Z) (mouse : Z * Z) :
  zoom_in_range v → button = 4 ∨ button = 5 →
  ∃ v',
    handle_event v (MOUSEBUTTONDOWN button) mouse = Go_on v'
    ∧ zoom_level v'
      = (if button =? 4 then Qmin 5 (zoom_level v * (11 # 10))
         else Qmax (1 # 10) (zoom_level v / (11 # 10)))
    ∧ ((inject_Z mouse.1 - offset_x v') / zoom_level v'
       == (inject_Z mouse.1 - offset_x v) / zoom_level v)%Q
    ∧ ((inject_Z mouse.2 - offset_y v') / zoom_level v'
       == (inject_Z mouse.2 - offset_y v) / zoom_level v)%Q.
Proof.
  intros Hz Hbutton. pose proof Hz as [Hlo Hhi].
  assert (Hz0 : ¬ (zoom_level v == 0)%Q).
  { intros Habs. rewrite Habs in Hlo. by compute in Hlo. }
  cbn [handle_event]. unfold zoom_about.
  rewrite zoom_in_range_nonzero by done.
  destruct Hbutton as [-> | ->]; cbn [Z.eqb Pos.eqb].
  - destruct (zoom_in_bounds (zoom_level v) Hlo Hhi) as [Hlo' _].
    set (z' := Qmin 5 (zoom_level v * (11 # 10))) in *.
    assert (Hz0' : ¬ (z' == 0)%Q).
    { intros Habs. rewrite Habs in Hlo'. by compute in Hlo'. }
    eexists. split; [reflexivity|].
    match goal with
    | |- context [update_knight_image ?w] =>
        destruct (update_knight_image_view w)
          as (_ & _ & _ & -> & -> & -> & _)
    end.
    cbn. split_and!; [done|field; done|field; done].
  - destruct (zoom_out_bounds (zoom_level v) Hlo Hhi) as [Hlo' _].
    set (z' := Qmax (1 # 10) (zoom_level v / (11 # 10))) in *.
    assert (Hz0' : ¬ (z' == 0)%Q).
    { intros Habs. rewrite Habs in Hlo'. by compute in Hlo'. }
    eexists. split; [reflexivity|].
    match goal with
    | |- context [update_knight_image ?w] =>
        destruct (update_knight_image_view w)
          as (_ & _ & _ & -> & -> & -> & _)
    end.
    cbn. split_and!; [done|field; done|field; done].
Qed.

(** X20.  Dragging: a press of button 1 to the right of the sidebar,
    mouse motions and the release of the button move the view by the way
    of the mouse from the press to the last motion, and leave the zoom
    level as it was; after the release the view is no longer dragged.
    Without a button held, a mouse motion changes nothing. *)
Theorem drag_moves_view (v : visualizer) (press up : Z * Z)
    (ms : list (Z * Z)) :
  sidebar_width < press.1 →
  (∃ v',
     handle_events v
       ((MOUSEBUTTONDOWN 1, press) :: motions ms ++ [(MOUSEBUTTONUP 1, up)])
     = Some (true, v')
     ∧ dragging v' = false
     ∧ (offset_x v'
        == offset_x v + inject_Z ((default press (last ms)).1 - press.1))%Q
     ∧ (offset_y v'
        == offset_y v + inject_Z ((default press (last ms)).2 - press.2))%Q
     ∧ zoom_level v' = zoom_level v)
  ∧ ∀ (w : visualizer) (m : Z * Z),
      dragging w = false → handle_event w MOUSEMOTION m = Go_on w.
Proof.
  intros Hpress. split.
  - cbn [handle_events handle_event Z.eqb Pos.eqb].
    rewrite (proj2 (Z.ltb_lt _ _) Hpress).
    destruct (handle_motions ms (with_drag v true press) eq_refl)
      as (v1 & Hrun & Hd & Hs & Hx & Hy & Hz & _).
    cbn [with_drag drag_start offset_x offset_y zoom_level] in Hs, Hx, Hy, Hz.
    assert (Hall : ∀ l1 w, handle_events w l1 = Some (true, v1) →
              handle_events w (l1 ++ [(MOUSEBUTTONUP 1, up)])
              = Some (true, with_drag v1 false (drag_start v1))).
    { induction l1 as [|[e m] l1 IH]; intros w.
      - by intros [= ->].
      - cbn [handle_events app]. destruct (handle_event w e m); try done.
        apply IH. }
    rewrite (Hall _ _ Hrun). eexists. split; [reflexivity|].
    cbn [with_drag dragging offset_x offset_y zoom_level].
    rewrite <- Hs. done.
  - intros w m Hd. cbn [handle_event]. by rewrite Hd.
Qed.

(** X21.  The key R restores the view of a new visualizer after any
    events: the zoom level is 1 again, the offsets and the scaled image are
    those the visualizer was created with. *)
Theorem key_r_restores_view (t : tour) (image_loads : bool)
    (events : list (event * (Z * Z))) (v1 : visualizer) (mouse : Z * Z) :
  handle_events (new_visualizer t image_loads) events = Some (true, v1) →
  ∃ v2,
    handle_event v1 (KEYDOWN K_r) mouse = Go_on v2
    ∧ zoom_level v2 = zoom_level (new_visualizer t image_loads)
    ∧ offset_x v2 = offset_x (new_visualizer t image_loads)
    ∧ offset_y v2 = offset_y (new_visualizer t image_loads)
    ∧ cell_size v2 = cell_size (new_visualizer t image_loads)
    ∧ knight_img_scaled v2
      = knight_img_scaled (new_visualizer t image_loads).
Proof.
  intros Hrun.
  destruct (new_visualizer_view t image_loads)
    as (Ht & Hc & _ & Hz & Hx & Hy & _ & Hk).
  cbv zeta in *.
  assert (Hz0 : zoom_in_range (new_visualizer t image_loads)).
  { unfold zoom_in_range. rewrite Hz. split; by compute. }
  destruct (handle_events_view events _ Hz0)
    as (running & v' & Hrun' & _ & Ht1 & Hc1 & _ & Hk1 & _).
  rewrite Hrun in Hrun'. injection Hrun' as <- <-.
  pose proof (new_visualizer_fits t image_loads) as Hfit0.
  pose proof (handle_events_fits events _ true v1 Hfit0 Hrun) as Hfit1.
  eexists. split; [reflexivity|].
  set (w := center_view (with_zoom v1 1)).
  destruct (update_knight_image_view w)
    as (_ & _ & Hc2 & Hx2 & Hy2 & Hz2 & _ & _ & Hk2).
  assert (Hfit2 : image_fits_zoom (update_knight_image w)).
  { apply update_knight_image_fits. subst w.
    cbn [center_view with_zoom knight_img knight_img_scaled].
    by apply image_fits_none. }
  unfold image_fits_zoom in Hfit0, Hfit2.
  rewrite Hfit2, Hfit0, Hc2, Hx2, Hy2, Hz2, Hk2. subst w.
  cbn [center_view with_zoom zoom_level offset_x offset_y cell_size vis_tour
       knight_img].
  by rewrite Ht1, Hc1, Hk1, Hz, Hx, Hy, Ht.
Qed.

(** X22.  The loop of [run] shows one picture in each pass, after a first
    picture of the board alone.  With the animation on, pass [i] (from 0)
    draws the first [i + 1] steps of the path while [i] is below its
    length, the pass after the last step draws the board without any
    path, and every later pass draws the whole path; with the animation
    off every pass draws the whole path.  The loop is left exactly when a
    batch of events holds a QUIT event or the escape key, after the
    picture of that pass. *)
Theorem run_shows_animation (v : visualizer) (animate : bool)
    (batches : list (list (event * (Z * Z)))) :
  zoom_in_range v →
  ∃ screens ended,
    run v animate batches = Some (screens, ended)
    ∧ screens !! O = Some {| scr_view := v; scr_steps := None |}
    ∧ (∀ i s, screens !! S i = Some s →
         scr_steps s
         = animation_steps animate (length (path (vis_tour v))) i)
    ∧ (ended = true ↔
       ∃ events e, events ∈ batches ∧ e ∈ events.*1 ∧ quits e = true)
    ∧ (ended = false → length screens = S (length batches))
    ∧ (length screens <= S (length batches))%nat.
Proof.
  intros Hz. unfold run.
  destruct (run_loop_screens animate (length (path (vis_tour v))) batches
              v false O O Hz)
    as (screens & ended & -> & Hscr & Hend & Hlen & Hle).
  { destruct animate; [|done]. split; [|done].
    symmetry. apply bool_decide_eq_false. lia. }
  eexists _, ended. split; [reflexivity|]. split_and!; try done.
  - intros He. cbn. by rewrite Hlen.
  - cbn. lia.
Qed.

Lemma wheel_zooms_about_mouse_witness :
  ∃ v',
    handle_event (new_visualizer (init 8) false) (MOUSEBUTTONDOWN 4) (400, 300)
    = Go_on v'
    ∧ ((inject_Z 400 - offset_x v') / zoom_level v'
       == (inject_Z 400 - offset_x (new_visualizer (init 8) false))
          / zoom_level (new_visualizer (init 8) false))%Q.
Proof.
  assert (Hz : zoom_in_range (new_visualizer (init 8) false)).
  { split; vm_compute; discriminate. }
  destruct (wheel_zooms_about_mouse (new_visualizer (init 8) false) 4
              (400, 300) Hz (or_introl eq_refl)) as (v' & Hev & _ & Hx & _).
  exists v'. split; [exact Hev|exact Hx].
Defined.

Lemma drag_moves_view_witness :
  ∃ v',
    handle_events (new_visualizer (init 8) false)
      ((MOUSEBUTTONDOWN 1, (400, 300)) :: motions [(410, 305)]
       ++ [(MOUSEBUTTONUP 1, (410, 305))])
    = Some (true, v')
    ∧ dragging v' = false
    ∧ (offset_x v'
       == offset_x (new_visualizer (init 8) false) + inject_Z 10)%Q.
Proof.
  assert (Hpress : sidebar_width < (400, 300).1) by (vm_compute; reflexivity).
  destruct (drag_moves_view (new_visualizer (init 8) false) (400, 300)
              (410, 305) [(410, 305)] Hpress)
    as [(v' & Hrun & Hd & Hx & _) _].
  exists v'. split; [exact Hrun|]. split; [exact Hd|exact Hx].
Defined.

Lemma key_r_restores_view_witness :
  ∃ v1 v2,
    handle_events (new_visualizer (init 8) true)
      [(MOUSEBUTTONDOWN 4, (400, 300))] = Some (true, v1)
    ∧ handle_event v1 (KEYDOWN K_r) (0, 0) = Go_on v2
    ∧ zoom_level v2 = 1%Q.
Proof.
  destruct (handle_events (new_visualizer (init 8) true)
              [(MOUSEBUTTONDOWN 4, (400, 300))]) as [[[|] v1]|] eqn:Hrun;
    try (vm_compute in Hrun; discriminate Hrun).
  destruct (key_r_restores_view (init 8) true
              [(MOUSEBUTTONDOWN 4, (400, 300))] v1 (0, 0) Hrun)
    as (v2 & Hev & Hz & _).
  exists v1, v2. split; [reflexivity|]. split; [exact Hev|exact Hz].
Defined.

Lemma run_shows_animation_witness :
  ∃ screens,
    run (new_visualizer (with_path (init 8) [(0, 0); (2, 1)]) false) true
      [[]; []; []; []]
    = Some (screens, false)
    ∧ scr_steps <$> screens = [None; Some 1; Some 2; None; Some 2]%nat.
Proof.
  assert (Hz : zoom_in_range
                 (new_visualizer (with_path (init 8) [(0, 0); (2, 1)]) false)).
  { split; vm_compute; discriminate. }
  destruct (run_shows_animation
              (new_visualizer (with_path (init 8) [(0, 0); (2, 1)]) false)
              true [[]; []; []; []] Hz)
    as (screens & ended & Hrun & _).
  destruct ended.
  - vm_compute in Hrun. discriminate Hrun.
  - exists screens. split; [exact Hrun|].
    vm_compute in Hrun. injection Hrun as <-. reflexivity.
Defined.

(** X23.  The tour [solve] finds on a new board is the first one in the
    order of the move indices: any other tour from the start cell agrees
    with it up to some position, and moves on from there by a move of
    greater index than the one [solve] takes. *)
Theorem solve_finds_first_tour (fuel : nat) (t t' : tour)
    (start_x start_y : Z) (q : list cell) :
  board t = fresh_board (size t) →
  in_bounds (size t) start_x start_y = true →
  solve fuel t start_x start_y = Returned (true, t') →
  is_tour (size t) (start_x, start_y) q → q ≠ path t' →
  ∃ (d : nat) (x y : Z) (j j' : nat),
    take (S d) q = take (S d) (path t')
    ∧ path t' !! d = Some (x, y)
    ∧ path t' !! S d = Some (x + move_dx j, y + move_dy j)
    ∧ q !! S d = Some (x + move_dx j', y + move_dy j')
    ∧ (j < j')%nat ∧ (j' < 8)%nat.
Proof.
  intros Hfresh Hb Hret Hq Hne.
  pose proof (solve_first fuel t t' start_x start_y Hfresh Hb Hret) as Hfirst.
  destruct (solve_success_placed fuel t t' start_x start_y Hfresh Hb Hret)
    as (_ & _ & Htour).
  destruct (first_difference q (path t')) as (D & b & a & Htake & Hb' & Ha & Hab);
    [|done|].
  { by rewrite (tour_length _ _ _ Hq), (tour_length _ _ _ Htour). }
  destruct D as [|d].
  { rewrite <- head_lookup in Hb', Ha.
    rewrite (tour_head _ _ _ Hq) in Hb'. rewrite (tour_head _ _ _ Htour) in Ha.
    congruence. }
  destruct (lookup_lt_is_Some_2 (path t') d) as [[x y] Hd].
  { apply lookup_lt_Some in Ha. lia. }
  assert (Hqd : q !! d = Some (x, y)).
  { rewrite <- (lookup_take_lt q (S d) d) by lia.
    rewrite Htake, lookup_take_lt by lia. done. }
  destruct (Hfirst d x y a Hd Ha) as (j & Hj & -> & Hre).
  pose proof (knight_chain_lookup q d (x, y) b (tour_chain _ _ _ Hq) Hqd Hb')
    as Hstep.
  apply knight_step_is_move in Hstep as (j' & Hj' & ->). cbn [fst snd] in *.
  exists d, x, y, j, j'. split_and!; try done.
  destruct (lt_eq_lt_dec j' j) as [[ Hlt | -> ] | Hgt ]; [|done|done].
  exfalso. apply (Hre j' Hlt). exists q. split; [done|].
  exists (drop (S (S d)) q). rewrite <- Htake.
  rewrite <- app_assoc. symmetry. by apply take_drop_middle.
Qed.

Lemma solve_finds_first_tour_witness :
  ∃ t',
    solve 60 (init 5) 4 0 = Returned (true, t')
    ∧ ∀ q, is_tour 5 (4, 0) q → q ≠ path t' →
           ∃ (d : nat), take (S d) q = take (S d) (path t')
                        ∧ q !! S d ≠ path t' !! S d.
Proof.
  assert (Hb : in_bounds (size (init 5)) 4 0 = true) by reflexivity.
  destruct (solve 60 (init 5) 4 0) as [[[|] t']| |] eqn:Hrun;
    try (vm_compute in Hrun; discriminate Hrun).
  exists t'. split; [reflexivity|]. intros q Hq Hne.
  destruct (solve_finds_first_tour 60 (init 5) t' 4 0 q (init_fresh 5) Hb Hrun
              Hq Hne) as (d & x & y & j & j' & Htake & _ & Hp & Hq' & Hlt & Hj').
  exists d. split; [exact Htake|]. rewrite Hp, Hq'. intros Heq.
  injection Heq as Hx Hy.
  assert (Hj : (j < 8)%nat) by lia.
  clear -Hx Hy Hlt Hj Hj'.
  do 8 (destruct j as [|j]; [do 8 (destruct j' as [|j']; [cbn in *; lia|]); lia|]).
  lia.
Defined.
